(** * File compression service: the codec core, embedded and verified

    A shallow embedding of the Go packages [huffman], [lzss], [flate],
    [gzip] and of the dispatcher package [compression], followed by
    theorems about them.

    Conventions of the embedding.
    - Go [int] values are [Z]; every quantity below is bounded by the
      length of an input buffer, far from the 64-bit range, so [int]
      arithmetic is written without wrap-around.  [uint32] arithmetic is
      written with its wrap-around ([u32]).
    - Bytes and runes are [Z] (a byte is in [0, 256)); [[]byte] and
      [[]rune] are lists.
    - A Go function that returns an [error], panics, or loops is a function
      into [outcome]: [Ok], [Err], [Panic].  [Diverge] marks a loop of the
      model that ran out of its iteration budget; the budgets are chosen so
      that the Go loop has finished before them.
    - Slice indexing and re-slicing out of range panic, as in Go.
    - The one file that the packages open, [com.o] of the gzip writer, is
      a value of the writer's core; a write to the opened file adds its
      bytes to the file. *)

From Stdlib Require Import ZArith List Lia Bool String Ascii.
From stdpp Require Import base list gmap sorting.
Import ListNotations.
Open Scope Z_scope.

(** ** Outcomes of Go calls *)

(** The messages of the [errors.New] and [fmt.Errorf] calls in the source. *)
Inductive error : Type :=
| ErrUnsupportedAlgorithm      (* "unsupported algorithm: %s" *)
| ErrInputNotClosed            (* "input buffer not closed" and the lzss readers' message *)
| ErrNotEnoughBits             (* "not enough bits to read from the compressed data" *)
| ErrTooManyBits               (* "cannot read more than 32 bits at once." *)
| ErrCondensedOnEmpty          (* "incorrectly condensed on empty slice" *)
| ErrNoRule                    (* "no match found for the rule" *)
| ErrTraversal                 (* "tree traversal failed due to absence of appropriate subtree" *)
| ErrTreeTooLong               (* "tree is longer than the limit %v" *)
| ErrLengthTooLong             (* "length is too long for the huffman code" *)
| ErrZerosTooLong              (* "such a long sequence of zeros cannot be encoded" *)
| ErrSameTooLong               (* "such a long sequence of non-zeros cannot be encoded" *)
| ErrLengthOutOfRange          (* "value is out of range to have a match with RFC length code" *)
| ErrDistanceOutOfRange        (* "value is out of range to have a match with RFC distance code" *)
| ErrNoLengthCode              (* "no length code found for the length value %v" *)
| ErrNoDistanceCode            (* "no distance code found for the distance value %v" *)
| ErrOverlap                   (* "token match overlapping with the reference" *)
| ErrMatchTooLong              (* "token match cannot be longer than %v" *)
| ErrMatchTooFar               (* "token match cannot be farther backward than %v" *)
| ErrBitsNotWritten            (* "bits not written to the output buffer yet" *)
| ErrWriterBusy                (* "reading from the ... stream for the previous block has not completed yet!" *)
| ErrAtoi                      (* strconv.Atoi: invalid syntax *)
| ErrUnescapedLiteral          (* "decompression failed due to conflicting literal not escaped ..." *)
| ErrTrailerInsufficient       (* "trailer data is not sufficient" *)
| ErrSizeMismatch              (* "size did not match" *)
| ErrCrcMismatch               (* "crc did not match" *)
| ErrFailedToWrite (e : error) (* "failed to write data: %w" *)
| ErrFailedToClose (e : error) (* "failed to close writer: %w" *)
| ErrCompressionFailed (e : error)    (* "compression failed: %w" *)
| ErrDecompressionFailed (e : error). (* "decompression failed: %w" *)

Inductive outcome (A : Type) : Type :=
| Ok (a : A)
| Err (e : error)
| Panic
| Diverge.
Arguments Ok {A} a.
Arguments Err {A} e.
Arguments Panic {A}.
Arguments Diverge {A}.

Definition bind {A B : Type} (m : outcome A) (k : A -> outcome B) : outcome B :=
  match m with
  | Ok a => k a
  | Err e => Err e
  | Panic => Panic
  | Diverge => Diverge
  end.

Declare Scope go_scope.
Delimit Scope go_scope with go.
Notation "'let*' p ':=' m 'in' k" := (bind m (fun p => k))
  (at level 10, p pattern, m at level 100, k at level 200) : go_scope.
Open Scope go_scope.

(** Stateful calls: the state is threaded through, and survives a
    returned error (the caller may go on using the object). *)
Inductive result (S A : Type) : Type :=
| ROk (a : A) (s : S)
| RErr (e : error) (s : S)
| RPanic
| RDiverge.
Arguments ROk {S A} a s.
Arguments RErr {S A} e s.
Arguments RPanic {S A}.
Arguments RDiverge {S A}.

Definition stateful (S A : Type) : Type := S -> result S A.

Definition ret {S A : Type} (a : A) : stateful S A := fun s => ROk a s.

Definition bindS {S A B : Type} (m : stateful S A) (k : A -> stateful S B) : stateful S B :=
  fun s =>
    match m s with
    | ROk a s' => k a s'
    | RErr e s' => RErr e s'
    | RPanic => RPanic
    | RDiverge => RDiverge
    end.

Definition lift {S A : Type} (o : outcome A) : stateful S A :=
  fun s =>
    match o with
    | Ok a => ROk a s
    | Err e => RErr e s
    | Panic => RPanic
    | Diverge => RDiverge
    end.

Notation "'do*' p ':=' m 'in' k" := (bindS m (fun p => k))
  (at level 10, p pattern, m at level 100, k at level 200) : go_scope.

(** ** The Go runtime the packages rely on *)

Module Go.

(** [uint32(x)] *)
Definition u32 (x : Z) : Z := x mod 2 ^ 32.

(** [l[i]]: panics out of range. *)
Definition idx {A : Type} (l : list A) (i : Z) : outcome A :=
  if i <? 0 then Panic
  else match l !! Z.to_nat i with
       | Some x => Ok x
       | None => Panic
       end.

(** [l[i] = x]: panics out of range. *)
Definition set_idx {A : Type} (l : list A) (i : Z) (x : A) : outcome (list A) :=
  if (i <? 0) || (Z.of_nat (length l) <=? i) then Panic
  else Ok (<[Z.to_nat i := x]> l).

(** [l[lo:hi]]: panics unless [0 <= lo <= hi <= len(l)].  (For a slice Go
    checks [hi] against the capacity, which depends on how the slice grew;
    a re-slice beyond the length is taken as out of range.) *)
Definition slice {A : Type} (l : list A) (lo hi : Z) : outcome (list A) :=
  if (lo <? 0) || (hi <? lo) || (Z.of_nat (length l) <? hi) then Panic
  else Ok (take (Z.to_nat (hi - lo)) (drop (Z.to_nat lo) l)).

Definition len {A : Type} (l : list A) : Z := Z.of_nat (length l).

(** [make([]T, n)] with zero value [z]. *)
Definition make {A : Type} (z : A) (n : Z) : list A := replicate (Z.to_nat n) z.

(** *** UTF-8, as [runtime.decoderune] and [runtime.encoderune] *)

Definition runeError : Z := 65533.

Definition cont (b : Z) : bool := (128 <=? b) && (b <=? 191).

(** One step of [for _, r := range s] / [[]rune(s)]: the rune at the head
    of [s] and the number of bytes it takes. *)
Definition decoderune (s : list Z) : Z * nat :=
  match s with
  | [] => (runeError, 1%nat)
  | s0 :: t =>
    if s0 <? 128 then (s0, 1%nat)
    else if (192 <=? s0) && (s0 <? 224) then
      match t with
      | s1 :: _ =>
        if cont s1 then
          let r := Z.lor (Z.shiftl (Z.land s0 31) 6) (Z.land s1 63) in
          if 127 <? r then (r, 2%nat) else (runeError, 1%nat)
        else (runeError, 1%nat)
      | _ => (runeError, 1%nat)
      end
    else if (224 <=? s0) && (s0 <? 240) then
      match t with
      | s1 :: s2 :: _ =>
        if cont s1 && cont s2 then
          let r := Z.lor (Z.lor (Z.shiftl (Z.land s0 15) 12) (Z.shiftl (Z.land s1 63) 6))
                         (Z.land s2 63) in
          if (2047 <? r) && negb ((55296 <=? r) && (r <=? 57343))
          then (r, 3%nat) else (runeError, 1%nat)
        else (runeError, 1%nat)
      | _ => (runeError, 1%nat)
      end
    else if (240 <=? s0) && (s0 <? 248) then
      match t with
      | s1 :: s2 :: s3 :: _ =>
        if cont s1 && cont s2 && cont s3 then
          let r := Z.lor (Z.lor (Z.lor (Z.shiftl (Z.land s0 7) 18) (Z.shiftl (Z.land s1 63) 12))
                                (Z.shiftl (Z.land s2 63) 6)) (Z.land s3 63) in
          if (65535 <? r) && (r <=? 1114111) then (r, 4%nat) else (runeError, 1%nat)
        else (runeError, 1%nat)
      | _ => (runeError, 1%nat)
      end
    else (runeError, 1%nat)
  end.

(** [[]rune(string(b))] *)
Fixpoint runes_fuel (fuel : nat) (s : list Z) : list Z :=
  match fuel with
  | O => []
  | S fuel' =>
    match s with
    | [] => []
    | _ => let '(r, n) := decoderune s in r :: runes_fuel fuel' (drop n s)
    end
  end.
Definition runes (s : list Z) : list Z := runes_fuel (length s) s.

(** [string(r)] as bytes *)
Definition encoderune (r : Z) : list Z :=
  let three (r : Z) :=
    [Z.lor 224 (Z.shiftr r 12); Z.lor 128 (Z.land (Z.shiftr r 6) 63); Z.lor 128 (Z.land r 63)] in
  if (0 <=? r) && (r <=? 127) then [r]
  else if (0 <=? r) && (r <=? 2047) then
    [Z.lor 192 (Z.shiftr r 6); Z.lor 128 (Z.land r 63)]
  else if (r <? 0) || (1114111 <? r) || ((55296 <=? r) && (r <=? 57343)) then three runeError
  else if r <=? 65535 then three r
  else [Z.lor 240 (Z.shiftr r 18); Z.lor 128 (Z.land (Z.shiftr r 12) 63);
        Z.lor 128 (Z.land (Z.shiftr r 6) 63); Z.lor 128 (Z.land r 63)].

(** [[]byte(string(rs))] *)
Definition bytes_of_runes (rs : list Z) : list Z := concat (map encoderune rs).

(** *** [strconv.Itoa] and [strconv.Atoi] *)

(** The decimal digits of [n >= 0], most significant first; a number has
    at most [log2 n + 1] of them. *)
Fixpoint digits_fuel (fuel : nat) (n : Z) (acc : list Z) : list Z :=
  match fuel with
  | O => acc
  | S fuel' =>
    let acc' := (48 + n mod 10) :: acc in
    if n <? 10 then acc' else digits_fuel fuel' (n / 10) acc'
  end.

(** [strconv.Itoa(n)], as bytes (equally as runes). *)
Definition Itoa (n : Z) : list Z :=
  if n <? 0 then 45 :: digits_fuel (S (Z.to_nat (Z.log2 (- n)))) (- n) []
  else digits_fuel (S (Z.to_nat (Z.log2 n))) n [].

Definition isDigit (c : Z) : bool := (48 <=? c) && (c <=? 57).

(** [strconv.Atoi(s)]: an optional sign and at least one ASCII digit, the
    value within the 64-bit range of [int]. *)
Definition Atoi (s : list Z) : outcome Z :=
  let digits_val (ds : list Z) : outcome Z :=
    match ds with
    | [] => Err ErrAtoi
    | _ => if forallb isDigit ds
           then Ok (fold_left (fun acc d => acc * 10 + (d - 48)) ds 0)
           else Err ErrAtoi
    end in
  match s with
  | 45 :: ds =>
    let* v := digits_val ds in
    if v <=? 2 ^ 63 then Ok (- v) else Err ErrAtoi
  | 43 :: ds =>
    let* v := digits_val ds in
    if v <? 2 ^ 63 then Ok v else Err ErrAtoi
  | _ =>
    let* v := digits_val s in
    if v <? 2 ^ 63 then Ok v else Err ErrAtoi
  end.

(** The bytes of a string literal *)
Definition bytes (s : string) : list Z :=
  map (fun a => Z.of_nat (nat_of_ascii a)) (list_ascii_of_string s).

End Go.

(** ** Package huffman: utils.go *)

Module Huffman.
Import Go.

(** [huffmanTree]: [huffmanLeaf] and [huffmanNode] behind the interface. *)
Inductive huffmanTree : Type :=
| huffmanLeaf (freq id symbol : Z)
| huffmanNode (freq id : Z) (left right : huffmanTree).

Definition getFrequency (t : huffmanTree) : Z :=
  match t with huffmanLeaf f _ _ => f | huffmanNode f _ _ _ => f end.
Definition getId (t : huffmanTree) : Z :=
  match t with huffmanLeaf _ i _ => i | huffmanNode _ i _ _ => i end.

(** [huffmanHeap.Less] *)
Definition Less (x y : huffmanTree) : bool :=
  if negb (getFrequency x =? getFrequency y) then getFrequency x <? getFrequency y
  else getId x <? getId y.

(** The heap is kept as the list of its elements.  Ids are pairwise
    distinct, so [Less] is a strict total order on the elements and
    [heap.Pop] returns their unique minimum whatever the array layout of
    [container/heap]. *)
Fixpoint heapMin (x : huffmanTree) (rest : list huffmanTree) : huffmanTree * list huffmanTree :=
  match rest with
  | [] => (x, [])
  | y :: r =>
    let '(m, r') := heapMin y r in
    if Less x m then (x, rest) else (m, x :: r')
  end.

(** [heap.Pop(&treehub)]: on the empty heap [Swap(0, -1)] indexes out of
    range and panics. *)
Definition heapPop (h : list huffmanTree) : outcome (huffmanTree * list huffmanTree) :=
  match h with
  | [] => Panic
  | x :: r => Ok (heapMin x r)
  end.

Definition heapPush (h : list huffmanTree) (t : huffmanTree) : list huffmanTree := h ++ [t].

(** The loop [for treehub.Len() > 1] of [buildTree]; every round removes
    one element, so [length h] rounds are enough. *)
Fixpoint mergeLoop (fuel : nat) (h : list huffmanTree) (monoId : Z) : outcome (list huffmanTree) :=
  if len h <=? 1 then Ok h
  else match fuel with
       | O => Diverge
       | S fuel' =>
         let* (x, h1) := heapPop h in
         let* (y, h2) := heapPop h1 in
         mergeLoop fuel'
           (heapPush h2 (huffmanNode (getFrequency x + getFrequency y) monoId x y))
           (monoId + 1)
       end.

(** [slices.Sort(keys)] over the keys of the map. *)
Definition sortedKeys (symbolFreq : gmap Z Z) : list Z :=
  merge_sort Z.le (map fst (map_to_list symbolFreq)).

Fixpoint leaves (symbolFreq : gmap Z Z) (keys : list Z) (monoId : Z) : list huffmanTree :=
  match keys with
  | [] => []
  | key :: ks =>
    huffmanLeaf (default 0 (symbolFreq !! key)) monoId key :: leaves symbolFreq ks (monoId + 1)
  end.

Definition buildTree (symbolFreq : gmap Z Z) : outcome huffmanTree :=
  let keys := sortedKeys symbolFreq in
  let treehub := leaves symbolFreq keys 0 in
  let* h := mergeLoop (length treehub) treehub (len treehub) in
  let* (t, _) := heapPop h in
  Ok t.

(** [CanonicalHuffmanCode] and [CanonicalHuffmanDecode]; both implement
    [CanonicalHuffman] ([GetValue], [GetLength]). *)
Record CanonicalHuffmanCode : Type := { Code : Z; Length : Z }.
Record CanonicalHuffmanDecode : Type := { Symbol : Z; DLength : Z }.

(** [*CanonicalHuffmanNode]; [nilNode] is the nil pointer. *)
Inductive CanonicalHuffmanNode : Type :=
| nilNode
| mkNode (Item : option CanonicalHuffmanDecode) (IsLeaf : bool)
         (Left Right : CanonicalHuffmanNode).

Definition emptyNode : CanonicalHuffmanNode := mkNode None false nilNode nilNode.

(** [Reverse]: the loop runs [length] times; [out] is a [uint32]. *)
Fixpoint Reverse_loop (length : nat) (n out : Z) : Z :=
  match length with
  | O => out
  | S length' =>
    let bit := Z.land n 1 in
    Reverse_loop length' (Z.shiftr n 1) (u32 (Z.lor (Z.shiftl out 1) bit))
  end.
Definition Reverse (n length : Z) : Z := Reverse_loop (Z.to_nat length) n 0.

(** [dfs] inside [BuildCanonicalHuffmanEncoder] *)
Fixpoint dfs (tree : huffmanTree) (depth : Z) (lengths : list Z) : outcome (list Z) :=
  match tree with
  | huffmanLeaf _ _ symbol => set_idx lengths symbol depth
  | huffmanNode _ _ l r =>
    let* lengths := dfs l (depth + 1) lengths in
    dfs r (depth + 1) lengths
  end.

Definition maxOf (l : list Z) : Z := fold_left Z.max l 0.

(** [lengthCounts[length]++] over the non-zero lengths *)
Fixpoint countLengths (lengths : list Z) (lengthCounts : list Z) : outcome (list Z) :=
  match lengths with
  | [] => Ok lengthCounts
  | length :: rest =>
    if length =? 0 then countLengths rest lengthCounts
    else let* c := idx lengthCounts length in
         let* lengthCounts := set_idx lengthCounts length (c + 1) in
         countLengths rest lengthCounts
  end.

(** The [order] slice: (symbol, length) for the non-zero lengths. *)
Fixpoint orderFrom (symbol : Z) (lengths : list Z) : list (Z * Z) :=
  match lengths with
  | [] => []
  | length :: rest =>
    if length =? 0 then orderFrom (symbol + 1) rest
    else (symbol, length) :: orderFrom (symbol + 1) rest
  end.

(** The comparison of [sort.Slice]: by length, then by symbol.  The keys
    are pairwise distinct, so the sorted slice is unique. *)
Definition orderLe (a b : Z * Z) : Prop :=
  snd a < snd b \/ (snd a = snd b /\ fst a <= fst b).
#[global] Instance orderLe_dec (a b : Z * Z) : Decision (orderLe a b).
Proof. unfold orderLe. apply _. Defined.

(** [for i := 1; i < len(lengthCounts); i++ { code = (code + lengthCounts[i-1]) << 1; ... }] *)
Fixpoint baseCodes (prevCounts : list Z) (code : Z) : list Z :=
  match prevCounts with
  | [] => []
  | c :: rest =>
    let code := Z.shiftl (code + c) 1 in
    code :: baseCodes rest code
  end.

(** [nextBaseCode], from [lengthCounts]: entry 0 is 0, entry [i] uses
    [lengthCounts[i-1]]. *)
Definition nextBaseCodes (lengthCounts : list Z) : list Z :=
  0 :: baseCodes (removelast lengthCounts) 0.

Fixpoint assignCodes (order : list (Z * Z)) (nextBaseCode : list Z)
    (output : list (option CanonicalHuffmanCode)) : outcome (list (option CanonicalHuffmanCode)) :=
  match order with
  | [] => Ok output
  | (symbol, length) :: rest =>
    let* code := idx nextBaseCode length in
    let* output := set_idx output symbol (Some {| Code := code; Length := length |}) in
    let* nextBaseCode := set_idx nextBaseCode length (code + 1) in
    assignCodes rest nextBaseCode output
  end.

Fixpoint freqMapFrom (symbol : Z) (symbolFreq : list Z) : gmap Z Z :=
  match symbolFreq with
  | [] => ∅
  | freq :: rest =>
    let m := freqMapFrom (symbol + 1) rest in
    if 0 <? freq then <[symbol := freq]> m else m
  end.

Definition BuildCanonicalHuffmanEncoder (symbolFreq : list Z) (lengthLimit : Z)
    : outcome (list (option CanonicalHuffmanCode)) :=
  let symbolFreqMap := freqMapFrom 0 symbolFreq in
  let lengths := make 0 (len symbolFreq) in
  let* root := buildTree symbolFreqMap in
  let* lengths :=
    match root with
    | huffmanLeaf _ _ symbol => set_idx lengths symbol 1
    | _ => dfs root 0 lengths
    end in
  let maxLength := maxOf lengths in
  if lengthLimit <? maxLength then Err ErrTreeTooLong
  else
    let* lengthCounts := countLengths lengths (make 0 (maxLength + 1)) in
    let order := merge_sort orderLe (orderFrom 0 lengths) in
    let nextBaseCode := nextBaseCodes lengthCounts in
    assignCodes order nextBaseCode (make None (len symbolFreq)).

(** [buildCanonicalHuffmanTree]: the node is updated in place in Go; here
    the updated node is returned. *)
Fixpoint buildCanonicalHuffmanTree (lengthRemaining : nat) (node : CanonicalHuffmanNode)
    (item : CanonicalHuffmanDecode) (code : Z) : outcome CanonicalHuffmanNode :=
  match node with
  | nilNode => Panic
  | mkNode it leaf l r =>
    match lengthRemaining with
    | O => Ok (mkNode (Some item) true l r)
    | S lengthRemaining' =>
      if leaf then Panic (* panic("nooooo leaf") *)
      else
        let bit := Z.land code 1 in
        let code := Z.shiftr code 1 in
        if bit =? 0 then
          let l0 := match l with nilNode => emptyNode | _ => l end in
          let* l' := buildCanonicalHuffmanTree lengthRemaining' l0 item code in
          Ok (mkNode it leaf l' r)
        else
          let r0 := match r with nilNode => emptyNode | _ => r end in
          let* r' := buildCanonicalHuffmanTree lengthRemaining' r0 item code in
          Ok (mkNode it leaf l r')
    end
  end.

Fixpoint insertCodes (order : list (Z * Z)) (nextBaseCode : list Z)
    (root : CanonicalHuffmanNode) : outcome CanonicalHuffmanNode :=
  match order with
  | [] => Ok root
  | (symbol, length) :: rest =>
    let item := {| Symbol := symbol; DLength := length |} in
    let* code := idx nextBaseCode length in
    let* root := buildCanonicalHuffmanTree (Z.to_nat length) root item (Reverse code length) in
    let* nextBaseCode := set_idx nextBaseCode length (u32 (code + 1)) in
    insertCodes rest nextBaseCode root
  end.

Definition BuildCanonicalHuffmanDecoder (lengths : list Z) : outcome CanonicalHuffmanNode :=
  let maxLength := maxOf lengths in
  let* lengthCounts := countLengths lengths (make 0 (maxLength + 1)) in
  let order := merge_sort orderLe (orderFrom 0 lengths) in
  let nextBaseCode := map u32 (nextBaseCodes lengthCounts) in
  insertCodes order nextBaseCode emptyNode.

(** *** compression.go *)

(** A [bitString] is a Go string over the characters '0' and '1'; here a
    list of booleans, [true] for '1'. *)
Definition bitString : Type := list bool.

(** [strconv.ParseUint(chunk, 2, 8)] on a chunk of at most 8 binary digits *)
Definition parseBits (chunk : bitString) : Z :=
  fold_left (fun acc (b : bool) => 2 * acc + (if b then 1 else 0)) chunk 0.

(** The loop of [asByteSlice]: [i] walks down from [len(b)] in steps of 8,
    the first (short) chunk is [b[:i]], the others [b[i-8:i]]. *)
Fixpoint asByteSlice_loop (fuel : nat) (b : bitString) (i : Z) (output : list Z) : outcome (list Z) :=
  if i <=? 0 then Ok output
  else match fuel with
       | O => Diverge
       | S fuel' =>
         let* chunk := (if i <? 8 then slice b 0 i else slice b (i - 8) i) in
         asByteSlice_loop fuel' b (i - 8) (output ++ [parseBits chunk])
       end.

Definition asByteSlice (b : bitString) : outcome (list Z) :=
  let* output := asByteSlice_loop (length b) b (len b) [] in
  Ok (reverse output).

(** [strconv.FormatInt(n, 2)] for [0 <= n]: binary digits, most
    significant first, ["0"] for zero. *)
Fixpoint binary_fuel (fuel : nat) (n : Z) (acc : bitString) : bitString :=
  match fuel with
  | O => acc
  | S fuel' =>
    let acc' := Z.odd n :: acc in
    if n <? 2 then acc' else binary_fuel fuel' (n / 2) acc'
  end.
Definition FormatInt2 (n : Z) : bitString := binary_fuel (S (Z.to_nat (Z.log2 n))) n [].

(** [getSymbolEncoding]: fills the map [symbolEnc] from rune to code. *)
Fixpoint getSymbolEncoding (tree : huffmanTree) (symbolEnc : gmap Z bitString)
    (currentPrefix : bitString) : gmap Z bitString :=
  match tree with
  | huffmanLeaf _ _ symbol => <[symbol := currentPrefix]> symbolEnc
  | huffmanNode _ _ l r =>
    let symbolEnc := getSymbolEncoding l symbolEnc (currentPrefix ++ [false]) in
    getSymbolEncoding r symbolEnc (currentPrefix ++ [true])
  end.

(** The bit string that [encode] accumulates in [output]; a rune missing
    from the map ends the process ([os.Exit(1)]), rendered as [Panic]. *)
Fixpoint encodeSymbols (symbolEnc : gmap Z bitString) (input : list Z) : outcome bitString :=
  match input with
  | [] => Ok []
  | symbol :: rest =>
    match symbolEnc !! symbol with
    | None => Panic
    | Some encoding =>
      let* bits := encodeSymbols symbolEnc rest in
      Ok (encoding ++ bits)
    end
  end.

(** The terminator ["\\\n"]: backslash, newline. *)
Definition terminator : list Z := [92; 10].

(** [encode]: [input] is the content as runes, [compressionHeader] the
    header as bytes. *)
Definition encode (tree : huffmanTree) (input : list Z) (compressionHeader : list Z)
    : outcome (list Z) :=
  let symbolEnc := getSymbolEncoding tree ∅ [] in
  let* output := encodeSymbols symbolEnc input in
  let paddingBits := FormatInt2 ((8 - len output mod 8) mod 8) in
  let* paddingByte := asByteSlice paddingBits in
  let* inputBytes := asByteSlice output in
  Ok (compressionHeader ++ terminator ++ paddingByte ++ inputBytes).

(** [symbolFreq[c]++] for every rune of the content *)
Definition countRunes (content : list Z) : gmap Z Z :=
  fold_left (fun m c => <[c := default 0 (m !! c) + 1]> m) content ∅.

Section Codec.

(** [for key, val := range symbolFreq]: Go leaves the iteration order of a
    map unspecified; [mapRange] is the order of one run. *)
Variable mapRange : gmap Z Z -> list (Z * Z).

(** [unicode.IsDigit] above Latin-1 (the Unicode table of decimal digits). *)
Variable isDigitExcludingLatin : Z -> bool.

Definition headerEntry (kv : Z * Z) : list Z :=
  let '(key, val) := kv in
  if key =? 10 then Itoa val ++ [124; 92; 110]
  else Itoa val ++ [124] ++ encoderune key.

Definition compress (content : list Z) : outcome (list Z) :=
  let contentString := runes content in
  let symbolFreq := countRunes contentString in
  let compressionHeader := concat (map headerEntry (mapRange symbolFreq)) in
  let* tree := buildTree symbolFreq in
  encode tree contentString compressionHeader.

(** *** decompression.go *)

(** [strings.SplitN(s, "\\\n", 2)]: the part before the first terminator
    and, when there is one, the part after it. *)
Fixpoint splitTerminator (s : list Z) : list Z * option (list Z) :=
  match s with
  | [] => ([], None)
  | c :: rest =>
    match rest with
    | [] => ([c], None)
    | c' :: rest' =>
      if (c =? 92) && (c' =? 10) then ([], Some rest')
      else let '(h, t) := splitTerminator rest in (c :: h, t)
    end
  end.

Definition IsDigit (r : Z) : bool :=
  if r <=? 255 then (48 <=? r) && (r <=? 57) else isDigitExcludingLatin r.

(** The inner loop of [decompress] that walks [startFreq] back over the
    digits of a frequency. *)
Fixpoint startOfFreq (fuel : nat) (headerRunes : list Z) (startFreq : Z) : outcome Z :=
  if startFreq <=? 0 then Ok startFreq
  else
    let* d := idx headerRunes (startFreq - 1) in
    if negb (IsDigit d) then Ok startFreq
    else
      let* stop :=
        (if startFreq =? 1 then Ok false
         else let* c := idx headerRunes (startFreq - 2) in Ok (c =? 124)) in
      if stop then Ok startFreq
      else match fuel with
           | O => Diverge
           | S fuel' => startOfFreq fuel' headerRunes (startFreq - 1)
           end.

(** The body of [for i := range len(headerRunes)] in [decompress];
    [strconv.Atoi] failing panics. *)
Definition headerStep (headerRunes : list Z) (symbolFreq : gmap Z Z) (i : Z)
    : outcome (gmap Z Z) :=
  let* c := idx headerRunes i in
  let* boundary :=
    (if c =? 124 then let* prev := idx headerRunes (i - 1) in Ok (negb (prev =? 124))
     else Ok false) in
  if boundary then
    let endFreq := i in
    let* startFreq := startOfFreq (length headerRunes) headerRunes (endFreq - 1) in
    let* digits := slice headerRunes startFreq endFreq in
    let* freq := match Atoi digits with Ok v => Ok v | _ => Panic end in
    let* next := idx headerRunes (i + 1) in
    let* plain :=
      (if negb (next =? 92) then Ok true
       else if len headerRunes <=? i + 2 then Ok true
       else let* n := idx headerRunes (i + 2) in Ok (negb (n =? 110))) in
    if plain then Ok (<[next := freq]> symbolFreq)
    else Ok (<[10 := freq]> symbolFreq)
  else Ok symbolFreq.

Fixpoint headerLoop (count : nat) (headerRunes : list Z) (symbolFreq : gmap Z Z) (i : Z)
    : outcome (gmap Z Z) :=
  match count with
  | O => Ok symbolFreq
  | S count' =>
    let* symbolFreq := headerStep headerRunes symbolFreq i in
    headerLoop count' headerRunes symbolFreq (i + 1)
  end.

(** [getSymbol]: [index] is the position of the bit that selected
    [currentNode]; returns the position of the last bit used.  Its error
    makes the caller panic. *)
Fixpoint getSymbol (currentNode : huffmanTree) (huffmanCode : bitString) (index : Z)
    (data : list Z) : outcome (Z * list Z) :=
  match currentNode with
  | huffmanLeaf _ _ symbol => Ok (index, data ++ [symbol])
  | huffmanNode _ _ l r =>
    let index := index + 1 in
    if len huffmanCode <=? index then Panic
    else
      let* bit := idx huffmanCode index in
      if negb bit then getSymbol l huffmanCode index data
      else getSymbol r huffmanCode index data
  end.

(** The loop [for index := 0; index < len(huffmanCode); index++] of
    [getSymbolDecoded]; the decoded runes are collected in [data]. *)
Fixpoint decodeLoop (fuel : nat) (l r : huffmanTree) (huffmanCode : bitString) (index : Z)
    (data : list Z) : outcome (list Z) :=
  if len huffmanCode <=? index then Ok data
  else match fuel with
       | O => Diverge
       | S fuel' =>
         let* bit := idx huffmanCode index in
         let* (index, data) := getSymbol (if negb bit then l else r) huffmanCode index data in
         decodeLoop fuel' l r huffmanCode (index + 1) data
       end.

Definition getSymbolDecoded (root : huffmanTree) (huffmanCode : bitString) : outcome (list Z) :=
  match root with
  | huffmanLeaf _ _ symbol => Ok [symbol]
  | huffmanNode _ _ l r => decodeLoop (length huffmanCode) l r huffmanCode 0 []
  end.

(** [fmt.Sprintf("%08b", bait)] *)
Definition byteBits (bait : Z) : bitString :=
  map (fun k => Z.testbit bait k) [7; 6; 5; 4; 3; 2; 1; 0].

(** The bit string that [decode] hands to [getSymbolDecoded]: the first
    byte of the content is the offset, the others are written out as eight
    binary digits each, and the first [offset] digits are dropped. *)
Definition huffmanCodeOf (contentBytes : list Z) : outcome bitString :=
  match contentBytes with
  | [] => Ok []
  | offset :: baits =>
    let all := concat (map byteBits baits) in
    slice all offset (len all)
  end.

Definition decode (tree : huffmanTree) (input : list Z) : outcome (list Z) :=
  let* contentBytes :=
    match snd (splitTerminator input) with
    | Some c => Ok c
    | None => Panic
    end in
  let* huffmanCode := huffmanCodeOf contentBytes in
  let* decompressedData := getSymbolDecoded tree huffmanCode in
  Ok (bytes_of_runes decompressedData).

Definition decompress (content : list Z) : outcome (list Z) :=
  let compressionHeader := fst (splitTerminator content) in
  let headerRunes := runes compressionHeader in
  let* symbolFreq := headerLoop (length headerRunes) headerRunes ∅ 0 in
  let* tree := buildTree symbolFreq in
  decode tree content.

End Codec.

(** *** The reader and the writer of the codec

    The two objects share a core; [buffers] is the core of the four
    huffman and lzss pairs. *)
Record buffers : Type := {
  isInputBufferClosed : bool;
  inputBuffer : list Z;
  outputBuffer : list Z
}.

Definition newBuffers : buffers :=
  {| isInputBufferClosed := false; inputBuffer := []; outputBuffer := [] |}.

(** [Write] of the writers *)
Definition Writer_Write (data : list Z) : stateful buffers unit :=
  fun core =>
    ROk tt {| isInputBufferClosed := isInputBufferClosed core;
              inputBuffer := inputBuffer core ++ data;
              outputBuffer := outputBuffer core |}.

(** [Close] of the writers: the input buffer is read to its end and the
    codec function [f] is run on it. *)
Definition Writer_Close (f : list Z -> outcome (list Z)) : stateful buffers unit :=
  fun core =>
    let originalData := inputBuffer core in
    match f originalData with
    | Ok processed =>
      ROk tt {| isInputBufferClosed := true; inputBuffer := [];
                outputBuffer := outputBuffer core ++ processed |}
    | Err e =>
      RErr e {| isInputBufferClosed := true; inputBuffer := [];
                outputBuffer := outputBuffer core |}
    | Panic => RPanic
    | Diverge => RDiverge
    end.

(** [io.ReadAll] on the readers: [Read] fails until the writer is closed. *)
Definition Reader_ReadAll : stateful buffers (list Z) :=
  fun core =>
    if negb (isInputBufferClosed core) then RErr ErrInputNotClosed core
    else ROk (outputBuffer core)
             {| isInputBufferClosed := true; inputBuffer := inputBuffer core;
                outputBuffer := [] |}.

(** [Close] of the readers: [buf.Reset()] on the input buffer. *)
Definition Reader_Close : stateful buffers unit :=
  fun core =>
    ROk tt {| isInputBufferClosed := isInputBufferClosed core; inputBuffer := [];
              outputBuffer := outputBuffer core |}.

End Huffman.

(** ** Package lzss *)

Module Lzss.
Import Go.

Definition Opening : Z := 60.    (* '<' *)
Definition Closing : Z := 62.    (* '>' *)
Definition Separator : Z := 44.  (* ',' *)
Definition Escape : Z := 92.     (* '\\' *)

Record Reference : Type := {
  Value : list Z;
  IsRef : bool;
  NegativeOffset : Z;
  Size : Z
}.

Definition conflictingLiterals : list Z := [60; 62; 44; 92].

Definition contains (l : list Z) (x : Z) : bool := existsb (Z.eqb x) l.

(** *** compression.go *)

(** The loop [for j > 0 && pattern[i] != pattern[j] { j = pi[j-1] }] of
    [findPrefix]; [j] gets smaller in every round. *)
Fixpoint prefixFallback (fuel : nat) (pattern pi : list Z) (c : Z) (j : Z) : outcome Z :=
  if 0 <? j then
    let* pj := idx pattern j in
    if negb (c =? pj) then
      match fuel with
      | O => Diverge
      | S fuel' =>
        let* j' := idx pi (j - 1) in
        prefixFallback fuel' pattern pi c j'
      end
    else Ok j
  else Ok j.

(** The loop [for i := 1; i < len(pattern); i++] of [findPrefix] *)
Fixpoint findPrefix_loop (count : nat) (pattern pi : list Z) (i : Z) : outcome (list Z) :=
  match count with
  | O => Ok pi
  | S count' =>
    let* j := idx pi (i - 1) in
    let* c := idx pattern i in
    let* j := prefixFallback (Z.to_nat j) pattern pi c j in
    let* pj := idx pattern j in
    let j := if c =? pj then j + 1 else j in
    let* pi := set_idx pi i j in
    findPrefix_loop count' pattern pi (i + 1)
  end.

Definition findPrefix (pattern : list Z) : outcome (list Z) :=
  findPrefix_loop (length pattern - 1) pattern (make 0 (len pattern)) 1.

(** The loop [for k > 0 && b != pattern[k] { k = pi[k-1] }] of [kmp] *)
Fixpoint kmpFallback (fuel : nat) (pattern pi : list Z) (b : Z) (k : Z) : outcome Z :=
  if 0 <? k then
    let* pk := idx pattern k in
    if negb (b =? pk) then
      match fuel with
      | O => Diverge
      | S fuel' =>
        let* k' := idx pi (k - 1) in
        kmpFallback fuel' pattern pi b k'
      end
    else Ok k
  else Ok k.

(** The loop [for i, b := range searchBuffer] of [kmp], from index [i] on
    the rest [searchBuffer] of the buffer. *)
Fixpoint kmp_loop (searchBuffer : list Z) (pattern pi : list Z) (i : Z)
    (best k bestIndex : Z) : outcome (Z * Z) :=
  match searchBuffer with
  | [] => Ok (best, bestIndex)
  | b :: rest =>
    let* k := kmpFallback (Z.to_nat k) pattern pi b k in
    let* pk := idx pattern k in
    let k := if b =? pk then k + 1 else k in
    if best <? k then
      let best := k in
      let bestIndex := i - k + 1 in
      if k =? len pattern then Ok (best, bestIndex)
      else kmp_loop rest pattern pi (i + 1) best k bestIndex
    else kmp_loop rest pattern pi (i + 1) best k bestIndex
  end.

Definition kmp (searchBuffer pattern : list Z) : outcome (Z * Z) :=
  let* pi := findPrefix pattern in
  kmp_loop searchBuffer pattern pi 0 0 0 0.

(** [matchSearchBuffer]; the reference sent on the channel is returned. *)
Definition matchSearchBuffer (searchBuffer scanRunes nextRunes : list Z) : outcome Reference :=
  let pattern := scanRunes ++ nextRunes in
  let* (matchedLength, matchedAt) := kmp searchBuffer pattern in
  if 1 <? matchedLength then
    let* value := slice pattern 0 matchedLength in
    Ok {| Value := value; IsRef := true; NegativeOffset := len searchBuffer - matchedAt;
          Size := matchedLength |}
  else
    Ok {| Value := scanRunes; IsRef := false; NegativeOffset := 0; Size := len scanRunes |}.

(** [FindMatch]: one search per position; the goroutines share nothing
    and each channel receives exactly one reference, read in the order of
    the positions, so the channels are the list of the references. *)
Fixpoint FindMatch_loop (count : nat) (content : list Z) (matchDistance matchLength : Z) (i : Z)
    : outcome (list Reference) :=
  match count with
  | O => Ok []
  | S count' =>
    let searchStartIdx := Z.max 0 (i - matchDistance) in
    let nextEndIdx := Z.min (len content) (i + matchLength) in
    let* searchBuffer := slice content searchStartIdx i in
    let* c := idx content i in
    let* nextRunes := slice content (i + 1) nextEndIdx in
    let* ref := matchSearchBuffer searchBuffer [c] nextRunes in
    let* refs := FindMatch_loop count' content matchDistance matchLength (i + 1) in
    Ok (ref :: refs)
  end.

Definition FindMatch (content : list Z) (matchDistance matchLength : Z) : outcome (list Reference) :=
  FindMatch_loop (length content) content matchDistance matchLength 0.

Fixpoint escapeConflictingSymbols (content : list Z) : list Z :=
  match content with
  | [] => []
  | symbol :: rest =>
    if contains conflictingLiterals symbol
    then Escape :: symbol :: escapeConflictingSymbols rest
    else symbol :: escapeConflictingSymbols rest
  end.

Definition getSymbolEncoded (negOffset length : Z) : list Z :=
  [Opening] ++ Itoa negOffset ++ [Separator] ++ Itoa length ++ [Closing].

(** The loop [for _, channel := range refChannels] of [compress] *)
Fixpoint emit (refs : list Reference) (nextRunesToIgnore : Z) (compressedContentRune : list Z)
    : outcome (list Z) :=
  match refs with
  | [] => Ok compressedContentRune
  | ref :: rest =>
    if 0 <? nextRunesToIgnore then emit rest (nextRunesToIgnore - 1) compressedContentRune
    else if IsRef ref then
      let encoding := getSymbolEncoded (NegativeOffset ref) (Size ref) in
      if len encoding <? Size ref then
        emit rest (Size ref - 1) (compressedContentRune ++ encoding)
      else
        let* v0 := idx (Value ref) 0 in
        emit rest 0 (compressedContentRune ++ [v0])
    else emit rest 0 (compressedContentRune ++ Value ref)
  end.

Definition compress (content : list Z) (matchDistance matchLength : Z) : outcome (list Z) :=
  let contentRune := escapeConflictingSymbols (runes content) in
  let* refs := FindMatch contentRune matchDistance matchLength in
  let* compressedContentRune := emit refs 0 [] in
  Ok (bytes_of_runes compressedContentRune).

(** *** decompression.go *)

(** [countEscapesInReverse(content, endIdx)], on the reversed prefix
    [content[:endIdx+1]]. *)
Fixpoint countEscapes (reversedPrefix : list Z) : Z :=
  match reversedPrefix with
  | [] => 0
  | c :: rest => if c =? Escape then 1 + countEscapes rest else 0
  end.

Definition countEscapesInReverse (content : list Z) (endIdx : Z) : Z :=
  if endIdx <? 0 then 0
  else countEscapes (reverse (take (Z.to_nat (endIdx + 1)) content)).

Definition replaceRef (content : list Z) (refIdx negOffset length : Z) : outcome (list Z) :=
  let startIdx := refIdx - negOffset in
  let endIdx := startIdx + length in
  slice content startIdx endIdx.

(** The state of the loop of [decodeBackRefs] *)
Record refState : Type := {
  refOn : bool;
  currentNegOffset : Z;
  currentLength : Z;
  currentRefStart : Z;
  refValue : list Z;
  derefedContent : list Z
}.

Definition decodeStep (refedContent : list Z) (st : refState) (i : Z) : outcome refState :=
  let* c := idx refedContent i in
  if negb (refOn st) && (c =? Opening)
     && (countEscapesInReverse refedContent (i - 1) mod 2 =? 0) then
    Ok {| refOn := true; currentNegOffset := currentNegOffset st;
          currentLength := currentLength st;
          currentRefStart := len (derefedContent st);
          refValue := []; derefedContent := derefedContent st |}
  else if refOn st then
    if c =? Separator then
      let* n := Atoi (refValue st) in
      Ok {| refOn := true; currentNegOffset := n; currentLength := currentLength st;
            currentRefStart := currentRefStart st; refValue := [];
            derefedContent := derefedContent st |}
    else if c =? Closing then
      let* n := Atoi (refValue st) in
      let* r := replaceRef (derefedContent st) (currentRefStart st) (currentNegOffset st) n in
      Ok {| refOn := false; currentNegOffset := currentNegOffset st; currentLength := n;
            currentRefStart := currentRefStart st; refValue := refValue st;
            derefedContent := derefedContent st ++ r |}
    else
      Ok {| refOn := true; currentNegOffset := currentNegOffset st;
            currentLength := currentLength st; currentRefStart := currentRefStart st;
            refValue := refValue st ++ [c]; derefedContent := derefedContent st |}
  else
    Ok {| refOn := false; currentNegOffset := currentNegOffset st;
          currentLength := currentLength st; currentRefStart := currentRefStart st;
          refValue := refValue st; derefedContent := derefedContent st ++ [c] |}.

Fixpoint decodeBackRefs_loop (count : nat) (refedContent : list Z) (st : refState) (i : Z)
    : outcome refState :=
  match count with
  | O => Ok st
  | S count' =>
    let* st := decodeStep refedContent st i in
    decodeBackRefs_loop count' refedContent st (i + 1)
  end.

Definition decodeBackRefs (refedContent : list Z) : outcome (list Z) :=
  let st0 := {| refOn := false; currentNegOffset := 0; currentLength := 0;
                currentRefStart := 0; refValue := []; derefedContent := [] |} in
  let* st := decodeBackRefs_loop (length refedContent) refedContent st0 0 in
  Ok (derefedContent st).

(** The loop of [removeEscapes], walking [content] from its end:
    [reversed] is [content[:i+1]] reversed. *)
Fixpoint removeEscapes_loop (fuel : nat) (reversed : list Z) (cleanedContent : list Z)
    : outcome (list Z) :=
  match fuel with
  | O => match reversed with [] => Ok cleanedContent | _ => Diverge end
  | S fuel' =>
    match reversed with
    | [] => Ok cleanedContent
    | c :: rest =>
      if contains conflictingLiterals c then
        match rest with
        | [] => Err ErrUnescapedLiteral
        | p :: rest' =>
          if negb (p =? Escape) then Err ErrUnescapedLiteral
          else removeEscapes_loop fuel' rest' (cleanedContent ++ [c])
        end
      else removeEscapes_loop fuel' rest (cleanedContent ++ [c])
    end
  end.

Definition removeEscapes (content : list Z) : outcome (list Z) :=
  let* cleanedContent := removeEscapes_loop (length content) (reverse content) [] in
  Ok (reverse cleanedContent).

Definition decompress (content : list Z) : outcome (list Z) :=
  let contentRune := runes content in
  let* contentRune := decodeBackRefs contentRune in
  let* contentRune := removeEscapes contentRune in
  Ok (bytes_of_runes contentRune).

End Lzss.

(** ** Package flate *)

Module Flate.
Import Go.
Import Huffman.

Inductive TokenKind : Type := LiteralToken | MatchToken | EndOfBlockToken.

(** An entry of [Rulebook.Alphabets] *)
Record rule : Type := { ExtraBits : Z; Base : Z }.

Record Rulebook : Type := {
  Alphabets : gmap Z rule;
  KeyOrder : list Z
}.

(** [book.Alphabets[key]]: the zero value where the key is absent. *)
Definition alphabet (book : Rulebook) (key : Z) : rule :=
  default {| ExtraBits := 0; Base := 0 |} (Alphabets book !! key).

Record Token : Type := {
  Kind : TokenKind;
  Value : Z;
  Length : Z;
  Distance : Z;
  DistanceCode : Z;
  DistanceOffset : Z;
  LengthCode : Z;
  LengthOffset : Z
}.

Definition maxAllowedBackwardDistance : Z := 32768.
Definition maxAllowedMatchLength : Z := 258.

Definition lenAlphabets : Rulebook := {|
  Alphabets := list_to_map [
    (257, {| ExtraBits := 0; Base := 3 |}); (258, {| ExtraBits := 0; Base := 4 |});
    (259, {| ExtraBits := 0; Base := 5 |}); (260, {| ExtraBits := 0; Base := 6 |});
    (261, {| ExtraBits := 0; Base := 7 |}); (262, {| ExtraBits := 0; Base := 8 |});
    (263, {| ExtraBits := 0; Base := 9 |}); (264, {| ExtraBits := 0; Base := 10 |});
    (265, {| ExtraBits := 1; Base := 11 |}); (266, {| ExtraBits := 1; Base := 13 |});
    (267, {| ExtraBits := 1; Base := 15 |}); (268, {| ExtraBits := 1; Base := 17 |});
    (269, {| ExtraBits := 2; Base := 19 |}); (270, {| ExtraBits := 2; Base := 23 |});
    (271, {| ExtraBits := 2; Base := 27 |}); (272, {| ExtraBits := 3; Base := 31 |});
    (273, {| ExtraBits := 3; Base := 35 |}); (274, {| ExtraBits := 3; Base := 43 |});
    (275, {| ExtraBits := 3; Base := 51 |}); (276, {| ExtraBits := 3; Base := 59 |});
    (277, {| ExtraBits := 4; Base := 67 |}); (278, {| ExtraBits := 4; Base := 83 |});
    (279, {| ExtraBits := 4; Base := 99 |}); (280, {| ExtraBits := 4; Base := 115 |});
    (281, {| ExtraBits := 5; Base := 131 |}); (282, {| ExtraBits := 5; Base := 163 |});
    (283, {| ExtraBits := 5; Base := 195 |}); (284, {| ExtraBits := 5; Base := 227 |});
    (285, {| ExtraBits := 0; Base := 258 |})];
  KeyOrder := [
      257; 258; 259; 260; 261; 262; 263; 264; 265; 266; 267; 268; 269; 270; 271; 272; 273; 274;
      275; 276; 277; 278; 279; 280; 281; 282; 283; 284; 285]
|}.

Definition distAlphabets : Rulebook := {|
  Alphabets := list_to_map [
    (0, {| ExtraBits := 0; Base := 1 |}); (1, {| ExtraBits := 0; Base := 2 |});
    (2, {| ExtraBits := 0; Base := 3 |}); (3, {| ExtraBits := 0; Base := 4 |});
    (4, {| ExtraBits := 1; Base := 5 |}); (5, {| ExtraBits := 1; Base := 7 |});
    (6, {| ExtraBits := 2; Base := 9 |}); (7, {| ExtraBits := 2; Base := 13 |});
    (8, {| ExtraBits := 3; Base := 17 |}); (9, {| ExtraBits := 3; Base := 25 |});
    (10, {| ExtraBits := 4; Base := 33 |}); (11, {| ExtraBits := 4; Base := 49 |});
    (12, {| ExtraBits := 5; Base := 65 |}); (13, {| ExtraBits := 5; Base := 97 |});
    (14, {| ExtraBits := 6; Base := 129 |}); (15, {| ExtraBits := 6; Base := 193 |});
    (16, {| ExtraBits := 7; Base := 257 |}); (17, {| ExtraBits := 7; Base := 385 |});
    (18, {| ExtraBits := 8; Base := 513 |}); (19, {| ExtraBits := 8; Base := 769 |});
    (20, {| ExtraBits := 9; Base := 1025 |}); (21, {| ExtraBits := 9; Base := 1537 |});
    (22, {| ExtraBits := 10; Base := 2049 |}); (23, {| ExtraBits := 10; Base := 3073 |});
    (24, {| ExtraBits := 11; Base := 4097 |}); (25, {| ExtraBits := 11; Base := 6145 |});
    (26, {| ExtraBits := 12; Base := 8193 |}); (27, {| ExtraBits := 12; Base := 12289 |});
    (28, {| ExtraBits := 13; Base := 16385 |}); (29, {| ExtraBits := 13; Base := 24577 |})];
  KeyOrder := [
      0; 1; 2; 3; 4; 5; 6; 7; 8; 9; 10; 11; 12; 13; 14; 15; 16; 17; 18; 19; 20; 21; 22; 23; 24;
      25; 26; 27; 28; 29]
|}.

Definition rleAlphabets : Rulebook := {|
  Alphabets := list_to_map [
    (16, {| ExtraBits := 2; Base := 3 |}); (17, {| ExtraBits := 3; Base := 3 |});
    (18, {| ExtraBits := 7; Base := 11 |}); (0, {| ExtraBits := 0; Base := 0 |});
    (8, {| ExtraBits := 0; Base := 8 |}); (7, {| ExtraBits := 0; Base := 7 |});
    (9, {| ExtraBits := 0; Base := 9 |}); (6, {| ExtraBits := 0; Base := 6 |});
    (10, {| ExtraBits := 0; Base := 10 |}); (5, {| ExtraBits := 0; Base := 5 |});
    (11, {| ExtraBits := 0; Base := 11 |}); (4, {| ExtraBits := 0; Base := 4 |});
    (12, {| ExtraBits := 0; Base := 12 |}); (3, {| ExtraBits := 0; Base := 3 |});
    (13, {| ExtraBits := 0; Base := 13 |}); (2, {| ExtraBits := 0; Base := 2 |});
    (14, {| ExtraBits := 0; Base := 14 |}); (1, {| ExtraBits := 0; Base := 1 |});
    (15, {| ExtraBits := 0; Base := 15 |})];
  KeyOrder := [
      16; 17; 18; 0; 8; 7; 9; 6; 10; 5; 11; 4; 12; 3; 13; 2; 14; 1; 15]
|}.

Record bitBuffer : Type := { bitsHolder : Z; bitsCount : Z }.

(** [((1 << n) - 1)] in [uint32] *)
Definition mask32 (n : Z) : Z := u32 (u32 (Z.shiftl 1 n) - 1).

(** *** inflate.go: the decoder *)

(** What the decoder reads from: the bit buffer and the unread bytes of
    the input buffer. *)
Record bitReader : Type := { rbits : bitBuffer; rinput : list Z }.

(** The loop [for bb.bitsCount < nbits] of [readCompressedContent]; at most
    four bytes are pulled for [nbits <= 32]. *)
Fixpoint fillBits (fuel : nat) (nbits : Z) : stateful bitReader unit :=
  fun st =>
    if bitsCount (rbits st) <? nbits then
      match fuel with
      | O => RDiverge
      | S fuel' =>
        match rinput st with
        | [] => RErr ErrNotEnoughBits st
        | newData :: rest =>
          let bb := rbits st in
          fillBits fuel' nbits
            {| rbits := {| bitsHolder :=
                             Z.lor (bitsHolder bb) (u32 (Z.shiftl newData (bitsCount bb)));
                           bitsCount := bitsCount bb + 8 |};
               rinput := rest |}
        end
      end
    else ROk tt st.

Definition readCompressedContent (nbits : Z) : stateful bitReader Z :=
  if 32 <? nbits then lift (Err ErrTooManyBits)
  else
    do* _ := fillBits 5 nbits in
    fun st =>
      let bb := rbits st in
      let output := Z.land (bitsHolder bb) (mask32 nbits) in
      ROk output
          {| rbits := {| bitsHolder := Z.shiftr (bitsHolder bb) nbits;
                         bitsCount := bitsCount bb - nbits |};
             rinput := rinput st |}.

(** [CodeLengthCode.reshuffle] *)
Fixpoint reshuffle_loop (huffmanLengths : list Z) (i : Z) (lengths : list Z) : outcome (list Z) :=
  match huffmanLengths with
  | [] => Ok lengths
  | length :: rest =>
    let* key := idx (KeyOrder rleAlphabets) i in
    let* lengths := set_idx lengths key length in
    reshuffle_loop rest (i + 1) lengths
  end.
Definition reshuffle (huffmanLengths : list Z) : outcome (list Z) :=
  reshuffle_loop huffmanLengths 0 (make 0 19).

(** [CodeLengthCode.BuildHuffmanTree]; the other two [BuildHuffmanTree]
    methods are [BuildCanonicalHuffmanDecoder] itself. *)
Definition CodeLengthCode_BuildHuffmanTree (huffmanLengths : list Z) : outcome CanonicalHuffmanNode :=
  let* huffmanLengths := reshuffle huffmanLengths in
  BuildCanonicalHuffmanDecoder huffmanLengths.

(** [TraverseHuffmanTree]; the callers pass a non-nil node. *)
Fixpoint TraverseHuffmanTree (node : CanonicalHuffmanNode) : stateful bitReader Z :=
  match node with
  | nilNode => lift Panic
  | mkNode item isLeaf l r =>
    if isLeaf then
      match item with
      | Some d => ret (Symbol d)
      | None => lift Panic
      end
    else
      do* input := readCompressedContent 1 in
      if input =? 0 then
        match l with
        | nilNode => lift (Err ErrTraversal)
        | _ => TraverseHuffmanTree l
        end
      else
        match r with
        | nilNode => lift (Err ErrTraversal)
        | _ => TraverseHuffmanTree r
        end
  end.

(** [expandRule] inside [ReadCondensedHuffman] *)
Definition expandRule (concatenatedHuffmanLengths : list Z) (rule : Z) : stateful bitReader (list Z) :=
  let extraBits := ExtraBits (alphabet rleAlphabets rule) in
  do* offset := (if 0 <? extraBits then readCompressedContent extraBits else ret 0) in
  if rule <? 16 then ret [rule]
  else if rule =? 16 then
    let length := len concatenatedHuffmanLengths in
    if length =? 0 then lift (Err ErrCondensedOnEmpty)
    else
      let n := Base (alphabet rleAlphabets rule) + offset in
      do* val := lift (idx concatenatedHuffmanLengths (length - 1)) in
      ret (replicate (Z.to_nat n) val)
  else if rule <? 19 then
    let n := Base (alphabet rleAlphabets rule) + offset in
    ret (replicate (Z.to_nat n) 0)
  else lift (Err ErrNoRule).

(** The loop [for len(concatenatedHuffmanLengths) < int(total)]; every
    round appends at least one length. *)
Fixpoint condensedLoop (fuel : nat) (root : CanonicalHuffmanNode) (total : Z)
    (concatenatedHuffmanLengths : list Z) : stateful bitReader (list Z) :=
  if len concatenatedHuffmanLengths <? total then
    match fuel with
    | O => lift Diverge
    | S fuel' =>
      do* rule := TraverseHuffmanTree root in
      do* lengths := expandRule concatenatedHuffmanLengths rule in
      condensedLoop fuel' root total (concatenatedHuffmanLengths ++ lengths)
    end
  else ret concatenatedHuffmanLengths.

Definition ReadCondensedHuffman (root : CanonicalHuffmanNode) (HLIT HDIST : Z)
    : stateful bitReader (list Z * list Z) :=
  let total := u32 (HLIT + HDIST) in
  do* concatenated := condensedLoop (Z.to_nat total) root total [] in
  do* lit := lift (slice concatenated 0 HLIT) in
  do* dist := lift (slice concatenated HLIT (HLIT + HDIST)) in
  ret (lit, dist).

(** [decodeLitLenRule] inside [ReadTokens] *)
Definition decodeLitLenRule (rule : Z) : stateful bitReader (TokenKind * Z * Z) :=
  let extraBits := ExtraBits (alphabet lenAlphabets rule) in
  do* offset := (if 0 <? extraBits then readCompressedContent extraBits else ret 0) in
  if rule <? 256 then ret (LiteralToken, rule, 0)
  else if rule =? 256 then ret (EndOfBlockToken, rule, 0)
  else if rule <? 286 then
    ret (MatchToken, Base (alphabet lenAlphabets rule) + offset, offset)
  else lift (Err ErrNoRule).

(** [decodeDistRule] inside [ReadTokens] *)
Definition decodeDistRule (rule : Z) : stateful bitReader (Z * Z) :=
  let extraBits := ExtraBits (alphabet distAlphabets rule) in
  do* offset := (if 0 <? extraBits then readCompressedContent extraBits else ret 0) in
  ret (Base (alphabet distAlphabets rule) + offset, offset).

(** [byte(value)] *)
Definition u8 (x : Z) : Z := x mod 256.

(** The loop [for true] of [ReadTokens]; every round reads at least one
    bit, so the loop has ended before the bits of the input are used up. *)
Fixpoint ReadTokens_loop (fuel : nat) (litLen dist : CanonicalHuffmanNode) (tokens : list Token)
    : stateful bitReader (list Token) :=
  match fuel with
  | O => lift Diverge
  | S fuel' =>
    do* rule := TraverseHuffmanTree litLen in
    do* (tokenKind, value, lengthOffset) := decodeLitLenRule rule in
    match tokenKind with
    | MatchToken =>
      do* drule := TraverseHuffmanTree dist in
      do* (distance, distanceOffset) := decodeDistRule drule in
      ReadTokens_loop fuel' litLen dist
        (tokens ++ [{| Kind := MatchToken; Value := 0; Length := value; Distance := distance;
                       DistanceCode := drule; DistanceOffset := distanceOffset;
                       LengthCode := rule; LengthOffset := lengthOffset |}])
    | LiteralToken =>
      ReadTokens_loop fuel' litLen dist
        (tokens ++ [{| Kind := LiteralToken; Value := u8 value; Length := 0; Distance := 0;
                       DistanceCode := 0; DistanceOffset := 0;
                       LengthCode := 0; LengthOffset := 0 |}])
    | EndOfBlockToken => ret tokens
    end
  end.

Definition ReadTokens (litLen dist : CanonicalHuffmanNode) : stateful bitReader (list Token) :=
  fun st =>
    ReadTokens_loop (8 * length (rinput st) + 33) litLen dist [] st.

(** [DecodeTokens].  [findMatch] re-slices the runes of the output so far;
    a re-slice that leaves the length of the slice is rendered as a panic
    (Go checks against the capacity, which the conversion to runes does not
    fix). *)
Fixpoint DecodeTokens_loop (tokens : list Token) (output : list Z) : outcome (list Z) :=
  match tokens with
  | [] => Ok output
  | token :: rest =>
    match Kind token with
    | LiteralToken => DecodeTokens_loop rest (output ++ [Value token])
    | MatchToken =>
      let outputSoFarRune := runes output in
      let currentIdx := len outputSoFarRune in
      let startIdx := currentIdx - Distance token in
      let endIdx := startIdx + Length token in
      let* m := slice outputSoFarRune startIdx endIdx in
      DecodeTokens_loop rest (output ++ bytes_of_runes m)
    | EndOfBlockToken => DecodeTokens_loop rest output
    end
  end.
Definition DecodeTokens (tokens : list Token) : outcome (list Z) := DecodeTokens_loop tokens [].

(** [n] reads of 3 bits: the loop [for range HCLEN] *)
Fixpoint readLengths (n : nat) (acc : list Z) : stateful bitReader (list Z) :=
  match n with
  | O => ret acc
  | S n' =>
    do* input := readCompressedContent 3 in
    readLengths n' (acc ++ [input])
  end.

(** What [decompress] leaves in the core besides the bit reader: the two
    header fields it stores, and the bytes for the output buffer. *)
Record decoded : Type := { d_bfinal : Z; d_btype : Z; d_data : list Z }.

(** [DecompressionWriter.decompress] from the read of [HLIT] on: the
    block after its three header bits. *)
Definition decompressBlock : stateful bitReader (list Z) :=
  do* HLIT := readCompressedContent 5 in
  do* HDIST := readCompressedContent 5 in
  do* HCLEN := readCompressedContent 4 in
  let HLIT := u32 (HLIT + 257) in
  let HDIST := u32 (HDIST + 1) in
  let HCLEN := u32 (HCLEN + 4) in
  do* codeLengthHuffmanLengths := readLengths (Z.to_nat HCLEN) [] in
  do* clcRoot := lift (CodeLengthCode_BuildHuffmanTree codeLengthHuffmanLengths) in
  do* (litLenHuffmanLengths, distHuffmanLengths) := ReadCondensedHuffman clcRoot HLIT HDIST in
  do* litLenRoot := lift (BuildCanonicalHuffmanDecoder litLenHuffmanLengths) in
  do* distRoot := lift (BuildCanonicalHuffmanDecoder distHuffmanLengths) in
  do* tokens := ReadTokens litLenRoot distRoot in
  lift (DecodeTokens tokens).

(** [DecompressionWriter.decompress], on the bit reader of the core: the
    two header fields are read into the core, then the block is decoded. *)
Definition decompress : stateful bitReader decoded :=
  do* bfinal := readCompressedContent 1 in
  do* btype := readCompressedContent 2 in
  do* data := decompressBlock in
  ret {| d_bfinal := bfinal; d_btype := btype; d_data := data |}.

(** *** inflate.go: the encoder *)

Definition literal (b : Z) : Token :=
  {| Kind := LiteralToken; Value := b; Length := 0; Distance := 0;
     DistanceCode := 0; DistanceOffset := 0; LengthCode := 0; LengthOffset := 0 |}.

Definition matchToken (length distance : Z) : Token :=
  {| Kind := MatchToken; Value := 0; Length := length; Distance := distance;
     DistanceCode := 0; DistanceOffset := 0; LengthCode := 0; LengthOffset := 0 |}.

(** [tokeniseLZSS], on the references read from the channels *)
Fixpoint tokeniseLZSS_loop (refs : list Lzss.Reference) (nextRunesToIgnore : Z)
    (tokens : list Token) : outcome (list Token) :=
  match refs with
  | [] => Ok tokens
  | ref :: rest =>
    if 0 <? nextRunesToIgnore then tokeniseLZSS_loop rest (nextRunesToIgnore - 1) tokens
    else if negb (Lzss.IsRef ref) || (Lzss.Size ref <? 3) then
      let* r := idx (Lzss.Value ref) 0 in
      let literalBytes := encoderune r in
      tokeniseLZSS_loop rest nextRunesToIgnore (tokens ++ map literal literalBytes)
    else if Lzss.NegativeOffset ref <? Lzss.Size ref then Err ErrOverlap
    else if maxAllowedMatchLength <? Lzss.Size ref then Err ErrMatchTooLong
    else if maxAllowedBackwardDistance <? Lzss.NegativeOffset ref then Err ErrMatchTooFar
    else
      tokeniseLZSS_loop rest (Lzss.Size ref - 1)
        (tokens ++ [matchToken (Lzss.Size ref) (Lzss.NegativeOffset ref)])
  end.
Definition tokeniseLZSS (refs : list Lzss.Reference) : outcome (list Token) :=
  tokeniseLZSS_loop refs 0 [].

(** [DistanceCode.FindCode].  The Go loop ranges over the map; exactly one
    key satisfies the test, so the order of the keys does not matter. *)
Fixpoint DistanceCode_FindCode_loop (keys : list Z) (value : Z) : outcome (Z * Z) :=
  match keys with
  | [] => Err ErrNoDistanceCode
  | i :: rest =>
    let info := alphabet distAlphabets i in
    if (Base info <=? value)
       && ((i + 1 =? Z.of_nat (size (Alphabets distAlphabets)))
           || (value <? Base (alphabet distAlphabets (i + 1))))
    then Ok (i, value - Base info)
    else DistanceCode_FindCode_loop rest value
  end.
Definition DistanceCode_FindCode (value : Z) : outcome (Z * Z) :=
  if (value <? 1) || (maxAllowedBackwardDistance <? value) then Err ErrDistanceOutOfRange
  else DistanceCode_FindCode_loop (KeyOrder distAlphabets) value.

(** [LitLengthCode.FindCode] *)
Fixpoint LitLengthCode_FindCode_loop (keys : list Z) (value : Z) : outcome (Z * Z) :=
  match keys with
  | [] => Err ErrNoLengthCode
  | key :: rest =>
    let below :=
      match Alphabets lenAlphabets !! (key + 1) with
      | Some nextInfo => value <? Base nextInfo
      | None => true
      end in
    if (Base (alphabet lenAlphabets key) <=? value) && below
    then Ok (key, value - Base (alphabet lenAlphabets key))
    else LitLengthCode_FindCode_loop rest value
  end.
Definition LitLengthCode_FindCode (value : Z) : outcome (Z * Z) :=
  if (value <? 3) || (maxAllowedMatchLength <? value) then Err ErrLengthOutOfRange
  else LitLengthCode_FindCode_loop (KeyOrder lenAlphabets) value.

(** [symbolFreq[i]++] *)
Definition incr (symbolFreq : list Z) (i : Z) : outcome (list Z) :=
  let* c := idx symbolFreq i in
  set_idx symbolFreq i (c + 1).

(** [findLengthBoundary] *)
Fixpoint findLengthBoundary_loop (items : list (option CanonicalHuffmanCode)) (i : Z)
    (threshold limit : Z) (length zeros : list Z) : outcome (list Z) :=
  match items with
  | [] => Ok length
  | info :: rest =>
    let l := match info with Some c => Huffman.Length c | None => 0 end in
    if i <=? threshold then
      findLengthBoundary_loop rest (i + 1) threshold limit (length ++ [l]) zeros
    else if l =? 0 then
      findLengthBoundary_loop rest (i + 1) threshold limit length (zeros ++ [0])
    else if limit <? l then Err ErrLengthTooLong
    else findLengthBoundary_loop rest (i + 1) threshold limit (length ++ zeros ++ [l]) []
  end.
Definition findLengthBoundary (items : list (option CanonicalHuffmanCode)) (threshold limit : Z)
    : outcome (list Z) :=
  findLengthBoundary_loop items 0 threshold limit [] [].

(** The first loop of [DistanceCode.Encode]: the tokens get their distance
    codes, the codes are counted. *)
Fixpoint distSymbols (tokens : list Token) (symbolFreq : list Z)
    : outcome (list Token * list Z) :=
  match tokens with
  | [] => Ok ([], symbolFreq)
  | token :: rest =>
    match Kind token with
    | MatchToken =>
      let* (code, offset) := DistanceCode_FindCode (Distance token) in
      let token := {| Kind := Kind token; Value := Value token; Length := Length token;
                      Distance := Distance token; DistanceCode := code;
                      DistanceOffset := offset; LengthCode := LengthCode token;
                      LengthOffset := LengthOffset token |} in
      let* symbolFreq := incr symbolFreq code in
      let* (rest, symbolFreq) := distSymbols rest symbolFreq in
      Ok (token :: rest, symbolFreq)
    | _ =>
      let* (rest, symbolFreq) := distSymbols rest symbolFreq in
      Ok (token :: rest, symbolFreq)
    end
  end.

(** [DistanceCode.Encode]: the tokens as updated, the field
    [DistanceHuffman], and the returned lengths. *)
Definition DistanceCode_Encode (tokens : list Token)
    : outcome (list Token * list (option CanonicalHuffmanCode) * list Z) :=
  let* (tokens, symbolFreq) := distSymbols tokens (make 0 30) in
  let* distHuffmanCode := BuildCanonicalHuffmanEncoder symbolFreq 15 in
  let* lengths := findLengthBoundary distHuffmanCode 0 15 in
  Ok (tokens, distHuffmanCode, lengths).

(** The first loop of [LitLengthCode.Encode] *)
Fixpoint litLenSymbols (tokens : list Token) (symbolFreq : list Z)
    : outcome (list Token * list Z) :=
  match tokens with
  | [] => Ok ([], symbolFreq)
  | token :: rest =>
    match Kind token with
    | LiteralToken =>
      let* symbolFreq := incr symbolFreq (Value token) in
      let* (rest, symbolFreq) := litLenSymbols rest symbolFreq in
      Ok (token :: rest, symbolFreq)
    | _ =>
      let* (code, offset) := LitLengthCode_FindCode (Length token) in
      let token := {| Kind := Kind token; Value := Value token; Length := Length token;
                      Distance := Distance token; DistanceCode := DistanceCode token;
                      DistanceOffset := DistanceOffset token; LengthCode := code;
                      LengthOffset := offset |} in
      let* symbolFreq := incr symbolFreq code in
      let* (rest, symbolFreq) := litLenSymbols rest symbolFreq in
      Ok (token :: rest, symbolFreq)
    end
  end.

(** [LitLengthCode.Encode] *)
Definition LitLengthCode_Encode (tokens : list Token)
    : outcome (list Token * list (option CanonicalHuffmanCode) * list Z) :=
  let* (tokens, symbolFreq) := litLenSymbols tokens (make 0 286) in
  let* symbolFreq := incr symbolFreq 256 in
  let* litLenHuffmanCode := BuildCanonicalHuffmanEncoder symbolFreq 15 in
  let* lengths := findLengthBoundary litLenHuffmanCode 256 15 in
  Ok (tokens, litLenHuffmanCode, lengths).

(** An item of [CodeLengthCode.HuffmanLengthCondensed] *)
Record condensed : Type := { RLECode : Z; Offset : Z }.

(** The variables [countZero], [countSame] and the slice
    [clc.HuffmanLengthCondensed] of [CodeLengthCode.FindCode] *)
Record rleState : Type := {
  countZero : Z;
  countSame : Z;
  HuffmanLengthCondensed : list condensed
}.

Definition emitItem (st : rleState) (code offset : Z) : list condensed :=
  HuffmanLengthCondensed st ++ [{| RLECode := code; Offset := offset |}].

(** [resolveCountZero] *)
Definition resolveCountZero (st : rleState) : outcome rleState :=
  if negb (countZero st =? 0) then
    if countZero st <? 3 then
      Ok {| countZero := 0; countSame := countSame st;
            HuffmanLengthCondensed :=
              HuffmanLengthCondensed st
              ++ replicate (Z.to_nat (countZero st)) {| RLECode := 0; Offset := 0 |} |}
    else if countZero st <? 11 then
      Ok {| countZero := 0; countSame := countSame st;
            HuffmanLengthCondensed := emitItem st 17 (countZero st - 3) |}
    else if countZero st <? 138 then
      Ok {| countZero := 0; countSame := countSame st;
            HuffmanLengthCondensed := emitItem st 18 (countZero st - 11) |}
    else Err ErrZerosTooLong
  else Ok st.

(** [resolveCountSame(prevIndex)]; [prev] is
    [lengthHuffmanLengths[prevIndex]], absent for [prevIndex = -1]. *)
Definition resolveCountSame (prev : option Z) (st : rleState) : outcome rleState :=
  if negb (countSame st =? 0) then
    if countSame st <? 3 then
      let* v := match prev with Some v => Ok v | None => Panic end in
      Ok {| countZero := countZero st; countSame := 0;
            HuffmanLengthCondensed :=
              HuffmanLengthCondensed st
              ++ replicate (Z.to_nat (countSame st)) {| RLECode := v; Offset := 0 |} |}
    else if countSame st <? 6 then
      Ok {| countZero := countZero st; countSame := 0;
            HuffmanLengthCondensed := emitItem st 16 (countSame st - 3) |}
    else Err ErrSameTooLong
  else Ok st.

(** The body of the loop of [CodeLengthCode.FindCode] at position [i],
    where [prev] is [lengthHuffmanLengths[i-1]] (absent for [i = 0]). *)
Definition rleStep (prev : option Z) (length : Z) (st : rleState) : outcome rleState :=
  if length =? 0 then
    let* st := resolveCountSame prev st in
    let countZero' := countZero st + 1 in
    if countZero' =? 138 then
      Ok {| countZero := 0; countSame := countSame st;
            HuffmanLengthCondensed := emitItem st 18 (countZero' - 11) |}
    else Ok {| countZero := countZero'; countSame := countSame st;
               HuffmanLengthCondensed := HuffmanLengthCondensed st |}
  else if match prev with None => true | Some p => negb (length =? p) end then
    let* st := resolveCountZero st in
    let* st := resolveCountSame prev st in
    Ok {| countZero := countZero st; countSame := countSame st;
          HuffmanLengthCondensed := emitItem st length 0 |}
  else
    let countSame' := countSame st + 1 in
    if countSame' =? 6 then
      Ok {| countZero := countZero st; countSame := 0;
            HuffmanLengthCondensed := emitItem st 16 (countSame' - 3) |}
    else Ok {| countZero := countZero st; countSame := countSame';
               HuffmanLengthCondensed := HuffmanLengthCondensed st |}.

(** The loop of [CodeLengthCode.FindCode] over the rest of the vector,
    followed by the two final [resolve] calls. *)
Fixpoint rleLoop (prev : option Z) (lengths : list Z) (st : rleState) : outcome rleState :=
  match lengths with
  | [] =>
    let* st := resolveCountZero st in
    resolveCountSame prev st
  | length :: rest =>
    let* st := rleStep prev length st in
    rleLoop (Some length) rest st
  end.

(** [CodeLengthCode.FindCode] on a fresh [CodeLengthCode]: the items it
    leaves in [HuffmanLengthCondensed]. *)
Definition CodeLengthCode_FindCode (lengthHuffmanLengths : list Z) : outcome (list condensed) :=
  let* st := rleLoop None lengthHuffmanLengths
               {| countZero := 0; countSame := 0; HuffmanLengthCondensed := [] |} in
  Ok (HuffmanLengthCondensed st).

(** [CodeLengthCode.shuffle] *)
Fixpoint shuffle_loop (keys : list Z) (code : list (option CanonicalHuffmanCode))
    : outcome (list (option CanonicalHuffmanCode)) :=
  match keys with
  | [] => Ok []
  | key :: rest =>
    let* c := idx code key in
    let* cs := shuffle_loop rest code in
    Ok (c :: cs)
  end.
Definition shuffle (code : list (option CanonicalHuffmanCode)) :=
  shuffle_loop (KeyOrder rleAlphabets) code.

Fixpoint countCodes (items : list condensed) (symbolFreq : list Z) : outcome (list Z) :=
  match items with
  | [] => Ok symbolFreq
  | info :: rest =>
    let* symbolFreq := incr symbolFreq (RLECode info) in
    countCodes rest symbolFreq
  end.

(** [CodeLengthCode.Encode]: the fields [HuffmanLengthCondensed] and
    [CondensedHuffman], and the returned lengths. *)
Definition CodeLengthCode_Encode (lengthHuffmanLengths : list Z)
    : outcome (list condensed * list (option CanonicalHuffmanCode) * list Z) :=
  let* items := CodeLengthCode_FindCode lengthHuffmanLengths in
  let* symbolFreq := countCodes items (make 0 19) in
  let* codeLengthHuffmanCode := BuildCanonicalHuffmanEncoder symbolFreq 7 in
  let CondensedHuffman := codeLengthHuffmanCode in
  let* shuffled := shuffle codeLengthHuffmanCode in
  let* lengths := findLengthBoundary shuffled 3 7 in
  Ok (items, CondensedHuffman, lengths).

(** What the encoder writes to: the bit buffer and the output buffer. *)
Record bitWriter : Type := { wbits : bitBuffer; woutput : list Z }.

(** The loop [for bb.bitsCount >= 8] of [writeCompressedContent]; the
    buffer holds at most 32 bits. *)
Fixpoint flushBytes (fuel : nat) (st : bitWriter) : result bitWriter unit :=
  let bb := wbits st in
  if 8 <=? bitsCount bb then
    match fuel with
    | O => RDiverge
    | S fuel' =>
      let lowestByte := Z.land (bitsHolder bb) 255 in
      flushBytes fuel'
        {| wbits := {| bitsHolder := Z.shiftr (bitsHolder bb) 8; bitsCount := bitsCount bb - 8 |};
           woutput := woutput st ++ [lowestByte] |}
    end
  else ROk tt st.

(** [writeCompressedContent]: the recursion stops when no bit is left. *)
Fixpoint writeCompressedContent_rec (fuel : nat) (value nbits : Z) : stateful bitWriter unit :=
  fun st =>
    if nbits =? 0 then ROk tt st
    else match fuel with
         | O => RDiverge
         | S fuel' =>
           let bb := wbits st in
           let trimbits := Z.min nbits (32 - bitsCount bb) in
           let holder :=
             Z.lor (bitsHolder bb)
                   (u32 (Z.shiftl (Z.land value (mask32 trimbits)) (bitsCount bb))) in
           let st := {| wbits := {| bitsHolder := holder; bitsCount := bitsCount bb + trimbits |};
                        woutput := woutput st |} in
           match flushBytes 4 st with
           | ROk _ st =>
             writeCompressedContent_rec fuel' (Z.shiftr value trimbits) (nbits - trimbits) st
           | r => r
           end
         end.
Definition writeCompressedContent (value nbits : Z) : stateful bitWriter unit :=
  writeCompressedContent_rec (S (Z.to_nat nbits)) value nbits.

(** [flushAlign] *)
Definition flushAlign : stateful bitWriter unit :=
  fun st =>
    let bb := wbits st in
    if 8 <? bitsCount bb then RErr ErrBitsNotWritten st
    else if 0 <? bitsCount bb then writeCompressedContent 0 (8 - bitsCount bb) st
    else ROk tt st.

(** Writing the Huffman code of an entry of a code table; the entry of a
    symbol without a code is nil, and calling its methods panics. *)
Definition writeCode (table : list (option CanonicalHuffmanCode)) (symbol : Z)
    : stateful bitWriter unit :=
  do* entry := lift (idx table symbol) in
  match entry with
  | None => lift Panic
  | Some h =>
    writeCompressedContent (Reverse (u32 (Code h)) (u32 (Huffman.Length h))) (Huffman.Length h)
  end.

Fixpoint writeLengths (codeLengthHuffmanLengths : list Z) : stateful bitWriter unit :=
  match codeLengthHuffmanLengths with
  | [] => ret tt
  | codeLen :: rest =>
    do* _ := writeCompressedContent (u32 codeLen) 3 in
    writeLengths rest
  end.

Fixpoint writeCondensed (CondensedHuffman : list (option CanonicalHuffmanCode))
    (items : list condensed) : stateful bitWriter unit :=
  match items with
  | [] => ret tt
  | code :: rest =>
    do* _ := writeCode CondensedHuffman (RLECode code) in
    do* _ := (if 0 <? ExtraBits (alphabet rleAlphabets (RLECode code))
              then writeCompressedContent (u32 (Offset code))
                     (ExtraBits (alphabet rleAlphabets (RLECode code)))
              else ret tt) in
    writeCondensed CondensedHuffman rest
  end.

Fixpoint writeTokens (LitLengthHuffman DistanceHuffman : list (option CanonicalHuffmanCode))
    (tokens : list Token) : stateful bitWriter unit :=
  match tokens with
  | [] => ret tt
  | token :: rest =>
    do* _ :=
      match Kind token with
      | LiteralToken => writeCode LitLengthHuffman (Value token)
      | _ =>
        do* _ := writeCode LitLengthHuffman (LengthCode token) in
        do* _ := (if 0 <? ExtraBits (alphabet lenAlphabets (LengthCode token))
                  then writeCompressedContent (u32 (LengthOffset token))
                         (ExtraBits (alphabet lenAlphabets (LengthCode token)))
                  else ret tt) in
        do* _ := writeCode DistanceHuffman (DistanceCode token) in
        if 0 <? ExtraBits (alphabet distAlphabets (DistanceCode token))
        then writeCompressedContent (u32 (DistanceOffset token))
               (ExtraBits (alphabet distAlphabets (DistanceCode token)))
        else ret tt
      end in
    writeTokens LitLengthHuffman DistanceHuffman rest
  end.

(** The tokens that [compress] computes for a content *)
Definition tokenise (content : list Z) : outcome (list Token) :=
  let contentRune := runes content in
  let* refs := Lzss.FindMatch contentRune maxAllowedBackwardDistance maxAllowedMatchLength in
  tokeniseLZSS refs.

(** [CompressionWriter.compress], on the bit writer of the core *)
Definition compress (btype bfinal : Z) (content : list Z) : stateful bitWriter unit :=
  do* tokens := lift (tokenise content) in
  do* (tokens, LitLengthHuffman, litLenHuffmanLengths) := lift (LitLengthCode_Encode tokens) in
  do* (tokens, DistanceHuffman, distHuffmanLengths) := lift (DistanceCode_Encode tokens) in
  let concatenatedHuffmanLengths := litLenHuffmanLengths ++ distHuffmanLengths in
  do* (items, CondensedHuffman, codeLengthHuffmanLengths) :=
    lift (CodeLengthCode_Encode concatenatedHuffmanLengths) in
  let HLIT := len litLenHuffmanLengths - 257 in
  let HDIST := len distHuffmanLengths - 1 in
  let HCLEN := len codeLengthHuffmanLengths - 4 in
  do* _ := writeCompressedContent bfinal 1 in
  do* _ := writeCompressedContent btype 2 in
  do* _ := writeCompressedContent (u32 HLIT) 5 in
  do* _ := writeCompressedContent (u32 HDIST) 5 in
  do* _ := writeCompressedContent (u32 HCLEN) 4 in
  do* _ := writeLengths codeLengthHuffmanLengths in
  do* _ := writeCondensed CondensedHuffman items in
  do* _ := writeTokens LitLengthHuffman DistanceHuffman tokens in
  do* _ := writeCode LitLengthHuffman 256 in
  flushAlign.

(** *** The readers and the writers of the codec *)

Record compressionCore : Type := {
  c_isInputBufferClosed : bool;
  c_inputBuffer : list Z;
  c_writer : bitWriter;        (* [bitBuffer] and [outputBuffer] *)
  c_btype : Z;
  c_bfinal : Z
}.

Definition NewCompressionReaderAndWriter (btype bfinal : Z) : compressionCore :=
  {| c_isInputBufferClosed := false; c_inputBuffer := [];
     c_writer := {| wbits := {| bitsHolder := 0; bitsCount := 0 |}; woutput := [] |};
     c_btype := btype; c_bfinal := bfinal |}.

Definition CompressionWriter_Write (data : list Z) : stateful compressionCore unit :=
  fun core =>
    if c_isInputBufferClosed core then RErr ErrWriterBusy core
    else ROk tt {| c_isInputBufferClosed := false; c_inputBuffer := c_inputBuffer core ++ data;
                   c_writer := c_writer core; c_btype := c_btype core;
                   c_bfinal := c_bfinal core |}.

Definition CompressionWriter_Close : stateful compressionCore unit :=
  fun core =>
    let originalData := c_inputBuffer core in
    let closed (flag : bool) (w : bitWriter) :=
      {| c_isInputBufferClosed := flag; c_inputBuffer := []; c_writer := w;
         c_btype := c_btype core; c_bfinal := c_bfinal core |} in
    match compress (c_btype core) (c_bfinal core) originalData (c_writer core) with
    | ROk _ w => ROk tt (closed true w)
    | RErr e w => RErr e (closed (c_isInputBufferClosed core) w)
    | RPanic => RPanic
    | RDiverge => RDiverge
    end.

(** [io.ReadAll] on the reader: [Read] waits for the writer to be closed;
    with nobody left to close it, it waits for ever. *)
Definition CompressionReader_ReadAll : stateful compressionCore (list Z) :=
  fun core =>
    if negb (c_isInputBufferClosed core) then RDiverge
    else ROk (woutput (c_writer core))
             {| c_isInputBufferClosed := true; c_inputBuffer := c_inputBuffer core;
                c_writer := {| wbits := wbits (c_writer core); woutput := [] |};
                c_btype := c_btype core; c_bfinal := c_bfinal core |}.

Definition CompressionReader_Close : stateful compressionCore unit :=
  fun core =>
    ROk tt {| c_isInputBufferClosed := false; c_inputBuffer := [];
              c_writer := c_writer core; c_btype := c_btype core;
              c_bfinal := c_bfinal core |}.

Record decompressionCore : Type := {
  d_isInputBufferClosed : bool;
  d_reader : bitReader;        (* [bitBuffer] and [inputBuffer] *)
  d_outputBuffer : list Z;
  d_core_btype : Z;
  d_core_bfinal : Z
}.

Definition NewDecompressionReaderAndWriter : decompressionCore :=
  {| d_isInputBufferClosed := false;
     d_reader := {| rbits := {| bitsHolder := 0; bitsCount := 0 |}; rinput := [] |};
     d_outputBuffer := []; d_core_btype := 0; d_core_bfinal := 0 |}.

Definition DecompressionWriter_Write (data : list Z) : stateful decompressionCore unit :=
  fun core =>
    if d_isInputBufferClosed core then RErr ErrWriterBusy core
    else ROk tt {| d_isInputBufferClosed := false;
                   d_reader := {| rbits := rbits (d_reader core);
                                  rinput := rinput (d_reader core) ++ data |};
                   d_outputBuffer := d_outputBuffer core;
                   d_core_btype := d_core_btype core; d_core_bfinal := d_core_bfinal core |}.

(** [DecompressionWriter.Close]: [decompress] stores the header fields as
    it reads them; they are kept here when it succeeds (nothing reads
    them). *)
Definition DecompressionWriter_Close : stateful decompressionCore unit :=
  fun core =>
    match decompress (d_reader core) with
    | ROk d r =>
      ROk tt {| d_isInputBufferClosed := true; d_reader := r;
                d_outputBuffer := d_outputBuffer core ++ d_data d;
                d_core_btype := d_btype d; d_core_bfinal := d_bfinal d |}
    | RErr e r =>
      RErr e {| d_isInputBufferClosed := d_isInputBufferClosed core; d_reader := r;
                d_outputBuffer := d_outputBuffer core;
                d_core_btype := d_core_btype core; d_core_bfinal := d_core_bfinal core |}
    | RPanic => RPanic
    | RDiverge => RDiverge
    end.

Definition DecompressionReader_ReadAll : stateful decompressionCore (list Z) :=
  fun core =>
    if negb (d_isInputBufferClosed core) then RDiverge
    else ROk (d_outputBuffer core)
             {| d_isInputBufferClosed := true; d_reader := d_reader core;
                d_outputBuffer := [];
                d_core_btype := d_core_btype core; d_core_bfinal := d_core_bfinal core |}.

Definition DecompressionReader_Close : stateful decompressionCore unit :=
  fun core =>
    ROk tt {| d_isInputBufferClosed := false;
              d_reader := {| rbits := rbits (d_reader core); rinput := [] |};
              d_outputBuffer := d_outputBuffer core;
              d_core_btype := d_core_btype core; d_core_bfinal := d_core_bfinal core |}.

End Flate.

(** ** Package gzip *)

Module Gzip.
Import Go.

(** *** [hash/crc32] with the IEEE polynomial, bit by bit *)

Fixpoint crcBits (n : nat) (crc : Z) : Z :=
  match n with
  | O => crc
  | S n' =>
    crcBits n' (if Z.odd crc then Z.lxor (Z.shiftr crc 1) 3988292384 else Z.shiftr crc 1)
  end.

Definition crcByte (crc b : Z) : Z := crcBits 8 (Z.lxor crc b).

(** [Crc.Write(p)]: the digest holds the finished checksum of the bytes
    written so far. *)
Definition crcWrite (crc : Z) (p : list Z) : Z :=
  Z.lxor (fold_left crcByte p (Z.lxor crc 4294967295)) 4294967295.

(** The checksum of a whole buffer: [crc32.ChecksumIEEE] *)
Definition crc32 (p : list Z) : Z := crcWrite 0 p.

(** [binary.LittleEndian.PutUint32] and [Uint32] *)
Definition PutUint32 (v : Z) : list Z :=
  [Z.land v 255; Z.land (Z.shiftr v 8) 255; Z.land (Z.shiftr v 16) 255;
   Z.land (Z.shiftr v 24) 255].

Definition Uint32 (b : list Z) : outcome Z :=
  match b with
  | b0 :: b1 :: b2 :: b3 :: _ =>
    Ok (Z.lor (Z.lor (Z.lor b0 (Z.shiftl b1 8)) (Z.shiftl b2 16)) (Z.shiftl b3 24))
  | _ => Panic
  end.

(** *** compression.go

    The pipe is the list of the bytes written to it and not yet read; the
    goroutine started by [NewCompressionReaderAndWriter] writes the header
    into it first.  [ComO] is the file [com.o] of the working directory as
    [os.OpenFile] with [O_APPEND|O_CREATE|O_WRONLY] finds it: [None] when
    it cannot be opened, else the bytes that it holds (none when the call
    creates it). *)

Definition header : list Z := [31; 139; 8; 0; 0; 0; 0; 0; 0; 255].

Record CompressionCore : Type := {
  Pipe : list Z;
  Flate : Flate.compressionCore;
  Crc : Z;
  Size : Z;
  ComO : option (list Z)
}.

Definition NewCompressionReaderAndWriter (comO : option (list Z))
    (flate : Flate.compressionCore) : CompressionCore :=
  {| Pipe := header; Flate := flate; Crc := crcWrite 0 []; Size := 0; ComO := comO |}.

(** [CompressionWriter.Write]: [panic(err)] when [com.o] cannot be opened;
    else [p] is appended to the file (what [f.Write] returns is dropped),
    and then to the checksum, the size and the flate writer. *)
Definition CompressionWriter_Write (p : list Z) : stateful CompressionCore unit :=
  fun core =>
    match ComO core with
    | None => RPanic
    | Some f =>
      let comO := Some (f ++ p) in
      let crc := crcWrite (Crc core) p in
      let size := u32 (Size core + u32 (len p)) in
      match Flate.CompressionWriter_Write p (Flate core) with
      | ROk _ f =>
        ROk tt {| Pipe := Pipe core; Flate := f; Crc := crc; Size := size; ComO := comO |}
      | RErr e f =>
        RErr e {| Pipe := Pipe core; Flate := f; Crc := crc; Size := size; ComO := comO |}
      | RPanic => RPanic
      | RDiverge => RDiverge
      end
    end.

(** [CompressionWriter.Close]: the goroutine that closes the flate writer
    panics on an error, which ends the process. *)
Definition CompressionWriter_Close : stateful CompressionCore unit :=
  fun core =>
    match Flate.CompressionWriter_Close (Flate core) with
    | ROk _ f =>
      match Flate.CompressionReader_ReadAll f with
      | ROk deflated f =>
        match Flate.CompressionReader_Close f with
        | ROk _ f =>
          let trailer := PutUint32 (Crc core) ++ PutUint32 (Size core) in
          ROk tt {| Pipe := Pipe core ++ deflated ++ trailer; Flate := f;
                    Crc := Crc core; Size := Size core; ComO := ComO core |}
        | RErr e f => RErr e {| Pipe := Pipe core ++ deflated; Flate := f;
                                Crc := Crc core; Size := Size core; ComO := ComO core |}
        | RPanic => RPanic
        | RDiverge => RDiverge
        end
      | RErr e f => RErr e {| Pipe := Pipe core; Flate := f; Crc := Crc core; Size := Size core;
                              ComO := ComO core |}
      | RPanic => RPanic
      | RDiverge => RDiverge
      end
    | RErr _ _ => RPanic
    | RPanic => RPanic
    | RDiverge => RDiverge
    end.

(** [io.ReadAll] on the reader: all the bytes of the pipe. *)
Definition CompressionReader_ReadAll : stateful CompressionCore (list Z) :=
  fun core =>
    ROk (Pipe core) {| Pipe := []; Flate := Flate core; Crc := Crc core; Size := Size core;
                       ComO := ComO core |}.

Definition CompressionReader_Close : stateful CompressionCore unit :=
  fun core => ROk tt core.

(** *** decompression.go *)

Record DecompressionCore : Type := {
  DPipe : list Z;
  IsHeaderParsed : bool;
  Trailer : list Z;
  CurrentCrc : Z;
  CurrentSize : Z;
  DFlate : Flate.decompressionCore
}.

Definition NewDecompressionReaderAndWriter (flate : Flate.decompressionCore) : DecompressionCore :=
  {| DPipe := []; IsHeaderParsed := false; Trailer := make 0 8; CurrentCrc := crcWrite 0 [];
     CurrentSize := 0; DFlate := flate |}.

(** [DecompressionWriter.Write]: the first call drops ten bytes ([p[10:]]
    panics on a shorter [p]); the last eight bytes seen are kept as the
    trailer; all of [p] goes to the flate writer. *)
Definition DecompressionWriter_Write (p : list Z) : stateful DecompressionCore unit :=
  fun core =>
    match (if IsHeaderParsed core then Ok p else slice p 10 (len p)) with
    | Ok p =>
      let trailer :=
        if len (Trailer core) + len p <? 8 then Ok (Trailer core ++ p)
        else if len p <? 8 then
          let* t := slice (Trailer core) (len p) (len (Trailer core)) in Ok (t ++ p)
        else
          let* t := slice p (len p - 8) (len p) in
          Ok (take (length (Trailer core)) t ++ drop (length t) (Trailer core)) in
      match trailer with
      | Ok trailer =>
        let upd f := {| DPipe := DPipe core; IsHeaderParsed := true; Trailer := trailer;
                        CurrentCrc := CurrentCrc core; CurrentSize := CurrentSize core;
                        DFlate := f |} in
        match Flate.DecompressionWriter_Write p (DFlate core) with
        | ROk _ f => ROk tt (upd f)
        | RErr e f => RErr e (upd f)
        | RPanic => RPanic
        | RDiverge => RDiverge
        end
      | _ => RPanic
      end
    | _ => RPanic
    end.

(** [DecompressionWriter.Close]: as in the compressor, an error of the
    flate writer's [Close] panics in its goroutine. *)
Definition DecompressionWriter_Close : stateful DecompressionCore unit :=
  fun core =>
    let upd pipe f := {| DPipe := pipe; IsHeaderParsed := IsHeaderParsed core;
                         Trailer := Trailer core; CurrentCrc := CurrentCrc core;
                         CurrentSize := CurrentSize core; DFlate := f |} in
    match Flate.DecompressionWriter_Close (DFlate core) with
    | ROk _ f =>
      match Flate.DecompressionReader_ReadAll f with
      | ROk inflated f =>
        match Flate.DecompressionReader_Close f with
        | ROk _ f => ROk tt (upd (DPipe core ++ inflated) f)
        | RErr e f => RErr e (upd (DPipe core ++ inflated) f)
        | RPanic => RPanic
        | RDiverge => RDiverge
        end
      | RErr e f => RErr e (upd (DPipe core) f)
      | RPanic => RPanic
      | RDiverge => RDiverge
      end
    | RErr _ _ => RPanic
    | RPanic => RPanic
    | RDiverge => RDiverge
    end.

(** [io.ReadAll] on the reader: every [Read] adds to the running size and
    checksum. *)
Definition DecompressionReader_ReadAll : stateful DecompressionCore (list Z) :=
  fun core =>
    let data := DPipe core in
    ROk data {| DPipe := []; IsHeaderParsed := IsHeaderParsed core; Trailer := Trailer core;
                CurrentCrc := crcWrite (CurrentCrc core) data;
                CurrentSize := u32 (CurrentSize core + u32 (len data));
                DFlate := DFlate core |}.

(** [DecompressionReader.Close]: the comparison with the trailer *)
Definition DecompressionReader_Close : stateful DecompressionCore unit :=
  fun core =>
    if negb (len (Trailer core) =? 8) then RErr ErrTrailerInsufficient core
    else
      match Uint32 (Trailer core), Uint32 (drop 4 (Trailer core)) with
      | Ok givenCrc, Ok givenSize =>
        if negb (givenSize =? CurrentSize core) then RErr ErrSizeMismatch core
        else if negb (givenCrc =? CurrentCrc core) then RErr ErrCrcMismatch core
        else ROk tt core
      | _, _ => RPanic
      end.

End Gzip.

(** ** Package compression: the dispatcher *)

Module Compression.
Import Go.

Definition SupportedAlgorithms : list string := ["huffman"; "lzss"; "flate"; "gzip"]%string.

Record Options : Type := {
  Algorithm : string;
  BType : Z;
  BFinal : Z
}.

(** An [io.ReadCloser] and an [io.WriteCloser] over a shared core: what
    the [New...ReaderAndWriter] methods of an [AlgorithmFactory] return.
    [ReadAll] is [io.ReadAll] on the reader. *)
Record ReaderAndWriter : Type := {
  core : Type;
  new : core;
  Write : list Z -> stateful core unit;
  WriterClose : stateful core unit;
  ReadAll : stateful core (list Z);
  ReaderClose : stateful core unit
}.

Class AlgorithmFactory : Type := {
  NewCompressionReaderAndWriter : Options -> ReaderAndWriter;
  NewDecompressionReaderAndWriter : Options -> ReaderAndWriter
}.

Section Factories.

(** The two places where the behaviour of the huffman codec is left open
    by Go: see [Huffman.compress] and [Huffman.IsDigit]. *)
Variable mapRange : gmap Z Z -> list (Z * Z).
Variable isDigitExcludingLatin : Z -> bool.

(** The file [com.o] of the working directory when the gzip compressor
    is built: see [Gzip.CompressionCore]. *)
Variable comO : option (list Z).

Definition HuffmanFactory : AlgorithmFactory := {|
  NewCompressionReaderAndWriter _ :=
    {| new := Huffman.newBuffers;
       Write := Huffman.Writer_Write;
       WriterClose := Huffman.Writer_Close (Huffman.compress mapRange);
       ReadAll := Huffman.Reader_ReadAll;
       ReaderClose := Huffman.Reader_Close |};
  NewDecompressionReaderAndWriter _ :=
    {| new := Huffman.newBuffers;
       Write := Huffman.Writer_Write;
       WriterClose := Huffman.Writer_Close (Huffman.decompress isDigitExcludingLatin);
       ReadAll := Huffman.Reader_ReadAll;
       ReaderClose := Huffman.Reader_Close |}
|}.

(** [lzss.NewCompressionReaderAndWriter(4096, 4096)] keeps
    [min(matchLength, matchDistance)] as the match length. *)
Definition LZSSFactory : AlgorithmFactory := {|
  NewCompressionReaderAndWriter _ :=
    {| new := Huffman.newBuffers;
       Write := Huffman.Writer_Write;
       WriterClose :=
         Huffman.Writer_Close (fun data => Lzss.compress data 4096 (Z.min 4096 4096));
       ReadAll := Huffman.Reader_ReadAll;
       ReaderClose := Huffman.Reader_Close |};
  NewDecompressionReaderAndWriter _ :=
    {| new := Huffman.newBuffers;
       Write := Huffman.Writer_Write;
       WriterClose := Huffman.Writer_Close Lzss.decompress;
       ReadAll := Huffman.Reader_ReadAll;
       ReaderClose := Huffman.Reader_Close |}
|}.

(** [btype := options.BType; if btype == 0 { btype = 2 }] *)
Definition defaultBType (options : Options) : Z :=
  if BType options =? 0 then 2 else BType options.

Definition FlateFactory : AlgorithmFactory := {|
  NewCompressionReaderAndWriter options :=
    {| new := Flate.NewCompressionReaderAndWriter (defaultBType options) (BFinal options);
       Write := Flate.CompressionWriter_Write;
       WriterClose := Flate.CompressionWriter_Close;
       ReadAll := Flate.CompressionReader_ReadAll;
       ReaderClose := Flate.CompressionReader_Close |};
  NewDecompressionReaderAndWriter _ :=
    {| new := Flate.NewDecompressionReaderAndWriter;
       Write := Flate.DecompressionWriter_Write;
       WriterClose := Flate.DecompressionWriter_Close;
       ReadAll := Flate.DecompressionReader_ReadAll;
       ReaderClose := Flate.DecompressionReader_Close |}
|}.

(** [GzipFactory.NewDecompressionReaderAndWriter] *)
Definition GzipDecompression : ReaderAndWriter :=
  {| new := Gzip.NewDecompressionReaderAndWriter Flate.NewDecompressionReaderAndWriter;
     Write := Gzip.DecompressionWriter_Write;
     WriterClose := Gzip.DecompressionWriter_Close;
     ReadAll := Gzip.DecompressionReader_ReadAll;
     ReaderClose := Gzip.DecompressionReader_Close |}.

Definition GzipFactory : AlgorithmFactory := {|
  NewCompressionReaderAndWriter options :=
    {| new := Gzip.NewCompressionReaderAndWriter comO
                (Flate.NewCompressionReaderAndWriter (defaultBType options) (BFinal options));
       Write := Gzip.CompressionWriter_Write;
       WriterClose := Gzip.CompressionWriter_Close;
       ReadAll := Gzip.CompressionReader_ReadAll;
       ReaderClose := Gzip.CompressionReader_Close |};
  NewDecompressionReaderAndWriter _ := GzipDecompression
|}.

Definition factoryMap (algorithm : string) : option AlgorithmFactory :=
  if String.eqb algorithm "huffman" then Some HuffmanFactory
  else if String.eqb algorithm "lzss" then Some LZSSFactory
  else if String.eqb algorithm "flate" then Some FlateFactory
  else if String.eqb algorithm "gzip" then Some GzipFactory
  else None.

Definition IsValidAlgorithm (algorithm : string) : bool :=
  match factoryMap algorithm with Some _ => true | None => false end.

(** The two deferred calls of [processData], run when it returns [r]:
    [writer.Close()] once more, then [reader.Close()].  What they return
    is dropped; a panic in them replaces [r]. *)
Definition deferred (rw : ReaderAndWriter) (s : core rw) (r : outcome (list Z))
    : outcome (list Z) :=
  let after (s : core rw) :=
    match ReaderClose rw s with
    | RPanic => Panic
    | RDiverge => Diverge
    | _ => r
    end in
  match WriterClose rw s with
  | ROk _ s => after s
  | RErr _ s => after s
  | RPanic => Panic
  | RDiverge => Diverge
  end.

(** [processData] up to its [return]: the input is written, the writer
    closed, and the result collected.  The goroutine that reads is taken at
    the schedule in which it delivers: it reads once the writer has been
    closed (an earlier [Read] of the huffman and lzss readers returns an
    error), and the [select] takes its result (with both channels ready it
    may also take the closed error channel, and [processData] then returns
    "unexpected error during processing"). *)
Definition exchange (inputData : list Z) (rw : ReaderAndWriter)
    : result (core rw) (list Z) :=
  match Write rw inputData (new rw) with
  | RErr e s => RErr (ErrFailedToWrite e) s
  | RPanic => RPanic
  | RDiverge => RDiverge
  | ROk _ s =>
    match WriterClose rw s with
    | RErr e s => RErr (ErrFailedToClose e) s
    | RPanic => RPanic
    | RDiverge => RDiverge
    | ROk _ s => ReadAll rw s
    end
  end.

(** [processData] *)
Definition processData (inputData : list Z) (rw : ReaderAndWriter) : outcome (list Z) :=
  match exchange inputData rw with
  | ROk data s => deferred rw s (Ok data)
  | RErr e s => deferred rw s (Err e)
  | RPanic => Panic
  | RDiverge => Diverge
  end.

Definition wrap (w : error -> error) (r : outcome (list Z)) : outcome (list Z) :=
  match r with
  | Err e => Err (w e)
  | _ => r
  end.

(** [Compress]; of its results the bytes are kept (the statistics are
    lengths and a floating-point ratio). *)
Definition Compress (data : list Z) (options : Options) : outcome (list Z) :=
  match factoryMap (Algorithm options) with
  | None => Err ErrUnsupportedAlgorithm
  | Some factory =>
    wrap ErrCompressionFailed
         (processData data (@NewCompressionReaderAndWriter factory options))
  end.

Definition Decompress (data : list Z) (options : Options) : outcome (list Z) :=
  match factoryMap (Algorithm options) with
  | None => Err ErrUnsupportedAlgorithm
  | Some factory =>
    wrap ErrDecompressionFailed
         (processData data (@NewDecompressionReaderAndWriter factory options))
  end.

End Factories.

End Compression.

(** ** Package handlers: the helpers of the file names *)

Module Handlers.
Import Go.

(** The loop [for i := len(filename) - 1; i >= 0; i--] of
    [getBaseFilename]; [i] gets smaller in every round. *)
Fixpoint getBaseFilename_loop (fuel : nat) (filename : list Z) (i : Z) : outcome (list Z) :=
  if 0 <=? i then
    let* c := idx filename i in
    if c =? 46 then slice filename 0 i
    else match fuel with
         | O => Diverge
         | S fuel' => getBaseFilename_loop fuel' filename (i - 1)
         end
  else Ok filename.

(** [getBaseFilename], on the bytes of the name *)
Definition getBaseFilename (filename : list Z) : outcome (list Z) :=
  if len filename =? 0 then Ok (bytes "file")
  else getBaseFilename_loop (length filename) filename (len filename - 1).

(** The map [extensions] of [getExtensionForAlgorithm] *)
Definition extensions (algorithm : string) : option string :=
  if String.eqb algorithm "huffman" then Some "huff"%string
  else if String.eqb algorithm "lzss" then Some "lzss"%string
  else if String.eqb algorithm "flate" then Some "flate"%string
  else if String.eqb algorithm "gzip" then Some "gz"%string
  else None.

Definition getExtensionForAlgorithm (algorithm : string) : string :=
  match extensions algorithm with
  | Some ext => ext
  | None => "compressed"%string
  end.

End Handlers.

(** * Vocabulary of the statements *)

(** Trailing padding, as the specification words it: the padding zeros sit
    at the end of the last payload byte, and the decoder drops them there.
    (The code pads in front, see [Huffman.huffmanCodeOf].) *)
Definition spec_trailing_unpad (pad : Z) (payload : list Z) : list bool :=
  let all := concat (map Huffman.byteBits payload) in
  take (length all - Z.to_nat pad) all.

(** The kind, byte, length and distance of a token. *)
Definition shape (t : Flate.Token) : Flate.TokenKind * Z * Z * Z :=
  (Flate.Kind t, Flate.Value t, Flate.Length t, Flate.Distance t).

(** A bit reader and a bit writer with nothing in them. *)
Definition readerOf (input : list Z) : Flate.bitReader :=
  {| Flate.rbits := {| Flate.bitsHolder := 0; Flate.bitsCount := 0 |}; Flate.rinput := input |}.
Definition emptyWriter : Flate.bitWriter :=
  {| Flate.wbits := {| Flate.bitsHolder := 0; Flate.bitsCount := 0 |}; Flate.woutput := [] |}.

(** The result of a stateful call without the state it leaves. *)
Definition answer {S A : Type} (r : result S A) : outcome A :=
  match r with
  | ROk a _ => Ok a
  | RErr e _ => Err e
  | RPanic => Panic
  | RDiverge => Diverge
  end.

(** The options of a call that only names the algorithm. *)
Definition optionsFor (algorithm : string) : Compression.Options :=
  {| Compression.Algorithm := algorithm; Compression.BType := 0; Compression.BFinal := 0 |}.

(** The reader and writer that the dispatcher builds for gzip; the
    compressor is built with the file [com.o] as it is then, the
    decompressor does not use the file. *)
Definition gzipCompressor (comO : option (list Z)) (options : Compression.Options)
    : Compression.ReaderAndWriter :=
  @Compression.NewCompressionReaderAndWriter (Compression.GzipFactory comO) options.
Definition gzipDecompressor (options : Compression.Options) : Compression.ReaderAndWriter :=
  Compression.GzipDecompression.

(** ** Vocabulary of the lemmas on the matcher *)

Section MatcherVocabulary.
Import Go Lzss.

(** The text of a reference ends inside the search buffer. *)
Definition within (ref : Reference) : Prop :=
  IsRef ref = true -> Size ref <= NegativeOffset ref.

(** The entries of [pi] below [bound] are in range and point backwards. *)
Definition backwards (pi : list Z) (bound : Z) : Prop :=
  forall m, 0 <= m < bound -> exists x, idx pi m = Ok x /\ 0 <= x <= m.

End MatcherVocabulary.

(** ** Vocabulary of the lemmas on the run-length encoder *)

Section RunLengthVocabulary.
Import Go Flate.

(** The loop of [FindCode] without the two final [resolve] calls. *)
Fixpoint rleSteps (prev : option Z) (lengths : list Z) (st : rleState) : outcome rleState :=
  match lengths with
  | [] => Ok st
  | length :: rest =>
    let* st := rleStep prev length st in
    rleSteps (Some length) rest st
  end.

(** The two final [resolve] calls. *)
Definition finish (prev : option Z) (st : rleState) : outcome rleState :=
  let* st := resolveCountZero st in
  resolveCountSame prev st.

(** The element before position [length l] of [l], for a vector that
    continues one whose last element was [prev]. *)
Definition lastOr (prev : option Z) (l : list Z) : option Z :=
  match last l with
  | Some x => Some x
  | None => prev
  end.

(** The items [acc] put in front of those of a state. *)
Definition prepend (acc : list condensed) (st : rleState) : rleState :=
  {| countZero := countZero st; countSame := countSame st;
     HuffmanLengthCondensed := acc ++ HuffmanLengthCondensed st |}.

Definition omap {A B : Type} (f : A -> B) (o : outcome A) : outcome B :=
  match o with
  | Ok a => Ok (f a)
  | Err e => Err e
  | Panic => Panic
  | Diverge => Diverge
  end.

Definition lit (v : Z) : condensed := {| RLECode := v; Offset := 0 |}.
Definition rep18 (offset : Z) : condensed := {| RLECode := 18; Offset := offset |}.
Definition rep16 (offset : Z) : condensed := {| RLECode := 16; Offset := offset |}.

Definition fresh : rleState :=
  {| countZero := 0; countSame := 0; HuffmanLengthCondensed := [] |}.

(** What holds between the rounds of the loop: the counters are below the
    values at which the loop flushes them, zeros are only pending after a
    zero, repeats only after a non-zero length. *)
Definition rleInv (prev : option Z) (st : rleState) : Prop :=
  0 <= countZero st < 138 /\ 0 <= countSame st < 6 /\
  (countZero st <> 0 -> prev = Some 0) /\
  (countSame st <> 0 -> exists p, prev = Some p /\ p <> 0).

Definition settled (st : rleState) : Prop := countZero st = 0 /\ countSame st = 0.

End RunLengthVocabulary.

(** ** Vocabulary of the lemmas on the Huffman framing *)

(** The padding that [encode] announces for a bit string of length [n]. *)
Definition padding (n : Z) : Z := (8 - n mod 8) mod 8.

(** ** Two gzip members *)

(** The gzip member of "aaaaaa", and the same with the last byte of its
    CRC flipped. *)
Definition member : list Z :=
  Gzip.header ++ [13; 194; 1; 9; 0; 0; 0; 128; 160; 173; 254; 63; 81; 32; 22]
  ++ [248; 25; 228; 90] ++ [6; 0; 0; 0].
Definition corrupted : list Z :=
  Gzip.header ++ [13; 194; 1; 9; 0; 0; 0; 128; 160; 173; 254; 63; 81; 32; 22]
  ++ [248; 25; 228; 165] ++ [6; 0; 0; 0].

(** ** Vocabulary of the lemmas on UTF-8 *)

(** A byte, and a Unicode scalar value (what a rune holds after a
    conversion from a string). *)
Definition byte (b : Z) : Prop := 0 <= b < 256.
Definition scalar (r : Z) : Prop := 0 <= r < 55296 \/ 57343 < r <= 1114111.

(** ** Vocabulary of the lemmas on the copies of the matcher *)

Section CopyVocabulary.
Import Go Lzss.

(** The first [k] symbols of [pattern] are the [k] symbols of [text] that
    end before position [e]. *)
Definition occurs (pattern text : list Z) (k e : Z) : Prop :=
  forall t, 0 <= t < k -> exists x, idx pattern t = Ok x /\ idx text (e - k + t) = Ok x.

(** Below [bound], [pi[m]] is the length of a proper border of the first
    [m + 1] symbols of [pattern]. *)
Definition borders (pattern pi : list Z) (bound : Z) : Prop :=
  forall m, 0 <= m < bound ->
    exists j, idx pi m = Ok j /\ 0 <= j <= m /\ occurs pattern pattern j (m + 1).

(** What a reference says about the content at position [i]: a
    back-reference of size [s] and offset [n] stands for the [s] symbols
    at [i], which are also the [s] symbols at [i - n]; any other reference
    stands for the symbol at [i]. *)
Definition copies (content : list Z) (matchDistance matchLength i : Z) (ref : Reference) : Prop :=
  if IsRef ref then
    2 <= Size ref <= matchLength /\
    Size ref <= NegativeOffset ref <= matchDistance /\
    slice content i (i + Size ref) = Ok (Value ref) /\
    slice content (i - NegativeOffset ref) (i - NegativeOffset ref + Size ref) = Ok (Value ref)
  else
    Size ref = 1 /\ NegativeOffset ref = 0 /\ slice content i (i + 1) = Ok (Value ref).

(** A literal, or a match token within the limits of the format. *)
Definition wellFormed (token : Flate.Token) : Prop :=
  match Flate.Kind token with
  | Flate.LiteralToken => True
  | Flate.MatchToken =>
    3 <= Flate.Length token <= 258 /\ Flate.Length token <= Flate.Distance token <= 32768
  | Flate.EndOfBlockToken => False
  end.

Definition sevenBit (b : Z) : Prop := 0 <= b < 128.

End CopyVocabulary.

(** ** Vocabulary of the lemmas on the code tables *)

Section CodeTableVocabulary.
Import Go Flate.

(** [P] holds on the [2 ^ k] values from [lo] on. *)
Fixpoint allBelow (k : nat) (lo : Z) (P : Z -> bool) : bool :=
  match k with
  | O => P lo
  | S k' => allBelow k' lo P && allBelow k' (lo + 2 ^ Z.of_nat k') P
  end.

(** The two bytes that hold the low 16 bits of [offset], low byte first. *)
Definition lowBytes (offset : Z) : list Z := [offset mod 256; offset / 256].

(** The length code found for [value] is in the table, its offset fits the
    extra bits of the code, and the rule of the decoder for that code,
    reading that offset, gives [value] back. *)
Definition lengthCodeAgrees (value : Z) : bool :=
  match LitLengthCode_FindCode value with
  | Ok (code, offset) =>
    (257 <=? code) && (code <=? 285) && (0 <=? offset)
    && (offset <? 2 ^ ExtraBits (alphabet lenAlphabets code))
    && match decodeLitLenRule code (readerOf (lowBytes offset)) with
       | ROk (MatchToken, length, lengthOffset) _ => (length =? value) && (lengthOffset =? offset)
       | _ => false
       end
  | _ => false
  end.

Definition distanceCodeAgrees (value : Z) : bool :=
  match DistanceCode_FindCode value with
  | Ok (code, offset) =>
    (0 <=? code) && (code <=? 29) && (0 <=? offset)
    && (offset <? 2 ^ ExtraBits (alphabet distAlphabets code))
    && match decodeDistRule code (readerOf (lowBytes offset)) with
       | ROk (distance, distanceOffset) _ => (distance =? value) && (distanceOffset =? offset)
       | _ => false
       end
  | _ => false
  end.

End CodeTableVocabulary.

(** ** Vocabulary of the lemmas on the expansion of the run lengths *)

Section ExpansionVocabulary.
Import Go Flate.

(** What [expandRule] appends for an item: the rule of the item, with the
    item's offset as the extra bits that it reads. *)
Definition expandItem (lengths : list Z) (item : condensed) : outcome (list Z) :=
  answer (expandRule lengths (RLECode item) (readerOf [Offset item])).

(** The loop of [ReadCondensedHuffman] over given items. *)
Fixpoint expandItems (items : list condensed) (lengths : list Z) : outcome (list Z) :=
  match items with
  | [] => Ok lengths
  | item :: rest =>
    let* more := expandItem lengths item in
    expandItems rest (lengths ++ more)
  end.

(** A code length of the format. *)
Definition codeLength (l : Z) : Prop := 0 <= l <= 15.

(** The code of an item is in the alphabet and its offset fits the extra
    bits of the code. *)
Definition fitsRule (item : condensed) : Prop :=
  0 <= RLECode item <= 18 /\
  0 <= Offset item < 2 ^ ExtraBits (alphabet rleAlphabets (RLECode item)).

(** The lengths that the items emitted so far stand for, followed by the
    runs that the two counters hold, are the lengths read so far. *)
Definition expands (read : list Z) (st : rleState) : Prop :=
  exists expanded,
    expandItems (HuffmanLengthCondensed st) [] = Ok expanded /\
    read = expanded ++ replicate (Z.to_nat (countZero st)) 0
                    ++ replicate (Z.to_nat (countSame st)) (default 0 (last read)) /\
    (forall p, last read = Some p -> p <> 0 -> last expanded = Some p) /\
    Forall fitsRule (HuffmanLengthCondensed st).

(** Reading [n] bits from the byte [o] gives [o]. *)
Definition readsBack (n o : Z) : bool :=
  match readCompressedContent n (readerOf [o]) with
  | ROk o' _ => o' =? o
  | _ => false
  end.

End ExpansionVocabulary.

(** ** Vocabulary of the lemmas on the transmitted code lengths *)

(** The length of the code of a table entry; a symbol without a code has
    a nil entry, transmitted as length 0. *)
Definition lengthOf (info : option Huffman.CanonicalHuffmanCode) : Z :=
  match info with
  | Some c => Huffman.Length c
  | None => 0
  end.

(** ** Vocabulary of the lemmas on the Huffman tree *)

Section TreeVocabulary.
Import Huffman.

(** The leaves of a tree from left to right: symbol and frequency. *)
Fixpoint leavesOf (t : huffmanTree) : list (Z * Z) :=
  match t with
  | huffmanLeaf freq _ symbol => [(symbol, freq)]
  | huffmanNode _ _ l r => leavesOf l ++ leavesOf r
  end.

(** Every inner node carries the sum of the frequencies of its children. *)
Fixpoint sums (t : huffmanTree) : Prop :=
  match t with
  | huffmanLeaf _ _ _ => True
  | huffmanNode freq _ l r => freq = getFrequency l + getFrequency r /\ sums l /\ sums r
  end.

(** The sum of the frequencies of a list of entries. *)
Definition total (entries : list (Z * Z)) : Z := foldr (fun kv s => snd kv + s) 0 entries.

(** The leaf of [symbol] is reached from the root by the turns [path]
    ([false] to the left). *)
Fixpoint leads (t : huffmanTree) (path : bitString) (symbol : Z) : Prop :=
  match t with
  | huffmanLeaf _ _ s => path = [] /\ s = symbol
  | huffmanNode _ _ l r =>
    match path with
    | [] => False
    | turn :: path' => if turn then leads r path' symbol else leads l path' symbol
    end
  end.

End TreeVocabulary.


(** ** Vocabulary of the facts on escaping *)

Section EscapeVocabulary.
Import Go Lzss.

(** The state of the loop of [decodeBackRefs] outside a reference, with
    [derefed] written so far and no reference read before. *)
Definition outside (derefed : list Z) : refState :=
  {| refOn := false; currentNegOffset := 0; currentLength := 0; currentRefStart := 0;
     refValue := []; derefedContent := derefed |}.

End EscapeVocabulary.


(** ** Vocabulary of the facts on the gzip member *)

Section MemberVocabulary.
Import Go Gzip.

(** What a [Write] of [p] passes on: all of [p], or [p] without the ten
    bytes of the header on the first call. *)
Definition passedOn (core : DecompressionCore) (p : list Z) : list Z :=
  if IsHeaderParsed core then p else drop 10 p.

(** The last [n] elements of a list *)
Definition lastBytes (n : nat) (l : list Z) : list Z := drop (length l - n) l.

(** The core with another trailer *)
Definition withTrailer (core : DecompressionCore) (trailer : list Z) : DecompressionCore :=
  {| DPipe := DPipe core; IsHeaderParsed := IsHeaderParsed core; Trailer := trailer;
     CurrentCrc := CurrentCrc core; CurrentSize := CurrentSize core; DFlate := DFlate core |}.

End MemberVocabulary.

(** ** Vocabulary of the facts on the bit stream *)

Section BitStreamVocabulary.
Import Go Flate.

(** The number whose base-256 digits, least significant first, are the
    bytes: the bits of a byte sequence in the order DEFLATE packs them. *)
Definition streamOf (bytes : list Z) : Z := fold_right (fun b acc => b + 256 * acc) 0 bytes.

(** What a writer has been given so far, as a number and as a number of
    bits: the bytes of the output buffer, then the bits of the holder. *)
Definition written (w : bitWriter) : Z :=
  streamOf (woutput w) + bitsHolder (wbits w) * 2 ^ (8 * len (woutput w)).
Definition writtenBits (w : bitWriter) : Z := 8 * len (woutput w) + bitsCount (wbits w).

(** What a reader has still to deliver: the bits of the holder, then the
    bytes of the input buffer. *)
Definition pending (r : bitReader) : Z :=
  bitsHolder (rbits r) + streamOf (rinput r) * 2 ^ bitsCount (rbits r).
Definition pendingBits (r : bitReader) : Z := bitsCount (rbits r) + 8 * len (rinput r).

(** A writer between two calls: fewer than eight bits in the holder. *)
Definition settledWriter (w : bitWriter) : Prop :=
  0 <= bitsCount (wbits w) < 8 /\
  0 <= bitsHolder (wbits w) < 2 ^ bitsCount (wbits w) /\
  Forall byte (woutput w).

Definition soundReader (r : bitReader) : Prop :=
  0 <= bitsCount (rbits r) /\
  0 <= bitsHolder (rbits r) < 2 ^ bitsCount (rbits r) /\
  Forall byte (rinput r).

(** One call of [writeCompressedContent] for every pair (value, nbits),
    and one call of [readCompressedContent] for every width. *)
Fixpoint writeAll (items : list (Z * Z)) : stateful bitWriter unit :=
  match items with
  | [] => ret tt
  | (value, nbits) :: rest =>
    do* _ := writeCompressedContent value nbits in
    writeAll rest
  end.

Fixpoint readAll (widths : list Z) : stateful bitReader (list Z) :=
  match widths with
  | [] => ret []
  | nbits :: rest =>
    do* value := readCompressedContent nbits in
    do* values := readAll rest in
    ret (value :: values)
  end.

(** The low [nbits] bits of [value] *)
Definition lowBits (item : Z * Z) : Z := fst item mod 2 ^ snd item.

(** At most 25 bits at a time: what the reader's 32-bit holder can take
    on top of the seven bits that may be left in it. *)
Definition narrow (item : Z * Z) : Prop := 0 <= snd item <= 25.

End BitStreamVocabulary.

(** ** Vocabulary of the facts on the canonical codes *)

Section CanonicalVocabulary.
Import Go Huffman.

(** The weight of a table of counts by length: an entry at index [i] of a
    table with last index [M] weighs [2 ^ (M - i)] per unit (the Kraft sum
    of the lengths counted, times [2 ^ M]). *)
Fixpoint weigh (counts : list Z) : Z :=
  match counts with
  | [] => 0
  | c :: rest => c * 2 ^ len rest + weigh rest
  end.

(** The number of the entries of an order that have length [l] *)
Definition occurrences (l : Z) (order : list (Z * Z)) : Z :=
  len (filter (fun item => snd item = l) order).

(** The weight of a vector of code lengths: [2 ^ (M - l)] for every
    non-zero length [l]. *)
Fixpoint kraft (M : Z) (lengths : list Z) : Z :=
  match lengths with
  | [] => 0
  | l :: rest => (if l =? 0 then 0 else 2 ^ (M - l)) + kraft M rest
  end.

(** The path that [buildCanonicalHuffmanTree] follows for a code: its
    bits from the lowest on, [true] for the right child. *)
Fixpoint pathBits (length : nat) (code : Z) : list bool :=
  match length with
  | O => []
  | S length' => negb (Z.land code 1 =? 0) :: pathBits length' (Z.shiftr code 1)
  end.

(** The node found along a path; [nilNode] where there is none. *)
Fixpoint nodeAt (node : CanonicalHuffmanNode) (path : list bool) {struct path}
    : CanonicalHuffmanNode :=
  match path with
  | [] => node
  | b :: rest =>
    match node with
    | nilNode => nilNode
    | mkNode _ _ l r => nodeAt (if b then r else l) rest
    end
  end.

Definition isLeafNode (node : CanonicalHuffmanNode) : bool :=
  match node with
  | mkNode _ true _ _ => true
  | _ => false
  end.

(** The node is a leaf that carries the symbol. *)
Definition leafOf (node : CanonicalHuffmanNode) (symbol : Z) : Prop :=
  exists d l r, node = mkNode (Some d) true l r /\ Symbol d = symbol.

(** A decoding tree for a list of (path, symbol): the leaves of the tree
    are at the paths of the list, with their symbols, and no path of the
    list begins another. *)
Definition decodes (root : CanonicalHuffmanNode) (codes : list (list bool * Z)) : Prop :=
  root <> nilNode /\
  (forall path symbol, In (path, symbol) codes -> leafOf (nodeAt root path) symbol) /\
  (forall path, isLeafNode (nodeAt root path) = true -> In path (map fst codes)) /\
  (forall p q, In p (map fst codes) -> In q (map fst codes) ->
               (exists rest, q = p ++ rest) -> p = q).

End CanonicalVocabulary.

Section PathVocabulary.

(** The number whose bits, from the lowest on, are the bits of a path. *)
Fixpoint bitsValue (path : list bool) : Z :=
  match path with
  | [] => 0
  | b :: rest => (if b then 1 else 0) + 2 * bitsValue rest
  end.

(** The reader holds fewer than 33 bits, as its [uint32] holder does. *)
Definition withinHolder (r : Flate.bitReader) : Prop :=
  Flate.bitsCount (Flate.rbits r) <= 32.

End PathVocabulary.

Section CountVocabulary.
Import Go.

(** The number of the entries of a vector that are the non-zero length [m] *)
Definition entriesOf (m : Z) (lengths : list Z) : Z :=
  if m =? 0 then 0 else len (filter (fun l => l = m) lengths).

End CountVocabulary.

Section AgreementVocabulary.
Import Go Huffman.

(** The path of a code of the table: its bits from the highest on. *)
Definition codePath (h : CanonicalHuffmanCode) : list bool :=
  pathBits (Z.to_nat (Huffman.Length h)) (Reverse (Code h) (Huffman.Length h)).

(** The first code of a length: twice the weight of the counts below. *)
Definition baseCode (counts : list Z) (l : Z) : Z := 2 * weigh (take (Z.to_nat l) counts).

(** What holds between two rounds of the loops over the order, in the
    encoder and in the decoder: the entries [done] have been given their
    codes, in the table [output] and in the tree [root]. *)
Definition stage (counts : list Z) (size : Z) (done : list (Z * Z)) (nextBaseCode : list Z)
    (output : list (option CanonicalHuffmanCode)) (root : CanonicalHuffmanNode)
    (codes : list (list bool * Z)) : Prop :=
  len nextBaseCode = len counts /\
  (forall l, 0 <= l < len counts ->
             idx nextBaseCode l = Ok (baseCode counts l + occurrences l done)) /\
  len output = size /\
  decodes root codes /\
  (forall p s, In (p, s) codes ->
     exists l c, In (s, l) done /\ p = pathBits (Z.to_nat l) (Reverse c l) /\
                 baseCode counts l <= c < baseCode counts l + occurrences l done) /\
  (forall s l, In (s, l) done ->
     exists c, idx output s = Ok (Some {| Code := c; Length := l |}) /\
               In (pathBits (Z.to_nat l) (Reverse c l), s) codes /\ 0 <= c < 2 ^ l) /\
  (forall s, 0 <= s < size -> ~ In s (map fst done) -> idx output s = Ok None).

End AgreementVocabulary.

Section DepthVocabulary.
Import Go Huffman.

(** The leaves of a tree from left to right, with their depths below a
    root of depth [d]. *)
Fixpoint depths (t : huffmanTree) (d : Z) : list (Z * Z) :=
  match t with
  | huffmanLeaf _ _ symbol => [(symbol, d)]
  | huffmanNode _ _ l r => depths l (d + 1) ++ depths r (d + 1)
  end.

(** The assignments [lengths[symbol] = depth] of [dfs], one after the other *)
Definition setAll (lengths : list Z) (items : list (Z * Z)) : list Z :=
  fold_left (fun lengths item => <[Z.to_nat (fst item) := snd item]> lengths) items lengths.

(** The weight of the depths: [2 ^ (M - depth)] for every leaf. *)
Definition depthWeight (M : Z) (items : list (Z * Z)) : Z :=
  fold_right (fun item acc => 2 ^ (M - snd item) + acc) 0 items.

End DepthVocabulary.

(** * Properties *)

(** ** Bit reversal *)

Section ReverseFacts.
Import Go Huffman.

Lemma u32_small (x : Z) : 0 <= x < 2 ^ 32 -> u32 x = x.
Proof. intros H. unfold u32. apply Z.mod_small. exact H. Qed.

(** One round of the loop pushes the low bit of [n] under the bits of [out]. *)
Lemma push_bit_testbit (out n i : Z) :
  0 <= i ->
  Z.testbit (Z.lor (Z.shiftl out 1) (Z.land n 1)) i =
  if i =? 0 then Z.testbit n 0 else Z.testbit out (i - 1).
Proof.
  intros Hi. rewrite Z.lor_spec, Z.land_spec, Z.shiftl_spec by lia.
  destruct (Z.eqb_spec i 0) as [-> | Hne].
  - rewrite Z.testbit_neg_r by lia. change (Z.testbit 1 0) with true.
    now rewrite andb_true_r.
  - replace (Z.testbit 1 i) with false.
    + now rewrite andb_false_r, orb_false_r.
    + symmetry. apply (Z.bounded_iff_bits_nonneg 1 1); lia.
Qed.

Lemma push_bit_bound (out n m : Z) :
  0 <= m -> 0 <= out < 2 ^ m ->
  0 <= Z.lor (Z.shiftl out 1) (Z.land n 1) < 2 ^ (m + 1).
Proof.
  intros Hm Hout.
  assert (Hnn : 0 <= Z.lor (Z.shiftl out 1) (Z.land n 1)).
  { apply Z.lor_nonneg. split.
    - apply Z.shiftl_nonneg. lia.
    - apply Z.land_nonneg. right. lia. }
  split; [exact Hnn|].
  apply (Z.bounded_iff_bits_nonneg (m + 1)); [lia | exact Hnn |].
  intros l Hl. rewrite push_bit_testbit by lia.
  destruct (Z.eqb_spec l 0); [lia|].
  apply (Z.bounded_iff_bits_nonneg m out); lia.
Qed.

(** The loop of [Reverse] after [k] rounds: the low [k] bits of the result
    are the low [k] bits of [n] in reverse order, above them sit the bits
    that [out] had. *)
Lemma Reverse_loop_spec (k : nat) : forall (n out m : Z),
  0 <= m -> 0 <= out < 2 ^ m -> m + Z.of_nat k <= 32 ->
  0 <= Reverse_loop k n out < 2 ^ (m + Z.of_nat k) /\
  forall i, 0 <= i ->
    Z.testbit (Reverse_loop k n out) i =
    if i <? Z.of_nat k then Z.testbit n (Z.of_nat k - 1 - i)
    else Z.testbit out (i - Z.of_nat k).
Proof.
  induction k as [|k IH]; intros n out m Hm Hout Hk.
  - change (Z.of_nat 0) with 0. cbn [Reverse_loop]. rewrite Z.add_0_r. split; [exact Hout|].
    intros i Hi. destruct (Z.ltb_spec i 0); [lia|]. now rewrite Z.sub_0_r.
  - cbn [Reverse_loop].
    pose proof (push_bit_bound out n m Hm Hout) as Hb.
    assert (Hpow : 2 ^ (m + 1) <= 2 ^ 32) by (apply Z.pow_le_mono_r; lia).
    rewrite u32_small by lia.
    destruct (IH (Z.shiftr n 1) (Z.lor (Z.shiftl out 1) (Z.land n 1)) (m + 1))
      as [Hrange Hbits]; [lia | exact Hb | lia |].
    split.
    + replace (m + Z.of_nat (S k)) with (m + 1 + Z.of_nat k) by lia. exact Hrange.
    + intros i Hi. rewrite Hbits by exact Hi.
      destruct (Z.ltb_spec i (Z.of_nat k)) as [Hlt | Hge].
      * destruct (Z.ltb_spec i (Z.of_nat (S k))); [|lia].
        rewrite Z.shiftr_spec by lia. f_equal. lia.
      * rewrite push_bit_testbit by lia.
        destruct (Z.eqb_spec (i - Z.of_nat k) 0) as [Heq | Hne].
        -- destruct (Z.ltb_spec i (Z.of_nat (S k))); [|lia]. f_equal. lia.
        -- destruct (Z.ltb_spec i (Z.of_nat (S k))); [lia|]. f_equal. lia.
Qed.

Lemma Reverse_spec (n L : Z) :
  0 <= L <= 32 ->
  0 <= Reverse n L < 2 ^ L /\
  forall i, 0 <= i ->
    Z.testbit (Reverse n L) i = if i <? L then Z.testbit n (L - 1 - i) else false.
Proof.
  intros HL. unfold Reverse.
  destruct (Reverse_loop_spec (Z.to_nat L) n 0 0) as [Hrange Hbits]; [lia | simpl; lia | lia |].
  rewrite Z2Nat.id in Hrange, Hbits by lia. rewrite Z.add_0_l in Hrange.
  split; [exact Hrange|].
  intros i Hi. rewrite Hbits by exact Hi.
  destruct (Z.ltb_spec i L); [reflexivity | apply Z.bits_0].
Qed.

(** C9. For every natural number [n < 2^L] and every bit length [L <= 32],
    reversing the low [L] bits of [n] twice gives [n] back:
    [Reverse (Reverse n L) L = n]. *)
Theorem Reverse_involutive (n L : Z) :
  0 <= L <= 32 -> 0 <= n < 2 ^ L ->
  Reverse (Reverse n L) L = n.
Proof.
  intros HL Hn.
  destruct (Reverse_spec n L HL) as [_ Hinner].
  destruct (Reverse_spec (Reverse n L) L HL) as [_ Houter].
  apply Z.bits_inj'. intros i Hi.
  rewrite Houter by exact Hi.
  destruct (Z.ltb_spec i L) as [Hlt | Hge].
  - rewrite Hinner by lia.
    destruct (Z.ltb_spec (L - 1 - i) L); [|lia]. f_equal. lia.
  - symmetry. apply (Z.bounded_iff_bits_nonneg L n); lia.
Qed.

Lemma Reverse_involutive_witness :
  (0 <= 5 <= 32) /\ (0 <= 22 < 2 ^ 5) /\ Reverse 22 5 = 13 /\ Reverse (Reverse 22 5) 5 = 22.
Proof.
  split; [lia|]. split; [vm_compute; split; [discriminate | reflexivity]|].
  split; [reflexivity|].
  apply (Reverse_involutive 22 5); [lia | vm_compute; split; [discriminate | reflexivity]].
Defined.

End ReverseFacts.

(** ** Reasoning about outcomes *)

Lemma bind_Ok {A B : Type} (m : outcome A) (k : A -> outcome B) (b : B) :
  bind m k = Ok b -> exists a, m = Ok a /\ k a = Ok b.
Proof. destruct m; simpl; intros H; try discriminate. eauto. Qed.

Lemma bind_Err {A B : Type} (m : outcome A) (k : A -> outcome B) (e : error) :
  bind m k = Err e -> m = Err e \/ exists a, m = Ok a /\ k a = Err e.
Proof. destruct m; simpl; intros H; try discriminate; eauto. left. congruence. Qed.

(** Splits a hypothesis [let* x := m in k = Ok b] into its two steps. *)
Ltac bind_ok H :=
  let a := fresh "a" in
  let Ha := fresh "Ha" in
  apply bind_Ok in H; destruct H as (a & Ha & H).

Lemma slice_take_drop {A : Type} (l : list A) (lo hi : Z) :
  0 <= lo <= hi -> hi <= Go.len l ->
  Go.slice l lo hi = Ok (take (Z.to_nat (hi - lo)) (drop (Z.to_nat lo) l)).
Proof.
  intros H1 H2. unfold Go.slice, Go.len in *.
  destruct (Z.ltb_spec lo 0); [lia|].
  destruct (Z.ltb_spec hi lo); [lia|].
  destruct (Z.ltb_spec (Z.of_nat (length l)) hi); [lia|]. reflexivity.
Qed.

(** ** The matcher never produces an overlapping reference *)

Section MatcherFacts.
Import Go Lzss.

(** While [kmp] scans, the best match found so far ends at or before the
    position of the scan. *)
Lemma kmp_loop_inside (searchBuffer : list Z) :
  forall (pattern pi : list Z) (i best k bestIndex b bi : Z),
    kmp_loop searchBuffer pattern pi i best k bestIndex = Ok (b, bi) ->
    best + bestIndex <= i ->
    b + bi <= i + len searchBuffer.
Proof.
  induction searchBuffer as [|c rest IH]; intros pattern pi i best k bestIndex b bi H Hinv.
  - simpl in H. injection H as <- <-. unfold len. simpl. lia.
  - cbn [kmp_loop] in H. bind_ok H. bind_ok H.
    assert (Hlen : len (c :: rest) = 1 + len rest).
    { unfold len. cbn [length]. lia. }
    rewrite Hlen.
    destruct (best <? _) eqn:Hbest.
    + destruct (_ =? len pattern) eqn:Hfull.
      * injection H as <- <-. pose proof (Nat2Z.is_nonneg (length rest)). unfold len. lia.
      * apply IH in H; lia.
    + apply IH in H; lia.
Qed.

Lemma kmp_inside (searchBuffer pattern : list Z) (b bi : Z) :
  kmp searchBuffer pattern = Ok (b, bi) -> b + bi <= len searchBuffer.
Proof.
  unfold kmp. intros H. bind_ok H.
  apply kmp_loop_inside in H; lia.
Qed.

Lemma matchSearchBuffer_within (searchBuffer scanRunes nextRunes : list Z) (ref : Reference) :
  matchSearchBuffer searchBuffer scanRunes nextRunes = Ok ref -> within ref.
Proof.
  unfold matchSearchBuffer. intros H. bind_ok H. destruct a as [matchedLength matchedAt].
  apply kmp_inside in Ha.
  destruct (1 <? matchedLength).
  - bind_ok H. injection H as <-. intros _. simpl. lia.
  - injection H as <-. intros Href. simpl in Href. discriminate.
Qed.

Lemma FindMatch_loop_within (count : nat) :
  forall (content : list Z) (matchDistance matchLength i : Z) (refs : list Reference),
    FindMatch_loop count content matchDistance matchLength i = Ok refs ->
    Forall within refs.
Proof.
  induction count as [|count IH]; intros content matchDistance matchLength i refs H.
  - simpl in H. injection H as <-. constructor.
  - cbn [FindMatch_loop] in H. do 5 bind_ok H. injection H as <-.
    constructor; [eapply matchSearchBuffer_within | eapply IH]; eassumption.
Qed.

(** The tokenizer's overlap test never fires on such references. *)
Lemma tokeniseLZSS_loop_no_overlap (refs : list Reference) :
  Forall within refs ->
  forall (nextRunesToIgnore : Z) (tokens : list Flate.Token),
    Flate.tokeniseLZSS_loop refs nextRunesToIgnore tokens <> Err ErrOverlap.
Proof.
  induction 1 as [|ref rest Href Hrest IH]; intros nextRunesToIgnore tokens.
  - simpl. discriminate.
  - cbn [Flate.tokeniseLZSS_loop].
    destruct (0 <? nextRunesToIgnore); [apply IH|].
    destruct (negb (IsRef ref) || (Size ref <? 3)) eqn:Hlit.
    + intros H. apply bind_Err in H. destruct H as [H | (r & _ & H)].
      * unfold idx in H. destruct (0 <? 0); [discriminate|].
        destruct (Value ref !! Z.to_nat 0); discriminate.
      * exact (IH _ _ H).
    + apply orb_false_elim in Hlit. destruct Hlit as [Hisref _].
      apply negb_false_iff in Hisref. specialize (Href Hisref).
      destruct (Z.ltb_spec (NegativeOffset ref) (Size ref)); [lia|].
      destruct (Flate.maxAllowedMatchLength <? Size ref); [discriminate|].
      destruct (Flate.maxAllowedBackwardDistance <? NegativeOffset ref); [discriminate|].
      apply IH.
Qed.

(** *** The matcher always returns

    Indexing stays in range and the fall-back loops end within their
    budget: the prefix function of a pattern satisfies [pi[m] <= m]. *)

Lemma idx_total {A : Type} (l : list A) (i : Z) :
  0 <= i < len l -> exists x, idx l i = Ok x.
Proof.
  intros H. unfold idx, len in *. destruct (Z.ltb_spec i 0); [lia|].
  destruct (l !! Z.to_nat i) eqn:E; [eauto|].
  apply lookup_ge_None in E. lia.
Qed.

Lemma set_idx_total {A : Type} (l : list A) (i : Z) (x : A) :
  0 <= i < len l -> set_idx l i x = Ok (<[Z.to_nat i := x]> l).
Proof.
  intros H. unfold set_idx, len in *. destruct (Z.ltb_spec i 0); [lia|].
  destruct (Z.leb_spec (Z.of_nat (length l)) i); [lia|]. reflexivity.
Qed.

Lemma idx_insert_eq {A : Type} (l : list A) (i : Z) (x : A) :
  0 <= i < len l -> idx (<[Z.to_nat i := x]> l) i = Ok x.
Proof.
  intros H. unfold idx, len in *. destruct (Z.ltb_spec i 0); [lia|].
  rewrite list_lookup_insert_eq by lia. reflexivity.
Qed.

Lemma idx_insert_ne {A : Type} (l : list A) (i j : Z) (x : A) :
  0 <= i -> 0 <= j -> i <> j -> idx (<[Z.to_nat i := x]> l) j = idx l j.
Proof.
  intros Hi Hj Hne. unfold idx. rewrite list_lookup_insert_ne by lia. reflexivity.
Qed.

Lemma len_insert {A : Type} (l : list A) (i : nat) (x : A) : len (<[i := x]> l) = len l.
Proof. unfold len. now rewrite length_insert. Qed.

Lemma idx_make (n i : Z) : 0 <= i < n -> idx (make 0 n) i = Ok 0.
Proof.
  intros H. unfold idx, make. destruct (Z.ltb_spec i 0); [lia|].
  rewrite lookup_replicate_2 by lia. reflexivity.
Qed.

Lemma len_make (n : Z) : 0 <= n -> len (make 0 n) = n.
Proof. intros H. unfold len, make. rewrite length_replicate. lia. Qed.

Lemma prefixFallback_total (fuel : nat) :
  forall (pattern pi : list Z) (c j : Z),
    0 <= j < len pattern -> (Z.to_nat j <= fuel)%nat -> backwards pi j ->
    exists j', prefixFallback fuel pattern pi c j = Ok j' /\ 0 <= j' <= j.
Proof.
  induction fuel as [|fuel IH]; intros pattern pi c j Hj Hfuel Hpi.
  - assert (j = 0) by lia. subst j. exists 0. simpl. split; [reflexivity | lia].
  - cbn [prefixFallback]. destruct (Z.ltb_spec 0 j) as [Hpos | Hzero].
    + destruct (idx_total pattern j Hj) as (pj & ->). cbn [bind].
      destruct (negb (c =? pj)).
      * destruct (Hpi (j - 1)) as (j' & -> & Hj'); [lia|]. cbn [bind].
        destruct (IH pattern pi c j') as (j'' & -> & Hj''); [lia | lia | |].
        -- intros m Hm. apply Hpi. lia.
        -- exists j''. split; [reflexivity | lia].
      * exists j. split; [reflexivity | lia].
    + exists j. split; [reflexivity | lia].
Qed.

Lemma kmpFallback_total (fuel : nat) (pattern pi : list Z) (b k : Z) :
  0 <= k < len pattern -> (Z.to_nat k <= fuel)%nat -> backwards pi k ->
  exists k', kmpFallback fuel pattern pi b k = Ok k' /\ 0 <= k' <= k.
Proof. exact (prefixFallback_total fuel pattern pi b k). Qed.

Lemma findPrefix_loop_total (count : nat) :
  forall (pattern pi : list Z) (i : Z),
    1 <= i -> i + Z.of_nat count = len pattern -> len pi = len pattern ->
    backwards pi i ->
    exists pi', findPrefix_loop count pattern pi i = Ok pi' /\ backwards pi' (len pattern).
Proof.
  induction count as [|count IH]; intros pattern pi i Hi Hcount Hlen Hpi.
  - exists pi. split; [reflexivity|]. replace (len pattern) with i by lia. exact Hpi.
  - cbn [findPrefix_loop].
    destruct (Hpi (i - 1)) as (j & -> & Hj); [lia|]. cbn [bind].
    destruct (idx_total pattern i) as (c & ->); [lia|]. cbn [bind].
    destruct (prefixFallback_total (Z.to_nat j) pattern pi c j) as (j' & -> & Hj');
      [lia | lia | intros m Hm; apply Hpi; lia |]. cbn [bind].
    destruct (idx_total pattern j') as (pj & ->); [lia|]. cbn [bind].
    rewrite set_idx_total by lia. cbn [bind].
    apply IH; [lia | lia | rewrite len_insert; exact Hlen |].
    intros m Hm. destruct (Z.eq_dec m i) as [-> | Hne].
    + rewrite idx_insert_eq by lia. eexists. split; [reflexivity|].
      destruct (c =? pj); lia.
    + rewrite idx_insert_ne by lia. apply Hpi. lia.
Qed.

Lemma findPrefix_total (pattern : list Z) :
  pattern <> [] ->
  exists pi, findPrefix pattern = Ok pi /\ backwards pi (len pattern).
Proof.
  intros Hne. unfold findPrefix.
  assert (Hlen : 1 <= len pattern).
  { destruct pattern; [contradiction|]. unfold len. simpl. lia. }
  apply findPrefix_loop_total.
  - lia.
  - unfold len in *. lia.
  - apply len_make. lia.
  - intros m Hm. assert (m = 0) by lia. subst m. rewrite idx_make by lia.
    exists 0. split; [reflexivity | lia].
Qed.

Lemma kmp_loop_total (searchBuffer : list Z) :
  forall (pattern pi : list Z) (i best k bestIndex : Z),
    backwards pi (len pattern) ->
    0 <= k < len pattern -> 0 <= best < len pattern ->
    exists b bi,
      kmp_loop searchBuffer pattern pi i best k bestIndex = Ok (b, bi) /\
      0 <= b <= len pattern.
Proof.
  induction searchBuffer as [|c rest IH]; intros pattern pi i best k bestIndex Hpi Hk Hbest.
  - exists best, bestIndex. split; [reflexivity | lia].
  - cbn [kmp_loop].
    destruct (kmpFallback_total (Z.to_nat k) pattern pi c k) as (k' & -> & Hk');
      [lia | lia | intros m Hm; apply Hpi; lia |]. cbn [bind].
    destruct (idx_total pattern k') as (pk & ->); [lia|]. cbn [bind].
    set (k2 := if c =? pk then k' + 1 else k').
    assert (Hk2 : 0 <= k2 <= len pattern) by (subst k2; destruct (c =? pk); lia).
    destruct (Z.ltb_spec best k2).
    + destruct (Z.eqb_spec k2 (len pattern)).
      * exists k2, (i - k2 + 1). split; [reflexivity | lia].
      * apply IH; [exact Hpi | lia | lia].
    + apply IH; [exact Hpi | lia | lia].
Qed.

Lemma matchSearchBuffer_total (searchBuffer scanRunes nextRunes : list Z) :
  scanRunes <> [] ->
  exists ref, matchSearchBuffer searchBuffer scanRunes nextRunes = Ok ref.
Proof.
  intros Hscan. unfold matchSearchBuffer, kmp.
  assert (Hne : scanRunes ++ nextRunes <> []) by (destruct scanRunes; [contradiction | discriminate]).
  assert (Hlen : 1 <= len (scanRunes ++ nextRunes)).
  { destruct (scanRunes ++ nextRunes); [contradiction|]. unfold len. simpl. lia. }
  destruct (findPrefix_total _ Hne) as (pi & -> & Hpi). cbn [bind].
  destruct (kmp_loop_total searchBuffer (scanRunes ++ nextRunes) pi 0 0 0 0 Hpi)
    as (b & bi & -> & Hb); [lia | lia |]. cbn [bind].
  destruct (1 <? b); [|eauto].
  rewrite slice_take_drop by lia. cbn [bind]. eauto.
Qed.

Lemma FindMatch_loop_total (count : nat) :
  forall (content : list Z) (matchDistance matchLength i : Z),
    0 <= matchDistance -> 1 <= matchLength ->
    0 <= i -> i + Z.of_nat count <= len content ->
    exists refs, FindMatch_loop count content matchDistance matchLength i = Ok refs.
Proof.
  induction count as [|count IH]; intros content matchDistance matchLength i Hd Hl Hi Hcount.
  - exists []. reflexivity.
  - cbn [FindMatch_loop].
    rewrite slice_take_drop by lia. cbn [bind].
    destruct (idx_total content i) as (c & ->); [lia|]. cbn [bind].
    rewrite slice_take_drop by lia. cbn [bind].
    destruct (matchSearchBuffer_total
                (take (Z.to_nat (i - Z.max 0 (i - matchDistance)))
                      (drop (Z.to_nat (Z.max 0 (i - matchDistance))) content))
                [c]
                (take (Z.to_nat (Z.min (len content) (i + matchLength) - (i + 1)))
                      (drop (Z.to_nat (i + 1)) content)))
      as (ref & ->); [discriminate|]. cbn [bind].
    destruct (IH content matchDistance matchLength (i + 1)) as (refs & ->); [lia | lia | lia | lia |].
    cbn [bind]. eauto.
Qed.

(** With a window that does not reach forward and a pattern of at least
    one symbol, the matcher returns a reference for every position. *)
Lemma FindMatch_total (content : list Z) (matchDistance matchLength : Z) :
  0 <= matchDistance -> 1 <= matchLength ->
  exists refs, FindMatch content matchDistance matchLength = Ok refs.
Proof.
  intros Hd Hl. unfold FindMatch. apply FindMatch_loop_total; unfold len; lia.
Qed.

(** C10. For every content and every window and pattern size (a window
    that does not reach forward, a pattern of at least one symbol), the
    matcher ([FindMatch], one [kmp] search per position over the window
    before the position) returns its references, every back-reference
    among them has [Size <= NegativeOffset], and the DEFLATE tokenizer
    never takes its rejection branch for overlapping matches on them. *)
Theorem matcher_references_do_not_overlap
    (content : list Z) (matchDistance matchLength : Z) :
  0 <= matchDistance -> 1 <= matchLength ->
  exists refs,
    FindMatch content matchDistance matchLength = Ok refs /\
    Forall (fun ref => IsRef ref = true -> Size ref <= NegativeOffset ref) refs /\
    Flate.tokeniseLZSS refs <> Err ErrOverlap.
Proof.
  intros Hd Hl.
  destruct (FindMatch_total content matchDistance matchLength Hd Hl) as (refs & Hrefs).
  exists refs. split; [exact Hrefs|].
  apply FindMatch_loop_within in Hrefs. split.
  - exact Hrefs.
  - apply tokeniseLZSS_loop_no_overlap. exact Hrefs.
Qed.

End MatcherFacts.

Lemma matcher_references_do_not_overlap_witness :
  exists refs,
    Lzss.FindMatch (Go.bytes "ABABABABAB") 32768 258 = Ok refs /\
    Forall (fun ref => Lzss.IsRef ref = true -> Lzss.Size ref <= Lzss.NegativeOffset ref) refs /\
    Flate.tokeniseLZSS refs <> Err ErrOverlap.
Proof.
  apply (matcher_references_do_not_overlap (Go.bytes "ABABABABAB") 32768 258); lia.
Defined.

(** ** The run-length encoder of code lengths *)

Section RunLengthFacts.
Import Go Flate.

Lemma bind_assoc {A B C : Type} (m : outcome A) (f : A -> outcome B) (g : B -> outcome C) :
  bind (bind m f) g = bind m (fun a => bind (f a) g).
Proof. destruct m; reflexivity. Qed.

Lemma bind_omap {A B C : Type} (h : A -> B) (m : outcome A) (k : B -> outcome C) :
  bind (omap h m) k = bind m (fun a => k (h a)).
Proof. destruct m; reflexivity. Qed.

Lemma omap_bind {A B C : Type} (h : B -> C) (m : outcome A) (k : A -> outcome B) :
  omap h (bind m k) = bind m (fun a => omap h (k a)).
Proof. destruct m; reflexivity. Qed.

Lemma bind_ext {A B : Type} (m : outcome A) (f g : A -> outcome B) :
  (forall a, f a = g a) -> bind m f = bind m g.
Proof. intros H. destruct m; simpl; auto. Qed.

(** *** The items already emitted do not influence the encoder *)

Lemma resolveCountZero_prepend (acc : list condensed) (st : rleState) :
  resolveCountZero (prepend acc st) = omap (prepend acc) (resolveCountZero st).
Proof.
  unfold resolveCountZero, prepend, emitItem. simpl.
  repeat (match goal with |- context [if ?c then _ else _] => destruct c end; simpl);
    try reflexivity; now rewrite app_assoc.
Qed.

Lemma resolveCountSame_prepend (prev : option Z) (acc : list condensed) (st : rleState) :
  resolveCountSame prev (prepend acc st) = omap (prepend acc) (resolveCountSame prev st).
Proof.
  unfold resolveCountSame, prepend, emitItem. simpl.
  repeat (match goal with |- context [if ?c then _ else _] => destruct c end; simpl);
    try reflexivity; try now rewrite app_assoc.
  destruct prev; simpl; [now rewrite app_assoc | reflexivity].
Qed.

Lemma rleStep_prepend (prev : option Z) (x : Z) (acc : list condensed) (st : rleState) :
  rleStep prev x (prepend acc st) = omap (prepend acc) (rleStep prev x st).
Proof.
  unfold rleStep.
  destruct (x =? 0).
  - rewrite resolveCountSame_prepend, bind_omap, omap_bind. apply bind_ext. intros st1.
    unfold prepend, emitItem. simpl.
    destruct (_ =? 138); simpl; [now rewrite app_assoc | reflexivity].
  - destruct (match prev with None => true | Some p => negb (x =? p) end).
    + rewrite resolveCountZero_prepend, bind_omap, omap_bind. apply bind_ext. intros st1.
      rewrite resolveCountSame_prepend, bind_omap, omap_bind. apply bind_ext. intros st2.
      unfold prepend, emitItem. simpl. now rewrite app_assoc.
    + unfold prepend, emitItem. simpl.
      destruct (_ =? 6); simpl; [now rewrite app_assoc | reflexivity].
Qed.

Lemma rleLoop_prepend (l : list Z) :
  forall (prev : option Z) (acc : list condensed) (st : rleState),
    rleLoop prev l (prepend acc st) = omap (prepend acc) (rleLoop prev l st).
Proof.
  induction l as [|x rest IH]; intros prev acc st; cbn [rleLoop].
  - rewrite resolveCountZero_prepend, bind_omap, omap_bind. apply bind_ext. intros st1.
    apply resolveCountSame_prepend.
  - rewrite rleStep_prepend, bind_omap, omap_bind. apply bind_ext. intros st1. apply IH.
Qed.

(** *** The vector can be encoded piece by piece *)

Lemma lastOr_cons (prev : option Z) (x : Z) (l : list Z) :
  lastOr prev (x :: l) = lastOr (Some x) l.
Proof.
  unfold lastOr. destruct l as [|y l]; [reflexivity|].
  change (last (x :: y :: l)) with (last (y :: l)).
  destruct (last (y :: l)) eqn:E; [reflexivity|].
  apply last_None in E. discriminate.
Qed.

Lemma rleLoop_app (l1 : list Z) :
  forall (l2 : list Z) (prev : option Z) (st : rleState),
    rleLoop prev (l1 ++ l2) st =
    let* st' := rleSteps prev l1 st in rleLoop (lastOr prev l1) l2 st'.
Proof.
  induction l1 as [|x rest IH]; intros l2 prev st.
  - reflexivity.
  - cbn [app rleLoop rleSteps]. rewrite bind_assoc. apply bind_ext. intros st1.
    rewrite IH, lastOr_cons. reflexivity.
Qed.

Lemma rleSteps_app (l1 : list Z) :
  forall (l2 : list Z) (prev : option Z) (st : rleState),
    rleSteps prev (l1 ++ l2) st =
    let* st' := rleSteps prev l1 st in rleSteps (lastOr prev l1) l2 st'.
Proof.
  induction l1 as [|x rest IH]; intros l2 prev st.
  - reflexivity.
  - cbn [app rleSteps]. rewrite bind_assoc. apply bind_ext. intros st1.
    rewrite IH, lastOr_cons. reflexivity.
Qed.

(** *** The counters stay within their bounds *)

Lemma settled_prepend (st : rleState) :
  settled st -> st = prepend (HuffmanLengthCondensed st) fresh.
Proof.
  destruct st as [cz cs acc]. intros [Hz Hs]. simpl in Hz, Hs. subst.
  unfold prepend, fresh. simpl. now rewrite app_nil_r.
Qed.

Lemma resolveCountZero_settled (st : rleState) :
  countZero st = 0 -> resolveCountZero st = Ok st.
Proof. intros H. unfold resolveCountZero. now rewrite H. Qed.

Lemma resolveCountSame_settled (prev : option Z) (st : rleState) :
  countSame st = 0 -> resolveCountSame prev st = Ok st.
Proof. intros H. unfold resolveCountSame. now rewrite H. Qed.

Lemma resolveCountZero_ok (st : rleState) :
  0 <= countZero st < 138 ->
  exists st', resolveCountZero st = Ok st' /\ countZero st' = 0 /\ countSame st' = countSame st.
Proof.
  intros H. unfold resolveCountZero.
  destruct (Z.eqb_spec (countZero st) 0) as [Hz | Hz]; simpl; [eauto|].
  destruct (countZero st <? 3); [eauto|].
  destruct (countZero st <? 11); [eauto|].
  destruct (Z.ltb_spec (countZero st) 138); [eauto | lia].
Qed.

Lemma resolveCountSame_ok (prev : option Z) (st : rleState) :
  0 <= countSame st < 6 -> (countSame st <> 0 -> exists p, prev = Some p /\ p <> 0) ->
  exists st', resolveCountSame prev st = Ok st' /\ countSame st' = 0 /\ countZero st' = countZero st.
Proof.
  intros H Hprev. unfold resolveCountSame.
  destruct (Z.eqb_spec (countSame st) 0) as [Hz | Hz]; simpl; [eauto|].
  destruct (Hprev Hz) as (p & -> & _).
  destruct (countSame st <? 3); [simpl; eauto|].
  destruct (Z.ltb_spec (countSame st) 6); [eauto | lia].
Qed.

Lemma finish_ok (prev : option Z) (st : rleState) :
  rleInv prev st -> exists st', finish prev st = Ok st' /\ settled st'.
Proof.
  intros (Hz & Hs & _ & Hp). unfold finish.
  destruct (resolveCountZero_ok st Hz) as (st1 & -> & Hz1 & Hs1). simpl.
  destruct (resolveCountSame_ok prev st1) as (st2 & -> & Hs2 & Hz2).
  - now rewrite Hs1.
  - now rewrite Hs1.
  - exists st2. split; [reflexivity|]. split; congruence.
Qed.

Lemma resolveCountZero_settles (st st' : rleState) :
  resolveCountZero st = Ok st' -> countZero st' = 0 /\ countSame st' = countSame st.
Proof.
  unfold resolveCountZero.
  destruct (Z.eqb_spec (countZero st) 0); simpl; [intros [= <-]; auto|].
  repeat (match goal with |- context [if ?c then _ else _] => destruct c end);
    intros [= <-]; auto.
Qed.

Lemma resolveCountSame_settles (prev : option Z) (st st' : rleState) :
  resolveCountSame prev st = Ok st' -> countSame st' = 0 /\ countZero st' = countZero st.
Proof.
  unfold resolveCountSame.
  destruct (Z.eqb_spec (countSame st) 0); simpl; [intros [= <-]; auto|].
  destruct (countSame st <? 3).
  - intros H. bind_ok H. injection H as <-. auto.
  - destruct (countSame st <? 6); intros [= <-]. auto.
Qed.

Lemma finish_settled (prev : option Z) (st st' : rleState) :
  finish prev st = Ok st' -> settled st'.
Proof.
  unfold finish. intros H. bind_ok H.
  apply resolveCountZero_settles in Ha. apply resolveCountSame_settles in H.
  unfold settled. split; [lia | tauto].
Qed.

Ltac solve_inv :=
  eexists; split; [reflexivity|]; unfold rleInv; simpl;
  repeat split; try lia; try (intros ?; first [lia | contradiction | eauto]).

Lemma rleStep_inv (prev : option Z) (x : Z) (st : rleState) :
  rleInv prev st -> exists st', rleStep prev x st = Ok st' /\ rleInv (Some x) st'.
Proof.
  intros (Hz & Hs & Hpz & Hps). unfold rleStep.
  destruct (Z.eqb_spec x 0) as [-> | Hx].
  - destruct (resolveCountSame_ok prev st Hs Hps) as (st1 & -> & Hs1 & Hz1). simpl.
    destruct (Z.eqb_spec (countZero st1 + 1) 138); solve_inv.
  - destruct (match prev with None => true | Some p => negb (x =? p) end) eqn:Hdiff.
    + destruct (resolveCountZero_ok st Hz) as (st1 & -> & Hz1 & Hs1). simpl.
      destruct (resolveCountSame_ok prev st1) as (st2 & -> & Hs2 & Hz2);
        [now rewrite Hs1 | now rewrite Hs1 |]. simpl.
      solve_inv.
    + destruct prev as [p|]; [|discriminate].
      apply negb_false_iff, Z.eqb_eq in Hdiff. subst p.
      assert (Hcz : countZero st = 0).
      { destruct (Z.eq_dec (countZero st) 0) as [|Hne]; [assumption|].
        specialize (Hpz Hne). congruence. }
      destruct (Z.eqb_spec (countSame st + 1) 6); solve_inv.
Qed.

Lemma rleSteps_inv (l : list Z) :
  forall (prev : option Z) (st : rleState),
    rleInv prev st ->
    exists st', rleSteps prev l st = Ok st' /\ rleInv (lastOr prev l) st'.
Proof.
  induction l as [|x rest IH]; intros prev st Hinv.
  - exists st. split; [reflexivity | exact Hinv].
  - cbn [rleSteps]. destruct (rleStep_inv prev x st Hinv) as (st1 & -> & Hinv1). simpl.
    rewrite lastOr_cons. apply IH. exact Hinv1.
Qed.

Lemma rleInv_fresh : rleInv None fresh.
Proof. unfold rleInv, fresh. simpl. repeat split; try lia; intros H; contradiction. Qed.

(** [FindCode] as the steps over the vector followed by the final calls. *)
Lemma FindCode_steps (l : list Z) :
  CodeLengthCode_FindCode l =
  let* st := rleSteps None l fresh in
  let* st := finish (lastOr None l) st in
  Ok (HuffmanLengthCondensed st).
Proof.
  unfold CodeLengthCode_FindCode. fold fresh.
  rewrite <- (app_nil_r l) at 1. rewrite rleLoop_app, bind_assoc. reflexivity.
Qed.

(** The encoder never fails. *)
Lemma FindCode_total (l : list Z) : exists items, CodeLengthCode_FindCode l = Ok items.
Proof.
  rewrite FindCode_steps.
  destruct (rleSteps_inv l None fresh rleInv_fresh) as (st & -> & Hinv). simpl.
  destruct (finish_ok _ _ Hinv) as (st' & -> & _). simpl. eauto.
Qed.

(** *** Encoding across a boundary between two different lengths *)

Lemma bind_ext_ok {A B : Type} (m : outcome A) (f g : A -> outcome B) :
  (forall a, m = Ok a -> f a = g a) -> bind m f = bind m g.
Proof. intros H. destruct m; simpl; auto. Qed.

Lemma rleStep_settled (x : Z) (st : rleState) :
  settled st ->
  rleStep None x st =
  if x =? 0 then
    Ok {| countZero := 1; countSame := 0; HuffmanLengthCondensed := HuffmanLengthCondensed st |}
  else
    Ok {| countZero := 0; countSame := 0; HuffmanLengthCondensed := emitItem st x 0 |}.
Proof.
  intros [Hz Hs]. unfold rleStep.
  rewrite (resolveCountSame_settled None st Hs), (resolveCountZero_settled st Hz). simpl.
  rewrite (resolveCountSame_settled None st Hs). simpl.
  rewrite Hz, Hs. reflexivity.
Qed.

Lemma rleStep_resume (p x : Z) (st : rleState) :
  x <> p -> (p <> 0 -> countZero st = 0) ->
  rleStep (Some p) x st = let* st2 := finish (Some p) st in rleStep None x st2.
Proof.
  intros Hxp Hcz. unfold finish. rewrite bind_assoc.
  destruct (Z.eqb_spec x 0) as [-> | Hx].
  - rewrite (resolveCountZero_settled st) by (apply Hcz; congruence). simpl.
    unfold rleStep at 1. simpl. apply bind_ext_ok. intros st2 Hst2.
    apply resolveCountSame_settles in Hst2. destruct Hst2 as [Hs2 Hz2].
    rewrite rleStep_settled by (split; [rewrite Hz2; apply Hcz; congruence | exact Hs2]).
    simpl. rewrite Hz2, (Hcz ltac:(congruence)), Hs2. reflexivity.
  - unfold rleStep at 1.
    destruct (Z.eqb_spec x 0); [contradiction|].
    destruct (Z.eqb_spec x p); [contradiction|]. simpl.
    apply bind_ext_ok. intros st1 Hst1. apply resolveCountZero_settles in Hst1.
    apply bind_ext_ok. intros st2 Hst2. apply resolveCountSame_settles in Hst2.
    rewrite rleStep_settled by (split; [lia | tauto]).
    destruct (Z.eqb_spec x 0); [contradiction|].
    destruct Hst1 as [Hz1 Hs1], Hst2 as [Hs2 Hz2]. rewrite Hz2, Hz1, Hs2. reflexivity.
Qed.

(** Where two neighbours differ, the encoder finishes the left part before
    it looks at the right part, and then works as on a vector of its own. *)
Lemma rleLoop_resume (suf : list Z) (p : Z) (st : rleState) :
  head suf <> Some p -> (p <> 0 -> countZero st = 0) ->
  rleLoop (Some p) suf st =
  let* st2 := finish (Some p) st in
  omap (prepend (HuffmanLengthCondensed st2)) (rleLoop None suf fresh).
Proof.
  intros Hhead Hcz. destruct suf as [|x rest].
  - cbn [rleLoop]. fold (finish (Some p) st). fold (finish None fresh).
    destruct (finish (Some p) st) as [st2| | |] eqn:E; simpl; try reflexivity.
    rewrite <- settled_prepend by (eapply finish_settled; exact E). reflexivity.
  - cbn [rleLoop]. rewrite rleStep_resume; [|intros ->; apply Hhead; reflexivity|exact Hcz].
    rewrite bind_assoc. apply bind_ext_ok. intros st2 Hst2.
    apply finish_settled in Hst2. rewrite (settled_prepend st2 Hst2) at 1.
    rewrite rleStep_prepend, bind_omap, omap_bind. apply bind_ext. intros st3.
    apply rleLoop_prepend.
Qed.

(** [FindCode] of two vectors put together, when the last length of the
    first differs from the first length of the second. *)
Lemma FindCode_app (pre suf : list Z) :
  (forall p, last pre = Some p -> head suf <> Some p) ->
  CodeLengthCode_FindCode (pre ++ suf) =
  let* before := CodeLengthCode_FindCode pre in
  let* after := CodeLengthCode_FindCode suf in
  Ok (before ++ after).
Proof.
  intros Hdiff. rewrite (FindCode_steps pre).
  unfold CodeLengthCode_FindCode at 1. fold fresh. rewrite rleLoop_app.
  rewrite !bind_assoc. apply bind_ext_ok. intros st Hst.
  destruct (rleSteps_inv pre None fresh rleInv_fresh) as (st' & Hst' & Hinv).
  rewrite Hst in Hst'. injection Hst' as <-.
  unfold lastOr in *. destruct (last pre) as [p|] eqn:Hlast.
  - rewrite rleLoop_resume.
    + rewrite !bind_assoc. apply bind_ext. intros st2. simpl.
      unfold CodeLengthCode_FindCode. fold fresh.
      destruct (rleLoop None suf fresh); reflexivity.
    + apply Hdiff. reflexivity.
    + intros Hp. destruct Hinv as (_ & _ & Hpz & _).
      destruct (Z.eq_dec (countZero st) 0) as [|Hne]; [assumption|].
      specialize (Hpz Hne). congruence.
  - apply last_None in Hlast. subst pre. simpl in Hst. injection Hst as <-.
    unfold finish. simpl. unfold CodeLengthCode_FindCode. fold fresh.
    destruct (rleLoop None suf fresh); reflexivity.
Qed.

Lemma FindCode_app3 (pre mid suf : list Z) (run : list condensed) (x y : Z) :
  head mid = Some x -> last mid = Some y ->
  last pre <> Some x -> head suf <> Some y ->
  CodeLengthCode_FindCode mid = Ok run ->
  CodeLengthCode_FindCode (pre ++ mid ++ suf) =
  let* before := CodeLengthCode_FindCode pre in
  let* after := CodeLengthCode_FindCode suf in
  Ok (before ++ run ++ after).
Proof.
  intros Hhead Hlast Hpre Hsuf Hrun.
  rewrite FindCode_app.
  - apply bind_ext. intros before. rewrite FindCode_app.
    + rewrite Hrun. simpl. destruct (CodeLengthCode_FindCode suf); reflexivity.
    + intros p Hp. congruence.
  - intros p Hp. destruct mid as [|m mid]; [discriminate|].
    simpl in *. congruence.
Qed.

Lemma rleStep_same (v : Z) (st : rleState) :
  v <> 0 ->
  rleStep (Some v) v st =
  Ok (if countSame st + 1 =? 6
      then {| countZero := countZero st; countSame := 0;
              HuffmanLengthCondensed := emitItem st 16 (countSame st + 1 - 3) |}
      else {| countZero := countZero st; countSame := countSame st + 1;
              HuffmanLengthCondensed := HuffmanLengthCondensed st |}).
Proof.
  intros Hv. unfold rleStep.
  destruct (Z.eqb_spec v 0); [contradiction|]. rewrite Z.eqb_refl. simpl.
  destruct (_ =? 6); reflexivity.
Qed.

Lemma FindCode_five (v : Z) :
  v <> 0 -> CodeLengthCode_FindCode (replicate 5 v) = Ok [lit v; rep16 1].
Proof.
  intros Hv. rewrite FindCode_steps. cbn [replicate rleSteps].
  rewrite rleStep_settled by (split; reflexivity).
  destruct (Z.eqb_spec v 0); [contradiction|]. cbn [bind].
  do 4 (rewrite rleStep_same by exact Hv; cbn).
  reflexivity.
Qed.

(** C6. In every code-length vector, a run of exactly 138 zeros is encoded
    as the single item (18, 127), a run of exactly 139 zeros as (18, 127)
    followed by a literal 0, and five repeats of a non-zero length [v] as
    the literal [v] followed by the item (16, 1); [before] and [after] are
    the items for what precedes and follows the run. *)
Theorem run_length_coverage (pre suf : list Z) :
  exists before after,
    CodeLengthCode_FindCode pre = Ok before /\
    CodeLengthCode_FindCode suf = Ok after /\
    (last pre <> Some 0 -> head suf <> Some 0 ->
     CodeLengthCode_FindCode (pre ++ replicate 138 0 ++ suf)
       = Ok (before ++ [rep18 127] ++ after) /\
     CodeLengthCode_FindCode (pre ++ replicate 139 0 ++ suf)
       = Ok (before ++ [rep18 127; lit 0] ++ after)) /\
    (forall v, v <> 0 -> last pre <> Some v -> head suf <> Some v ->
     CodeLengthCode_FindCode (pre ++ replicate 5 v ++ suf)
       = Ok (before ++ [lit v; rep16 1] ++ after)).
Proof.
  destruct (FindCode_total pre) as (before & Hbefore).
  destruct (FindCode_total suf) as (after & Hafter).
  exists before, after. split; [exact Hbefore|]. split; [exact Hafter|]. split.
  - intros Hpre Hsuf. split.
    + rewrite (FindCode_app3 pre (replicate 138 0) suf [rep18 127] 0 0);
        try assumption; try reflexivity.
      rewrite Hbefore, Hafter. reflexivity.
    + rewrite (FindCode_app3 pre (replicate 139 0) suf [rep18 127; lit 0] 0 0);
        try assumption; try reflexivity.
      rewrite Hbefore, Hafter. reflexivity.
  - intros v Hv Hpre Hsuf.
    rewrite (FindCode_app3 pre (replicate 5 v) suf [lit v; rep16 1] v v);
      try assumption; try reflexivity.
    + rewrite Hbefore, Hafter. reflexivity.
    + apply FindCode_five. exact Hv.
Qed.

Lemma run_length_coverage_witness :
  CodeLengthCode_FindCode ([3; 3] ++ replicate 138 0 ++ [5])
    = Ok ([lit 3; lit 3] ++ [rep18 127] ++ [lit 5]) /\
  CodeLengthCode_FindCode ([3; 3] ++ replicate 139 0 ++ [5])
    = Ok ([lit 3; lit 3] ++ [rep18 127; lit 0] ++ [lit 5]) /\
  CodeLengthCode_FindCode ([3; 3] ++ replicate 5 7 ++ [5])
    = Ok ([lit 3; lit 3] ++ [lit 7; rep16 1] ++ [lit 5]).
Proof.
  destruct (run_length_coverage [3; 3] [5]) as (before & after & Hb & Ha & Hzeros & Hsame).
  vm_compute in Hb, Ha. injection Hb as <-. injection Ha as <-.
  destruct Hzeros as [H138 H139]; [discriminate | discriminate |].
  split; [exact H138|]. split; [exact H139|].
  apply (Hsame 7); discriminate.
Defined.

End RunLengthFacts.

(** ** The framing of the plain Huffman codec *)

Section HuffmanFraming.
Import Go Huffman.

(** Eight binary digits of a chunk of at most eight bits: the chunk, with
    zeros in front. *)
Lemma byteBits_parseBits (chunk : bitString) :
  (length chunk <= 8)%nat ->
  byteBits (parseBits chunk) = replicate (8 - length chunk) false ++ chunk.
Proof.
  intros H.
  repeat (destruct chunk as [|[|] chunk]; [reflexivity| |]);
    simpl in H; lia.
Qed.

Lemma padding_short (i : Z) : 0 < i < 8 -> padding i = 8 - i.
Proof. intros H. unfold padding. rewrite (Z.mod_small i 8), Z.mod_small; lia. Qed.

Lemma padding_step (i : Z) : padding (i - 8) = padding i.
Proof.
  unfold padding. replace (i - 8) with (i + (-1) * 8) by lia.
  now rewrite Z.mod_add by lia.
Qed.

Lemma padding_range (n : Z) : 0 <= padding n < 8.
Proof. unfold padding. apply Z.mod_pos_bound. lia. Qed.

Lemma asByteSlice_loop_done (fuel : nat) (b : bitString) (i : Z) (output : list Z) :
  i <= 0 -> asByteSlice_loop fuel b i output = Ok output.
Proof. intros H. destruct fuel; simpl; destruct (Z.leb_spec i 0); auto; lia. Qed.

(** [asByteSlice] packs the bits from the end of the string: the bytes,
    written out as binary digits, are the first [i] bits of the string with
    the padding zeros in front of them. *)
Lemma asByteSlice_loop_spec (fuel : nat) :
  forall (b : bitString) (i : Z) (output : list Z),
    0 <= i <= len b -> i <= 8 * Z.of_nat fuel ->
    exists chunks,
      asByteSlice_loop fuel b i output = Ok (output ++ chunks) /\
      concat (map byteBits (reverse chunks)) =
        replicate (Z.to_nat (padding i)) false ++ take (Z.to_nat i) b.
Proof.
  induction fuel as [|fuel IH]; intros b i output Hi Hfuel.
  - assert (i = 0) by lia. subst i. exists []. simpl. rewrite app_nil_r. auto.
  - cbn [asByteSlice_loop].
    destruct (Z.leb_spec i 0) as [Hle | Hpos].
    { assert (i = 0) by lia. subst i. exists []. rewrite app_nil_r. auto. }
    unfold len in Hi.
    destruct (Z.ltb_spec i 8) as [Hshort | Hlong].
    + rewrite slice_take_drop by (unfold len; lia). cbn [bind].
      rewrite asByteSlice_loop_done by lia.
      eexists. split; [reflexivity|].
      rewrite reverse_singleton. cbn [map concat]. rewrite app_nil_r.
      change (Z.to_nat 0) with 0%nat. rewrite drop_0, Z.sub_0_r.
      rewrite byteBits_parseBits by (rewrite length_take; lia).
      rewrite length_take_le by lia. rewrite padding_short by lia.
      do 2 f_equal. lia.
    + rewrite slice_take_drop by (unfold len; lia). cbn [bind].
      set (byte := parseBits _).
      destruct (IH b (i - 8) (output ++ [byte])) as (chunks & Hrun & Hbits);
        [unfold len; lia | lia |].
      exists (byte :: chunks). split.
      * rewrite Hrun, <- app_assoc. reflexivity.
      * rewrite reverse_cons, map_app, concat_app, Hbits, padding_step.
        cbn [map concat]. rewrite app_nil_r. subst byte.
        rewrite byteBits_parseBits by (rewrite length_take; lia).
        rewrite length_take_le by (rewrite length_drop; lia).
        replace (i - (i - 8)) with 8 by lia. change (Z.to_nat 8) with 8%nat.
        cbn [replicate Nat.sub app]. rewrite <- app_assoc. f_equal.
        rewrite take_take_drop. f_equal. lia.
Qed.

Lemma asByteSlice_spec (b : bitString) :
  exists bytes,
    asByteSlice b = Ok bytes /\
    concat (map byteBits bytes) = replicate (Z.to_nat (padding (len b))) false ++ b.
Proof.
  unfold asByteSlice.
  destruct (asByteSlice_loop_spec (length b) b (len b) []) as (chunks & Hrun & Hbits);
    [unfold len; lia | unfold len; lia |].
  rewrite Hrun. cbn [bind app]. eexists. split; [reflexivity|].
  rewrite Hbits. f_equal. apply take_ge. unfold len. lia.
Qed.

(** The padding count fits in one byte, which [asByteSlice] produces from
    its binary digits. *)
Lemma paddingByte_spec (pad : Z) :
  0 <= pad < 8 -> asByteSlice (FormatInt2 pad) = Ok [pad].
Proof.
  intros H.
  assert (Hcases : pad = 0 \/ pad = 1 \/ pad = 2 \/ pad = 3 \/
                   pad = 4 \/ pad = 5 \/ pad = 6 \/ pad = 7) by lia.
  repeat (destruct Hcases as [-> | Hcases]; [reflexivity|]). subst. reflexivity.
Qed.

(** What [decode] does with the bytes after the terminator gives the bit
    string back. *)
Lemma huffmanCodeOf_packed (bits : bitString) (payload : list Z) :
  concat (map byteBits payload) = replicate (Z.to_nat (padding (len bits))) false ++ bits ->
  huffmanCodeOf (padding (len bits) :: payload) = Ok bits.
Proof.
  intros Hbits. unfold huffmanCodeOf. rewrite Hbits.
  pose proof (padding_range (len bits)) as Hpad.
  rewrite slice_take_drop.
  - f_equal. rewrite drop_app_length' by (rewrite length_replicate; reflexivity).
    apply take_ge. unfold len in *. rewrite length_app, length_replicate. lia.
  - unfold len in *. rewrite length_app, length_replicate. lia.
  - lia.
Qed.

(** *** The header never contains the terminator *)

Lemma digits_fuel_no_newline (fuel : nat) :
  forall (n : Z) (acc : list Z),
    Forall (fun c => c <> 10) acc -> Forall (fun c => c <> 10) (digits_fuel fuel n acc).
Proof.
  induction fuel as [|fuel IH]; intros n acc Hacc; cbn [digits_fuel]; [exact Hacc|].
  assert (Hd : Forall (fun c => c <> 10) ((48 + n mod 10) :: acc)).
  { constructor; [|exact Hacc]. pose proof (Z.mod_pos_bound n 10). lia. }
  destruct (n <? 10); [exact Hd | apply IH; exact Hd].
Qed.

Lemma Itoa_no_newline (n : Z) : Forall (fun c => c <> 10) (Itoa n).
Proof.
  unfold Itoa. destruct (n <? 0).
  - constructor; [discriminate|]. apply digits_fuel_no_newline. constructor.
  - apply digits_fuel_no_newline. constructor.
Qed.

Lemma lor_high_no_newline (a x : Z) : Z.testbit a 7 = true -> Z.lor a x <> 10.
Proof.
  intros Ha H. assert (Hb : Z.testbit (Z.lor a x) 7 = true).
  { rewrite Z.lor_spec, Ha. reflexivity. }
  rewrite H in Hb. discriminate.
Qed.

Lemma encoderune_no_newline (r : Z) : r <> 10 -> Forall (fun c => c <> 10) (encoderune r).
Proof.
  intros Hr. unfold encoderune.
  repeat (match goal with |- context [if ?c then _ else _] => destruct c end);
    repeat constructor; try exact Hr; apply lor_high_no_newline; reflexivity.
Qed.

Lemma headerEntry_no_newline (kv : Z * Z) : Forall (fun c => c <> 10) (headerEntry kv).
Proof.
  destruct kv as [key val]. unfold headerEntry.
  destruct (Z.eqb_spec key 10).
  - apply Forall_app. split; [apply Itoa_no_newline|].
    repeat constructor; discriminate.
  - apply Forall_app. split; [apply Itoa_no_newline|].
    apply Forall_app. split; [repeat constructor; discriminate|].
    apply encoderune_no_newline. assumption.
Qed.

Lemma header_no_newline (entries : list (Z * Z)) :
  Forall (fun c => c <> 10) (concat (map headerEntry entries)).
Proof.
  induction entries as [|kv rest IH]; cbn [map concat]; [constructor|].
  apply Forall_app. split; [apply headerEntry_no_newline | exact IH].
Qed.

Lemma splitTerminator_header (header rest : list Z) :
  Forall (fun c => c <> 10) header ->
  splitTerminator (header ++ terminator ++ rest) = (header, Some rest).
Proof.
  induction 1 as [|c header Hc Hheader IH].
  - reflexivity.
  - cbn [app splitTerminator].
    destruct (header ++ terminator ++ rest) as [|c' rest'] eqn:E.
    { destruct header; discriminate. }
    assert (Hc' : c' <> 10).
    { destruct Hheader as [|c'' header' Hc'' _].
      - simpl in E. injection E as <- _. discriminate.
      - simpl in E. injection E as <- _. exact Hc''. }
    destruct (Z.eqb_spec c' 10); [contradiction|].
    rewrite andb_false_r, IH. reflexivity.
Qed.

(** C7, as the code has it. The output of the plain Huffman compressor is
    the textual frequency header, the terminator backslash-newline, one
    byte holding the padding count, and the payload.  The padding count is
    the number of zero bits put in front of the first payload byte (the
    payload bytes, written out in binary, are the padding zeros followed
    by the code bits), and the decoder, which drops that many bits from
    the front, recovers the bit string exactly. *)
Theorem huffman_framing (mapRange : gmap Z Z -> list (Z * Z)) (content out : list Z) :
  compress mapRange content = Ok out ->
  exists tree bits payload,
    let header := concat (map headerEntry (mapRange (countRunes (runes content)))) in
    let pad := padding (len bits) in
    buildTree (countRunes (runes content)) = Ok tree /\
    encodeSymbols (getSymbolEncoding tree ∅ []) (runes content) = Ok bits /\
    out = header ++ terminator ++ [pad] ++ payload /\
    0 <= pad < 8 /\ (len bits + pad) mod 8 = 0 /\
    concat (map byteBits payload) = replicate (Z.to_nat pad) false ++ bits /\
    splitTerminator out = (header, Some (pad :: payload)) /\
    huffmanCodeOf (pad :: payload) = Ok bits.
Proof.
  unfold compress. intros H. bind_ok H. rename a into tree.
  unfold encode in H. bind_ok H. rename a into bits.
  fold (padding (len bits)) in H.
  rewrite paddingByte_spec in H by apply padding_range. cbn [bind] in H.
  destruct (asByteSlice_spec bits) as (payload & Hpayload & Hbits).
  rewrite Hpayload in H. cbn [bind] in H. injection H as <-.
  exists tree, bits, payload. cbn zeta.
  split; [exact Ha|]. split; [exact Ha0|]. split; [reflexivity|].
  split; [apply padding_range|]. split.
  { unfold padding. pose proof (Z.mod_pos_bound (len bits) 8).
    pose proof (Z.div_mod (len bits) 8).
    destruct (Z.eq_dec (len bits mod 8) 0) as [E | E].
    - rewrite E. change ((8 - 0) mod 8) with 0. rewrite Z.add_0_r. exact E.
    - rewrite (Z.mod_small (8 - len bits mod 8)) by lia.
      replace (len bits + (8 - len bits mod 8))
        with (len bits mod 8 + (len bits / 8 + 1 - len bits mod 8 / 8 * 0) * 8 - len bits mod 8)
        by lia.
      replace (len bits mod 8 + (len bits / 8 + 1 - len bits mod 8 / 8 * 0) * 8 - len bits mod 8)
        with (0 + (len bits / 8 + 1) * 8) by lia.
      rewrite Z.mod_add by lia. reflexivity. }
  split; [exact Hbits|]. split.
  - apply (splitTerminator_header _ (padding (len bits) :: payload)).
    apply header_no_newline.
  - apply huffmanCodeOf_packed. exact Hbits.
Qed.

Lemma huffman_framing_witness :
  exists out,
    compress map_to_list (bytes "abracadabra") = Ok out /\
    exists tree bits payload,
      buildTree (countRunes (runes (bytes "abracadabra"))) = Ok tree /\
      encodeSymbols (getSymbolEncoding tree ∅ []) (runes (bytes "abracadabra")) = Ok bits /\
      out = bytes "1|c5|a2|r2|b1|d" ++ terminator ++ [padding (len bits)] ++ payload /\
      huffmanCodeOf (padding (len bits) :: payload) = Ok bits.
Proof.
  eexists. split; [vm_compute; reflexivity|].
  destruct (huffman_framing map_to_list (bytes "abracadabra") _ eq_refl)
    as (tree & bits & payload & Htree & Hbits & Hout & _ & _ & _ & _ & Hdecode).
  exists tree, bits, payload. repeat split; assumption.
Defined.

End HuffmanFraming.

Section HuffmanPadding.
Import Go Huffman.

(** C7, as the specification states it, fails on the input "ab": the code
    bits are 0 1, the pad-count byte is 6 and the single payload byte is
    00000001, so the six zeros are not at the end of the byte, and dropping
    six trailing bits does not give the code bits back. *)
Lemma huffman_padding_is_not_trailing :
  compress map_to_list (bytes "ab") = Ok (bytes "1|a1|b" ++ terminator ++ [6] ++ [1]) /\
  (exists tree,
     buildTree (countRunes (runes (bytes "ab"))) = Ok tree /\
     encodeSymbols (getSymbolEncoding tree ∅ []) (runes (bytes "ab")) = Ok [false; true]) /\
  byteBits 1 <> [false; true] ++ replicate 6 false /\
  spec_trailing_unpad 6 [1] <> [false; true].
Proof.
  split; [vm_compute; reflexivity|].
  split; [eexists; split; vm_compute; reflexivity|].
  split; vm_compute; discriminate.
Qed.

End HuffmanPadding.

(** ** DEFLATE: tokens and block type *)

Section DeflateFacts.
Import Go Flate.

(** C5, as the specification states it, fails: the tokens of "ABABABABAB"
    are not Literal A, Literal B, Match(8, 2). *)
Lemma tokens_are_not_as_claimed :
  ~ exists tokens,
      tokenise (bytes "ABABABABAB") = Ok tokens /\
      map shape tokens = [(LiteralToken, 65, 0, 0); (LiteralToken, 66, 0, 0); (MatchToken, 0, 8, 2)].
Proof.
  intros (tokens & Htokens & Hshape).
  vm_compute in Htokens. injection Htokens as <-. vm_compute in Hshape. discriminate.
Qed.

(** C5, as the code has it. The tokens of "ABABABABAB" are Literal A,
    Literal B, Literal A, Literal B, Match(length 4, distance 4),
    Literal A, Literal B, and the block that the encoder writes for the
    input (block type 2, either value of BFINAL) is decoded to the input,
    by [decompress] and by the [Decompress] of the dispatcher. *)
Theorem ABABABABAB_tokens_and_round_trip :
  tokenise (bytes "ABABABABAB")
    = Ok [literal 65; literal 66; literal 65; literal 66; matchToken 4 4; literal 65; literal 66] /\
  Forall (fun bfinal =>
    exists w,
      compress 2 bfinal (bytes "ABABABABAB") emptyWriter = ROk tt w /\
      answer (decompress (readerOf (woutput w)))
        = Ok {| d_bfinal := bfinal; d_btype := 2; d_data := bytes "ABABABABAB" |} /\
      forall mapRange isDigitExcludingLatin comO,
        Compression.Decompress mapRange isDigitExcludingLatin comO (woutput w)
          (optionsFor "flate")
          = Ok (bytes "ABABABABAB")) [0; 1].
Proof.
  split; [vm_compute; reflexivity|].
  repeat constructor; eexists; (split; [vm_compute; reflexivity|]);
    (split; [vm_compute; reflexivity|]); intros mapRange isDigitExcludingLatin comO;
    vm_compute; reflexivity.
Qed.

(** C4, as the specification states it, fails: this block has BFINAL = 1
    and BTYPE = 1, and it is decoded, by [decompress] and by the
    dispatcher, to "aaaaaa". *)
Lemma block_type_one_is_decoded :
  let block := [11; 194; 1; 9; 0; 0; 0; 128; 160; 173; 254; 63; 81; 32; 22] in
  answer ((do* bfinal := readCompressedContent 1 in
           do* btype := readCompressedContent 2 in ret (bfinal, btype)) (readerOf block))
    = Ok (1, 1) /\
  answer (decompress (readerOf block))
    = Ok {| d_bfinal := 1; d_btype := 1; d_data := bytes "aaaaaa" |} /\
  Compression.Decompress map_to_list (fun _ => false) (Some []) block
    {| Compression.Algorithm := "flate"; Compression.BType := 0; Compression.BFinal := 0 |}
    = Ok (bytes "aaaaaa").
Proof. repeat split; vm_compute; reflexivity. Qed.

Lemma header_byte_split (bfinal btype hi : Z) :
  0 <= bfinal < 2 -> 0 <= btype < 4 -> 0 <= hi < 32 ->
  let b := bfinal + 2 * btype + 8 * hi in
  0 <= b < 256 /\ Z.land b 1 = bfinal /\ Z.land (Z.shiftr b 1) 3 = btype /\
  Z.shiftr (Z.shiftr b 1) 2 = hi.
Proof.
  intros H1 H2 H3 b.
  assert (Hhalf : Z.shiftr b 1 = btype + 4 * hi).
  { rewrite Z.shiftr_div_pow2 by lia. change (2 ^ 1) with 2. subst b.
    replace (bfinal + 2 * btype + 8 * hi) with (bfinal + (btype + 4 * hi) * 2) by lia.
    rewrite Z.div_add by lia. rewrite (Z.div_small bfinal 2) by lia. lia. }
  split; [subst b; lia|]. split; [|split].
  - change (Z.land b 1) with (Z.land b (Z.ones 1)).
    rewrite (Z.land_ones b 1) by lia. change (2 ^ 1) with 2. subst b.
    replace (bfinal + 2 * btype + 8 * hi) with (bfinal + (btype + 4 * hi) * 2) by lia.
    rewrite Z.mod_add by lia. apply Z.mod_small. lia.
  - rewrite Hhalf. change 3 with (Z.ones 2).
    rewrite (Z.land_ones _ 2) by lia. change (2 ^ 2) with 4.
    replace (btype + 4 * hi) with (btype + hi * 4) by lia.
    rewrite Z.mod_add by lia. apply Z.mod_small. lia.
  - rewrite Hhalf. rewrite Z.shiftr_div_pow2 by lia. change (2 ^ 2) with 4.
    replace (btype + 4 * hi) with (btype + hi * 4) by lia.
    rewrite Z.div_add by lia. rewrite (Z.div_small btype 4) by lia. lia.
Qed.

(** C4, as the code has it. The decoder reads BFINAL and BTYPE, stores
    them, and never looks at them: a stream whose first byte carries the
    header bits [bfinal], [btype] and the five bits [hi] is decoded as the
    dynamic-Huffman block that starts at [hi], whatever [btype] is; the
    stored block type is [btype] and no error depends on it. *)
Theorem decode_ignores_block_type (bfinal btype hi : Z) (rest : list Z) :
  0 <= bfinal < 2 -> 0 <= btype < 4 -> 0 <= hi < 32 ->
  let after := {| rbits := {| bitsHolder := hi; bitsCount := 5 |}; rinput := rest |} in
  decompress (readerOf (bfinal + 2 * btype + 8 * hi :: rest)) =
  match decompressBlock after with
  | ROk data st => ROk {| d_bfinal := bfinal; d_btype := btype; d_data := data |} st
  | RErr e st => RErr e st
  | RPanic => RPanic
  | RDiverge => RDiverge
  end.
Proof.
  intros H1 H2 H3 after.
  destruct (header_byte_split bfinal btype hi H1 H2 H3) as (Hb & Hbit0 & Hbits12 & Hhi).
  set (b := bfinal + 2 * btype + 8 * hi) in *.
  unfold decompress, bindS, readCompressedContent, readerOf.
  change (32 <? 1) with false. change (32 <? 2) with false. cbv iota.
  unfold bindS. cbn [fillBits rbits rinput bitsCount bitsHolder].
  change (0 <? 1) with true. cbv iota.
  change (0 + 8 <? 1) with false. cbv iota.
  cbn [rbits rinput bitsCount bitsHolder].
  change (0 + 8 - 1 <? 2) with false. cbv iota.
  cbn [rbits rinput bitsCount bitsHolder].
  change (mask32 1) with 1. change (mask32 2) with 3.
  rewrite Z.shiftl_0_r, Z.lor_0_l.
  rewrite (u32_small b) by lia.
  rewrite Hbit0, Hbits12, Hhi. change (0 + 8 - 1 - 2) with 5.
  fold after. destruct (decompressBlock after); reflexivity.
Qed.

Lemma decode_ignores_block_type_witness :
  answer (decompress (readerOf (1 + 2 * 1 + 8 * 1 ::
                                [194; 1; 9; 0; 0; 0; 128; 160; 173; 254; 63; 81; 32; 22])))
    = Ok {| d_bfinal := 1; d_btype := 1; d_data := bytes "aaaaaa" |}.
Proof.
  rewrite (decode_ignores_block_type 1 1 1) by lia. vm_compute. reflexivity.
Defined.

End DeflateFacts.

(** ** GZIP framing *)

Section GzipFacts.
Import Go Gzip Compression.

Lemma crcWrite_fresh (p : list Z) : crcWrite (crcWrite 0 []) p = crc32 p.
Proof. reflexivity. Qed.

Lemma size_fresh (n : Z) : u32 (0 + u32 n) = n mod 2 ^ 32.
Proof. unfold u32. rewrite Z.add_0_l. apply Z.mod_mod. lia. Qed.

Lemma drop_trailer (h d t : list Z) :
  length t = 8%nat -> drop (length (h ++ d ++ t) - 8) (h ++ d ++ t) = t.
Proof.
  intros Ht. rewrite !app_assoc. apply drop_app_length'.
  rewrite !length_app. lia.
Qed.

(** What the gzip compressor delivers for an input: the header, the
    DEFLATE block of the input and the trailer, when the file [com.o]
    opens and the DEFLATE encoder returns; nothing otherwise ([Write]
    panics when the file does not open, and an error of the encoder
    panics in the goroutine that closes it). *)
Lemma gzip_exchange (comO : option (list Z)) (B : list Z) (options : Options) :
  answer (exchange B (gzipCompressor comO options)) =
  match comO with
  | None => Panic
  | Some _ =>
    match Flate.compress (defaultBType options) (BFinal options) B emptyWriter with
    | ROk _ w =>
      Ok (header ++ Flate.woutput w ++ PutUint32 (crc32 B) ++ PutUint32 (len B mod 2 ^ 32))
    | RDiverge => Diverge
    | _ => Panic
    end
  end.
Proof.
  unfold exchange, gzipCompressor.
  cbn [NewCompressionReaderAndWriter GzipFactory Write WriterClose ReadAll new core].
  unfold Gzip.CompressionWriter_Write, Gzip.NewCompressionReaderAndWriter.
  cbn [Gzip.Flate Gzip.Crc Gzip.Size Gzip.Pipe Gzip.ComO].
  destruct comO as [f|]; [|reflexivity].
  unfold Flate.CompressionWriter_Write, Flate.NewCompressionReaderAndWriter.
  cbn [Flate.c_isInputBufferClosed Flate.c_inputBuffer Flate.c_writer Flate.c_btype Flate.c_bfinal].
  cbv iota. cbn [app].
  unfold Gzip.CompressionWriter_Close.
  cbn [Gzip.Flate Gzip.Crc Gzip.Size Gzip.Pipe Gzip.ComO].
  unfold Flate.CompressionWriter_Close.
  cbn [Flate.c_isInputBufferClosed Flate.c_inputBuffer Flate.c_writer Flate.c_btype Flate.c_bfinal].
  fold emptyWriter.
  destruct (Flate.compress (defaultBType options) (BFinal options) B emptyWriter)
    as [[] w | e w | |]; try reflexivity.
  unfold Flate.CompressionReader_ReadAll, Flate.CompressionReader_Close,
    Gzip.CompressionReader_ReadAll.
  cbn [Flate.c_isInputBufferClosed Flate.c_inputBuffer Flate.c_writer Flate.c_btype
       Flate.c_bfinal negb Gzip.Flate Gzip.Crc Gzip.Size Gzip.Pipe Gzip.ComO answer].
  rewrite crcWrite_fresh, size_fresh. reflexivity.
Qed.

(** For "abc" the DEFLATE encoder does not return, whatever block type
    and final flag it is given: the text has no match, and the distance
    tree is built from an empty alphabet. *)
Lemma abc_is_not_encoded (btype bfinal : Z) :
  Flate.compress btype bfinal (bytes "abc") emptyWriter = RPanic.
Proof. vm_compute. reflexivity. Qed.

(** C2 fails on the code. For the input "abc" the gzip compressor has no
    output: the DEFLATE encoder finds no match in it, builds the distance
    tree from an empty alphabet and panics, in the compressor of every
    option and in [Compress] of the dispatcher; and no input has an
    output when the file com.o cannot be opened, as [Write] panics then.
    For every input [B], the compressor delivers the fixed ten-byte
    header, the DEFLATE block of [B], the CRC-32 of [B] and the length of
    [B] modulo 2^32, both as four little-endian bytes, exactly when the
    file opens and the DEFLATE encoder returns: an output, where there is
    one, begins with 1f 8b 08 00 00 00 00 00 00 ff and ends with the eight
    trailer bytes. *)
Theorem gzip_output_is_missing :
  (forall comO options,
     answer (exchange (bytes "abc") (gzipCompressor comO options)) = Panic) /\
  (forall mapRange isDigitExcludingLatin comO,
     Compress mapRange isDigitExcludingLatin comO (bytes "abc") (optionsFor "gzip") = Panic) /\
  (forall B options, answer (exchange B (gzipCompressor None options)) = Panic) /\
  (forall comO B options,
     answer (exchange B (gzipCompressor comO options)) =
       match comO with
       | None => Panic
       | Some _ =>
         match Flate.compress (defaultBType options) (BFinal options) B emptyWriter with
         | ROk _ w =>
           Ok (header ++ Flate.woutput w ++ PutUint32 (crc32 B)
                      ++ PutUint32 (len B mod 2 ^ 32))
         | RDiverge => Diverge
         | _ => Panic
         end
       end /\
     forall out,
       answer (exchange B (gzipCompressor comO options)) = Ok out ->
       take 10 out = [31; 139; 8; 0; 0; 0; 0; 0; 0; 255] /\
       drop (length out - 8) out = PutUint32 (crc32 B) ++ PutUint32 (len B mod 2 ^ 32)).
Proof.
  assert (Habc : forall comO options,
             answer (exchange (bytes "abc") (gzipCompressor comO options)) = Panic).
  { intros comO options. rewrite gzip_exchange, abc_is_not_encoded.
    destruct comO; reflexivity. }
  split; [exact Habc|]. split.
  { intros mapRange isDigitExcludingLatin comO. unfold Compress.
    change (factoryMap mapRange isDigitExcludingLatin comO (Algorithm (optionsFor "gzip")))
      with (Some (GzipFactory comO)).
    unfold wrap, processData.
    change (@NewCompressionReaderAndWriter (GzipFactory comO) (optionsFor "gzip"))
      with (gzipCompressor comO (optionsFor "gzip")).
    specialize (Habc comO (optionsFor "gzip")).
    destruct (exchange (bytes "abc") (gzipCompressor comO (optionsFor "gzip")));
      try discriminate. reflexivity. }
  split; [intros B options; apply gzip_exchange|].
  intros comO B options. split; [apply gzip_exchange|].
  intros out. rewrite gzip_exchange. destruct comO as [f|]; [|discriminate].
  destruct (Flate.compress (defaultBType options) (BFinal options) B emptyWriter)
    as [[] w | e w | |]; try discriminate.
  intros H. injection H as <-. split; [reflexivity|].
  exact (drop_trailer header (Flate.woutput w)
           (PutUint32 (crc32 B) ++ PutUint32 (len B mod 2 ^ 32)) eq_refl).
Qed.

Lemma gzip_output_is_missing_witness :
  answer (exchange (bytes "abc") (gzipCompressor (Some []) (optionsFor "gzip"))) = Panic /\
  exists out,
    answer (exchange (bytes "aaaaaa") (gzipCompressor (Some []) (optionsFor "gzip"))) = Ok out /\
    take 10 out = [31; 139; 8; 0; 0; 0; 0; 0; 0; 255] /\
    drop (length out - 8) out = [248; 25; 228; 90; 6; 0; 0; 0].
Proof.
  destruct gzip_output_is_missing as (Habc & _ & _ & H).
  split; [apply Habc|].
  eexists. split; [vm_compute; reflexivity|].
  destruct (H (Some []) (bytes "aaaaaa") (optionsFor "gzip")) as [_ Hout].
  apply Hout. vm_compute. reflexivity.
Defined.

End GzipFacts.

(** ** The dispatcher *)

Section DispatcherFacts.
Import Go Compression.

Variable mapRange : gmap Z Z -> list (Z * Z).
Variable isDigitExcludingLatin : Z -> bool.
Variable comO : option (list Z).

Local Abbreviation Compress := (Compression.Compress mapRange isDigitExcludingLatin comO).
Local Abbreviation Decompress := (Compression.Decompress mapRange isDigitExcludingLatin comO).

(** C1 fails on the code. With lzss, the single byte ff is compressed to
    ef bf bd (the bytes are read as UTF-8 and the invalid byte becomes
    U+FFFD), which decompresses to ef bf bd, not to ff.  With flate, "abc"
    has no match token and the encoder panics when it builds the distance
    tree from an empty alphabet.  With huffman, "aaaa" is compressed with a
    single-leaf tree and an empty payload, which decodes to "a"; through
    the dispatcher the second, deferred [Close] of the writer compresses
    the empty buffer and panics. *)
Theorem round_trip_fails :
  (Compress [255] (optionsFor "lzss") = Ok [239; 191; 189] /\
   Decompress [239; 191; 189] (optionsFor "lzss") = Ok [239; 191; 189]) /\
  (Flate.compress 2 0 (bytes "abc") emptyWriter = RPanic /\
   Compress (bytes "abc") (optionsFor "flate") = Panic) /\
  (Huffman.compress map_to_list (bytes "aaaa") = Ok (bytes "4|a" ++ [92; 10; 0]) /\
   Huffman.decompress isDigitExcludingLatin (bytes "4|a" ++ [92; 10; 0]) = Ok (bytes "a") /\
   Compress (bytes "aaaa") (optionsFor "huffman") = Panic).
Proof.
  repeat split; vm_compute; reflexivity.
Qed.

(** C8 fails on the code. On the empty input, [buildTree] pops from an
    empty heap and panics: the huffman compressor panics on the empty
    frequency map, the flate and gzip compressors on the empty distance
    alphabet.  Only lzss compresses the empty input (to the empty output)
    and gets it back. *)
Theorem empty_input_panics :
  Huffman.buildTree ∅ = Panic /\
  Huffman.compress mapRange [] = Panic /\
  Compress [] (optionsFor "huffman") = Panic /\
  Flate.DistanceCode_Encode [] = Panic /\
  Flate.compress 2 0 [] emptyWriter = RPanic /\
  Compress [] (optionsFor "flate") = Panic /\
  Compress [] (optionsFor "gzip") = Panic /\
  (Compress [] (optionsFor "lzss") = Ok [] /\ Decompress [] (optionsFor "lzss") = Ok []).
Proof.
  refine (conj _ (conj _ (conj _ (conj _ (conj _ (conj _ (conj _ (conj _ _)))))))).
  7: destruct comO as [f|].
  all: vm_compute; reflexivity.
Qed.

(** What the two deferred [Close] calls return never becomes the result
    of [processData]: the result is the one of the [return] statement,
    unless one of the calls panics or does not return. *)
Lemma deferred_keeps_result (rw : ReaderAndWriter) (s : core rw) (r : outcome (list Z)) :
  deferred rw s r = r \/ deferred rw s r = Panic \/ deferred rw s r = Diverge.
Proof.
  unfold deferred. destruct (WriterClose rw s); auto; destruct (ReaderClose rw _); auto.
Qed.

Lemma deferred_of_result (rw : ReaderAndWriter) (s : core rw) (data : list Z) (e : error) :
  deferred rw s (Ok data) <> Err e.
Proof.
  destruct (deferred_keeps_result rw s (Ok data)) as [H | [H | H]]; rewrite H; discriminate.
Qed.

(** The gzip decompressor hands no error to [processData]: its writer
    panics where it could fail, and its reader only fails in [Close]. *)
Lemma gzip_exchange_has_no_error (data : list Z) (options : Options) (e : error)
    (s : core (gzipDecompressor options)) :
  exchange data (gzipDecompressor options) <> RErr e s.
Proof.
  unfold exchange, gzipDecompressor, GzipDecompression.
  cbn [Write WriterClose ReadAll new core].
  unfold Gzip.DecompressionWriter_Write, Gzip.NewDecompressionReaderAndWriter.
  cbn [Gzip.IsHeaderParsed Gzip.Trailer Gzip.DFlate Gzip.DPipe Gzip.CurrentCrc Gzip.CurrentSize].
  destruct (slice data 10 (len data)) as [p | | |]; try discriminate.
  match goal with |- context [match ?t with Ok _ => _ | _ => _ end] => destruct t end;
    try discriminate.
  unfold Flate.DecompressionWriter_Write, Flate.NewDecompressionReaderAndWriter.
  cbn [Flate.d_isInputBufferClosed]. cbv iota.
  unfold Gzip.DecompressionWriter_Close.
  cbn [Gzip.IsHeaderParsed Gzip.Trailer Gzip.DFlate Gzip.DPipe Gzip.CurrentCrc Gzip.CurrentSize].
  match goal with |- context [Flate.DecompressionWriter_Close ?f] =>
    destruct (Flate.DecompressionWriter_Close f) as [[] f' | | |] eqn:Hclose end;
    try discriminate.
  assert (Hflag : Flate.d_isInputBufferClosed f' = true).
  { unfold Flate.DecompressionWriter_Close in Hclose.
    destruct (Flate.decompress _); try discriminate. injection Hclose as <-. reflexivity. }
  unfold Flate.DecompressionReader_ReadAll. rewrite Hflag. cbn [negb].
  unfold Flate.DecompressionReader_Close, Gzip.DecompressionReader_ReadAll. discriminate.
Qed.

(** C3 fails on the code. For the member of "aaaaaa" with the last CRC
    byte flipped, [processData] collects the decoded bytes "aaaaaa"; the
    comparison with the trailer is made by the [Close] of the reader, which
    does find the mismatch, but [processData] only calls it deferred and
    drops what it returns.  (On the intact member the same [Close] returns
    no error.)  Before it, the deferred second [Close] of the writer runs
    the DEFLATE decoder on the emptied buffer and panics.  Whatever
    [processData] is about to return, the deferred calls leave it as it is
    or end in a panic; and with the result collected as in [exchange],
    [Decompress] with gzip returns an error on no input at all. *)
Theorem checksum_mismatch_is_not_reported :
  (exists s,
     exchange corrupted (gzipDecompressor (optionsFor "gzip")) = ROk (bytes "aaaaaa") s /\
     answer (Gzip.DecompressionReader_Close s) = Err ErrCrcMismatch) /\
  (exists s,
     exchange member (gzipDecompressor (optionsFor "gzip")) = ROk (bytes "aaaaaa") s /\
     answer (Gzip.DecompressionReader_Close s) = Ok tt) /\
  Decompress corrupted (optionsFor "gzip") = Panic /\
  (forall s r,
     let after := deferred (gzipDecompressor (optionsFor "gzip")) s r in
     after = r \/ after = Panic \/ after = Diverge) /\
  (forall data e, Decompress data (optionsFor "gzip") <> Err e).
Proof.
  split; [eexists; split; vm_compute; reflexivity|].
  split; [eexists; split; vm_compute; reflexivity|].
  split; [vm_compute; reflexivity|].
  split; [intros s r; apply deferred_keeps_result|].
  intros data e. unfold Compression.Decompress.
  change (factoryMap mapRange isDigitExcludingLatin comO (Algorithm (optionsFor "gzip")))
    with (Some (GzipFactory comO)).
  unfold wrap, processData.
  change (@NewDecompressionReaderAndWriter (GzipFactory comO) (optionsFor "gzip"))
    with (gzipDecompressor (optionsFor "gzip")).
  pose proof (gzip_exchange_has_no_error data (optionsFor "gzip")) as Hno.
  destruct (exchange data (gzipDecompressor (optionsFor "gzip"))) as [d s | e' s | |].
  - pose proof (deferred_of_result (gzipDecompressor (optionsFor "gzip")) s d) as Hd.
    destruct (deferred _ s (Ok d)); try discriminate. intros H. eapply Hd. reflexivity.
  - exfalso. eapply Hno. reflexivity.
  - discriminate.
  - discriminate.
Qed.

End DispatcherFacts.

(** ** UTF-8: what is written for runes reads back as the runes *)

Section Utf8Facts.
Import Go.

Lemma land_high_low (x y n : Z) : 0 <= n -> 0 <= y < 2 ^ n -> Z.land (x * 2 ^ n) y = 0.
Proof.
  intros Hn Hy. apply Z.bits_inj'. intros i Hi.
  rewrite Z.land_spec, Z.bits_0.
  destruct (Z.lt_ge_cases i n) as [Hlt | Hge].
  - rewrite Z.mul_pow2_bits_low by lia. reflexivity.
  - destruct (Z.eq_dec y 0) as [-> | Hy0].
    + rewrite Z.bits_0. apply andb_false_r.
    + rewrite (Z.bits_above_log2 y i); [apply andb_false_r | lia |].
      apply Z.log2_lt_pow2; [lia|].
      apply Z.lt_le_trans with (2 ^ n); [lia|]. apply Z.pow_le_mono_r; lia.
Qed.

Lemma lor_high_low (x y n : Z) :
  0 <= n -> 0 <= y < 2 ^ n -> Z.lor (x * 2 ^ n) y = x * 2 ^ n + y.
Proof. intros Hn Hy. symmetry. apply Z.add_nocarry_lor. apply land_high_low; assumption. Qed.

Lemma lor_192 (q : Z) : 0 <= q < 64 -> Z.lor 192 q = 192 + q.
Proof. intros H. exact (lor_high_low 3 q 6 ltac:(lia) H). Qed.
Lemma lor_128 (q : Z) : 0 <= q < 64 -> Z.lor 128 q = 128 + q.
Proof. intros H. exact (lor_high_low 2 q 6 ltac:(lia) H). Qed.
Lemma lor_224 (q : Z) : 0 <= q < 16 -> Z.lor 224 q = 224 + q.
Proof. intros H. exact (lor_high_low 14 q 4 ltac:(lia) H). Qed.
Lemma lor_240 (q : Z) : 0 <= q < 8 -> Z.lor 240 q = 240 + q.
Proof. intros H. exact (lor_high_low 30 q 3 ltac:(lia) H). Qed.

Lemma land_63 (v : Z) : Z.land v 63 = v mod 64.
Proof. exact (Z.land_ones v 6 ltac:(lia)). Qed.
Lemma land_31 (v : Z) : Z.land v 31 = v mod 32.
Proof. exact (Z.land_ones v 5 ltac:(lia)). Qed.
Lemma land_15 (v : Z) : Z.land v 15 = v mod 16.
Proof. exact (Z.land_ones v 4 ltac:(lia)). Qed.
Lemma land_7 (v : Z) : Z.land v 7 = v mod 8.
Proof. exact (Z.land_ones v 3 ltac:(lia)). Qed.

Lemma strip (h x n : Z) : h mod n = 0 -> 0 <= x < n -> (h + x) mod n = x.
Proof.
  intros Hh Hx. rewrite Z.add_mod, Hh, Z.add_0_l, Z.mod_mod, Z.mod_small by lia. reflexivity.
Qed.

(** The value that the decoder assembles from two, three and four bytes. *)
Lemma assemble2 (a b : Z) :
  0 <= b < 64 -> Z.lor (Z.shiftl a 6) b = a * 64 + b.
Proof. intros Hb. rewrite Z.shiftl_mul_pow2 by lia. exact (lor_high_low a b 6 ltac:(lia) Hb). Qed.

Lemma assemble3 (a b c : Z) :
  0 <= b < 64 -> 0 <= c < 64 ->
  Z.lor (Z.lor (Z.shiftl a 12) (Z.shiftl b 6)) c = a * 4096 + b * 64 + c.
Proof.
  intros Hb Hc. rewrite !Z.shiftl_mul_pow2 by lia.
  rewrite (lor_high_low a (b * 2 ^ 6) 12) by lia.
  replace (a * 2 ^ 12 + b * 2 ^ 6) with ((a * 64 + b) * 2 ^ 6) by lia.
  rewrite (lor_high_low (a * 64 + b) c 6) by lia. lia.
Qed.

Lemma assemble4 (a b c d : Z) :
  0 <= b < 64 -> 0 <= c < 64 -> 0 <= d < 64 ->
  Z.lor (Z.lor (Z.lor (Z.shiftl a 18) (Z.shiftl b 12)) (Z.shiftl c 6)) d
    = a * 262144 + b * 4096 + c * 64 + d.
Proof.
  intros Hb Hc Hd. rewrite !Z.shiftl_mul_pow2 by lia.
  rewrite (lor_high_low a (b * 2 ^ 12) 18) by lia.
  replace (a * 2 ^ 18 + b * 2 ^ 12) with ((a * 64 + b) * 2 ^ 12) by lia.
  rewrite (lor_high_low (a * 64 + b) (c * 2 ^ 6) 12) by lia.
  replace ((a * 64 + b) * 2 ^ 12 + c * 2 ^ 6) with (((a * 64 + b) * 64 + c) * 2 ^ 6) by lia.
  rewrite (lor_high_low ((a * 64 + b) * 64 + c) d 6) by lia. lia.
Qed.

Ltac decide_tests :=
  repeat (match goal with
          | |- context [?a <? ?b] => destruct (Z.ltb_spec a b); try lia
          | |- context [?a <=? ?b] => destruct (Z.leb_spec a b); try lia
          end; cbn [andb negb]).

(** The bytes written for a scalar value are decoded to that value. *)
Lemma decoderune_encoderune (r : Z) (t : list Z) :
  scalar r -> decoderune (encoderune r ++ t) = (r, length (encoderune r)).
Proof.
  intros Hr. unfold scalar in Hr. unfold encoderune.
  destruct (Z.leb_spec 0 r); [|lia]. cbn [andb].
  destruct (Z.leb_spec r 127).
  { cbn [app decoderune]. destruct (Z.ltb_spec r 128); [reflexivity | lia]. }
  pose proof (Z.mod_pos_bound r 64 ltac:(lia)).
  pose proof (Z.mod_pos_bound (r / 64) 64 ltac:(lia)).
  pose proof (Z.mod_pos_bound (r / 64 / 64) 64 ltac:(lia)).
  pose proof (Z.div_mod r 64 ltac:(lia)).
  pose proof (Z.div_mod (r / 64) 64 ltac:(lia)).
  pose proof (Z.div_mod (r / 64 / 64) 64 ltac:(lia)).
  assert (E12 : r / 4096 = r / 64 / 64) by (rewrite Z.div_div by lia; reflexivity).
  assert (E18 : r / 262144 = r / 64 / 64 / 64) by (rewrite !Z.div_div by lia; reflexivity).
  destruct (Z.leb_spec r 2047).
  { cbn [app decoderune length].
    rewrite Z.shiftr_div_pow2, land_63 by lia. change (2 ^ 6) with 64.
    assert (2 <= r / 64 < 32) by lia.
    rewrite lor_192, lor_128 by lia.
    unfold cont. rewrite land_31, ?land_63.
    rewrite (strip 192 (r / 64) 32), (strip 128 (r mod 64) 64) by (try reflexivity; lia).
    rewrite assemble2 by lia.
    replace (r / 64 * 64 + r mod 64) with r by lia.
    decide_tests. all: reflexivity. }
  destruct (Z.ltb_spec r 0); [lia|]. cbn [orb].
  destruct (Z.ltb_spec 1114111 r); [lia|]. cbn [orb].
  assert (Hsur : (55296 <=? r) && (r <=? 57343) = false).
  { destruct (Z.leb_spec 55296 r); [|reflexivity].
    destruct (Z.leb_spec r 57343); [lia | reflexivity]. }
  rewrite Hsur.
  destruct (Z.leb_spec r 65535).
  { cbn [app decoderune length].
    rewrite !Z.shiftr_div_pow2, !land_63 by lia. change (2 ^ 6) with 64. change (2 ^ 12) with 4096.
    rewrite !E12.
    assert (0 <= r / 64 / 64 < 16) by lia.
    rewrite lor_224, !lor_128 by lia.
    unfold cont. rewrite land_15, ?land_63.
    rewrite (strip 224 (r / 64 / 64) 16), (strip 128 (r mod 64) 64),
      (strip 128 ((r / 64) mod 64) 64) by (try reflexivity; lia).
    rewrite assemble3 by lia.
    replace (r / 64 / 64 * 4096 + (r / 64) mod 64 * 64 + r mod 64) with r by lia.
    rewrite Hsur. decide_tests. all: reflexivity. }
  cbn [app decoderune length].
  rewrite !Z.shiftr_div_pow2, !land_63 by lia.
  change (2 ^ 6) with 64. change (2 ^ 12) with 4096. change (2 ^ 18) with 262144.
  rewrite !E18, !E12.
  assert (0 <= r / 64 / 64 / 64 < 8) by lia.
  rewrite lor_240, !lor_128 by lia.
  unfold cont. rewrite land_7, ?land_63.
  rewrite (strip 240 (r / 64 / 64 / 64) 8), (strip 128 (r mod 64) 64),
    (strip 128 ((r / 64) mod 64) 64), (strip 128 ((r / 64 / 64) mod 64) 64)
    by (try reflexivity; lia).
  rewrite assemble4 by lia.
  replace (r / 64 / 64 / 64 * 262144 + (r / 64 / 64) mod 64 * 4096
           + (r / 64) mod 64 * 64 + r mod 64)
    with r by lia.
  decide_tests. all: reflexivity.
Qed.

Lemma encoderune_length (r : Z) : (1 <= length (encoderune r) <= 4)%nat.
Proof.
  unfold encoderune.
  repeat match goal with |- context [if ?c then _ else _] => destruct c end;
    cbn [length]; lia.
Qed.

(** What the decoder reads from bytes is a scalar value. *)
Lemma decoderune_scalar (s : list Z) : Forall byte s -> scalar (fst (decoderune s)).
Proof.
  assert (Herr : scalar runeError) by (unfold scalar, runeError; lia).
  intros Hs. unfold decoderune.
  destruct s as [|s0 t]; [exact Herr|].
  apply Forall_cons in Hs. destruct Hs as [H0 Ht]. unfold byte in H0.
  destruct (Z.ltb_spec s0 128); [unfold scalar; cbn [fst]; lia|].
  destruct ((192 <=? s0) && (s0 <? 224)).
  { destruct t as [|s1 t]; [exact Herr|].
    destruct (cont s1); [|exact Herr].
    rewrite land_31, land_63, assemble2 by (apply Z.mod_pos_bound; lia).
    pose proof (Z.mod_pos_bound s0 32 ltac:(lia)). pose proof (Z.mod_pos_bound s1 64 ltac:(lia)).
    destruct (Z.ltb_spec 127 (s0 mod 32 * 64 + s1 mod 64)); [|exact Herr].
    unfold scalar. cbn [fst]. lia. }
  destruct ((224 <=? s0) && (s0 <? 240)).
  { destruct t as [|s1 [|s2 t]]; try exact Herr.
    destruct (cont s1 && cont s2); [|exact Herr].
    rewrite land_15, !land_63, assemble3 by (apply Z.mod_pos_bound; lia).
    pose proof (Z.mod_pos_bound s0 16 ltac:(lia)). pose proof (Z.mod_pos_bound s1 64 ltac:(lia)).
    pose proof (Z.mod_pos_bound s2 64 ltac:(lia)).
    set (r := s0 mod 16 * 4096 + s1 mod 64 * 64 + s2 mod 64) in *.
    destruct (Z.ltb_spec 2047 r); cbn [andb]; [|exact Herr].
    destruct (Z.leb_spec 55296 r); cbn [andb negb].
    - destruct (Z.leb_spec r 57343); cbn [negb]; [exact Herr|].
      unfold scalar. cbn [fst]. lia.
    - unfold scalar. cbn [fst]. lia. }
  destruct ((240 <=? s0) && (s0 <? 248)); [|exact Herr].
  destruct t as [|s1 [|s2 [|s3 t]]]; try exact Herr.
  destruct (cont s1 && cont s2 && cont s3); [|exact Herr].
  match goal with |- context [(65535 <? ?x) && _] => set (r := x) end.
  destruct (Z.ltb_spec 65535 r); cbn [andb]; [|exact Herr].
  destruct (Z.leb_spec r 1114111); [|exact Herr].
  unfold scalar. cbn [fst]. lia.
Qed.

Lemma runes_fuel_scalar (fuel : nat) :
  forall s, Forall byte s -> Forall scalar (runes_fuel fuel s).
Proof.
  induction fuel as [|fuel IH]; intros s Hs; cbn [runes_fuel]; [constructor|].
  destruct s as [|b s]; [constructor|].
  pose proof (decoderune_scalar (b :: s) Hs) as Hr.
  destruct (decoderune (b :: s)) as [r n]. cbn [fst] in Hr.
  constructor; [exact Hr|]. apply IH. apply Forall_drop. exact Hs.
Qed.

(** The runes of a byte sequence are scalar values. *)
Lemma runes_scalar (s : list Z) : Forall byte s -> Forall scalar (runes s).
Proof. apply runes_fuel_scalar. Qed.

Lemma runes_fuel_bytes_of_runes (R : list Z) :
  Forall scalar R ->
  forall fuel, (length (bytes_of_runes R) <= fuel)%nat -> runes_fuel fuel (bytes_of_runes R) = R.
Proof.
  induction 1 as [|r R Hr HR IH]; intros fuel Hfuel.
  - destruct fuel; reflexivity.
  - unfold bytes_of_runes in *. cbn [map concat] in *.
    pose proof (encoderune_length r) as Hlen.
    rewrite length_app in Hfuel.
    destruct fuel as [|fuel]; [lia|]. cbn [runes_fuel].
    destruct (encoderune r ++ concat (map encoderune R)) as [|b rest] eqn:E.
    { apply (f_equal (@length Z)) in E. rewrite length_app in E. cbn [length] in E. lia. }
    rewrite <- E, (decoderune_encoderune r _ Hr).
    rewrite drop_app_length. f_equal. apply IH. lia.
Qed.

(** Writing scalar values out and reading the bytes back gives the values. *)
Lemma runes_bytes_of_runes (R : list Z) : Forall scalar R -> runes (bytes_of_runes R) = R.
Proof. intros H. unfold runes. apply runes_fuel_bytes_of_runes; [exact H | lia]. Qed.

End Utf8Facts.

(** ** The references of the matcher are copies *)

Section CopyFacts.
Import Go Lzss.

Lemma idx_Ok {A : Type} (l : list A) (i : Z) (x : A) :
  idx l i = Ok x <-> 0 <= i /\ l !! Z.to_nat i = Some x.
Proof.
  unfold idx. destruct (Z.ltb_spec i 0).
  - split; [discriminate | lia].
  - destruct (l !! Z.to_nat i); split; intros H'; try discriminate.
    + injection H' as ->. auto.
    + destruct H' as [_ H']. congruence.
    + destruct H' as [_ H']. discriminate.
Qed.

Lemma idx_range {A : Type} (l : list A) (i : Z) (x : A) :
  idx l i = Ok x -> 0 <= i < len l.
Proof.
  intros H. apply idx_Ok in H. destruct H as [H0 H]. apply lookup_lt_Some in H.
  unfold len. lia.
Qed.

Lemma set_idx_Ok {A : Type} (l l' : list A) (i : Z) (x : A) :
  set_idx l i x = Ok l' -> 0 <= i < len l /\ l' = <[Z.to_nat i := x]> l.
Proof.
  unfold set_idx, len. destruct (Z.ltb_spec i 0); [discriminate|].
  destruct (Z.leb_spec (Z.of_nat (length l)) i); [discriminate|].
  cbn [orb]. intros H'. injection H' as <-. split; [lia | reflexivity].
Qed.

Lemma slice_Ok {A : Type} (l r : list A) (lo hi : Z) :
  slice l lo hi = Ok r ->
  0 <= lo <= hi /\ hi <= len l /\ r = take (Z.to_nat (hi - lo)) (drop (Z.to_nat lo) l).
Proof.
  unfold slice, len. destruct (Z.ltb_spec lo 0); [discriminate|].
  destruct (Z.ltb_spec hi lo); [discriminate|].
  destruct (Z.ltb_spec (Z.of_nat (length l)) hi); [discriminate|].
  cbn [orb]. intros H'. injection H' as <-. repeat split; lia.
Qed.

Lemma occurs_zero (pattern text : list Z) (e : Z) : occurs pattern text 0 e.
Proof. intros t Ht. lia. Qed.

Lemma occurs_extend (pattern text : list Z) (k e x : Z) :
  0 <= k -> occurs pattern text k e -> idx pattern k = Ok x -> idx text e = Ok x ->
  occurs pattern text (k + 1) (e + 1).
Proof.
  intros Hk Hocc Hp Ht t Hrange. destruct (Z.eq_dec t k) as [-> | Hne].
  - exists x. split; [exact Hp|]. replace (e + 1 - (k + 1) + k) with e by lia. exact Ht.
  - destruct (Hocc t) as (y & Hy1 & Hy2); [lia|]. exists y. split; [exact Hy1|].
    replace (e + 1 - (k + 1) + t) with (e - k + t) by lia. exact Hy2.
Qed.

(** A border of a prefix that occurs in the text occurs there too. *)
Lemma occurs_border (pattern text : list Z) (j k e : Z) :
  0 <= j <= k -> occurs pattern pattern j k -> occurs pattern text k e ->
  occurs pattern text j e.
Proof.
  intros Hj Hborder Hocc t Ht.
  destruct (Hborder t Ht) as (x & Hx1 & Hx2).
  destruct (Hocc (k - j + t)) as (y & Hy1 & Hy2); [lia|].
  exists x. split; [exact Hx1|].
  replace (e - j + t) with (e - k + (k - j + t)) by lia. congruence.
Qed.

Lemma borders_weaken (pattern pi : list Z) (bound bound' : Z) :
  bound' <= bound -> borders pattern pi bound -> borders pattern pi bound'.
Proof. intros Hle H m Hm. apply H. lia. Qed.

Lemma prefixFallback_sound (fuel : nat) :
  forall (pattern pi text : list Z) (c j e j' : Z),
    prefixFallback fuel pattern pi c j = Ok j' ->
    0 <= j -> borders pattern pi j -> occurs pattern text j e ->
    occurs pattern text j' e /\ 0 <= j' <= j /\ (j' = 0 \/ idx pattern j' = Ok c).
Proof.
  induction fuel as [|fuel IH]; intros pattern pi text c j e j' H Hj Hpi Hocc.
  - cbn [prefixFallback] in H. destruct (Z.ltb_spec 0 j).
    + bind_ok H. destruct (Z.eqb_spec c a); cbn [negb] in H; [|discriminate].
      injection H as <-. subst a. repeat split; auto; lia.
    + injection H as <-. repeat split; auto; lia.
  - cbn [prefixFallback] in H. destruct (Z.ltb_spec 0 j).
    + bind_ok H. destruct (Z.eqb_spec c a); cbn [negb] in H.
      * injection H as <-. subst a. repeat split; auto; lia.
      * bind_ok H. destruct (Hpi (j - 1)) as (jj & Hjj & Hrange & Hborder); [lia|].
        rewrite Hjj in Ha0. injection Ha0 as <-.
        replace (j - 1 + 1) with j in Hborder by lia.
        apply IH with (text := text) (e := e) in H.
        -- destruct H as (H1 & H2 & H3). repeat split; auto; lia.
        -- lia.
        -- apply (borders_weaken pattern pi j); [lia | exact Hpi].
        -- apply (occurs_border pattern text jj j e); [lia | exact Hborder | exact Hocc].
    + injection H as <-. repeat split; auto; lia.
Qed.

Lemma kmpFallback_sound (fuel : nat) (pattern pi text : list Z) (b k e k' : Z) :
  kmpFallback fuel pattern pi b k = Ok k' ->
  0 <= k -> borders pattern pi k -> occurs pattern text k e ->
  occurs pattern text k' e /\ 0 <= k' <= k /\ (k' = 0 \/ idx pattern k' = Ok b).
Proof. exact (prefixFallback_sound fuel pattern pi text b k e k'). Qed.

Lemma findPrefix_loop_sound (count : nat) :
  forall (pattern pi pi' : list Z) (i : Z),
    findPrefix_loop count pattern pi i = Ok pi' ->
    1 <= i -> borders pattern pi i ->
    borders pattern pi' (i + Z.of_nat count).
Proof.
  induction count as [|count IH]; intros pattern pi pi' i H Hi Hpi.
  - cbn [findPrefix_loop] in H. injection H as <-.
    replace (i + Z.of_nat 0) with i by lia. exact Hpi.
  - cbn [findPrefix_loop] in H.
    bind_ok H. rename a into j, Ha into Hj.
    bind_ok H. rename a into c, Ha into Hc.
    bind_ok H. rename a into j', Ha into Hj'.
    bind_ok H. rename a into pj, Ha into Hpj.
    bind_ok H. rename a into pi2, Ha into Hset.
    destruct (Hpi (i - 1)) as (jj & Hjj & Hrange & Hborder); [lia|].
    rewrite Hjj in Hj. injection Hj as <-.
    replace (i - 1 + 1) with i in Hborder by lia.
    apply prefixFallback_sound with (text := pattern) (e := i) in Hj';
      [| lia | apply (borders_weaken pattern pi i); [lia | exact Hpi] | exact Hborder].
    destruct Hj' as (Hocc' & Hrange' & Hexit).
    apply set_idx_Ok in Hset. destruct Hset as [Hin ->].
    replace (i + Z.of_nat (S count)) with (i + 1 + Z.of_nat count) by lia.
    apply IH in H; [exact H | lia |].
    intros m Hm. destruct (Z.eq_dec m i) as [-> | Hne].
    + rewrite idx_insert_eq by lia. eexists. split; [reflexivity|].
      destruct (Z.eqb_spec c pj) as [-> | Hcp].
      * split; [lia|]. apply occurs_extend with (x := pj); auto; lia.
      * destruct Hexit as [-> | Hexit]; [|congruence].
        split; [lia|]. apply occurs_zero.
    + rewrite idx_insert_ne by lia. apply Hpi. lia.
Qed.

Lemma borders_make (pattern : list Z) : 1 <= len pattern -> borders pattern (make 0 (len pattern)) 1.
Proof.
  intros Hlen m Hm. assert (m = 0) by lia. subst m. exists 0.
  rewrite idx_make by lia. split; [reflexivity|]. split; [lia|]. apply occurs_zero.
Qed.

Lemma findPrefix_sound (pattern pi : list Z) :
  findPrefix pattern = Ok pi -> pattern <> [] -> borders pattern pi (len pattern).
Proof.
  unfold findPrefix. intros H Hne.
  assert (Hlen : 1 <= len pattern).
  { destruct pattern; [contradiction|]. unfold len. simpl. lia. }
  apply findPrefix_loop_sound in H; [| lia | apply borders_make; exact Hlen].
  replace (len pattern) with (1 + Z.of_nat (length pattern - 1)); [exact H|].
  unfold len in *. lia.
Qed.

Lemma kmp_loop_sound (rest : list Z) :
  forall (scanned text pattern pi : list Z) (i best k bestIndex b bi : Z),
    kmp_loop rest pattern pi i best k bestIndex = Ok (b, bi) ->
    text = scanned ++ rest -> i = len scanned ->
    borders pattern pi (len pattern) ->
    0 <= k <= len pattern -> k <= i -> occurs pattern text k i ->
    0 <= best -> 0 <= bestIndex -> occurs pattern text best (bestIndex + best) ->
    0 <= b /\ 0 <= bi /\ occurs pattern text b (bi + b).
Proof.
  induction rest as [|c rest IH];
    intros scanned text pattern pi i best k bestIndex b bi H Htext Hi Hpi Hk Hki Hocc Hb Hbi Hbest.
  - cbn [kmp_loop] in H. injection H as <- <-. auto.
  - cbn [kmp_loop] in H.
    bind_ok H. rename a into k', Ha into Hk'.
    bind_ok H. rename a into pk, Ha into Hpk.
    apply kmpFallback_sound with (text := text) (e := i) in Hk';
      [| lia | apply (borders_weaken pattern pi (len pattern)); [lia | exact Hpi] | exact Hocc].
    destruct Hk' as (Hocc' & Hrange' & Hexit).
    pose proof (idx_range _ _ _ Hpk) as Hk'len.
    assert (Hc : idx text i = Ok c).
    { apply idx_Ok. split; [unfold len in Hi; lia|]. subst text i. unfold len.
      rewrite Nat2Z.id. apply list_lookup_middle. reflexivity. }
    assert (Htext' : text = (scanned ++ [c]) ++ rest).
    { rewrite <- app_assoc. exact Htext. }
    assert (Hi' : i + 1 = len (scanned ++ [c])).
    { unfold len in *. rewrite length_app. cbn [length]. lia. }
    set (k2 := if c =? pk then k' + 1 else k') in *.
    assert (Hk2 : 0 <= k2 <= len pattern /\ k2 <= i + 1 /\ occurs pattern text k2 (i + 1)).
    { subst k2. destruct (Z.eqb_spec c pk) as [-> | Hcp].
      - split; [lia|]. split; [lia|]. apply occurs_extend with (x := pk); auto; lia.
      - destruct Hexit as [-> | Hexit]; [|congruence].
        split; [lia|]. split; [lia|]. apply occurs_zero. }
    destruct Hk2 as (Hk2r & Hk2i & Hk2occ).
    destruct (Z.ltb_spec best k2).
    + assert (Hnew : occurs pattern text k2 (i - k2 + 1 + k2)).
      { replace (i - k2 + 1 + k2) with (i + 1) by lia. exact Hk2occ. }
      destruct (Z.eqb_spec k2 (len pattern)).
      * injection H as <- <-. split; [lia|]. split; [lia|]. exact Hnew.
      * eapply (IH (scanned ++ [c])) in H; try eassumption; lia.
    + eapply (IH (scanned ++ [c])) in H; try eassumption; lia.
Qed.

Lemma kmp_sound (searchBuffer pattern : list Z) (b bi : Z) :
  kmp searchBuffer pattern = Ok (b, bi) -> pattern <> [] ->
  0 <= b /\ 0 <= bi /\ occurs pattern searchBuffer b (bi + b).
Proof.
  unfold kmp. intros H Hne. bind_ok H. rename a into pi.
  apply findPrefix_sound in Ha; [|exact Hne].
  apply (kmp_loop_sound searchBuffer [] searchBuffer) in H; auto; try lia.
  - unfold len. lia.
  - apply occurs_zero.
  - apply occurs_zero.
Qed.

Lemma kmp_loop_bound (rest : list Z) :
  forall (pattern pi : list Z) (i best k bestIndex b bi : Z),
    kmp_loop rest pattern pi i best k bestIndex = Ok (b, bi) ->
    best <= len pattern -> b <= len pattern.
Proof.
  induction rest as [|c rest IH]; intros pattern pi i best k bestIndex b bi H Hbest.
  - cbn [kmp_loop] in H. injection H as <- <-. exact Hbest.
  - cbn [kmp_loop] in H. bind_ok H. bind_ok H.
    apply idx_range in Ha0.
    destruct (best <? _).
    + destruct (Z.eqb_spec (if c =? a0 then a + 1 else a) (len pattern)) as [E | E].
      * injection H as <- <-. lia.
      * apply IH in H; [exact H|]. destruct (c =? a0); lia.
    + apply IH in H; [exact H | exact Hbest].
Qed.

Lemma kmp_bound (searchBuffer pattern : list Z) (b bi : Z) :
  kmp searchBuffer pattern = Ok (b, bi) -> b <= len pattern.
Proof.
  unfold kmp. intros H. bind_ok H. apply kmp_loop_bound in H; [exact H|].
  unfold len. lia.
Qed.

(** Two windows of a list that agree symbol by symbol are equal. *)
Lemma windows_equal (l : list Z) (a b n : Z) :
  0 <= a -> 0 <= b -> 0 <= n ->
  (forall t, 0 <= t < n -> exists x, idx l (a + t) = Ok x /\ idx l (b + t) = Ok x) ->
  take (Z.to_nat n) (drop (Z.to_nat a) l) = take (Z.to_nat n) (drop (Z.to_nat b) l).
Proof.
  intros Ha Hb Hn H. apply list_eq. intros i.
  destruct (decide (i < Z.to_nat n)%nat) as [Hlt | Hge].
  - rewrite !lookup_take_lt, !lookup_drop by exact Hlt.
    destruct (H (Z.of_nat i)) as (x & Hx1 & Hx2); [lia|].
    apply idx_Ok in Hx1, Hx2. destruct Hx1 as [_ Hx1]. destruct Hx2 as [_ Hx2].
    replace (Z.to_nat (a + Z.of_nat i)) with (Z.to_nat a + i)%nat in Hx1 by lia.
    replace (Z.to_nat (b + Z.of_nat i)) with (Z.to_nat b + i)%nat in Hx2 by lia.
    congruence.
  - rewrite !lookup_take_ge by lia. reflexivity.
Qed.

Lemma idx_take_drop {A : Type} (l : list A) (lo n t : Z) :
  0 <= lo -> 0 <= t < n ->
  idx (take (Z.to_nat n) (drop (Z.to_nat lo) l)) t = idx l (lo + t).
Proof.
  intros Hlo Ht. unfold idx.
  destruct (Z.ltb_spec t 0); [lia|]. destruct (Z.ltb_spec (lo + t) 0); [lia|].
  rewrite lookup_take_lt by lia. rewrite lookup_drop.
  replace (Z.to_nat (lo + t)) with (Z.to_nat lo + Z.to_nat t)%nat by lia. reflexivity.
Qed.

Lemma drop_at {A : Type} (l : list A) (i : Z) (x : A) :
  idx l i = Ok x -> drop (Z.to_nat i) l = x :: drop (Z.to_nat (i + 1)) l.
Proof.
  intros H. apply idx_Ok in H. destruct H as [Hi H].
  replace (Z.to_nat (i + 1)) with (S (Z.to_nat i)) by lia.
  apply drop_S. exact H.
Qed.

(** The reference that [FindMatch] computes for one position. *)
Lemma position_copies (content searchBuffer nextRunes : list Z) (d l i c : Z) (ref : Reference) :
  0 <= d -> 1 <= l ->
  slice content (Z.max 0 (i - d)) i = Ok searchBuffer ->
  idx content i = Ok c ->
  slice content (i + 1) (Z.min (len content) (i + l)) = Ok nextRunes ->
  matchSearchBuffer searchBuffer [c] nextRunes = Ok ref ->
  copies content d l i ref.
Proof.
  intros Hd Hl Hsb Hc Hnext H.
  pose proof (idx_range _ _ _ Hc) as Hi.
  apply slice_Ok in Hsb. destruct Hsb as (Hsb1 & Hsb2 & ->).
  apply slice_Ok in Hnext. destruct Hnext as (Hn1 & Hn2 & ->).
  set (start := Z.max 0 (i - d)) in *.
  set (nextEnd := Z.min (len content) (i + l)) in *.
  assert (Hpattern : [c] ++ take (Z.to_nat (nextEnd - (i + 1))) (drop (Z.to_nat (i + 1)) content)
                     = take (Z.to_nat (nextEnd - i)) (drop (Z.to_nat i) content)).
  { rewrite (drop_at content i c Hc).
    replace (Z.to_nat (nextEnd - i)) with (S (Z.to_nat (nextEnd - (i + 1)))) by lia.
    reflexivity. }
  unfold matchSearchBuffer in H. rewrite Hpattern in H.
  set (pattern := take (Z.to_nat (nextEnd - i)) (drop (Z.to_nat i) content)) in *.
  set (sb := take (Z.to_nat (i - start)) (drop (Z.to_nat start) content)) in *.
  assert (Hplen : len pattern = nextEnd - i).
  { unfold pattern, len in *. rewrite length_take, length_drop. lia. }
  assert (Hsblen : len sb = i - start).
  { unfold sb, len in *. rewrite length_take, length_drop. lia. }
  assert (Hpne : pattern <> []).
  { intros E. rewrite E in Hplen. unfold len in Hplen. cbn [length] in Hplen. lia. }
  bind_ok H. destruct a as [b bi].
  pose proof (kmp_sound _ _ _ _ Ha Hpne) as (Hb & Hbi & Hocc).
  pose proof (kmp_bound _ _ _ _ Ha) as Hbound.
  pose proof (kmp_inside _ _ _ _ Ha) as Hinside.
  unfold copies.
  destruct (Z.ltb_spec 1 b) as [Hlong | Hshort].
  - bind_ok H. injection H as <-. cbn [IsRef Size NegativeOffset Value].
    apply slice_Ok in Ha0. destruct Ha0 as (_ & _ & ->).
    replace (Z.to_nat (b - 0)) with (Z.to_nat b) by lia.
    change (Z.to_nat 0) with 0%nat. rewrite drop_0.
    assert (Hvalue : take (Z.to_nat b) pattern = take (Z.to_nat b) (drop (Z.to_nat i) content)).
    { unfold pattern. rewrite take_take. f_equal. lia. }
    rewrite Hvalue.
    split; [lia|]. split; [lia|]. split.
    + rewrite slice_take_drop by lia. f_equal. f_equal. lia.
    + rewrite slice_take_drop by lia. f_equal.
      replace (Z.to_nat (i - (len sb - bi) + b - (i - (len sb - bi)))) with (Z.to_nat b) by lia.
      apply windows_equal; [lia | lia | lia |].
      intros t Ht. destruct (Hocc t Ht) as (x & Hx1 & Hx2).
      exists x. split.
      * unfold sb in Hx2. rewrite idx_take_drop in Hx2 by lia.
        rewrite <- Hx2. f_equal. lia.
      * unfold pattern in Hx1. rewrite idx_take_drop in Hx1 by lia. exact Hx1.
  - injection H as <-. cbn [IsRef Size NegativeOffset Value].
    split; [reflexivity|]. split; [reflexivity|].
    rewrite slice_take_drop by lia. f_equal.
    rewrite (drop_at content i c Hc).
    replace (Z.to_nat (i + 1 - i)) with 1%nat by lia. reflexivity.
Qed.

Lemma FindMatch_loop_copies (count : nat) :
  forall (content : list Z) (d l i : Z) (refs : list Reference),
    FindMatch_loop count content d l i = Ok refs ->
    0 <= d -> 1 <= l -> 0 <= i ->
    length refs = count /\
    forall (n : nat) (ref : Reference),
      refs !! n = Some ref -> copies content d l (i + Z.of_nat n) ref.
Proof.
  induction count as [|count IH]; intros content d l i refs H Hd Hl Hi.
  - cbn [FindMatch_loop] in H. injection H as <-. split; [reflexivity|].
    intros n ref Hn. discriminate.
  - cbn [FindMatch_loop] in H.
    bind_ok H. rename a into sb, Ha into Hsb.
    bind_ok H. rename a into c, Ha into Hc.
    bind_ok H. rename a into next, Ha into Hnext.
    bind_ok H. rename a into ref0, Ha into Href.
    bind_ok H. rename a into rest, Ha into Hrest.
    injection H as <-.
    apply IH in Hrest; [| lia | lia | lia]. destruct Hrest as [Hlen Hrest].
    split; [cbn [length]; lia|].
    intros [|n] ref Hn.
    + injection Hn as <-. replace (i + Z.of_nat 0) with i by lia.
      eapply position_copies; eassumption.
    + replace (i + Z.of_nat (S n)) with (i + 1 + Z.of_nat n) by lia.
      apply Hrest. exact Hn.
Qed.

(** X1. For every content, the matcher returns one reference for each
    position; a back-reference of size [s] and offset [n] at position [i]
    has [2 <= s <= matchLength] and [s <= n <= matchDistance], and the [s]
    symbols of the content at [i - n] are the [s] symbols at [i], which
    are the value of the reference; any other reference holds the symbol
    at its position. *)
Theorem matcher_references_are_copies (content : list Z) (matchDistance matchLength : Z) :
  0 <= matchDistance -> 1 <= matchLength ->
  exists refs,
    FindMatch content matchDistance matchLength = Ok refs /\
    length refs = length content /\
    forall (i : nat) (ref : Reference),
      refs !! i = Some ref -> copies content matchDistance matchLength (Z.of_nat i) ref.
Proof.
  intros Hd Hl.
  destruct (FindMatch_total content matchDistance matchLength Hd Hl) as (refs & Hrefs).
  exists refs. split; [exact Hrefs|].
  unfold FindMatch in Hrefs. apply FindMatch_loop_copies in Hrefs; [| lia | lia | lia].
  destruct Hrefs as [Hlen Hcopies]. split; [exact Hlen|].
  intros i ref Hi. replace (Z.of_nat i) with (0 + Z.of_nat i) by lia.
  apply Hcopies. exact Hi.
Qed.

End CopyFacts.

Lemma matcher_references_are_copies_witness :
  exists refs,
    Lzss.FindMatch (Go.bytes "ABABABABAB") 32768 258 = Ok refs /\
    length refs = 10%nat /\
    forall (i : nat) (ref : Lzss.Reference),
      refs !! i = Some ref -> copies (Go.bytes "ABABABABAB") 32768 258 (Z.of_nat i) ref.
Proof.
  apply (matcher_references_are_copies (Go.bytes "ABABABABAB") 32768 258); lia.
Defined.

(** ** The tokens of a content decode to the content *)

Section TokenFacts.
Import Go Lzss Flate.

Lemma runes_fuel_ascii (s : list Z) :
  Forall sevenBit s -> forall fuel, (length s <= fuel)%nat -> runes_fuel fuel s = s.
Proof.
  induction 1 as [|b s Hb Hs IH]; intros fuel Hfuel.
  - destruct fuel; reflexivity.
  - destruct fuel as [|fuel]; [cbn [length] in Hfuel; lia|].
    cbn [runes_fuel decoderune]. unfold sevenBit in Hb.
    destruct (Z.ltb_spec b 128); [|lia].
    cbn [drop]. rewrite drop_0. f_equal. apply IH. cbn [length] in Hfuel. lia.
Qed.

Lemma runes_ascii (s : list Z) : Forall sevenBit s -> runes s = s.
Proof. intros H. unfold runes. apply runes_fuel_ascii; [exact H | lia]. Qed.

Lemma encoderune_ascii (r : Z) : sevenBit r -> encoderune r = [r].
Proof.
  unfold sevenBit, encoderune. intros H.
  destruct (Z.leb_spec 0 r); [|lia]. destruct (Z.leb_spec r 127); [|lia]. reflexivity.
Qed.

Lemma bytes_of_runes_ascii (s : list Z) : Forall sevenBit s -> bytes_of_runes s = s.
Proof.
  induction 1 as [|b s Hb Hs IH]; [reflexivity|].
  unfold bytes_of_runes in *. cbn [map concat]. rewrite IH, encoderune_ascii by exact Hb.
  reflexivity.
Qed.

Lemma bytes_of_runes_app (a b : list Z) :
  bytes_of_runes (a ++ b) = bytes_of_runes a ++ bytes_of_runes b.
Proof. unfold bytes_of_runes. rewrite map_app, concat_app. reflexivity. Qed.

Lemma DecodeTokens_loop_literals (bs : list Z) :
  forall (rest : list Token) (output : list Z),
    DecodeTokens_loop (map literal bs ++ rest) output = DecodeTokens_loop rest (output ++ bs).
Proof.
  induction bs as [|b bs IH]; intros rest output.
  - cbn [map app]. rewrite app_nil_r. reflexivity.
  - cbn [map app DecodeTokens_loop literal Kind Value]. rewrite IH, <- app_assoc. reflexivity.
Qed.

Lemma literals_wellFormed (bs : list Z) : Forall wellFormed (map literal bs).
Proof. induction bs; cbn [map]; constructor; [exact I | assumption]. Qed.

Lemma slice_of_take {A : Type} (l : list A) (i lo hi : Z) :
  0 <= lo <= hi -> hi <= i -> i <= len l ->
  slice (take (Z.to_nat i) l) lo hi = slice l lo hi.
Proof.
  intros H1 H2 H3. unfold len in *.
  rewrite !slice_take_drop by (unfold len; rewrite ?length_take; lia).
  f_equal. rewrite skipn_firstn_comm, take_take. f_equal. lia.
Qed.

Section Decoding.

Variable content : list Z.

(** The bytes written for a prefix of the content read back as that prefix. *)
Hypothesis Hutf : forall p : nat, runes (bytes_of_runes (take p content)) = take p content.

Lemma tokeniseLZSS_loop_decodes (refs : list Reference) :
  forall (i n : Z) (tokens : list Token),
    (forall (m : nat) (ref : Reference),
       refs !! m = Some ref -> copies content 32768 258 (i + Z.of_nat m) ref) ->
    0 <= i -> i + len refs = len content -> 0 <= n -> i + n <= len content ->
    exists more,
      tokeniseLZSS_loop refs n tokens = Ok (tokens ++ more) /\
      Forall wellFormed more /\
      DecodeTokens_loop more (bytes_of_runes (take (Z.to_nat (i + n)) content))
        = Ok (bytes_of_runes content).
Proof.
  induction refs as [|ref rest IH]; intros i n tokens Hcopies Hi Hlen Hn Hin.
  - exists []. rewrite app_nil_r. split; [reflexivity|]. split; [constructor|].
    cbn [DecodeTokens_loop]. rewrite take_ge; [reflexivity|].
    unfold len in *. cbn [length] in Hlen. lia.
  - assert (Hlen' : i + 1 + len rest = len content).
    { unfold len in *. cbn [length] in Hlen. lia. }
    assert (Hrest : forall (m : nat) (r : Reference),
               rest !! m = Some r -> copies content 32768 258 (i + 1 + Z.of_nat m) r).
    { intros m r Hm. replace (i + 1 + Z.of_nat m) with (i + Z.of_nat (S m)) by lia.
      apply Hcopies. exact Hm. }
    pose proof (Hcopies 0%nat ref eq_refl) as Hcopy.
    replace (i + Z.of_nat 0) with i in Hcopy by lia.
    assert (Hilt : i < len content) by (unfold len in *; lia).
    destruct (idx_total content i) as (c & Hc); [lia|].
    cbn [tokeniseLZSS_loop].
    destruct (Z.ltb_spec 0 n) as [Hskip | Hhere].
    { destruct (IH (i + 1) (n - 1) tokens Hrest) as (more & Hrun & Hwf & Hdec); try lia.
      exists more. split; [exact Hrun|]. split; [exact Hwf|].
      replace (i + n) with (i + 1 + (n - 1)) by lia. exact Hdec. }
    assert (n = 0) by lia. subst n. replace (i + 0) with i by lia.
    assert (Hhead : idx (Lzss.Value ref) 0 = Ok c).
    { unfold copies in Hcopy. destruct (IsRef ref).
      - destruct Hcopy as (Hs & _ & Hv & _). apply slice_Ok in Hv.
        destruct Hv as (_ & _ & ->). rewrite idx_take_drop by lia.
        replace (i + 0) with i by lia. exact Hc.
      - destruct Hcopy as (Hs & _ & Hv). apply slice_Ok in Hv.
        destruct Hv as (_ & _ & ->). rewrite idx_take_drop by lia.
        replace (i + 0) with i by lia. exact Hc. }
    assert (Hnext : take (Z.to_nat (i + 1)) content = take (Z.to_nat i) content ++ [c]).
    { replace (Z.to_nat (i + 1)) with (S (Z.to_nat i)) by lia.
      apply take_S_r. apply idx_Ok in Hc. tauto. }
    destruct (negb (IsRef ref) || (Size ref <? 3)) eqn:Hlit.
    + rewrite Hhead. cbn [bind].
      destruct (IH (i + 1) 0 (tokens ++ map literal (encoderune c)) Hrest)
        as (more & Hrun & Hwf & Hdec); try lia.
      exists (map literal (encoderune c) ++ more).
      rewrite app_assoc. split; [exact Hrun|]. split.
      * apply Forall_app. split; [|exact Hwf].
        apply literals_wellFormed.
      * rewrite DecodeTokens_loop_literals.
        replace (i + 1 + 0) with (i + 1) in Hdec by lia.
        rewrite Hnext, bytes_of_runes_app in Hdec.
        unfold bytes_of_runes at 2 in Hdec. cbn [map concat] in Hdec.
        rewrite app_nil_r in Hdec. exact Hdec.
    + apply orb_false_elim in Hlit. destruct Hlit as [Hisref Hsize].
      apply negb_false_iff in Hisref. apply Z.ltb_ge in Hsize.
      unfold copies in Hcopy. rewrite Hisref in Hcopy.
      destruct Hcopy as (Hs & Hd & Hv & Hold).
      pose proof (slice_Ok _ _ _ _ Hv) as (_ & Hend & Hvalue).
      pose proof (slice_Ok _ _ _ _ Hold) as (Hstart & _ & _).
      destruct (Z.ltb_spec (NegativeOffset ref) (Size ref)); [lia|].
      unfold maxAllowedMatchLength, maxAllowedBackwardDistance.
      destruct (Z.ltb_spec 258 (Size ref)); [lia|].
      destruct (Z.ltb_spec 32768 (NegativeOffset ref)); [lia|].
      destruct (IH (i + 1) (Size ref - 1)
                   (tokens ++ [matchToken (Size ref) (NegativeOffset ref)]) Hrest)
        as (more & Hrun & Hwf & Hdec); try lia.
      exists (matchToken (Size ref) (NegativeOffset ref) :: more).
      rewrite <- app_assoc in Hrun. split; [exact Hrun|]. split.
      * constructor; [|exact Hwf]. unfold wellFormed. cbn [matchToken Kind Length Distance]. lia.
      * cbn [DecodeTokens_loop matchToken Kind Length Distance].
        rewrite Hutf.
        assert (Hcur : len (take (Z.to_nat i) content) = i).
        { unfold len in *. rewrite length_take. lia. }
        rewrite Hcur, slice_of_take by lia. rewrite Hold. cbn [bind].
        replace (i + 1 + (Size ref - 1)) with (i + Size ref) in Hdec by lia.
        rewrite <- bytes_of_runes_app.
        replace (take (Z.to_nat i) content ++ Lzss.Value ref)
          with (take (Z.to_nat (i + Size ref)) content); [exact Hdec|].
        rewrite Hvalue. replace (Z.to_nat (i + Size ref - i)) with (Z.to_nat (Size ref)) by lia.
        rewrite take_take_drop. f_equal. lia.
Qed.

Lemma tokenise_decodes_runes (B : list Z) :
  content = runes B ->
  exists tokens,
    tokenise B = Ok tokens /\ Forall wellFormed tokens /\
    DecodeTokens tokens = Ok (bytes_of_runes content).
Proof.
  intros Hcontent. unfold tokenise, DecodeTokens. rewrite <- Hcontent.
  destruct (FindMatch_total content maxAllowedBackwardDistance maxAllowedMatchLength)
    as (refs & Hrefs); [unfold maxAllowedBackwardDistance; lia
                       | unfold maxAllowedMatchLength; lia |].
  rewrite Hrefs. cbn [bind].
  unfold FindMatch in Hrefs. apply FindMatch_loop_copies in Hrefs;
    [| unfold maxAllowedBackwardDistance; lia | unfold maxAllowedMatchLength; lia | lia].
  destruct Hrefs as [Hlen Hcopies].
  destruct (tokeniseLZSS_loop_decodes refs 0 0 [] Hcopies) as (more & Hrun & Hwf & Hdec);
    try (unfold len; lia).
  exists more. split; [exact Hrun|]. split; [exact Hwf|]. exact Hdec.
Qed.

End Decoding.

Lemma prefixes_read_back (B : list Z) :
  Forall byte B ->
  forall p : nat, runes (bytes_of_runes (take p (runes B))) = take p (runes B).
Proof.
  intros HB p. apply runes_bytes_of_runes. apply Forall_take. apply runes_scalar. exact HB.
Qed.

(** X2. The tokenizer of the encoder never fails: for every byte sequence, the
    references of the matcher become tokens, and every match token has
    [3 <= Length <= 258] and [Length <= Distance <= 32768]. *)
Theorem tokenise_returns_tokens_within_limits (B : list Z) :
  Forall byte B ->
  exists tokens, tokenise B = Ok tokens /\ Forall wellFormed tokens.
Proof.
  intros HB.
  destruct (tokenise_decodes_runes (runes B) (prefixes_read_back B HB) B eq_refl)
    as (tokens & Htok & Hwf & _).
  exists tokens. split; assumption.
Qed.

(** X3. [DecodeTokens] undoes [tokenise] up to the conversion to runes: the
    tokens computed for a byte sequence decode to the UTF-8 bytes of its
    runes, and to the sequence itself when its bytes are 7-bit. *)
Theorem tokens_decode_to_content (B : list Z) :
  Forall byte B ->
  exists tokens,
    tokenise B = Ok tokens /\
    DecodeTokens tokens = Ok (bytes_of_runes (runes B)) /\
    (Forall sevenBit B -> DecodeTokens tokens = Ok B).
Proof.
  intros HB.
  destruct (tokenise_decodes_runes (runes B) (prefixes_read_back B HB) B eq_refl)
    as (tokens & Htok & _ & Hdec).
  exists tokens. split; [exact Htok|]. split; [exact Hdec|].
  intros Hascii. rewrite Hdec. f_equal.
  rewrite runes_ascii by exact Hascii. apply bytes_of_runes_ascii. exact Hascii.
Qed.

End TokenFacts.

Lemma tokenise_returns_tokens_within_limits_witness :
  exists tokens,
    Flate.tokenise (Go.bytes "ABABABABAB") = Ok tokens /\ Forall wellFormed tokens.
Proof.
  apply (tokenise_returns_tokens_within_limits (Go.bytes "ABABABABAB")).
  repeat constructor; unfold byte; lia.
Defined.

Lemma tokens_decode_to_content_witness :
  exists tokens,
    Flate.tokenise [104; 195; 169; 255; 104; 195; 169; 255] = Ok tokens /\
    Flate.DecodeTokens tokens
      = Ok (Go.bytes_of_runes (Go.runes [104; 195; 169; 255; 104; 195; 169; 255])) /\
    (Forall sevenBit [104; 195; 169; 255; 104; 195; 169; 255] ->
     Flate.DecodeTokens tokens = Ok [104; 195; 169; 255; 104; 195; 169; 255]).
Proof.
  apply (tokens_decode_to_content [104; 195; 169; 255; 104; 195; 169; 255]).
  repeat constructor; unfold byte; lia.
Defined.

(** ** The code tables of lengths and distances *)

Section CodeTableFacts.
Import Go Flate.

Lemma allBelow_spec (k : nat) :
  forall (lo : Z) (P : Z -> bool),
    allBelow k lo P = true -> forall v, lo <= v < lo + 2 ^ Z.of_nat k -> P v = true.
Proof.
  induction k as [|k IH]; intros lo P H v Hv.
  - cbn [allBelow] in H. change (2 ^ Z.of_nat 0) with 1 in Hv.
    replace v with lo by lia. exact H.
  - cbn [allBelow] in H. apply andb_true_iff in H. destruct H as [H1 H2].
    assert (Hpow : 2 ^ Z.of_nat (S k) = 2 * 2 ^ Z.of_nat k).
    { rewrite Nat2Z.inj_succ, Z.pow_succ_r by lia. reflexivity. }
    rewrite Hpow in Hv.
    destruct (Z.lt_ge_cases v (lo + 2 ^ Z.of_nat k)).
    + apply (IH lo P H1). lia.
    + apply (IH _ P H2). lia.
Qed.

Lemma lengths_checked : allBelow 8 3 lengthCodeAgrees = true.
Proof. vm_compute. reflexivity. Qed.

Lemma distances_checked : allBelow 15 1 distanceCodeAgrees = true.
Proof. vm_compute. reflexivity. Qed.

(** X4. Every match length of the format has a length code: for
    [3 <= value <= 258], [FindCode] returns a code of the table and an
    offset that fits the extra bits of the code, and the decoder's rule for
    that code, reading that offset, returns [value].  Any other value is
    refused. *)
Theorem length_codes_round_trip (value : Z) :
  (3 <= value <= 258 ->
   exists code offset,
     LitLengthCode_FindCode value = Ok (code, offset) /\
     257 <= code <= 285 /\
     0 <= offset < 2 ^ ExtraBits (alphabet lenAlphabets code) /\
     answer (decodeLitLenRule code (readerOf (lowBytes offset)))
       = Ok (MatchToken, value, offset)) /\
  (value < 3 \/ 258 < value -> LitLengthCode_FindCode value = Err ErrLengthOutOfRange).
Proof.
  split.
  - intros Hv.
    pose proof (allBelow_spec 8 3 _ lengths_checked value) as H.
    change (2 ^ Z.of_nat 8) with 256 in H. specialize (H ltac:(lia)).
    unfold lengthCodeAgrees in H.
    destruct (LitLengthCode_FindCode value) as [[code offset] | | |]; try discriminate.
    exists code, offset. split; [reflexivity|].
    repeat (apply andb_true_iff in H; destruct H as [H ?]).
    destruct (decodeLitLenRule code (readerOf (lowBytes offset)))
      as [[[kind length] lengthOffset] st | | |]; try discriminate.
    destruct kind; try discriminate.
    match goal with Hd : (_ =? _) && (_ =? _) = true |- _ =>
      apply andb_true_iff in Hd; destruct Hd as [Hd1 Hd2] end.
    apply Z.eqb_eq in Hd1, Hd2. subst length lengthOffset. cbn [answer].
    repeat split; try reflexivity; lia.
  - intros Hv. unfold LitLengthCode_FindCode, maxAllowedMatchLength.
    destruct (Z.ltb_spec value 3); [reflexivity|].
    destruct (Z.ltb_spec 258 value); [reflexivity | lia].
Qed.

(** X5. Every distance of the format has a distance code: for
    [1 <= value <= 32768], [FindCode] returns a code of the table and an
    offset that fits its extra bits, and the decoder's rule for that code,
    reading that offset, returns [value].  Any other value is refused. *)
Theorem distance_codes_round_trip (value : Z) :
  (1 <= value <= 32768 ->
   exists code offset,
     DistanceCode_FindCode value = Ok (code, offset) /\
     0 <= code <= 29 /\
     0 <= offset < 2 ^ ExtraBits (alphabet distAlphabets code) /\
     answer (decodeDistRule code (readerOf (lowBytes offset))) = Ok (value, offset)) /\
  (value < 1 \/ 32768 < value -> DistanceCode_FindCode value = Err ErrDistanceOutOfRange).
Proof.
  split.
  - intros Hv.
    pose proof (allBelow_spec 15 1 _ distances_checked value) as H.
    change (2 ^ Z.of_nat 15) with 32768 in H. specialize (H ltac:(lia)).
    unfold distanceCodeAgrees in H.
    destruct (DistanceCode_FindCode value) as [[code offset] | | |]; try discriminate.
    exists code, offset. split; [reflexivity|].
    repeat (apply andb_true_iff in H; destruct H as [H ?]).
    destruct (decodeDistRule code (readerOf (lowBytes offset)))
      as [[distance distanceOffset] st | | |]; try discriminate.
    match goal with Hd : (_ =? _) && (_ =? _) = true |- _ =>
      apply andb_true_iff in Hd; destruct Hd as [Hd1 Hd2] end.
    apply Z.eqb_eq in Hd1, Hd2. subst distance distanceOffset. cbn [answer].
    repeat split; try reflexivity; lia.
  - intros Hv. unfold DistanceCode_FindCode, maxAllowedBackwardDistance.
    destruct (Z.ltb_spec value 1); [reflexivity|].
    destruct (Z.ltb_spec 32768 value); [reflexivity | lia].
Qed.

End CodeTableFacts.

Lemma length_codes_round_trip_witness :
  (exists code offset,
     Flate.LitLengthCode_FindCode 100 = Ok (code, offset) /\
     257 <= code <= 285 /\
     0 <= offset < 2 ^ Flate.ExtraBits (Flate.alphabet Flate.lenAlphabets code) /\
     answer (Flate.decodeLitLenRule code (readerOf (lowBytes offset)))
       = Ok (Flate.MatchToken, 100, offset)) /\
  Flate.LitLengthCode_FindCode 259 = Err ErrLengthOutOfRange.
Proof.
  split.
  - apply (length_codes_round_trip 100). lia.
  - apply (length_codes_round_trip 259). lia.
Defined.

Lemma distance_codes_round_trip_witness :
  (exists code offset,
     Flate.DistanceCode_FindCode 5000 = Ok (code, offset) /\
     0 <= code <= 29 /\
     0 <= offset < 2 ^ Flate.ExtraBits (Flate.alphabet Flate.distAlphabets code) /\
     answer (Flate.decodeDistRule code (readerOf (lowBytes offset))) = Ok (5000, offset)) /\
  Flate.DistanceCode_FindCode 0 = Err ErrDistanceOutOfRange.
Proof.
  split.
  - apply (distance_codes_round_trip 5000). lia.
  - apply (distance_codes_round_trip 0). lia.
Defined.

(** ** The run lengths of the encoder expand to the code lengths *)

Section ExpansionFacts.
Import Go Flate.

Lemma reads_two : allBelow 2 0 (readsBack 2) = true.
Proof. vm_compute. reflexivity. Qed.
Lemma reads_three : allBelow 3 0 (readsBack 3) = true.
Proof. vm_compute. reflexivity. Qed.
Lemma reads_seven : allBelow 7 0 (readsBack 7) = true.
Proof. vm_compute. reflexivity. Qed.

Lemma readsBack_spec (n o : Z) :
  readsBack n o = true -> exists st, readCompressedContent n (readerOf [o]) = ROk o st.
Proof.
  unfold readsBack. destruct (readCompressedContent n (readerOf [o])) as [o' st | | |];
    try discriminate.
  intros H. apply Z.eqb_eq in H. subst o'. eauto.
Qed.

Lemma expand_literal (lengths : list Z) (v : Z) :
  codeLength v -> expandItem lengths (lit v) = Ok [v].
Proof.
  unfold codeLength. intros Hv.
  assert (Hcases : v = 0 \/ v = 1 \/ v = 2 \/ v = 3 \/ v = 4 \/ v = 5 \/ v = 6 \/ v = 7 \/
                   v = 8 \/ v = 9 \/ v = 10 \/ v = 11 \/ v = 12 \/ v = 13 \/ v = 14 \/ v = 15)
    by lia.
  repeat (destruct Hcases as [-> | Hcases]; [reflexivity|]). subst. reflexivity.
Qed.

Lemma expand_zeros_short (lengths : list Z) (o : Z) :
  0 <= o < 8 -> expandItem lengths {| RLECode := 17; Offset := o |}
                = Ok (replicate (Z.to_nat (3 + o)) 0).
Proof.
  intros Ho. unfold expandItem, expandRule. cbn [RLECode Offset].
  change (alphabet rleAlphabets 17) with {| ExtraBits := 3; Base := 3 |}.
  cbn [ExtraBits Base]. change (0 <? 3) with true. cbv iota.
  destruct (readsBack_spec 3 o) as (st & Hread).
  { apply (allBelow_spec 3 0 _ reads_three). change (2 ^ Z.of_nat 3) with 8. lia. }
  unfold bindS. rewrite Hread. reflexivity.
Qed.

Lemma expand_zeros_long (lengths : list Z) (o : Z) :
  0 <= o < 128 -> expandItem lengths (rep18 o) = Ok (replicate (Z.to_nat (11 + o)) 0).
Proof.
  intros Ho. unfold expandItem, expandRule, rep18. cbn [RLECode Offset].
  change (alphabet rleAlphabets 18) with {| ExtraBits := 7; Base := 11 |}.
  cbn [ExtraBits Base]. change (0 <? 7) with true. cbv iota.
  destruct (readsBack_spec 7 o) as (st & Hread).
  { apply (allBelow_spec 7 0 _ reads_seven). change (2 ^ Z.of_nat 7) with 128. lia. }
  unfold bindS. rewrite Hread. reflexivity.
Qed.

Lemma idx_last {A : Type} (l : list A) (x : A) :
  last l = Some x -> idx l (len l - 1) = Ok x /\ len l <> 0.
Proof.
  intros H. rewrite last_lookup in H.
  assert (Hlen : (0 < length l)%nat) by (destruct l; [discriminate | cbn [length]; lia]).
  unfold len. split; [|lia]. apply idx_Ok. split; [lia|].
  replace (Z.to_nat (Z.of_nat (length l) - 1)) with (pred (length l)) by lia. exact H.
Qed.

Lemma expand_repeat (lengths : list Z) (o v : Z) :
  0 <= o < 4 -> last lengths = Some v ->
  expandItem lengths (rep16 o) = Ok (replicate (Z.to_nat (3 + o)) v).
Proof.
  intros Ho Hlast. unfold expandItem, expandRule, rep16. cbn [RLECode Offset].
  change (alphabet rleAlphabets 16) with {| ExtraBits := 2; Base := 3 |}.
  cbn [ExtraBits Base]. change (0 <? 2) with true. cbv iota.
  destruct (readsBack_spec 2 o) as (st & Hread).
  { apply (allBelow_spec 2 0 _ reads_two). change (2 ^ Z.of_nat 2) with 4. lia. }
  unfold bindS. rewrite Hread. change (16 <? 16) with false. change (16 =? 16) with true.
  cbv iota. destruct (idx_last lengths v Hlast) as [Hidx Hlen].
  destruct (Z.eqb_spec (len lengths) 0); [contradiction|].
  unfold lift. rewrite Hidx. reflexivity.
Qed.

Lemma expandItems_app (items1 : list condensed) :
  forall (items2 : list condensed) (lengths : list Z),
    expandItems (items1 ++ items2) lengths =
    let* mid := expandItems items1 lengths in expandItems items2 mid.
Proof.
  induction items1 as [|item rest IH]; intros items2 lengths; [reflexivity|].
  cbn [app expandItems]. rewrite bind_assoc. apply bind_ext. intros more. apply IH.
Qed.

Lemma expandItems_literals (n : nat) (v : Z) :
  codeLength v ->
  forall lengths, expandItems (replicate n (lit v)) lengths = Ok (lengths ++ replicate n v).
Proof.
  intros Hv. induction n as [|n IH]; intros lengths.
  - cbn [replicate expandItems]. rewrite app_nil_r. reflexivity.
  - cbn [replicate expandItems]. rewrite expand_literal by exact Hv. cbn [bind].
    rewrite IH, <- app_assoc. reflexivity.
Qed.

Lemma fitsRule_literal (v : Z) : codeLength v -> fitsRule (lit v).
Proof.
  unfold codeLength. intros Hv.
  assert (Hcases : v = 0 \/ v = 1 \/ v = 2 \/ v = 3 \/ v = 4 \/ v = 5 \/ v = 6 \/ v = 7 \/
                   v = 8 \/ v = 9 \/ v = 10 \/ v = 11 \/ v = 12 \/ v = 13 \/ v = 14 \/ v = 15)
    by lia.
  repeat (destruct Hcases as [-> | Hcases]; [split; vm_compute; split; congruence|]).
  subst. split; vm_compute; split; congruence.
Qed.

Lemma fitsRule_literals (n : nat) (v : Z) :
  codeLength v -> Forall fitsRule (replicate n (lit v)).
Proof.
  intros Hv. induction n; cbn [replicate]; constructor; [apply fitsRule_literal|]; assumption.
Qed.

Lemma fitsRule_repeat (o : Z) : 0 <= o < 4 -> fitsRule {| RLECode := 16; Offset := o |}.
Proof. intros H. split; cbn [RLECode Offset]; [lia|]. exact H. Qed.
Lemma fitsRule_zeros_short (o : Z) : 0 <= o < 8 -> fitsRule {| RLECode := 17; Offset := o |}.
Proof. intros H. split; cbn [RLECode Offset]; [lia|]. exact H. Qed.
Lemma fitsRule_zeros_long (o : Z) : 0 <= o < 128 -> fitsRule {| RLECode := 18; Offset := o |}.
Proof. intros H. split; cbn [RLECode Offset]; [lia|]. exact H. Qed.

Lemma resolveCountZero_expands (st st' : rleState) (expanded : list Z) :
  0 <= countZero st < 138 ->
  expandItems (HuffmanLengthCondensed st) [] = Ok expanded ->
  Forall fitsRule (HuffmanLengthCondensed st) ->
  resolveCountZero st = Ok st' ->
  expandItems (HuffmanLengthCondensed st') [] =
    Ok (expanded ++ replicate (Z.to_nat (countZero st)) 0) /\
  Forall fitsRule (HuffmanLengthCondensed st') /\
  countZero st' = 0 /\ countSame st' = countSame st.
Proof.
  intros Hcz Hexp Hfits. unfold resolveCountZero.
  destruct (Z.eqb_spec (countZero st) 0) as [Hz | Hz]; cbn [negb].
  { intros [= <-]. rewrite Hz. cbn [Z.to_nat replicate]. rewrite app_nil_r. auto. }
  destruct (Z.ltb_spec (countZero st) 3).
  { intros [= <-]. cbn [HuffmanLengthCondensed countZero countSame].
    rewrite expandItems_app, Hexp. cbn [bind].
    fold (lit 0). rewrite expandItems_literals by (unfold codeLength; lia).
    repeat split; auto. apply Forall_app. split; [exact Hfits|].
    apply fitsRule_literals. unfold codeLength. lia. }
  destruct (Z.ltb_spec (countZero st) 11).
  { intros [= <-]. cbn [HuffmanLengthCondensed countZero countSame]. unfold emitItem.
    rewrite expandItems_app, Hexp. cbn [bind expandItems].
    rewrite expand_zeros_short by lia. cbn [bind].
    replace (3 + (countZero st - 3)) with (countZero st) by lia.
    repeat split; auto. apply Forall_app. split; [exact Hfits|].
    constructor; [|constructor]. apply fitsRule_zeros_short. lia. }
  destruct (Z.ltb_spec (countZero st) 138); [|lia].
  intros [= <-]. cbn [HuffmanLengthCondensed countZero countSame]. unfold emitItem.
  rewrite expandItems_app, Hexp. cbn [bind expandItems].
  fold (rep18 (countZero st - 11)). rewrite expand_zeros_long by lia. cbn [bind].
  replace (11 + (countZero st - 11)) with (countZero st) by lia.
  repeat split; auto. apply Forall_app. split; [exact Hfits|].
  constructor; [|constructor]. apply fitsRule_zeros_long. lia.
Qed.

Lemma resolveCountSame_expands (prev : option Z) (st st' : rleState) (expanded : list Z) (v : Z) :
  0 <= countSame st < 6 ->
  (countSame st <> 0 -> prev = Some v /\ codeLength v /\ last expanded = Some v) ->
  expandItems (HuffmanLengthCondensed st) [] = Ok expanded ->
  Forall fitsRule (HuffmanLengthCondensed st) ->
  resolveCountSame prev st = Ok st' ->
  expandItems (HuffmanLengthCondensed st') [] =
    Ok (expanded ++ replicate (Z.to_nat (countSame st)) v) /\
  Forall fitsRule (HuffmanLengthCondensed st') /\
  countSame st' = 0 /\ countZero st' = countZero st.
Proof.
  intros Hcs Hprev Hexp Hfits. unfold resolveCountSame.
  destruct (Z.eqb_spec (countSame st) 0) as [Hz | Hz]; cbn [negb].
  { intros [= <-]. rewrite Hz. cbn [Z.to_nat replicate]. rewrite app_nil_r. auto. }
  destruct (Hprev Hz) as (-> & Hv & Hlast).
  destruct (Z.ltb_spec (countSame st) 3).
  { cbn [bind]. intros [= <-]. cbn [HuffmanLengthCondensed countZero countSame].
    rewrite expandItems_app, Hexp. cbn [bind].
    fold (lit v). rewrite expandItems_literals by exact Hv.
    repeat split; auto. apply Forall_app. split; [exact Hfits|].
    apply fitsRule_literals. exact Hv. }
  destruct (Z.ltb_spec (countSame st) 6); [|lia].
  intros [= <-]. cbn [HuffmanLengthCondensed countZero countSame]. unfold emitItem.
  rewrite expandItems_app, Hexp. cbn [bind expandItems].
  fold (rep16 (countSame st - 3)). rewrite (expand_repeat expanded _ v) by (lia || exact Hlast).
  cbn [bind]. replace (3 + (countSame st - 3)) with (countSame st) by lia.
  repeat split; auto. apply Forall_app. split; [exact Hfits|].
  constructor; [|constructor]. apply fitsRule_repeat. lia.
Qed.

Lemma replicate_snoc (n : Z) (x : Z) :
  0 <= n -> replicate (Z.to_nat (n + 1)) x = replicate (Z.to_nat n) x ++ [x].
Proof.
  intros Hn. replace (Z.to_nat (n + 1)) with (S (Z.to_nat n)) by lia. apply replicate_S_end.
Qed.

Lemma last_replicate (n : Z) (x : Z) (l : list Z) :
  0 < n -> last (l ++ replicate (Z.to_nat n) x) = Some x.
Proof.
  intros Hn. replace n with (n - 1 + 1) by lia. rewrite replicate_snoc by lia.
  rewrite app_assoc. apply last_snoc.
Qed.

Lemma rleStep_expands (read : list Z) (x : Z) (st : rleState) :
  Forall codeLength read -> codeLength x ->
  rleInv (last read) st -> expands read st ->
  exists st', rleStep (last read) x st = Ok st' /\ rleInv (Some x) st' /\ expands (read ++ [x]) st'.
Proof.
  intros Hread Hx Hinv (E & Hexp & Hsplit & Hlast & Hfits).
  destruct (rleStep_inv (last read) x st Hinv) as (st' & Hstep & Hinv').
  exists st'. split; [exact Hstep|]. split; [exact Hinv'|].
  destruct Hinv as (Hcz & Hcs & Hpz & Hps).
  set (prev := last read) in *. set (v := default 0 prev) in *.
  assert (Hv : countSame st <> 0 -> prev = Some v /\ codeLength v /\ last E = Some v).
  { intros Hne. destruct (Hps Hne) as (p & Hp & Hp0). subst v. rewrite Hp. cbn [default].
    split; [reflexivity|]. split; [|apply Hlast; assumption].
    apply (proj1 (Forall_forall _ _) Hread). apply last_Some_elem_of. exact Hp. }
  assert (Hexcl : countSame st <> 0 -> countZero st = 0).
  { intros Hne. destruct (Z.eq_dec (countZero st) 0) as [|Hnz]; [assumption|].
    destruct (Hps Hne) as (p & Hp & Hp0). rewrite (Hpz Hnz) in Hp. congruence. }
  assert (Hnew : last (read ++ [x]) = Some x) by apply last_snoc.
  unfold expands. rewrite Hnew. cbn [default].
  unfold rleStep in Hstep.
  destruct (Z.eqb_spec x 0) as [-> | Hx0].
  - bind_ok Hstep. rename a into st1.
    destruct (resolveCountSame_expands prev st st1 E v Hcs Hv Hexp Hfits Ha)
      as (Hexp1 & Hfits1 & Hcs1 & Hcz1).
    assert (Hrun : read ++ [0] =
                   (E ++ replicate (Z.to_nat (countSame st)) v)
                   ++ replicate (Z.to_nat (countZero st + 1)) 0).
    { rewrite Hsplit at 1. rewrite replicate_snoc by lia.
      destruct (Z.eq_dec (countSame st) 0) as [Hs0 | Hs0].
      - rewrite Hs0. change (Z.to_nat 0) with 0%nat; cbn [replicate app]. rewrite !app_nil_r, <- !app_assoc. reflexivity.
      - rewrite (Hexcl Hs0). change (Z.to_nat 0) with 0%nat; cbn [replicate app]. rewrite <- !app_assoc. reflexivity. }
    rewrite Hcz1 in Hstep.
    destruct (Z.eqb_spec (countZero st + 1) 138) as [Hfull | Hfull].
    + injection Hstep as <-. cbn [HuffmanLengthCondensed countZero countSame].
      unfold emitItem. eexists. split.
      { rewrite expandItems_app, Hexp1. cbn [bind expandItems].
        fold (rep18 (countZero st + 1 - 11)). rewrite expand_zeros_long by lia.
        cbn [bind]. reflexivity. }
      split.
      { rewrite Hcs1. change (Z.to_nat 0) with 0%nat; cbn [replicate app]. rewrite !app_nil_r.
        rewrite Hrun. f_equal. f_equal. lia. }
      split; [intros p [= <-] Hp; contradiction|].
      apply Forall_app. split; [exact Hfits1|].
      constructor; [|constructor]. apply fitsRule_zeros_long. lia.
    + injection Hstep as <-. cbn [HuffmanLengthCondensed countZero countSame].
      eexists. split; [exact Hexp1|]. split.
      { rewrite Hcs1. change (Z.to_nat 0) with 0%nat; cbn [replicate app]. rewrite app_nil_r. exact Hrun. }
      split; [intros p [= <-] Hp; contradiction | exact Hfits1].
  - destruct (match prev with None => true | Some p => negb (x =? p) end) eqn:Hdiff.
    + bind_ok Hstep. rename a into st1. bind_ok Hstep. rename a into st2.
      destruct (resolveCountZero_expands st st1 E Hcz Hexp Hfits Ha)
        as (Hexp1 & Hfits1 & Hcz1 & Hcs1).
      assert (Hv1 : countSame st1 <> 0 ->
                    prev = Some v /\ codeLength v /\
                    last (E ++ replicate (Z.to_nat (countZero st)) 0) = Some v).
      { rewrite Hcs1. intros Hne. destruct (Hv Hne) as (H1 & H2 & H3).
        rewrite (Hexcl Hne). change (Z.to_nat 0) with 0%nat; cbn [replicate app]. rewrite app_nil_r. auto. }
      rewrite <- Hcs1 in Hcs.
      destruct (resolveCountSame_expands prev st1 st2 _ v Hcs Hv1 Hexp1 Hfits1 Ha0)
        as (Hexp2 & Hfits2 & Hcs2 & Hcz2).
      injection Hstep as <-. cbn [HuffmanLengthCondensed countZero countSame].
      unfold emitItem. eexists. split.
      { rewrite expandItems_app, Hexp2. cbn [bind expandItems].
        fold (lit x). rewrite expand_literal by exact Hx. cbn [bind]. reflexivity. }
      split.
      { rewrite Hcz2, Hcz1, Hcs2. change (Z.to_nat 0) with 0%nat; cbn [replicate app]. rewrite !app_nil_r.
        rewrite Hsplit at 1. rewrite Hcs1, <- !app_assoc. reflexivity. }
      split; [intros p [= <-] Hp; apply last_snoc|].
      apply Forall_app. split; [exact Hfits2|].
      constructor; [|constructor]. apply fitsRule_literal. exact Hx.
    + assert (Hprev : prev = Some x).
      { destruct prev as [p|]; [|discriminate]. apply negb_false_iff in Hdiff.
        apply Z.eqb_eq in Hdiff. congruence. }
      assert (Hcz0 : countZero st = 0).
      { destruct (Z.eq_dec (countZero st) 0) as [|Hnz]; [assumption|].
        rewrite (Hpz Hnz) in Hprev. congruence. }
      assert (HlastE : last E = Some x) by (apply Hlast; assumption).
      assert (Hvx : v = x) by (subst v; rewrite Hprev; reflexivity).
      assert (Hrun : read ++ [x] = E ++ replicate (Z.to_nat (countSame st + 1)) x).
      { rewrite Hsplit at 1. rewrite Hcz0, Hvx, replicate_snoc by lia.
        change (Z.to_nat 0) with 0%nat; cbn [replicate app]. rewrite <- !app_assoc. reflexivity. }
      destruct (Z.eqb_spec (countSame st + 1) 6) as [Hfull | Hfull].
      * injection Hstep as <-. cbn [HuffmanLengthCondensed countZero countSame].
        unfold emitItem. eexists. split.
        { rewrite expandItems_app, Hexp. cbn [bind expandItems].
          fold (rep16 (countSame st + 1 - 3)).
          rewrite (expand_repeat E _ x) by (lia || exact HlastE). cbn [bind]. reflexivity. }
        split.
        { rewrite Hcz0. change (Z.to_nat 0) with 0%nat; cbn [replicate app]. rewrite !app_nil_r. rewrite Hrun.
          f_equal. f_equal. lia. }
        split; [intros p [= <-] Hp; apply last_replicate; lia|].
        apply Forall_app. split; [exact Hfits|].
        constructor; [|constructor]. apply fitsRule_repeat. lia.
      * injection Hstep as <-. cbn [HuffmanLengthCondensed countZero countSame].
        eexists. split; [exact Hexp|]. split.
        { rewrite Hcz0. change (Z.to_nat 0) with 0%nat; cbn [replicate app]. exact Hrun. }
        split; [intros p [= <-] Hp; exact HlastE | exact Hfits].
Qed.

Lemma rleSteps_expands (l : list Z) :
  forall (read : list Z) (st : rleState),
    Forall codeLength read -> Forall codeLength l ->
    rleInv (last read) st -> expands read st ->
    exists st', rleSteps (last read) l st = Ok st' /\
                rleInv (last (read ++ l)) st' /\ expands (read ++ l) st'.
Proof.
  induction l as [|x rest IH]; intros read st Hread Hl Hinv Hexp.
  - exists st. rewrite app_nil_r. auto.
  - apply Forall_cons in Hl. destruct Hl as [Hx Hrest].
    destruct (rleStep_expands read x st Hread Hx Hinv Hexp) as (st1 & Hstep & Hinv1 & Hexp1).
    cbn [rleSteps]. rewrite Hstep. cbn [bind].
    assert (Hlast : last (read ++ [x]) = Some x) by apply last_snoc.
    rewrite <- Hlast in Hinv1.
    destruct (IH (read ++ [x]) st1) as (st' & Hsteps & Hinv' & Hexp'); auto.
    { apply Forall_app. split; [exact Hread | constructor; [exact Hx | constructor]]. }
    rewrite Hlast in Hsteps. rewrite <- app_assoc in Hinv', Hexp'.
    exists st'. auto.
Qed.

(** X6. The run-length encoder is undone by the expansion of the decoder: for
    every vector of code lengths (each between 0 and 15), [FindCode]
    returns items whose codes are in the alphabet and whose offsets fit
    the extra bits of their codes, and expanding the items one after the
    other, as [ReadCondensedHuffman] does, gives the vector back. *)
Theorem run_lengths_expand_to_lengths (lengths : list Z) :
  Forall codeLength lengths ->
  exists items,
    CodeLengthCode_FindCode lengths = Ok items /\
    Forall fitsRule items /\
    expandItems items [] = Ok lengths.
Proof.
  intros Hl. rewrite FindCode_steps.
  destruct (rleSteps_expands lengths [] fresh) as (st & Hsteps & Hinv & Hexp); auto.
  { exact rleInv_fresh. }
  { exists []. cbn. repeat split; auto; intros p Hp; discriminate. }
  cbn [last app] in Hsteps, Hinv, Hexp. rewrite Hsteps. cbn [bind].
  assert (HlastOr : lastOr None lengths = last lengths).
  { unfold lastOr. destruct (last lengths); reflexivity. }
  rewrite HlastOr.
  destruct (finish_ok _ _ Hinv) as (st' & Hfin & _). rewrite Hfin. cbn [bind].
  exists (HuffmanLengthCondensed st'). split; [reflexivity|].
  destruct Hexp as (E & Hexp & Hsplit & Hlast & Hfits).
  destruct Hinv as (Hcz & Hcs & Hpz & Hps).
  unfold finish in Hfin. bind_ok Hfin. rename a into st1.
  destruct (resolveCountZero_expands st st1 E Hcz Hexp Hfits Ha)
    as (Hexp1 & Hfits1 & Hcz1 & Hcs1).
  set (v := default 0 (last lengths)) in *.
  assert (Hv1 : countSame st1 <> 0 ->
                last lengths = Some v /\ codeLength v /\
                last (E ++ replicate (Z.to_nat (countZero st)) 0) = Some v).
  { rewrite Hcs1. intros Hne. destruct (Hps Hne) as (p & Hp & Hp0).
    assert (Hz : countZero st = 0).
    { destruct (Z.eq_dec (countZero st) 0) as [|Hnz]; [assumption|].
      rewrite (Hpz Hnz) in Hp. congruence. }
    rewrite Hz. change (Z.to_nat 0) with 0%nat; cbn [replicate app]. rewrite app_nil_r.
    subst v. rewrite Hp. cbn [default]. split; [reflexivity|]. split; [|apply Hlast; assumption].
    apply (proj1 (Forall_forall _ _) Hl). apply last_Some_elem_of. exact Hp. }
  rewrite <- Hcs1 in Hcs.
  destruct (resolveCountSame_expands _ st1 st' _ v Hcs Hv1 Hexp1 Hfits1 Hfin)
    as (Hexp2 & Hfits2 & _ & _).
  split; [exact Hfits2|]. rewrite Hexp2. f_equal.
  rewrite Hcs1, <- app_assoc. symmetry. exact Hsplit.
Qed.

End ExpansionFacts.

Lemma run_lengths_expand_to_lengths_witness :
  exists items,
    Flate.CodeLengthCode_FindCode ([8; 8; 8; 8; 8; 8; 8; 8] ++ replicate 140 0 ++ [5; 0; 0; 0])
      = Ok items /\
    Forall fitsRule items /\
    expandItems items [] = Ok ([8; 8; 8; 8; 8; 8; 8; 8] ++ replicate 140 0 ++ [5; 0; 0; 0]).
Proof.
  apply (run_lengths_expand_to_lengths
           ([8; 8; 8; 8; 8; 8; 8; 8] ++ replicate 140 0 ++ [5; 0; 0; 0])).
  apply Forall_app. split; [repeat constructor; unfold codeLength; lia|].
  apply Forall_app. split; [|repeat constructor; unfold codeLength; lia].
  apply Forall_replicate. unfold codeLength. lia.
Defined.

(** ** The code lengths that are transmitted *)

Section BoundaryFacts.
Import Go Huffman Flate.

Lemma findLengthBoundary_loop_trims (threshold limit : Z) (items : list (option CanonicalHuffmanCode)) :
  forall (i : Z) (length : list Z) (k : nat),
    0 <= i ->
    (i <= threshold + 1 -> k = 0%nat /\ len length = i) ->
    (threshold + 1 < i ->
     threshold + 1 <= len length /\
     (threshold + 1 < len length -> exists x, last length = Some x /\ x <> 0)) ->
    Forall (fun info => lengthOf info <= limit) items ->
    exists (L : list Z) (n : nat),
      findLengthBoundary_loop items i threshold limit length (replicate k 0) = Ok L /\
      length ++ replicate k 0 ++ map lengthOf items = L ++ replicate n 0 /\
      Z.min (i + len items) (threshold + 1) <= len L /\
      (threshold + 1 < len L -> exists x, last L = Some x /\ x <> 0).
Proof.
  induction items as [|info rest IH]; intros i length k Hi HA HB Hall.
  - exists length, k. cbn [findLengthBoundary_loop map]. rewrite app_nil_r.
    split; [reflexivity|]. split; [reflexivity|].
    unfold len at 1. cbn [List.length].
    destruct (Z.le_gt_cases i (threshold + 1)) as [Hle | Hgt].
    + destruct (HA Hle) as [-> Hlen]. split; [lia|]. intros H. lia.
    + destruct (HB Hgt) as [Hlen Hlast]. split; [lia | exact Hlast].
  - apply Forall_cons in Hall. destruct Hall as [Hinfo Hrest].
    assert (Hlen : len (info :: rest) = 1 + len rest) by (unfold len; cbn [List.length]; lia).
    cbn [findLengthBoundary_loop map]. fold (lengthOf info).
    destruct (Z.leb_spec i threshold) as [Hlow | Hhigh].
    + destruct (HA ltac:(lia)) as [-> Hlength].
      destruct (IH (i + 1) (length ++ [lengthOf info]) 0%nat) as (L & n & Hrun & Heq & Hmin & Hlast);
        try lia; try exact Hrest.
      { intros _. split; [reflexivity|]. unfold len in *. rewrite length_app. cbn [List.length]. lia. }
      exists L, n. cbn [replicate] in *. split; [exact Hrun|].
      split; [rewrite <- Heq, <- !app_assoc; reflexivity|]. split; [lia | exact Hlast].
    + assert (Hlength : threshold + 1 <= len length /\
                        (threshold + 1 < len length -> exists x, last length = Some x /\ x <> 0)).
      { destruct (Z.eq_dec i (threshold + 1)) as [Heq | Hne].
        - destruct (HA ltac:(lia)) as [_ Hl]. split; [lia|]. intros H. lia.
        - apply HB. lia. }
      destruct (Z.eqb_spec (lengthOf info) 0) as [Hzero | Hnonzero].
      * replace (replicate k 0 ++ [0]) with (replicate (S k) 0)
          by (rewrite replicate_S_end; reflexivity).
        destruct (IH (i + 1) length (S k)) as (L & n & Hrun & Heq & Hmin & Hlast);
          try lia; try exact Hrest.
        { intros _. exact Hlength. }
        exists L, n. split; [exact Hrun|].
        split; [|split; [lia | exact Hlast]].
        rewrite <- Heq, Hzero, replicate_S_end, <- !app_assoc. reflexivity.
      * destruct (Z.ltb_spec limit (lengthOf info)) as [Hover | Hfits]; [lia|].
        destruct (IH (i + 1) (length ++ replicate k 0 ++ [lengthOf info]) 0%nat)
          as (L & n & Hrun & Heq & Hmin & Hlast); try lia; try exact Hrest.
        { intros _. unfold len in *. rewrite !length_app. cbn [List.length]. split; [lia|].
          intros _. exists (lengthOf info). split; [|exact Hnonzero].
          rewrite !app_assoc. apply last_snoc. }
        exists L, n. cbn [replicate] in *. split; [exact Hrun|].
        split; [|split; [lia | exact Hlast]].
        rewrite <- Heq, <- !app_assoc. reflexivity.
Qed.

Lemma findLengthBoundary_trims
    (items : list (option CanonicalHuffmanCode)) (threshold limit : Z) :
  0 <= threshold ->
  Forall (fun info => lengthOf info <= limit) items ->
  exists (lengths : list Z) (n : nat),
    findLengthBoundary items threshold limit = Ok lengths /\
    map lengthOf items = lengths ++ replicate n 0 /\
    Z.min (len items) (threshold + 1) <= len lengths /\
    (threshold + 1 < len lengths -> exists x, last lengths = Some x /\ x <> 0).
Proof.
  intros Hthreshold Hall. unfold findLengthBoundary.
  destruct (findLengthBoundary_loop_trims threshold limit items 0 [] 0%nat)
    as (L & n & Hrun & Heq & Hmin & Hlast); try lia; try exact Hall.
  { intros _. split; reflexivity. }
  exists L, n. cbn [replicate app] in *. auto.
Qed.

(** X7. [findLengthBoundary] cuts the code lengths of a table after the last
    non-zero length, but keeps the entries up to the threshold: when no
    length exceeds the limit, what it returns followed by zeros is the
    vector of the lengths; it has more than [threshold] entries (or all of
    them), and it ends in a non-zero length when it has more than
    [threshold + 1]. *)
Theorem length_boundary_trims_zeros
    (items : list (option CanonicalHuffmanCode)) (threshold limit : Z) :
  0 <= threshold ->
  Forall (fun info => lengthOf info <= limit) items ->
  exists (lengths : list Z) (n : nat),
    findLengthBoundary items threshold limit = Ok lengths /\
    map lengthOf items = lengths ++ replicate n 0 /\
    Z.min (len items) (threshold + 1) <= len lengths /\
    (threshold + 1 < len lengths -> exists x, last lengths = Some x /\ x <> 0).
Proof. exact (findLengthBoundary_trims items threshold limit). Qed.

Lemma split_zeros (xs L : list Z) (n : nat) :
  xs = L ++ replicate n 0 ->
  L = take (length L) xs /\ Forall (fun x => x = 0) (drop (length L) xs).
Proof.
  intros ->. rewrite take_app_length, drop_app_length. split; [reflexivity|].
  apply Forall_replicate. reflexivity.
Qed.

(** X8. The code lengths of the code-length alphabet survive their way through
    the header: for every table of 19 codes of length at most 7, the
    lengths that the encoder transmits (the table in the order of
    [KeyOrder], cut after the last non-zero length but not before the
    fourth entry) are put back by [reshuffle] of the decoder into the 19
    code lengths of the table. *)
Theorem code_length_order_round_trip (code : list (option CanonicalHuffmanCode)) :
  length code = 19%nat ->
  Forall (fun info => lengthOf info <= 7) code ->
  exists shuffled lengths,
    shuffle code = Ok shuffled /\
    findLengthBoundary shuffled 3 7 = Ok lengths /\
    4 <= len lengths <= 19 /\
    reshuffle lengths = Ok (map lengthOf code).
Proof.
  intros Hlen Hall.
  do 19 (destruct code as [|? code]; [discriminate|]).
  destruct code; [|discriminate]. clear Hlen.
  assert (Hshuffle : exists shuffled,
             shuffle [o; o0; o1; o2; o3; o4; o5; o6; o7; o8; o9; o10; o11; o12; o13; o14;
                      o15; o16; o17] = Ok shuffled /\
             shuffled = [o15; o16; o17; o; o7; o6; o8; o5; o9; o4; o10; o3; o11; o2; o12;
                         o1; o13; o0; o14]).
  { eexists. split; reflexivity. }
  destruct Hshuffle as (shuffled & Hshuffle & Hshape).
  exists shuffled.
  repeat match goal with
         | H : Forall _ (_ :: _) |- _ => apply Forall_cons in H; destruct H as [? H]
         end.
  destruct (findLengthBoundary_trims shuffled 3 7) as (L & n & Hrun & Heq & Hmin & _);
    [lia | subst shuffled; repeat constructor; assumption |].
  exists L. split; [exact Hshuffle|]. split; [exact Hrun|].
  clear Hshuffle Hrun. subst shuffled. cbn [map] in *.
  unfold len in Hmin. cbn [length] in Hmin.
  assert (Hcount : (length L + n = 19)%nat).
  { apply (f_equal (@length Z)) in Heq. rewrite length_app, length_replicate in Heq.
    cbn [length] in Heq. lia. }
  split; [unfold len; lia|].
  apply split_zeros in Heq. destruct Heq as [HL Hzeros].
  generalize dependent (lengthOf o). generalize dependent (lengthOf o0).
  generalize dependent (lengthOf o1). generalize dependent (lengthOf o2).
  generalize dependent (lengthOf o3). generalize dependent (lengthOf o4).
  generalize dependent (lengthOf o5). generalize dependent (lengthOf o6).
  generalize dependent (lengthOf o7). generalize dependent (lengthOf o8).
  generalize dependent (lengthOf o9). generalize dependent (lengthOf o10).
  generalize dependent (lengthOf o11). generalize dependent (lengthOf o12).
  generalize dependent (lengthOf o13). generalize dependent (lengthOf o14).
  generalize dependent (lengthOf o15). generalize dependent (lengthOf o16).
  generalize dependent (lengthOf o17).
  intros.
  assert (Hcases : (length L = 4 \/ length L = 5 \/ length L = 6 \/ length L = 7 \/
                    length L = 8 \/ length L = 9 \/ length L = 10 \/ length L = 11 \/
                    length L = 12 \/ length L = 13 \/ length L = 14 \/ length L = 15 \/
                    length L = 16 \/ length L = 17 \/ length L = 18 \/ length L = 19)%nat)
    by lia.
  repeat (destruct Hcases as [Hcase | Hcases];
          [rewrite Hcase in HL, Hzeros; cbn [take drop] in HL, Hzeros;
           repeat match goal with
                  | H : Forall _ (_ :: _) |- _ => apply Forall_cons in H; destruct H as [? H]
                  end;
           subst; reflexivity|]).
  rewrite Hcases in HL, Hzeros; cbn [take drop] in HL, Hzeros. subst. reflexivity.
Qed.

End BoundaryFacts.

Lemma length_boundary_trims_zeros_witness :
  exists (lengths : list Z) (n : nat),
    Flate.findLengthBoundary
      [Some {| Huffman.Code := 0; Huffman.Length := 1 |}; None; None;
       Some {| Huffman.Code := 1; Huffman.Length := 1 |}; None; None] 1 15 = Ok lengths /\
    map lengthOf
      [Some {| Huffman.Code := 0; Huffman.Length := 1 |}; None; None;
       Some {| Huffman.Code := 1; Huffman.Length := 1 |}; None; None] = lengths ++ replicate n 0 /\
    Z.min 6 (1 + 1) <= Go.len lengths /\
    (1 + 1 < Go.len lengths -> exists x, last lengths = Some x /\ x <> 0).
Proof.
  apply (length_boundary_trims_zeros
           [Some {| Huffman.Code := 0; Huffman.Length := 1 |}; None; None;
            Some {| Huffman.Code := 1; Huffman.Length := 1 |}; None; None] 1 15).
  - lia.
  - repeat constructor; cbn; lia.
Defined.

Lemma code_length_order_round_trip_witness :
  let code :=
    map (fun l => if l =? 0 then None else Some {| Huffman.Code := 0; Huffman.Length := l |})
        [3; 0; 0; 0; 0; 0; 0; 0; 3; 0; 0; 0; 0; 0; 0; 0; 2; 2; 2] in
  exists shuffled lengths,
    Flate.shuffle code = Ok shuffled /\
    Flate.findLengthBoundary shuffled 3 7 = Ok lengths /\
    4 <= Go.len lengths <= 19 /\
    Flate.reshuffle lengths = Ok [3; 0; 0; 0; 0; 0; 0; 0; 3; 0; 0; 0; 0; 0; 0; 0; 2; 2; 2].
Proof.
  apply (code_length_order_round_trip
           (map (fun l => if l =? 0 then None
                          else Some {| Huffman.Code := 0; Huffman.Length := l |})
                [3; 0; 0; 0; 0; 0; 0; 0; 3; 0; 0; 0; 0; 0; 0; 0; 2; 2; 2])).
  - reflexivity.
  - repeat constructor; cbn; lia.
Defined.

(** ** The Huffman tree of a frequency map *)

Section TreeFacts.
Import Go Huffman.

Lemma heapMin_permutation (rest : list huffmanTree) :
  forall (x m : huffmanTree) (rest' : list huffmanTree),
    heapMin x rest = (m, rest') -> m :: rest' ≡ₚ x :: rest.
Proof.
  induction rest as [|y rest IH]; intros x m rest' H.
  - cbn [heapMin] in H. injection H as <- <-. reflexivity.
  - cbn [heapMin] in H. destruct (heapMin y rest) as [m' r'] eqn:E.
    specialize (IH y m' r' E).
    destruct (Less x m').
    + injection H as <- <-. reflexivity.
    + injection H as <- <-. rewrite <- IH. apply perm_swap.
Qed.

Lemma heapPop_permutation (h : list huffmanTree) :
  h <> [] -> exists x h', heapPop h = Ok (x, h') /\ x :: h' ≡ₚ h.
Proof.
  destruct h as [|a r]; [contradiction|]. intros _. cbn [heapPop].
  destruct (heapMin a r) as [x h'] eqn:E. exists x, h'. split; [reflexivity|].
  apply heapMin_permutation. exact E.
Qed.




Lemma mergeLoop_spec (fuel : nat) :
  forall (h : list huffmanTree) (monoId : Z),
    h <> [] -> (length h <= S fuel)%nat -> Forall sums h ->
    exists t, mergeLoop fuel h monoId = Ok [t] /\
              leavesOf t ≡ₚ flat_map leavesOf h /\ sums t.
Proof.
  induction fuel as [|fuel IH]; intros h monoId Hne Hlen Hsums.
  - destruct h as [|t [|u h]]; [contradiction | | cbn [length] in Hlen; lia].
    exists t. cbn [mergeLoop flat_map]. rewrite app_nil_r.
    apply Forall_cons in Hsums. split; [reflexivity|]. split; [reflexivity | tauto].
  - cbn [mergeLoop]. destruct (Z.leb_spec (len h) 1) as [Hone | Hmany].
    + destruct h as [|t [|u h]]; [contradiction | | unfold len in Hone; cbn [length] in Hone; lia].
      exists t. cbn [flat_map]. rewrite app_nil_r.
      apply Forall_cons in Hsums. split; [reflexivity|]. split; [reflexivity | tauto].
    + destruct (heapPop_permutation h Hne) as (x & h1 & -> & Hp1). cbn [bind].
      assert (Hlen1 : S (length h1) = length h).
      { apply Permutation_length in Hp1. exact Hp1. }
      assert (Hne1 : h1 <> []).
      { intros ->. unfold len in Hmany. cbn [length] in Hlen1. lia. }
      destruct (heapPop_permutation h1 Hne1) as (y & h2 & -> & Hp2). cbn [bind].
      assert (Hlen2 : S (length h2) = length h1).
      { apply Permutation_length in Hp2. exact Hp2. }
      assert (Hall : Forall sums (x :: y :: h2)).
      { rewrite Hp2, Hp1. exact Hsums. }
      apply Forall_cons in Hall. destruct Hall as [Hx Hall].
      apply Forall_cons in Hall. destruct Hall as [Hy Hall].
      destruct (IH (heapPush h2 (huffmanNode (getFrequency x + getFrequency y) monoId x y))
                   (monoId + 1)) as (t & Hrun & Hleaves & Ht).
      { unfold heapPush. destruct h2; discriminate. }
      { unfold heapPush. rewrite length_app. cbn [length]. lia. }
      { unfold heapPush. apply Forall_app. split; [exact Hall|].
        constructor; [|constructor]. cbn [sums]. auto. }
      exists t. split; [exact Hrun|]. split; [|exact Ht].
      rewrite Hleaves. unfold heapPush. rewrite flat_map_app. cbn [flat_map leavesOf].
      rewrite app_nil_r. rewrite <- Hp1, <- Hp2. cbn [flat_map].
      rewrite (Permutation_app_comm (flat_map leavesOf h2)), app_assoc. reflexivity.
Qed.

Lemma leaves_forest (symbolFreq : gmap Z Z) (keys : list Z) :
  forall monoId,
    flat_map leavesOf (leaves symbolFreq keys monoId)
      = map (fun key => (key, default 0 (symbolFreq !! key))) keys /\
    Forall sums (leaves symbolFreq keys monoId) /\
    length (leaves symbolFreq keys monoId) = length keys.
Proof.
  induction keys as [|key keys IH]; intros monoId; cbn [leaves flat_map map length].
  - auto.
  - destruct (IH (monoId + 1)) as (H1 & H2 & H3). rewrite H1, H3. cbn [leavesOf app].
    split; [reflexivity|]. split; [|reflexivity]. constructor; [exact I | exact H2].
Qed.

Lemma entries_of_keys (symbolFreq : gmap Z Z) :
  map (fun key => (key, default 0 (symbolFreq !! key))) (map fst (map_to_list symbolFreq))
    = map_to_list symbolFreq.
Proof.
  rewrite map_map. rewrite <- (map_id (map_to_list symbolFreq)) at 2.
  apply map_ext_in. intros [k v] Hin. cbn [fst].
  apply list_elem_of_In, elem_of_map_to_list in Hin. rewrite Hin. reflexivity.
Qed.

Lemma buildTree_entries (symbolFreq : gmap Z Z) :
  symbolFreq <> ∅ ->
  exists tree,
    buildTree symbolFreq = Ok tree /\
    leavesOf tree ≡ₚ map_to_list symbolFreq /\
    sums tree.
Proof.
  intros Hne. unfold buildTree.
  destruct (leaves_forest symbolFreq (sortedKeys symbolFreq) 0) as (Hforest & Hsums & Hlen).
  assert (Hkeys : sortedKeys symbolFreq ≡ₚ map fst (map_to_list symbolFreq)).
  { unfold sortedKeys. apply merge_sort_Permutation. }
  assert (Hnonempty : leaves symbolFreq (sortedKeys symbolFreq) 0 <> []).
  { intros E. rewrite E in Hlen. cbn [length] in Hlen.
    apply Permutation_length in Hkeys. rewrite length_map in Hkeys.
    destruct (map_to_list symbolFreq) eqn:El; [|cbn [length] in Hkeys; lia].
    apply map_to_list_empty_iff in El. contradiction. }
  destruct (mergeLoop_spec (length (leaves symbolFreq (sortedKeys symbolFreq) 0))
                           (leaves symbolFreq (sortedKeys symbolFreq) 0)
                           (len (leaves symbolFreq (sortedKeys symbolFreq) 0)))
    as (tree & -> & Hleaves & Htree); [exact Hnonempty | lia | exact Hsums |].
  cbn [bind heapPop heapMin]. exists tree. split; [reflexivity|]. split; [|exact Htree].
  rewrite Hleaves, Hforest, <- (entries_of_keys symbolFreq).
  apply Permutation_map. exact Hkeys.
Qed.


(** *** The codes of the symbols and their decoding *)

Lemma leads_nonempty (f i : Z) (l r : huffmanTree) (path : bitString) (s : Z) :
  leads (huffmanNode f i l r) path s -> path <> [].
Proof. destruct path; [contradiction | discriminate]. Qed.

Lemma getSymbolEncoding_lookup (t : huffmanTree) :
  forall (enc : gmap Z bitString) (prefix : bitString) (s : Z),
    NoDup (map fst (leavesOf t)) ->
    (In s (map fst (leavesOf t)) ->
     exists path, leads t path s /\
                  getSymbolEncoding t enc prefix !! s = Some (prefix ++ path)) /\
    (~ In s (map fst (leavesOf t)) -> getSymbolEncoding t enc prefix !! s = enc !! s).
Proof.
  induction t as [f i sym | f i l IHl r IHr]; intros enc prefix s Hnd.
  - cbn [leavesOf map fst getSymbolEncoding]. split.
    + intros [<- | []]. exists []. split; [split; reflexivity|].
      rewrite app_nil_r. apply lookup_insert_eq.
    + intros Hnot. apply lookup_insert_ne. intros ->. apply Hnot. left. reflexivity.
  - cbn [leavesOf getSymbolEncoding] in *. rewrite map_app in *.
    apply NoDup_app in Hnd. destruct Hnd as (Hl & Hdisj & Hr).
    destruct (IHl enc (prefix ++ [false]) s Hl) as [Hlin Hlout].
    destruct (IHr (getSymbolEncoding l enc (prefix ++ [false])) (prefix ++ [true]) s Hr)
      as [Hrin Hrout].
    split.
    + intros Hin. apply in_app_or in Hin. destruct Hin as [Hin | Hin].
      * destruct (Hlin Hin) as (path & Hleads & Hlook).
        exists (false :: path). split; [exact Hleads|].
        rewrite <- app_assoc in Hlook.
        etransitivity; [apply Hrout | exact Hlook].
        intros Hinr. apply (Hdisj s); apply list_elem_of_In; assumption.
      * destruct (Hrin Hin) as (path & Hleads & Hlook).
        exists (true :: path). split; [exact Hleads|].
        rewrite <- app_assoc in Hlook. exact Hlook.
    + intros Hnot. etransitivity; [apply Hrout | apply Hlout];
        intros Hin; apply Hnot, in_or_app; auto.
Qed.

Lemma getSymbol_leads (t : huffmanTree) :
  forall (path pre post : bitString) (s index : Z) (data : list Z),
    leads t path s -> len pre = index + 1 ->
    getSymbol t (pre ++ path ++ post) index data = Ok (index + len path, data ++ [s]).
Proof.
  induction t as [f i sym | f i l IHl r IHr]; intros path pre post s index data Hleads Hpre.
  - cbn [leads] in Hleads. destruct Hleads as [-> ->]. cbn [getSymbol].
    unfold len at 1. cbn [length]. f_equal. f_equal. lia.
  - destruct path as [|turn path]; [contradiction|]. cbn [leads] in Hleads.
    cbn [getSymbol].
    assert (Hlen : len (pre ++ (turn :: path) ++ post) = index + 1 + 1 + len path + len post).
    { unfold len in *. rewrite !length_app. cbn [length]. lia. }
    pose proof (Nat2Z.is_nonneg (length path)). pose proof (Nat2Z.is_nonneg (length post)).
    destruct (Z.leb_spec (len (pre ++ (turn :: path) ++ post)) (index + 1));
      [unfold len in *; lia|].
    assert (Hbit : idx (pre ++ (turn :: path) ++ post) (index + 1) = Ok turn).
    { apply idx_Ok. split; [unfold len in *; lia|]. cbn [app].
      apply list_lookup_middle. unfold len in *. lia. }
    rewrite Hbit. cbn [bind].
    assert (Hshift : pre ++ (turn :: path) ++ post = (pre ++ [turn]) ++ path ++ post).
    { rewrite <- app_assoc. reflexivity. }
    assert (Hpre' : len (pre ++ [turn]) = index + 1 + 1).
    { unfold len in *. rewrite length_app. cbn [length]. lia. }
    assert (Hend : index + len (turn :: path) = index + 1 + len path).
    { unfold len. cbn [length]. lia. }
    rewrite Hshift, Hend.
    destruct turn; cbn [negb].
    + apply IHr; assumption.
    + apply IHl; assumption.
Qed.

Lemma decodeLoop_codes (l r : huffmanTree) (f i : Z) (enc : gmap Z bitString)
    (input : list Z) :
  forall (bits pre : bitString) (data : list Z) (fuel : nat),
    (forall s e, enc !! s = Some e -> leads (huffmanNode f i l r) e s) ->
    encodeSymbols enc input = Ok bits ->
    (length bits <= fuel)%nat ->
    decodeLoop fuel l r (pre ++ bits) (len pre) data = Ok (data ++ input).
Proof.
  induction input as [|s rest IH]; intros bits pre data fuel Henc Hbits Hfuel.
  - cbn [encodeSymbols] in Hbits. injection Hbits as <-. rewrite !app_nil_r.
    destruct fuel; cbn [decodeLoop]; destruct (Z.leb_spec (len pre) (len pre)); try lia;
      reflexivity.
  - cbn [encodeSymbols] in Hbits. destruct (enc !! s) as [e|] eqn:He; [|discriminate].
    bind_ok Hbits. rename a into bits'. injection Hbits as <-.
    pose proof (Henc s e He) as Hleads.
    destruct e as [|turn path]; [contradiction|]. cbn [leads] in Hleads.
    cbn [app length] in Hfuel. destruct fuel as [|fuel]; [lia|].
    cbn [decodeLoop].
    assert (Hlen : len (pre ++ (turn :: path) ++ bits') = len pre + 1 + len path + len bits').
    { unfold len. rewrite !length_app. cbn [length]. lia. }
    pose proof (Nat2Z.is_nonneg (length path)). pose proof (Nat2Z.is_nonneg (length bits')).
    pose proof (Nat2Z.is_nonneg (length pre)).
    destruct (Z.leb_spec (len (pre ++ (turn :: path) ++ bits')) (len pre));
      [unfold len in *; lia|].
    assert (Hbit : idx (pre ++ (turn :: path) ++ bits') (len pre) = Ok turn).
    { apply idx_Ok. split; [unfold len; lia|]. cbn [app].
      apply list_lookup_middle. unfold len. lia. }
    rewrite Hbit. cbn [bind].
    assert (Hshift : pre ++ (turn :: path) ++ bits' = (pre ++ [turn]) ++ path ++ bits').
    { rewrite <- app_assoc. reflexivity. }
    assert (Hpre' : len (pre ++ [turn]) = len pre + 1).
    { unfold len. rewrite length_app. cbn [length]. lia. }
    rewrite Hshift.
    rewrite (getSymbol_leads (if negb turn then l else r) path (pre ++ [turn]) bits' s
               (len pre) data); [| destruct turn; exact Hleads | exact Hpre'].
    cbn [bind].
    replace ((pre ++ [turn]) ++ path ++ bits') with ((pre ++ turn :: path) ++ bits')
      by (rewrite <- !app_assoc; reflexivity).
    replace (len pre + len path + 1) with (len (pre ++ turn :: path))
      by (unfold len; rewrite length_app; cbn [length]; lia).
    rewrite (IH bits' (pre ++ turn :: path) (data ++ [s]) fuel Henc Ha);
      [rewrite <- app_assoc; reflexivity|].
    rewrite length_app in Hfuel. lia.
Qed.

(** Decoding undoes the coding of the symbols: with a tree that has more
    than one leaf and no symbol twice, the concatenated codes of any input
    that [encode] can write are decoded by [getSymbolDecoded] to that
    input. *)
Lemma codes_decode (f i : Z) (l r : huffmanTree) (input : list Z) (bits : bitString) :
  NoDup (map fst (leavesOf (huffmanNode f i l r))) ->
  encodeSymbols (getSymbolEncoding (huffmanNode f i l r) ∅ []) input = Ok bits ->
  getSymbolDecoded (huffmanNode f i l r) bits = Ok input.
Proof.
  intros Hnd Hbits. cbn [getSymbolDecoded].
  refine (decodeLoop_codes l r f i _ input bits [] [] (length bits) _ Hbits _); [|lia].
  intros s e He.
  destruct (getSymbolEncoding_lookup (huffmanNode f i l r) ∅ [] s Hnd) as [Hin Hout].
  destruct (in_dec Z.eq_dec s (map fst (leavesOf (huffmanNode f i l r)))) as [Hs | Hs].
  - destruct (Hin Hs) as (path & Hleads & Hlook).
    pose proof (eq_trans (eq_sym Hlook) He) as E. cbn [app] in E.
    injection E as <-. exact Hleads.
  - pose proof (eq_trans (eq_sym (Hout Hs)) He) as E. rewrite lookup_empty in E.
    discriminate.
Qed.

(** *** The compressor and the decoder *)

Lemma countRunes_fold (content : list Z) :
  forall (m : gmap Z Z) (s : Z),
    is_Some (fold_left (fun m c => <[c := default 0 (m !! c) + 1]> m) content m !! s)
    <-> In s content \/ is_Some (m !! s).
Proof.
  induction content as [|c rest IH]; intros m s; cbn [fold_left In].
  - tauto.
  - rewrite IH. destruct (Z.eq_dec c s) as [-> | Hne].
    + rewrite lookup_insert_eq. split; [auto | intros _; right; eauto].
    + rewrite lookup_insert_ne by exact Hne. tauto.
Qed.

Lemma countRunes_lookup (content : list Z) (s : Z) :
  is_Some (countRunes content !! s) <-> In s content.
Proof.
  unfold countRunes. rewrite countRunes_fold, lookup_empty.
  split; [intros [H | [x Hx]]; [exact H | discriminate] | auto].
Qed.

Lemma encodeSymbols_total (enc : gmap Z bitString) (input : list Z) :
  (forall s, In s input -> is_Some (enc !! s)) ->
  exists bits, encodeSymbols enc input = Ok bits.
Proof.
  induction input as [|s rest IH]; intros Hall; cbn [encodeSymbols]; [eauto|].
  pose proof (Hall s (or_introl eq_refl)) as Hs.
  destruct (enc !! s) as [e|] eqn:E; [|destruct Hs; discriminate].
  destruct IH as (bits & ->); [intros x Hx; apply Hall; right; exact Hx|].
  cbn [bind]. eauto.
Qed.

Lemma runes_nonempty (content : list Z) : content <> [] -> runes content <> [].
Proof.
  destruct content as [|b rest]; [contradiction|]. intros _. unfold runes.
  cbn [length runes_fuel]. destruct (decoderune (b :: rest)). discriminate.
Qed.

(** X10. The compressor returns on every content that is not empty, and what
    it writes is read back by [decode] with the same tree: the header is
    skipped up to the terminator, the padding is dropped and the codes are
    decoded.  With two different runes or more in the content, [decode]
    returns the runes of the content; with one rune only, whatever its
    number of copies, [decode] returns that rune once. *)
Theorem huffman_payload_round_trip (mapRange : gmap Z Z -> list (Z * Z)) (content : list Z) :
  content <> [] ->
  exists out tree,
    compress mapRange content = Ok out /\
    buildTree (countRunes (runes content)) = Ok tree /\
    ((exists a b, In a (runes content) /\ In b (runes content) /\ a <> b) ->
     decode tree out = Ok (bytes_of_runes (runes content))) /\
    (forall s, (forall a, In a (runes content) -> a = s) ->
               decode tree out = Ok (encoderune s)).
Proof.
  intros Hcontent. pose proof (runes_nonempty content Hcontent) as HR.
  set (R := runes content) in *. set (m := countRunes R).
  assert (Hm : m <> ∅).
  { destruct R as [|s R'] eqn:ER; [contradiction|]. intros E.
    assert (Hs : is_Some (m !! s)) by (apply countRunes_lookup; left; reflexivity).
    rewrite E, lookup_empty in Hs. destruct Hs as [x Hx]. discriminate. }
  destruct (buildTree_entries m Hm) as (tree & Htree & Hentries & _).
  assert (Hsymbols : map fst (leavesOf tree) ≡ₚ map fst (map_to_list m)).
  { apply Permutation_map. exact Hentries. }
  assert (Hnd : NoDup (map fst (leavesOf tree))).
  { rewrite Hsymbols. apply (NoDup_fst_map_to_list m). }
  assert (Hin : forall s, In s R -> In s (map fst (leavesOf tree))).
  { intros s Hs. apply countRunes_lookup in Hs. destruct Hs as (v & Hv).
    apply list_elem_of_In. rewrite Hsymbols. apply list_elem_of_In.
    apply in_map_iff. exists (s, v). split; [reflexivity|].
    apply list_elem_of_In, elem_of_map_to_list. exact Hv. }
  destruct (encodeSymbols_total (getSymbolEncoding tree ∅ []) R) as (bits & Hbits).
  { intros s Hs. destruct (getSymbolEncoding_lookup tree ∅ [] s Hnd) as [Hfound _].
    destruct (Hfound (Hin s Hs)) as (path & _ & Hlook). eexists. exact Hlook. }
  pose proof (padding_range (len bits)) as Hpad.
  destruct (asByteSlice_spec bits) as (payload & Hpayload & Hpacked).
  set (header := concat (map headerEntry (mapRange m))).
  exists (header ++ terminator ++ [padding (len bits)] ++ payload), tree.
  split.
  { unfold compress. fold R. fold m. rewrite Htree. cbn [bind]. unfold encode.
    rewrite Hbits. cbn [bind]. fold (padding (len bits)).
    rewrite (paddingByte_spec _ Hpad). cbn [bind]. rewrite Hpayload. reflexivity. }
  split; [exact Htree|].
  assert (Hdecode : decode tree (header ++ terminator ++ [padding (len bits)] ++ payload)
                    = let* decompressedData := getSymbolDecoded tree bits in
                      Ok (bytes_of_runes decompressedData)).
  { unfold decode. rewrite splitTerminator_header by apply header_no_newline.
    cbn [snd bind app]. rewrite (huffmanCodeOf_packed bits payload Hpacked). reflexivity. }
  rewrite Hdecode. split.
  - intros (a & b & Ha & Hb & Hab).
    destruct tree as [f i sym | f i l r].
    + exfalso. apply Hab. pose proof (Hin a Ha) as Ha'. pose proof (Hin b Hb) as Hb'.
      cbn in Ha', Hb'. destruct Ha' as [<- | []]. destruct Hb' as [<- | []]. reflexivity.
    + rewrite (codes_decode f i l r R bits Hnd Hbits). reflexivity.
  - intros s Hall.
    destruct tree as [f i sym | f i l r].
    + cbn [getSymbolDecoded bind]. unfold bytes_of_runes. cbn [map concat].
      rewrite app_nil_r. f_equal. f_equal.
      destruct R as [|a R'] eqn:ER; [contradiction|].
      pose proof (Hin a (or_introl eq_refl)) as Ha. cbn in Ha. destruct Ha as [<- | []].
      apply Hall. left. reflexivity.
    + exfalso.
      assert (Hone : forall x, In x (map fst (leavesOf (huffmanNode f i l r))) -> x = s).
      { intros x Hx. apply Hall. apply countRunes_lookup.
        apply list_elem_of_In in Hx. rewrite Hsymbols in Hx. apply list_elem_of_In in Hx.
        apply in_map_iff in Hx. destruct Hx as ([k v] & <- & Hkv).
        apply list_elem_of_In, elem_of_map_to_list in Hkv. eexists. exact Hkv. }
      cbn [leavesOf] in Hone, Hnd. rewrite map_app in Hone, Hnd.
      assert (Hleaf : forall t, leavesOf t <> []).
      { induction t as [? ? ?|? ? tl IHl tr IHr]; cbn [leavesOf]; [discriminate|].
        destruct (leavesOf tl); [contradiction | discriminate]. }
      destruct (leavesOf l) as [|[kl vl] restl] eqn:El; [exact (Hleaf l El)|].
      destruct (leavesOf r) as [|[kr vr] restr] eqn:Er; [exact (Hleaf r Er)|].
      apply NoDup_app in Hnd. destruct Hnd as (_ & Hdisj & _).
      apply (Hdisj kl); cbn [map fst].
      * left.
      * replace kl with kr; [left|].
        rewrite (Hone kl), (Hone kr); [reflexivity | |]; apply in_or_app; cbn [map fst In]; auto.
Qed.

End TreeFacts.

Lemma huffman_payload_round_trip_witness :
  exists out tree,
    Huffman.compress map_to_list (Go.bytes "abracadabra") = Ok out /\
    Huffman.buildTree (Huffman.countRunes (Go.runes (Go.bytes "abracadabra"))) = Ok tree /\
    ((exists a b, In a (Go.runes (Go.bytes "abracadabra")) /\
                  In b (Go.runes (Go.bytes "abracadabra")) /\ a <> b) ->
     Huffman.decode tree out = Ok (Go.bytes_of_runes (Go.runes (Go.bytes "abracadabra")))) /\
    (forall s, (forall a, In a (Go.runes (Go.bytes "abracadabra")) -> a = s) ->
               Huffman.decode tree out = Ok (Go.encoderune s)).
Proof.
  apply (huffman_payload_round_trip map_to_list (Go.bytes "abracadabra")). discriminate.
Defined.


(** ** LZSS: escaping, and content without long copies *)

Section EscapeFacts.
Import Go Lzss.

Lemma escape_app (a b : list Z) :
  escapeConflictingSymbols (a ++ b) = escapeConflictingSymbols a ++ escapeConflictingSymbols b.
Proof.
  induction a as [|c a IH]; [reflexivity|]. cbn [app escapeConflictingSymbols].
  destruct (contains conflictingLiterals c); cbn [app]; rewrite IH; reflexivity.
Qed.

Lemma escape_length (s : list Z) :
  (length s <= length (escapeConflictingSymbols s))%nat.
Proof.
  induction s as [|c s IH]; [reflexivity|]. cbn [escapeConflictingSymbols].
  destruct (contains conflictingLiterals c); cbn [length]; lia.
Qed.

Lemma removeEscapes_loop_escaped (s : list Z) :
  forall (fuel : nat) (cleaned : list Z),
    (length (escapeConflictingSymbols s) <= fuel)%nat ->
    removeEscapes_loop fuel (reverse (escapeConflictingSymbols s)) cleaned
    = Ok (cleaned ++ reverse s).
Proof.
  induction s as [|c s IH] using rev_ind; intros fuel cleaned Hfuel.
  - rewrite app_nil_r. destruct fuel; reflexivity.
  - rewrite escape_app, !reverse_app in *. rewrite length_app in Hfuel.
    cbn [escapeConflictingSymbols] in *.
    destruct (contains conflictingLiterals c) eqn:Ec.
    + cbn [length] in Hfuel. destruct fuel as [|fuel]; [lia|].
      change (reverse [Escape; c]) with [c; Escape]. change (reverse [c]) with [c].
      cbn [app removeEscapes_loop]. rewrite Ec.
      change (negb (Escape =? Escape)) with false. cbv iota.
      rewrite IH by lia. rewrite <- app_assoc. reflexivity.
    + cbn [length] in Hfuel. destruct fuel as [|fuel]; [lia|].
      change (reverse [c]) with [c].
      cbn [app removeEscapes_loop]. rewrite Ec.
      rewrite IH by lia. rewrite <- app_assoc. reflexivity.
Qed.

Lemma removeEscapes_escaped (s : list Z) : removeEscapes (escapeConflictingSymbols s) = Ok s.
Proof.
  unfold removeEscapes. rewrite removeEscapes_loop_escaped by reflexivity.
  cbn [bind app]. rewrite reverse_involutive. reflexivity.
Qed.

(** Escaped text ends with an even number of escapes. *)
Lemma escaped_ends_even (s : list Z) :
  countEscapes (reverse (escapeConflictingSymbols s)) mod 2 = 0.
Proof.
  induction s as [|c s IH] using rev_ind; [reflexivity|].
  rewrite escape_app, reverse_app. cbn [escapeConflictingSymbols].
  destruct (contains conflictingLiterals c) eqn:Ec.
  - change (reverse [Escape; c]) with [c; Escape]. cbn [app countEscapes].
    destruct (Z.eqb_spec c Escape); [|reflexivity].
    change (Escape =? Escape) with true. cbv iota.
    replace (1 + (1 + countEscapes (reverse (escapeConflictingSymbols s))))
      with (countEscapes (reverse (escapeConflictingSymbols s)) + 1 * 2) by lia.
    rewrite Z.mod_add by lia. exact IH.
  - change (reverse [c]) with [c]. cbn [app countEscapes].
    destruct (Z.eqb_spec c Escape) as [-> | _]; [discriminate Ec | reflexivity].
Qed.

(** What comes before an opening bracket of escaped text is escaped text
    and one escape. *)
Lemma escaped_before_opening (s : list Z) :
  forall i : nat,
    escapeConflictingSymbols s !! i = Some Opening ->
    exists s', take i (escapeConflictingSymbols s) = escapeConflictingSymbols s' ++ [Escape].
Proof.
  induction s as [|c s IH]; intros i Hi; [discriminate|].
  cbn [escapeConflictingSymbols] in *.
  destruct (contains conflictingLiterals c) eqn:Ec.
  - destruct i as [|[|i]].
    + discriminate.
    + exists []. reflexivity.
    + cbn in Hi. destruct (IH i Hi) as (s' & Hs'). exists (c :: s').
      cbn [take escapeConflictingSymbols]. rewrite Ec, Hs'. reflexivity.
  - destruct i as [|i].
    + injection Hi as ->. discriminate.
    + cbn in Hi. destruct (IH i Hi) as (s' & Hs'). exists (c :: s').
      cbn [take escapeConflictingSymbols]. rewrite Ec, Hs'. reflexivity.
Qed.

Lemma escaped_opening_is_escaped (s : list Z) (i : Z) :
  idx (escapeConflictingSymbols s) i = Ok Opening ->
  countEscapesInReverse (escapeConflictingSymbols s) (i - 1) mod 2 = 1.
Proof.
  intros Hi. apply idx_Ok in Hi. destruct Hi as [Hi0 Hi].
  destruct (escaped_before_opening s _ Hi) as (s' & Hs').
  assert (Hpos : 0 < i).
  { destruct (Z.eq_dec i 0) as [-> | ]; [|lia]. change (Z.to_nat 0) with 0%nat in Hs'.
    cbn [take] in Hs'. destruct (escapeConflictingSymbols s'); discriminate. }
  unfold countEscapesInReverse. destruct (Z.ltb_spec (i - 1) 0); [lia|].
  replace (i - 1 + 1) with i by lia. rewrite Hs', reverse_app.
  change (reverse [Escape]) with [Escape]. cbn [app countEscapes].
  change (Escape =? Escape) with true. cbv iota.
  pose proof (escaped_ends_even s') as Heven.
  rewrite Z.add_comm. rewrite <- Z.add_mod_idemp_l by lia. rewrite Heven. reflexivity.
Qed.

Lemma decodeBackRefs_loop_escaped (s : list Z) (count : nat) :
  forall i : nat,
    (i + count)%nat = length (escapeConflictingSymbols s) ->
    decodeBackRefs_loop count (escapeConflictingSymbols s)
                        (outside (take i (escapeConflictingSymbols s))) (Z.of_nat i)
    = Ok (outside (escapeConflictingSymbols s)).
Proof.
  induction count as [|count IH]; intros i Hi.
  - cbn [decodeBackRefs_loop]. rewrite take_ge by lia. reflexivity.
  - cbn [decodeBackRefs_loop].
    destruct (lookup_lt_is_Some_2 (escapeConflictingSymbols s) i) as (c & Hc); [lia|].
    assert (Hidx : idx (escapeConflictingSymbols s) (Z.of_nat i) = Ok c).
    { apply idx_Ok. rewrite Nat2Z.id. split; [lia | exact Hc]. }
    unfold decodeStep at 1. rewrite Hidx. cbn [bind outside refOn negb andb].
    assert (Hclosed : (c =? Opening)
                      && (countEscapesInReverse (escapeConflictingSymbols s) (Z.of_nat i - 1)
                            mod 2 =? 0) = false).
    { destruct (Z.eqb_spec c Opening) as [-> | _]; [|reflexivity].
      rewrite (escaped_opening_is_escaped s _ Hidx). reflexivity. }
    rewrite Hclosed. cbn [bind].
    change (decodeBackRefs_loop count (escapeConflictingSymbols s)
              (outside (take i (escapeConflictingSymbols s) ++ [c])) (Z.of_nat i + 1)
            = Ok (outside (escapeConflictingSymbols s))).
    rewrite <- (take_S_r _ _ _ Hc).
    replace (Z.of_nat i + 1) with (Z.of_nat (S i)) by lia.
    apply (IH (S i)). lia.
Qed.

Lemma decodeBackRefs_escaped (s : list Z) :
  decodeBackRefs (escapeConflictingSymbols s) = Ok (escapeConflictingSymbols s).
Proof.
  unfold decodeBackRefs.
  pose proof (decodeBackRefs_loop_escaped s (length (escapeConflictingSymbols s)) 0 eq_refl) as H.
  change (decodeBackRefs_loop (length (escapeConflictingSymbols s)) (escapeConflictingSymbols s)
            {| refOn := false; currentNegOffset := 0; currentLength := 0; currentRefStart := 0;
               refValue := []; derefedContent := [] |} 0
          = Ok (outside (escapeConflictingSymbols s))) in H.
  rewrite H. reflexivity.
Qed.

Lemma escaped_scalar (s : list Z) : Forall scalar s -> Forall scalar (escapeConflictingSymbols s).
Proof.
  induction 1 as [|c s Hc Hs IH]; [constructor|]. cbn [escapeConflictingSymbols].
  assert (Hescape : scalar Escape) by (unfold scalar, Escape; lia).
  destruct (contains conflictingLiterals c); repeat (constructor; auto).
Qed.

(** X11. Escaped text is read back: in the escaped form of any runes the
    decoder of the back-references finds no reference and returns the text
    as it is, [removeEscapes] returns the runes, and [decompress], on the
    bytes of the escaped form of Unicode scalar values, returns their
    bytes. *)
Theorem escaped_text_is_read_back (R : list Z) :
  decodeBackRefs (escapeConflictingSymbols R) = Ok (escapeConflictingSymbols R) /\
  removeEscapes (escapeConflictingSymbols R) = Ok R /\
  (Forall scalar R ->
   decompress (bytes_of_runes (escapeConflictingSymbols R)) = Ok (bytes_of_runes R)).
Proof.
  split; [apply decodeBackRefs_escaped|]. split; [apply removeEscapes_escaped|].
  intros HR. unfold decompress.
  rewrite (runes_bytes_of_runes _ (escaped_scalar R HR)), decodeBackRefs_escaped.
  cbn [bind]. rewrite removeEscapes_escaped. reflexivity.
Qed.

(** *** The compressor on content without long copies *)

Lemma digits_fuel_longer (fuel : nat) :
  forall (n : Z) (acc : list Z), (length acc <= length (digits_fuel fuel n acc))%nat.
Proof.
  induction fuel as [|fuel IH]; intros n acc; cbn [digits_fuel]; [lia|].
  destruct (n <? 10); [cbn [length]; lia|].
  etransitivity; [|apply IH]. cbn [length]. lia.
Qed.

Lemma Itoa_nonempty (n : Z) : 1 <= len (Itoa n).
Proof.
  unfold Itoa, len. destruct (n <? 0).
  - cbn [length]. lia.
  - cbn [digits_fuel]. destruct (n <? 10); [cbn [length]; lia|].
    pose proof (digits_fuel_longer (Z.to_nat (Z.log2 n)) (n / 10) [48 + n mod 10]) as H.
    cbn [length] in H. lia.
Qed.

Lemma getSymbolEncoded_length (negOffset length : Z) :
  5 <= len (getSymbolEncoded negOffset length).
Proof.
  unfold getSymbolEncoded, len. rewrite !length_app. cbn [List.length].
  pose proof (Itoa_nonempty negOffset). pose proof (Itoa_nonempty length).
  unfold len in *. lia.
Qed.

Lemma emit_without_long_copies (content : list Z) (d l : Z) (refs : list Reference) :
  forall (i : nat) (output : list Z),
    (forall (n : nat) (ref : Reference),
        refs !! n = Some ref -> copies content d l (Z.of_nat i + Z.of_nat n) ref) ->
    Forall (fun ref => Size ref <= 5) refs ->
    (i + length refs)%nat = length content ->
    emit refs 0 output = Ok (output ++ drop i content).
Proof.
  induction refs as [|ref refs IH]; intros i output Hcopies Hshort Hlen.
  - cbn [emit]. rewrite drop_ge by (cbn [length] in Hlen; lia). rewrite app_nil_r. reflexivity.
  - cbn [length] in Hlen. inversion Hshort as [|? ? Hsize Hrest]; subst.
    destruct (lookup_lt_is_Some_2 content i) as (c & Hc); [lia|].
    pose proof (Hcopies 0%nat ref eq_refl) as Hhere. rewrite Z.add_0_r in Hhere.
    assert (Hnext : emit refs 0 (output ++ [c]) = Ok (output ++ drop i content)).
    { rewrite (IH (S i)); [| | exact Hrest | lia].
      - rewrite <- app_assoc. cbn [app]. rewrite (drop_S _ _ _ Hc). reflexivity.
      - intros n r Hn. replace (Z.of_nat (S i) + Z.of_nat n) with (Z.of_nat i + Z.of_nat (S n))
          by lia. apply Hcopies. exact Hn. }
    cbn [emit]. change (0 <? 0) with false. cbv iota. unfold copies in Hhere.
    destruct (IsRef ref).
    + destruct Hhere as (Hs & _ & Hvalue & _).
      pose proof (getSymbolEncoded_length (NegativeOffset ref) (Size ref)) as Henc.
      destruct (Z.ltb_spec (len (getSymbolEncoded (NegativeOffset ref) (Size ref))) (Size ref));
        [lia|].
      apply slice_Ok in Hvalue. destruct Hvalue as (_ & _ & Hvalue).
      assert (Hv0 : idx (Lzss.Value ref) 0 = Ok c).
      { apply idx_Ok. split; [lia|]. rewrite Hvalue. change (Z.to_nat 0) with 0%nat.
        rewrite lookup_take_lt by lia. rewrite lookup_drop, Nat.add_0_r, Nat2Z.id. exact Hc. }
      rewrite Hv0. cbn [bind]. exact Hnext.
    + destruct Hhere as (_ & _ & Hvalue).
      apply slice_Ok in Hvalue. destruct Hvalue as (_ & _ & Hvalue).
      replace (Z.of_nat i + 1 - Z.of_nat i) with 1 in Hvalue by lia.
      rewrite Nat2Z.id, (drop_S _ _ _ Hc) in Hvalue. cbn in Hvalue.
      rewrite Hvalue. exact Hnext.
Qed.

(** X12. When the matcher finds no copy of more than five runes, no
    reference is written: the compressor returns the bytes of the escaped
    content, and the decompressor returns from them the content, as the
    bytes of its runes (the content itself when it is ASCII). *)
Theorem lzss_round_trip_without_long_copies
    (content : list Z) (matchDistance matchLength : Z) (refs : list Reference) :
  0 <= matchDistance -> 1 <= matchLength -> Forall byte content ->
  FindMatch (escapeConflictingSymbols (runes content)) matchDistance matchLength = Ok refs ->
  Forall (fun ref => Size ref <= 5) refs ->
  compress content matchDistance matchLength
    = Ok (bytes_of_runes (escapeConflictingSymbols (runes content))) /\
  decompress (bytes_of_runes (escapeConflictingSymbols (runes content)))
    = Ok (bytes_of_runes (runes content)) /\
  (Forall sevenBit content ->
   decompress (bytes_of_runes (escapeConflictingSymbols (runes content))) = Ok content).
Proof.
  intros Hd Hl Hbytes Hrefs Hshort.
  assert (Hback : decompress (bytes_of_runes (escapeConflictingSymbols (runes content)))
                  = Ok (bytes_of_runes (runes content))).
  { unfold decompress.
    rewrite (runes_bytes_of_runes _ (escaped_scalar _ (runes_scalar content Hbytes))).
    rewrite decodeBackRefs_escaped. cbn [bind]. rewrite removeEscapes_escaped. reflexivity. }
  split; [|split; [exact Hback|]].
  - unfold compress. rewrite Hrefs. cbn [bind].
    destruct (FindMatch_loop_copies _ _ _ _ _ _ Hrefs Hd Hl (Z.le_refl 0)) as [Hlen Hcopies].
    rewrite (emit_without_long_copies (escapeConflictingSymbols (runes content))
               matchDistance matchLength refs 0 []);
      [reflexivity | | exact Hshort | lia].
    intros n ref Hn. change (Z.of_nat 0) with 0. apply Hcopies. exact Hn.
  - intros Hascii. rewrite Hback, (runes_ascii content Hascii).
    rewrite (bytes_of_runes_ascii content Hascii). reflexivity.
Qed.

End EscapeFacts.

Lemma lzss_round_trip_without_long_copies_witness :
  exists refs,
    Lzss.FindMatch (Lzss.escapeConflictingSymbols (Go.runes (Go.bytes "a<b,c>a<b"))) 4096 4096
      = Ok refs /\
    Lzss.compress (Go.bytes "a<b,c>a<b") 4096 4096
      = Ok (Go.bytes_of_runes (Lzss.escapeConflictingSymbols (Go.runes (Go.bytes "a<b,c>a<b")))) /\
    Lzss.decompress (Go.bytes_of_runes (Lzss.escapeConflictingSymbols
                                          (Go.runes (Go.bytes "a<b,c>a<b"))))
      = Ok (Go.bytes "a<b,c>a<b").
Proof.
  eassert (Hrefs : Lzss.FindMatch
                     (Lzss.escapeConflictingSymbols (Go.runes (Go.bytes "a<b,c>a<b"))) 4096 4096
                   = Ok _) by (vm_compute; reflexivity).
  eexists. split; [exact Hrefs|].
  assert (Hbytes : Forall byte (Go.bytes "a<b,c>a<b")).
  { repeat constructor; unfold byte; cbn; lia. }
  assert (Hascii : Forall sevenBit (Go.bytes "a<b,c>a<b")).
  { repeat constructor; unfold sevenBit; cbn; lia. }
  destruct (lzss_round_trip_without_long_copies (Go.bytes "a<b,c>a<b") 4096 4096 _
              ltac:(lia) ltac:(lia) Hbytes Hrefs) as (Hc & _ & Ha).
  - repeat (constructor; [cbn; lia|]). constructor.
  - split; [exact Hc | exact (Ha Hascii)].
Defined.

Lemma escaped_text_is_read_back_witness :
  Lzss.decompress (Go.bytes_of_runes (Lzss.escapeConflictingSymbols (Go.bytes "a<1,2>\b")))
  = Ok (Go.bytes "a<1,2>\b").
Proof.
  destruct (escaped_text_is_read_back (Go.bytes "a<1,2>\b")) as (_ & _ & H).
  apply H. repeat constructor; unfold scalar; cbn; lia.
Defined.

(** ** gzip: checksum, size and trailer *)

Section MemberFacts.
Import Go Gzip.

Lemma lxor_cancel (x m : Z) : Z.lxor (Z.lxor x m) m = x.
Proof. rewrite Z.lxor_assoc, Z.lxor_nilpotent, Z.lxor_0_r. reflexivity. Qed.

Lemma crcWrite_app (crc : Z) (p q : list Z) :
  crcWrite (crcWrite crc p) q = crcWrite crc (p ++ q).
Proof. unfold crcWrite. rewrite lxor_cancel, fold_left_app. reflexivity. Qed.

Lemma size_app (size : Z) (p q : list Z) :
  u32 (u32 (size + u32 (len p)) + u32 (len q)) = u32 (size + u32 (len (p ++ q))).
Proof.
  unfold u32, len. rewrite length_app, Nat2Z.inj_add.
  rewrite Z.add_mod_idemp_l, Z.add_mod_idemp_r by lia.
  rewrite (Z.add_mod_idemp_r size) by lia.
  rewrite <- (Z.add_mod_idemp_l (size + _ mod _)) by lia.
  rewrite Z.add_mod_idemp_r by lia. rewrite Z.add_mod_idemp_l by lia.
  f_equal. lia.
Qed.

(** X13. The gzip compressor does not see how its input is cut: with the
    DEFLATE writer open, a [Write] of [p] followed by a [Write] of [q]
    leaves the core (checksum, size, the input held by the DEFLATE
    writer, and the file com.o) as one [Write] of [p ++ q] does; both
    panic when the file cannot be opened. *)
Theorem gzip_writes_compose (core : CompressionCore) (p q : list Z) :
  Flate.c_isInputBufferClosed (Flate core) = false ->
  (do* _ := CompressionWriter_Write p in CompressionWriter_Write q) core
  = CompressionWriter_Write (p ++ q) core.
Proof.
  intros Hopen. unfold bindS, CompressionWriter_Write, Flate.CompressionWriter_Write.
  destruct (ComO core) as [f|]; [|reflexivity].
  rewrite Hopen. cbn [Flate Crc Size Pipe ComO Flate.c_isInputBufferClosed Flate.c_inputBuffer
                      Flate.c_writer Flate.c_btype Flate.c_bfinal].
  rewrite crcWrite_app, size_app, <- !app_assoc. reflexivity.
Qed.

Lemma testbit_byte (x m : Z) :
  Z.testbit (Z.land x 255) m = (0 <=? m) && (m <? 8) && Z.testbit x m.
Proof.
  change 255 with (Z.ones 8). destruct (Z.leb_spec 0 m).
  - rewrite Z.land_ones by lia. destruct (Z.ltb_spec m 8).
    + rewrite Z.mod_pow2_bits_low by lia. reflexivity.
    + rewrite Z.mod_pow2_bits_high by lia. reflexivity.
  - rewrite Z.testbit_neg_r by lia. reflexivity.
Qed.

Lemma Uint32_PutUint32 (v : Z) (rest : list Z) : Uint32 (PutUint32 v ++ rest) = Ok (u32 v).
Proof.
  unfold Uint32, PutUint32, u32. cbn [app]. f_equal.
  apply Z.bits_inj'. intros n Hn.
  rewrite !Z.lor_spec, !Z.shiftl_spec by lia. rewrite !testbit_byte.
  destruct (Z.ltb_spec n 32);
    [rewrite Z.mod_pow2_bits_low by lia | rewrite Z.mod_pow2_bits_high by lia];
    repeat match goal with
           | |- context [?a <=? ?b] => destruct (Z.leb_spec a b); try lia
           | |- context [?a <? ?b] => destruct (Z.ltb_spec a b); try lia
           end;
    cbn [andb orb]; rewrite ?orb_false_r, ?Z.shiftr_spec by lia;
    try reflexivity; f_equal; lia.
Qed.

(** X14. The trailer that the compressor writes is the one that the
    reader's [Close] compares: with the trailer [PutUint32 crc ++
    PutUint32 size] in the core, [Close] returns the size error when
    [size] (modulo 2^32) is not the number of bytes read, else the
    checksum error when [crc] (modulo 2^32) is not the checksum of the
    bytes read, and succeeds otherwise. *)
Theorem gzip_trailer_is_compared (core : DecompressionCore) (crc size : Z) :
  DecompressionReader_Close (withTrailer core (PutUint32 crc ++ PutUint32 size))
  = if negb (u32 size =? CurrentSize core)
    then RErr ErrSizeMismatch (withTrailer core (PutUint32 crc ++ PutUint32 size))
    else if negb (u32 crc =? CurrentCrc core)
    then RErr ErrCrcMismatch (withTrailer core (PutUint32 crc ++ PutUint32 size))
    else ROk tt (withTrailer core (PutUint32 crc ++ PutUint32 size)).
Proof.
  unfold DecompressionReader_Close. cbn [withTrailer Trailer CurrentSize CurrentCrc].
  change (negb (len (PutUint32 crc ++ PutUint32 size) =? 8)) with false. cbv iota.
  rewrite Uint32_PutUint32.
  change (drop 4 (PutUint32 crc ++ PutUint32 size)) with (PutUint32 size ++ []).
  rewrite Uint32_PutUint32. reflexivity.
Qed.

Lemma lastBytes_short (t p : list Z) :
  length t = 8%nat -> (length p < 8)%nat ->
  lastBytes 8 (t ++ p) = drop (length p) t ++ p.
Proof.
  intros Ht Hp. unfold lastBytes. rewrite length_app, drop_app.
  replace (length t + length p - 8)%nat with (length p) by lia.
  replace (length p - length t)%nat with 0%nat by lia. reflexivity.
Qed.

Lemma lastBytes_long (t p : list Z) :
  length t = 8%nat -> (8 <= length p)%nat ->
  lastBytes 8 (t ++ p) = drop (length p - 8) p.
Proof.
  intros Ht Hp. unfold lastBytes. rewrite length_app, drop_app.
  rewrite drop_ge by lia. cbn [app]. f_equal. lia.
Qed.

(** X15. The decompression writer keeps the last eight bytes it has seen.
    A first [Write] of fewer than ten bytes panics; any other [Write]
    passes on its argument (without the ten header bytes on the first
    call), and leaves as the trailer the last eight bytes of the old
    trailer followed by what it passed on.  The trailer has eight bytes
    from the start on, so the reader's [Close] never finds it too short. *)
Theorem gzip_trailer_is_the_last_eight_bytes (core : DecompressionCore) (p : list Z) :
  len (Trailer core) = 8 ->
  (IsHeaderParsed core = false -> len p < 10 -> DecompressionWriter_Write p core = RPanic) /\
  ((IsHeaderParsed core = false -> 10 <= len p) ->
   exists core',
     (DecompressionWriter_Write p core = ROk tt core' \/
      exists e, DecompressionWriter_Write p core = RErr e core') /\
     Trailer core' = lastBytes 8 (Trailer core ++ passedOn core p) /\
     len (Trailer core') = 8 /\
     IsHeaderParsed core' = true /\
     DecompressionReader_Close core' <> RErr ErrTrailerInsufficient core').
Proof.
  intros Ht. unfold len in Ht. split.
  - intros Hfirst Hshort. unfold DecompressionWriter_Write. rewrite Hfirst.
    unfold slice. replace (len p <? 10) with true by (unfold len in *; lia).
    rewrite orb_true_r. reflexivity.
  - intros Hheader. unfold DecompressionWriter_Write.
    assert (Hbody : (if IsHeaderParsed core then Ok p else slice p 10 (len p))
                    = Ok (passedOn core p)).
    { unfold passedOn. destruct (IsHeaderParsed core); [reflexivity|].
      rewrite slice_take_drop by (unfold len in *; lia).
      rewrite take_ge; [reflexivity|]. rewrite length_drop. unfold len. lia. }
    rewrite Hbody. set (body := passedOn core p).
    assert (Htrailer :
      (if len (Trailer core) + len body <? 8 then Ok (Trailer core ++ body)
       else if len body <? 8 then
         let* t := slice (Trailer core) (len body) (len (Trailer core)) in Ok (t ++ body)
       else
         let* t := slice body (len body - 8) (len body) in
         Ok (take (length (Trailer core)) t ++ drop (length t) (Trailer core)))
      = Ok (lastBytes 8 (Trailer core ++ body))).
    { unfold len. destruct (Z.ltb_spec (Z.of_nat (length (Trailer core)) + Z.of_nat (length body)) 8);
        [lia|].
      destruct (Z.ltb_spec (Z.of_nat (length body)) 8).
      - rewrite slice_take_drop by (unfold len; lia). cbn [bind].
        rewrite lastBytes_short by lia. rewrite Nat2Z.id.
        rewrite take_ge; [reflexivity|]. rewrite length_drop. lia.
      - rewrite slice_take_drop by (unfold len; lia). cbn [bind].
        rewrite lastBytes_long by lia.
        replace (Z.to_nat (Z.of_nat (length body) - (Z.of_nat (length body) - 8))) with 8%nat
          by lia.
        replace (Z.to_nat (Z.of_nat (length body) - 8)) with (length body - 8)%nat by lia.
        rewrite (take_ge (drop _ body)) by (rewrite length_drop; lia).
        rewrite take_ge by (rewrite length_drop; lia).
        rewrite (drop_ge (Trailer core)) by (rewrite length_drop; lia).
        rewrite app_nil_r. reflexivity. }
    rewrite Htrailer.
    assert (Hlen : length (lastBytes 8 (Trailer core ++ body)) = 8%nat).
    { unfold lastBytes. rewrite length_drop, length_app. lia. }
    assert (Hclose : forall core' : DecompressionCore,
               length (Trailer core') = 8%nat ->
               DecompressionReader_Close core' <> RErr ErrTrailerInsufficient core').
    { intros core' H8. unfold DecompressionReader_Close, len. rewrite H8.
      change (negb (Z.of_nat 8 =? 8)) with false. cbv iota.
      destruct (Uint32 (Trailer core')); try discriminate.
      destruct (Uint32 (drop 4 (Trailer core'))); try discriminate.
      destruct (negb (_ =? CurrentSize core')); [discriminate|].
      destruct (negb (_ =? CurrentCrc core')); discriminate. }
    unfold Flate.DecompressionWriter_Write.
    destruct (Flate.d_isInputBufferClosed (DFlate core));
      eexists; (split; [first [left; reflexivity | right; eexists; reflexivity]|]);
      cbn [Trailer IsHeaderParsed]; unfold len; rewrite Hlen;
      (split; [reflexivity|]); (split; [reflexivity|]); (split; [reflexivity|]);
      apply Hclose; exact Hlen.
Qed.

End MemberFacts.

Lemma gzip_writes_compose_witness :
  (do* _ := Gzip.CompressionWriter_Write [97; 98] in Gzip.CompressionWriter_Write [99])
    (Gzip.NewCompressionReaderAndWriter (Some []) (Flate.NewCompressionReaderAndWriter 2 0))
  = Gzip.CompressionWriter_Write [97; 98; 99]
      (Gzip.NewCompressionReaderAndWriter (Some []) (Flate.NewCompressionReaderAndWriter 2 0)).
Proof.
  exact (gzip_writes_compose
           (Gzip.NewCompressionReaderAndWriter (Some [])
              (Flate.NewCompressionReaderAndWriter 2 0))
           [97; 98] [99] eq_refl).
Defined.

Lemma gzip_trailer_is_the_last_eight_bytes_witness :
  exists core',
    Gzip.DecompressionWriter_Write
      [31; 139; 8; 0; 0; 0; 0; 0; 0; 255; 1; 2; 3]
      (Gzip.NewDecompressionReaderAndWriter Flate.NewDecompressionReaderAndWriter)
    = ROk tt core' /\
    Gzip.Trailer core' = [0; 0; 0; 0; 0; 1; 2; 3].
Proof.
  destruct (gzip_trailer_is_the_last_eight_bytes
              (Gzip.NewDecompressionReaderAndWriter Flate.NewDecompressionReaderAndWriter)
              [31; 139; 8; 0; 0; 0; 0; 0; 0; 255; 1; 2; 3] eq_refl) as [_ H].
  destruct H as (core' & Hrun & Htrailer & _); [intros _; vm_compute; discriminate|].
  exists core'. split; [|exact Htrailer].
  destruct Hrun as [Hrun | [e Hrun]]; [exact Hrun | discriminate Hrun].
Defined.

(** ** The algorithms of the dispatcher and the file names of the handlers *)

Section HandlerFacts.
Import Go Compression Handlers.

Variable mapRange : gmap Z Z -> list (Z * Z).
Variable isDigitExcludingLatin : Z -> bool.
Variable comO : option (list Z).

(** X16. The three tables of the algorithms agree: [IsValidAlgorithm]
    accepts exactly the names of [SupportedAlgorithms], which are exactly
    the names with an extension of their own; for any other name
    [Compress] and [Decompress] return the unsupported-algorithm error,
    whatever the data. *)
Theorem supported_algorithms_agree (algorithm : string) :
  (IsValidAlgorithm mapRange isDigitExcludingLatin comO algorithm = true
   <-> In algorithm SupportedAlgorithms) /\
  (IsValidAlgorithm mapRange isDigitExcludingLatin comO algorithm = true
   <-> getExtensionForAlgorithm algorithm <> "compressed"%string) /\
  (IsValidAlgorithm mapRange isDigitExcludingLatin comO algorithm = false ->
   forall (data : list Z) (options : Options),
     Algorithm options = algorithm ->
     Compression.Compress mapRange isDigitExcludingLatin comO data options
       = Err ErrUnsupportedAlgorithm /\
     Compression.Decompress mapRange isDigitExcludingLatin comO data options
       = Err ErrUnsupportedAlgorithm).
Proof.
  unfold IsValidAlgorithm, Compression.Compress, Compression.Decompress, factoryMap,
    getExtensionForAlgorithm, extensions, SupportedAlgorithms.
  destruct (String.eqb_spec algorithm "huffman") as [-> | H1].
  { split; [|split]; [split; cbn; auto | split; [discriminate | reflexivity] | discriminate]. }
  destruct (String.eqb_spec algorithm "lzss") as [-> | H2].
  { split; [|split]; [split; cbn; auto | split; [discriminate | reflexivity] | discriminate]. }
  destruct (String.eqb_spec algorithm "flate") as [-> | H3].
  { split; [|split]; [split; cbn; auto | split; [discriminate | reflexivity] | discriminate]. }
  destruct (String.eqb_spec algorithm "gzip") as [-> | H4].
  { split; [|split]; [split; cbn; auto | split; [discriminate | reflexivity] | discriminate]. }
  split; [|split].
  - split; [discriminate|]. cbn. intros [E | [E | [E | [E | []]]]]; congruence.
  - split; [discriminate|]. intros H. contradiction H. reflexivity.
  - intros _ data options ->.
    destruct (String.eqb_spec algorithm "huffman"); [contradiction|].
    destruct (String.eqb_spec algorithm "lzss"); [contradiction|].
    destruct (String.eqb_spec algorithm "flate"); [contradiction|].
    destruct (String.eqb_spec algorithm "gzip"); [contradiction|].
    split; reflexivity.
Qed.

Lemma getBaseFilename_loop_no_dot (filename : list Z) (fuel : nat) :
  forall i : Z,
    i < len filename -> (Z.to_nat (i + 1) <= fuel)%nat ->
    (forall k c, 0 <= k <= i -> idx filename k = Ok c -> c <> 46) ->
    getBaseFilename_loop fuel filename i = Ok filename.
Proof.
  induction fuel as [|fuel IH]; intros i Hi Hfuel Hdots.
  - cbn [getBaseFilename_loop]. destruct (Z.leb_spec 0 i); [lia | reflexivity].
  - cbn [getBaseFilename_loop]. destruct (Z.leb_spec 0 i); [|reflexivity].
    destruct (idx_total filename i) as (c & Hc); [lia|]. rewrite Hc. cbn [bind].
    destruct (Z.eqb_spec c 46) as [-> | _]; [exfalso; apply (Hdots i 46); [lia | exact Hc | reflexivity]|].
    apply IH; [lia | lia |]. intros k c' Hk. apply Hdots. lia.
Qed.

Lemma getBaseFilename_loop_dot (base ext : list Z) (fuel : nat) :
  forall i : Z,
    len base <= i < len (base ++ [46] ++ ext) -> (Z.to_nat (i + 1) <= fuel)%nat ->
    (forall k c, len base < k <= i -> idx (base ++ [46] ++ ext) k = Ok c -> c <> 46) ->
    getBaseFilename_loop fuel (base ++ [46] ++ ext) i = Ok base.
Proof.
  induction fuel as [|fuel IH]; intros i Hi Hfuel Hdots; [unfold len in *; lia|].
  cbn [getBaseFilename_loop]. destruct (Z.leb_spec 0 i); [|unfold len in *; lia].
  destruct (idx_total (base ++ [46] ++ ext) i) as (c & Hc); [lia|]. rewrite Hc. cbn [bind].
  destruct (Z.eq_dec i (len base)) as [-> | Hne].
  - assert (c = 46) as ->.
    { apply idx_Ok in Hc. destruct Hc as [_ Hc]. unfold len in Hc. rewrite Nat2Z.id in Hc.
      change ([46] ++ ext) with (46 :: ext) in Hc.
      rewrite list_lookup_middle in Hc by reflexivity. injection Hc as <-. reflexivity. }
    change (46 =? 46) with true. cbv iota.
    rewrite slice_take_drop by (unfold len in *; rewrite ?length_app; lia).
    rewrite Z.sub_0_r. unfold len. rewrite Nat2Z.id. change (Z.to_nat 0) with 0%nat.
    rewrite drop_0. f_equal. apply take_app_length.
  - destruct (Z.eqb_spec c 46) as [-> | _];
      [exfalso; apply (Hdots i 46); [lia | exact Hc | reflexivity]|].
    apply IH; [lia | lia |]. intros k c' Hk. apply Hdots. lia.
Qed.

(** X17. [getBaseFilename] cuts the name at its last dot: the empty name
    gives "file", a name without a dot is returned as it is, and a name
    [base ++ "." ++ ext] whose [ext] has no dot gives [base] (the empty
    name for a name that starts with its only dot). *)
Theorem base_filename_is_cut_at_the_last_dot :
  getBaseFilename [] = Ok (bytes "file") /\
  (forall filename : list Z,
      filename <> [] -> ~ In 46 filename -> getBaseFilename filename = Ok filename) /\
  (forall base ext : list Z,
      ~ In 46 ext -> getBaseFilename (base ++ [46] ++ ext) = Ok base).
Proof.
  split; [reflexivity|]. split.
  - intros filename Hne Hdot. unfold getBaseFilename.
    destruct (Z.eqb_spec (len filename) 0) as [E | _].
    { destruct filename; [contradiction | discriminate E]. }
    apply getBaseFilename_loop_no_dot; [lia | unfold len; lia |].
    intros k c _ Hc ->. apply Hdot. apply idx_Ok in Hc. destruct Hc as [_ Hc].
    apply list_elem_of_In. eapply list_elem_of_lookup_2. exact Hc.
  - intros base ext Hdot. unfold getBaseFilename.
    destruct (Z.eqb_spec (len (base ++ [46] ++ ext)) 0) as [E | _].
    { unfold len in E. rewrite length_app in E. cbn [length app] in E. lia. }
    apply getBaseFilename_loop_dot.
    + unfold len. rewrite !length_app. cbn [length]. lia.
    + unfold len. lia.
    + intros k c Hk Hc ->. apply Hdot. apply idx_Ok in Hc. destruct Hc as [_ Hc].
      rewrite lookup_app_r in Hc by (unfold len in Hk; lia).
      rewrite lookup_app_r in Hc by (unfold len in Hk; cbn [length]; lia).
      apply list_elem_of_In. eapply list_elem_of_lookup_2. exact Hc.
Qed.

End HandlerFacts.

Lemma supported_algorithms_agree_witness :
  Compression.Compress map_to_list (fun _ => false) (Some []) [1; 2; 3] (optionsFor "zip")
    = Err ErrUnsupportedAlgorithm /\
  Compression.Decompress map_to_list (fun _ => false) (Some []) [1; 2; 3] (optionsFor "zip")
    = Err ErrUnsupportedAlgorithm.
Proof.
  destruct (supported_algorithms_agree map_to_list (fun _ => false) (Some []) "zip")
    as (_ & _ & H).
  apply (H eq_refl [1; 2; 3] (optionsFor "zip") eq_refl).
Defined.

Lemma base_filename_is_cut_at_the_last_dot_witness :
  Handlers.getBaseFilename (Go.bytes "notes.tar.gz") = Ok (Go.bytes "notes.tar") /\
  Handlers.getBaseFilename (Go.bytes "notes") = Ok (Go.bytes "notes") /\
  Handlers.getBaseFilename (Go.bytes ".profile") = Ok [].
Proof.
  destruct base_filename_is_cut_at_the_last_dot as (_ & Hplain & Hcut).
  split; [|split].
  - apply (Hcut (Go.bytes "notes.tar") (Go.bytes "gz")). cbn. intuition discriminate.
  - apply (Hplain (Go.bytes "notes")); [discriminate|]. cbn. intuition discriminate.
  - apply (Hcut [] (Go.bytes "profile")). cbn. intuition discriminate.
Defined.

(** ** DEFLATE: the bit stream *)

Section BitStreamFacts.
Import Go Flate.

Lemma streamOf_cons (b : Z) (bytes : list Z) : streamOf (b :: bytes) = b + 256 * streamOf bytes.
Proof. reflexivity. Qed.

Lemma len_cons {A : Type} (x : A) (l : list A) : len (x :: l) = 1 + len l.
Proof. unfold len. cbn [length]. lia. Qed.

Lemma len_nonneg {A : Type} (l : list A) : 0 <= len l.
Proof. unfold len. lia. Qed.

Lemma streamOf_app (a b : list Z) :
  streamOf (a ++ b) = streamOf a + 2 ^ (8 * len a) * streamOf b.
Proof.
  induction a as [|x a IH].
  - change (streamOf b = 0 + 1 * streamOf b). lia.
  - change ((x :: a) ++ b) with (x :: (a ++ b)). rewrite !streamOf_cons, IH, len_cons.
    pose proof (len_nonneg a).
    replace (8 * (1 + len a)) with (8 + 8 * len a) by lia.
    rewrite Z.pow_add_r by lia. change (2 ^ 8) with 256. lia.
Qed.

Lemma streamOf_range (bytes : list Z) :
  Forall byte bytes -> 0 <= streamOf bytes < 2 ^ (8 * len bytes).
Proof.
  induction 1 as [|b bytes Hb Hbytes IH].
  - change (0 <= 0 < 1). lia.
  - rewrite streamOf_cons, len_cons. pose proof (len_nonneg bytes).
    replace (8 * (1 + len bytes)) with (8 + 8 * len bytes) by lia.
    rewrite Z.pow_add_r by lia. change (2 ^ 8) with 256.
    unfold byte in Hb. nia.
Qed.

Lemma mask32_ones (n : Z) : 0 <= n < 32 -> mask32 n = Z.ones n.
Proof.
  intros Hn. unfold mask32, u32. rewrite Z.shiftl_1_l.
  assert (0 < 2 ^ n < 2 ^ 32).
  { split; [apply Z.pow_pos_nonneg; lia | apply Z.pow_lt_mono_r; lia]. }
  rewrite (Z.mod_small (2 ^ n)) by lia. rewrite Z.mod_small by lia.
  rewrite Z.ones_equiv. lia.
Qed.

Lemma lor_low_high (h x c : Z) :
  0 <= c -> 0 <= h < 2 ^ c -> Z.lor h (x * 2 ^ c) = h + x * 2 ^ c.
Proof. intros Hc Hh. rewrite Z.lor_comm, lor_high_low by assumption. lia. Qed.

Lemma pow2_split (a b : Z) : 0 <= a -> 0 <= b -> 2 ^ (a + b) = 2 ^ a * 2 ^ b.
Proof. intros. apply Z.pow_add_r; assumption. Qed.

(** The loop that empties the holder keeps what has been written. *)
Lemma flushBytes_spec (fuel : nat) :
  forall st : bitWriter,
    0 <= bitsCount (wbits st) <= 8 * Z.of_nat fuel + 7 ->
    0 <= bitsHolder (wbits st) < 2 ^ bitsCount (wbits st) ->
    Forall byte (woutput st) ->
    exists st',
      flushBytes fuel st = ROk tt st' /\ settledWriter st' /\
      written st' = written st /\ writtenBits st' = writtenBits st.
Proof.
  induction fuel as [|fuel IH]; intros st Hc Hh Hout.
  - cbn [flushBytes]. destruct (Z.leb_spec 8 (bitsCount (wbits st))); [lia|].
    exists st. repeat split; auto; lia.
  - cbn [flushBytes]. destruct (Z.leb_spec 8 (bitsCount (wbits st))) as [Hfull | Hfew].
    + set (h := bitsHolder (wbits st)) in *. set (c := bitsCount (wbits st)) in *.
      assert (Hsplit : 2 ^ c = 256 * 2 ^ (c - 8)).
      { replace c with (8 + (c - 8)) at 1 by lia. rewrite pow2_split by lia. reflexivity. }
      assert (Hpos : 0 < 2 ^ (c - 8)) by (apply Z.pow_pos_nonneg; lia).
      destruct (IH {| wbits := {| bitsHolder := Z.shiftr h 8; bitsCount := c - 8 |};
                      woutput := woutput st ++ [Z.land h 255] |})
        as (st' & Hrun & Hsettled & Hwritten & Hbits);
        cbn [wbits woutput bitsHolder bitsCount].
      * lia.
      * rewrite Z.shiftr_div_pow2 by lia. change (2 ^ 8) with 256.
        split; [apply Z.div_pos; lia|]. apply Z.div_lt_upper_bound; lia.
      * apply Forall_app. split; [exact Hout|]. apply Forall_cons. split; [|constructor].
        unfold byte. change 255 with (Z.ones 8). rewrite Z.land_ones by lia.
        change (2 ^ 8) with 256. apply Z.mod_pos_bound. lia.
      * exists st'. split; [exact Hrun|]. split; [exact Hsettled|].
        rewrite Hwritten, Hbits. unfold written, writtenBits.
        cbn [wbits woutput bitsHolder bitsCount]. fold h c.
        rewrite streamOf_app, streamOf_cons. change (streamOf []) with 0.
        replace (len (woutput st ++ [Z.land h 255])) with (len (woutput st) + 1)
          by (unfold len; rewrite length_app; cbn [length]; lia).
        replace (8 * (len (woutput st) + 1)) with (8 * len (woutput st) + 8) by lia.
        rewrite pow2_split by (unfold len; lia). change (2 ^ 8) with 256.
        change 255 with (Z.ones 8). rewrite Z.land_ones, Z.shiftr_div_pow2 by lia.
        change (2 ^ 8) with 256. pose proof (Z.div_mod h 256). split; [nia | lia].
    + exists st. repeat split; auto; lia.
Qed.

(** One call of the writer appends the low [nbits] bits of the value. *)
Lemma writeCompressedContent_spec (value nbits : Z) (st : bitWriter) :
  settledWriter st -> 0 <= nbits <= 25 ->
  exists st',
    writeCompressedContent value nbits st = ROk tt st' /\ settledWriter st' /\
    written st' = written st + (value mod 2 ^ nbits) * 2 ^ writtenBits st /\
    writtenBits st' = writtenBits st + nbits.
Proof.
  intros (Hc & Hh & Hout) Hn. unfold writeCompressedContent.
  cbn [writeCompressedContent_rec]. destruct (Z.eqb_spec nbits 0) as [-> | Hpos].
  - exists st. change (2 ^ 0) with 1. rewrite Z.mod_1_r.
    split; [reflexivity|]. split; [split; auto|]. lia.
  - set (h := bitsHolder (wbits st)) in *. set (c := bitsCount (wbits st)) in *.
    rewrite Z.min_l by lia. rewrite mask32_ones, Z.land_ones by lia.
    rewrite Z.shiftl_mul_pow2 by lia.
    assert (Hlow : 0 <= value mod 2 ^ nbits < 2 ^ nbits) by (apply Z.mod_pos_bound; lia).
    assert (Hc2 : 0 < 2 ^ c) by (apply Z.pow_pos_nonneg; lia).
    assert (Hfits : 0 <= value mod 2 ^ nbits * 2 ^ c < 2 ^ 32).
    { split; [nia|]. apply Z.lt_le_trans with (2 ^ nbits * 2 ^ c); [nia|].
      rewrite <- pow2_split by lia. apply Z.pow_le_mono_r; lia. }
    unfold u32 at 1. rewrite (Z.mod_small _ (2 ^ 32)) by exact Hfits.
    rewrite lor_low_high by lia.
    destruct (flushBytes_spec 4
                {| wbits := {| bitsHolder := h + value mod 2 ^ nbits * 2 ^ c;
                               bitsCount := c + nbits |};
                   woutput := woutput st |})
      as (st' & Hrun & Hsettled & Hwritten & Hbits); cbn [wbits woutput bitsHolder bitsCount].
    + lia.
    + split; [lia|]. rewrite pow2_split by lia. nia.
    + exact Hout.
    + rewrite Hrun. rewrite Z.sub_diag.
      assert (Hdone : forall fuel v, writeCompressedContent_rec fuel v 0 st' = ROk tt st').
      { intros [|fuel] v; reflexivity. }
      rewrite Hdone. exists st'. split; [reflexivity|]. split; [exact Hsettled|].
      rewrite Hwritten, Hbits. unfold written, writtenBits.
      cbn [wbits woutput bitsHolder bitsCount]. fold h c.
      rewrite (Z.add_comm (8 * len (woutput st)) c), pow2_split by (unfold len; lia).
      split; lia.
Qed.

Lemma flushAlign_spec (st : bitWriter) :
  settledWriter st ->
  exists st',
    flushAlign st = ROk tt st' /\ settledWriter st' /\
    bitsCount (wbits st') = 0 /\ bitsHolder (wbits st') = 0 /\
    streamOf (woutput st') = written st /\
    writtenBits st <= 8 * len (woutput st') < writtenBits st + 8.
Proof.
  intros Hst. pose proof Hst as (Hc & Hh & Hout). unfold flushAlign.
  destruct (Z.ltb_spec 8 (bitsCount (wbits st))); [lia|].
  destruct (Z.ltb_spec 0 (bitsCount (wbits st))) as [Hsome | Hnone].
  - destruct (writeCompressedContent_spec 0 (8 - bitsCount (wbits st)) st Hst)
      as (st' & Hrun & Hsettled & Hwritten & Hbits); [lia|].
    exists st'. split; [exact Hrun|]. split; [exact Hsettled|].
    destruct Hsettled as (Hc' & Hh' & _).
    assert (Hzero : bitsCount (wbits st') = 0).
    { unfold writtenBits in Hbits. unfold len in Hbits. lia. }
    rewrite Hzero in Hh'. change (2 ^ 0) with 1 in Hh'.
    split; [exact Hzero|]. split; [lia|].
    rewrite Z.mod_0_l in Hwritten by (apply Z.pow_nonzero; lia).
    unfold written in Hwritten at 1. replace (bitsHolder (wbits st')) with 0 in Hwritten by lia.
    split; [lia|]. unfold writtenBits in Hbits at 1. lia.
  - exists st. split; [reflexivity|]. split; [exact Hst|].
    assert (Hzero : bitsCount (wbits st) = 0) by lia.
    rewrite Hzero in Hh. change (2 ^ 0) with 1 in Hh.
    split; [exact Hzero|]. split; [lia|]. unfold written, writtenBits.
    replace (bitsHolder (wbits st)) with 0 by lia. lia.
Qed.

(** The loop that fills the holder keeps what is pending. *)
Lemma fillBits_spec (nbits : Z) (fuel : nat) :
  forall st : bitReader,
    soundReader st -> nbits <= 25 ->
    nbits <= bitsCount (rbits st) + 8 * Z.of_nat fuel ->
    (nbits <= pendingBits st ->
     exists st',
       fillBits fuel nbits st = ROk tt st' /\ soundReader st' /\
       nbits <= bitsCount (rbits st') /\
       pending st' = pending st /\ pendingBits st' = pendingBits st) /\
    (pendingBits st < nbits -> exists st', fillBits fuel nbits st = RErr ErrNotEnoughBits st').
Proof.
  induction fuel as [|fuel IH]; intros st Hst Hn Hfuel; pose proof Hst as (Hc & Hh & Hin).
  - cbn [fillBits]. destruct (Z.ltb_spec (bitsCount (rbits st)) nbits); [lia|].
    split; [|unfold pendingBits, len; lia].
    intros _. exists st. repeat split; auto; lia.
  - cbn [fillBits]. destruct (Z.ltb_spec (bitsCount (rbits st)) nbits) as [Hless | Henough].
    + destruct (rinput st) as [|b rest] eqn:Einput.
      * split; [unfold pendingBits, len; rewrite Einput; cbn [length]; lia|].
        intros _. exists st. reflexivity.
      * set (h := bitsHolder (rbits st)) in *. set (c := bitsCount (rbits st)) in *.
        apply Forall_cons in Hin. destruct Hin as [Hb Hrest]. unfold byte in Hb.
        assert (Hc2 : 0 < 2 ^ c) by (apply Z.pow_pos_nonneg; lia).
        assert (Hfits : 0 <= b * 2 ^ c < 2 ^ 32).
        { split; [nia|]. apply Z.lt_le_trans with (2 ^ 8 * 2 ^ c); [change (2 ^ 8) with 256; nia|].
          rewrite <- pow2_split by lia. apply Z.pow_le_mono_r; lia. }
        rewrite Z.shiftl_mul_pow2 by lia. unfold u32. rewrite Z.mod_small by exact Hfits.
        rewrite lor_low_high by lia.
        destruct (IH {| rbits := {| bitsHolder := h + b * 2 ^ c; bitsCount := c + 8 |};
                        rinput := rest |}) as [Hgood Hbad]; cbn [rbits rinput bitsHolder bitsCount].
        { unfold soundReader. cbn [rbits rinput bitsHolder bitsCount].
          split; [lia|]. split; [|exact Hrest]. rewrite pow2_split by lia.
          change (2 ^ 8) with 256. nia. }
        { exact Hn. }
        { lia. }
        assert (Hsame : pendingBits {| rbits := {| bitsHolder := h + b * 2 ^ c;
                                                   bitsCount := c + 8 |}; rinput := rest |}
                        = pendingBits st).
        { unfold pendingBits, len. rewrite Einput. cbn [rbits rinput bitsCount length]. fold c. lia. }
        rewrite Hsame in Hgood, Hbad. split; [|exact Hbad].
        intros Hav. destruct (Hgood Hav) as (st' & Hrun & Hsound & Hcount & Hpending & Hbits).
        exists st'. split; [exact Hrun|]. split; [exact Hsound|]. split; [exact Hcount|].
        split; [|exact Hbits]. rewrite Hpending. unfold pending.
        rewrite Einput. cbn [rbits rinput bitsHolder bitsCount]. rewrite streamOf_cons.
        fold h c. rewrite pow2_split by lia. change (2 ^ 8) with 256. lia.
    + split; [|unfold pendingBits, len; lia].
      intros _. exists st. repeat split; auto; lia.
Qed.

(** One call of the reader takes the low [nbits] bits of what is pending. *)
Lemma readCompressedContent_spec (nbits : Z) (st : bitReader) :
  soundReader st -> 0 <= nbits <= 25 ->
  (nbits <= pendingBits st ->
   exists st',
     readCompressedContent nbits st = ROk (pending st mod 2 ^ nbits) st' /\ soundReader st' /\
     pending st' = pending st / 2 ^ nbits /\ pendingBits st' = pendingBits st - nbits) /\
  (pendingBits st < nbits ->
   exists st', readCompressedContent nbits st = RErr ErrNotEnoughBits st').
Proof.
  intros Hst Hn. unfold readCompressedContent.
  destruct (Z.ltb_spec 32 nbits); [lia|]. unfold bindS.
  destruct (fillBits_spec nbits 5 st Hst) as [Hgood Hbad];
    [lia | destruct Hst as (Hc & _); lia |].
  split.
  - intros Hav. destruct (Hgood Hav) as (st' & -> & Hsound & Hcount & Hpending & Hbits).
    destruct Hsound as (Hc & Hh & Hin).
    set (h := bitsHolder (rbits st')) in *. set (c := bitsCount (rbits st')) in *.
    assert (Hsplit : 2 ^ c = 2 ^ nbits * 2 ^ (c - nbits)).
    { rewrite <- pow2_split by lia. f_equal. lia. }
    assert (Hp1 : 0 < 2 ^ nbits) by (apply Z.pow_pos_nonneg; lia).
    assert (Hp2 : 0 < 2 ^ (c - nbits)) by (apply Z.pow_pos_nonneg; lia).
    assert (Hstream : pending st = h + (streamOf (rinput st') * 2 ^ (c - nbits)) * 2 ^ nbits).
    { rewrite <- Hpending. unfold pending. fold h c. rewrite Hsplit. lia. }
    eexists. split; [|split; [|split]].
    + rewrite mask32_ones, Z.land_ones by lia. rewrite Hstream, Z.mod_add by lia. reflexivity.
    + unfold soundReader. cbn [rbits rinput bitsHolder bitsCount].
      split; [lia|]. split; [|exact Hin].
      rewrite Z.shiftr_div_pow2 by lia. split; [apply Z.div_pos; lia|].
      apply Z.div_lt_upper_bound; lia.
    + unfold pending at 1. cbn [rbits rinput bitsHolder bitsCount].
      rewrite Hstream, Z.shiftr_div_pow2, Z.div_add by lia. reflexivity.
    + unfold pendingBits at 1. cbn [rbits rinput bitsCount]. fold c.
      rewrite <- Hbits. unfold pendingBits. fold c. lia.
  - intros Hav. destruct (Hbad Hav) as (st' & ->). exists st'. reflexivity.
Qed.

Lemma writeAll_spec (items : list (Z * Z)) :
  forall st : bitWriter,
    settledWriter st -> Forall narrow items ->
    exists st' (total width : Z),
      writeAll items st = ROk tt st' /\ settledWriter st' /\
      written st' = written st + total * 2 ^ writtenBits st /\
      writtenBits st' = writtenBits st + width /\
      0 <= width /\ 0 <= total < 2 ^ width /\
      forall (r : bitReader) (rest : Z),
        soundReader r -> pending r = total + rest * 2 ^ width -> width <= pendingBits r ->
        exists r',
          readAll (map snd items) r = ROk (map lowBits items) r' /\ soundReader r' /\
          pending r' = rest /\ pendingBits r' = pendingBits r - width.
Proof.
  induction items as [|[value nbits] items IH]; intros st Hst Hall.
  - exists st, 0, 0. cbn [writeAll ret]. split; [reflexivity|]. split; [exact Hst|].
    split; [lia|]. split; [lia|]. split; [lia|]. split; [cbn; lia|].
    intros r rest Hr Hp _. exists r. cbn [map readAll ret]. split; [reflexivity|].
    split; [exact Hr|]. change (2 ^ 0) with 1 in Hp. lia.
  - apply Forall_cons in Hall. destruct Hall as [Hnarrow Hall]. unfold narrow in Hnarrow.
    cbn [snd] in Hnarrow.
    destruct (writeCompressedContent_spec value nbits st Hst Hnarrow)
      as (st1 & Hrun1 & Hst1 & Hw1 & Hb1).
    destruct (IH st1 Hst1 Hall)
      as (st2 & total & width & Hrun2 & Hst2 & Hw2 & Hb2 & Hwidth & Htotal & Hread).
    assert (Hp1 : 0 < 2 ^ nbits) by (apply Z.pow_pos_nonneg; lia).
    assert (Hlow : 0 <= value mod 2 ^ nbits < 2 ^ nbits) by (apply Z.mod_pos_bound; lia).
    exists st2, (value mod 2 ^ nbits + total * 2 ^ nbits), (nbits + width).
    cbn [writeAll]. unfold bindS at 1. rewrite Hrun1.
    split; [exact Hrun2|]. split; [exact Hst2|].
    assert (Hbits0 : 0 <= writtenBits st).
    { destruct Hst as (Hc & _). unfold writtenBits, len. lia. }
    split; [|split; [lia|split; [lia|split]]].
    + rewrite Hw2, Hw1, Hb1, pow2_split by lia. lia.
    + rewrite pow2_split by lia. nia.
    + intros r rest Hr Hp Hav.
      destruct (readCompressedContent_spec nbits r Hr Hnarrow) as [Hgood _].
      destruct (Hgood ltac:(lia)) as (r1 & Hrun & Hr1 & Hp1' & Hb1').
      assert (Hsplit : pending r = value mod 2 ^ nbits + (total + rest * 2 ^ width) * 2 ^ nbits).
      { rewrite Hp, pow2_split by lia. lia. }
      destruct (Hread r1 rest Hr1) as (r2 & Hrun' & Hr2 & Hp2 & Hb2'); [| lia |].
      { rewrite Hp1', Hsplit, Z.div_add by lia. rewrite Z.div_small by lia. lia. }
      exists r2. cbn [map snd readAll]. unfold bindS at 1. rewrite Hrun.
      unfold bindS at 1. rewrite Hrun'. cbn [ret].
      split; [|split; [exact Hr2 | split; [exact Hp2 | lia]]].
      unfold lowBits at 1. cbn [fst snd]. rewrite Hsplit, Z.mod_add by lia.
      rewrite Z.mod_small by lia. reflexivity.
Qed.

(** X18. The bits that the encoder writes are the bits that the decoder
    reads: after any sequence of calls of [writeCompressedContent], each
    of at most 25 bits, and [flushAlign], a reader of the bytes written
    gets from [readCompressedContent], called with the same widths, the
    values written (their low [nbits] bits), and is left with fewer than
    eight bits, all zero; a read of eight bits or more then fails for want
    of bits. *)
Theorem bits_written_are_read_back (items : list (Z * Z)) :
  Forall narrow items ->
  exists (w : bitWriter) (r : bitReader),
    (do* _ := writeAll items in flushAlign) emptyWriter = ROk tt w /\
    wbits w = {| bitsHolder := 0; bitsCount := 0 |} /\
    readAll (map snd items) (readerOf (woutput w)) = ROk (map lowBits items) r /\
    pending r = 0 /\ 0 <= pendingBits r < 8 /\
    forall nbits, 8 <= nbits <= 25 ->
      exists r', readCompressedContent nbits r = RErr ErrNotEnoughBits r'.
Proof.
  intros Hall.
  assert (Hempty : settledWriter emptyWriter).
  { unfold settledWriter, emptyWriter. cbn. repeat split; try lia. constructor. }
  destruct (writeAll_spec items emptyWriter Hempty Hall)
    as (st & total & width & Hrun & Hst & Hw & Hb & Hwidth & Htotal & Hread).
  destruct (flushAlign_spec st Hst)
    as (w & Hflush & Hsettled & Hcount & Hholder & Hstream & Hlen).
  change (written emptyWriter) with 0 in Hw. change (writtenBits emptyWriter) with 0 in Hw, Hb.
  change (2 ^ 0) with 1 in Hw.
  assert (Hwritten : written st = total) by lia.
  assert (Hbits : writtenBits st = width) by lia.
  destruct Hsettled as (_ & _ & Hout).
  destruct (Hread (readerOf (woutput w)) 0) as (r & Hrun' & Hsound & Hp & Hb').
  - unfold soundReader, readerOf. cbn. repeat split; try lia. exact Hout.
  - unfold pending, readerOf. cbn [rbits rinput bitsHolder bitsCount].
    change (2 ^ 0) with 1. rewrite Hstream, Hwritten. lia.
  - unfold pendingBits, readerOf. cbn [rbits rinput bitsCount]. lia.
  - exists w, r. unfold bindS. rewrite Hrun. split; [exact Hflush|].
    split; [destruct w as [[h c] out]; cbn in *; subst; reflexivity|].
    split; [exact Hrun'|]. split; [exact Hp|].
    assert (Hleft : 0 <= pendingBits r < 8).
    { rewrite Hb'. unfold pendingBits, readerOf. cbn [rbits rinput bitsCount]. lia. }
    split; [exact Hleft|]. intros nbits Hn.
    destruct (readCompressedContent_spec nbits r Hsound) as [_ Hshort]; [lia|].
    apply Hshort. lia.
Qed.

End BitStreamFacts.

Lemma bits_written_are_read_back_witness :
  exists (w : Flate.bitWriter) (r : Flate.bitReader),
    (do* _ := writeAll [(5, 3); (300, 9); (1, 1); (70000, 17)] in Flate.flushAlign) emptyWriter
      = ROk tt w /\
    readAll [3; 9; 1; 17] (readerOf (Flate.woutput w)) = ROk [5; 300; 1; 70000] r.
Proof.
  destruct (bits_written_are_read_back [(5, 3); (300, 9); (1, 1); (70000, 17)])
    as (w & r & Hw & _ & Hr & _).
  - repeat constructor; unfold narrow; cbn; lia.
  - exists w, r. split; [exact Hw | exact Hr].
Defined.

(** ** Canonical codes *)

Section CanonicalNumbers.
Import Go Huffman.

Lemma weigh_app (a b : list Z) : weigh (a ++ b) = weigh a * 2 ^ len b + weigh b.
Proof.
  induction a as [|c a IH]; cbn [app weigh]; [lia|].
  rewrite IH. unfold len. rewrite length_app, Nat2Z.inj_add, Z.pow_add_r by lia. lia.
Qed.

Lemma weigh_nonneg (counts : list Z) : Forall (fun c => 0 <= c) counts -> 0 <= weigh counts.
Proof.
  induction 1 as [|c counts Hc _ IH]; cbn [weigh]; [lia|].
  assert (0 < 2 ^ len counts) by (apply Z.pow_pos_nonneg; unfold len; lia). nia.
Qed.

Lemma weigh_snoc (counts : list Z) (c : Z) : weigh (counts ++ [c]) = 2 * weigh counts + c.
Proof. rewrite weigh_app. cbn [weigh]. change (len [c]) with 1. change (len []) with 0. lia. Qed.

(** The table of the next codes: entry [i] is twice the weight of the
    counts below [i]. *)
Lemma baseCodes_lookup (prev : list Z) :
  forall (code : Z) (seen : list Z) (j : nat),
    code = 2 * weigh seen ->
    (j < length prev)%nat ->
    baseCodes prev code !! j = Some (2 * weigh (seen ++ take (S j) prev)).
Proof.
  induction prev as [|c prev IH]; intros code seen j Hcode Hj; [cbn [length] in Hj; lia|].
  cbn [baseCodes]. rewrite Z.shiftl_mul_pow2 by lia. change (2 ^ 1) with 2.
  destruct j as [|j].
  - cbn [lookup list_lookup take]. rewrite weigh_snoc. f_equal. lia.
  - cbn [length] in Hj. change ((((code + c) * 2) :: baseCodes prev ((code + c) * 2)) !! S j)
      with (baseCodes prev ((code + c) * 2) !! j).
    rewrite (IH _ (seen ++ [c]) j); [| rewrite weigh_snoc; lia | lia].
    rewrite <- app_assoc. reflexivity.
Qed.

Lemma nextBaseCodes_lookup (counts : list Z) (i : nat) :
  (i < length counts)%nat ->
  nextBaseCodes counts !! i = Some (2 * weigh (take i counts)).
Proof.
  intros Hi. unfold nextBaseCodes. destruct i as [|i]; [reflexivity|].
  change ((0 :: baseCodes (removelast counts) 0) !! S i)
    with (baseCodes (removelast counts) 0 !! i).
  assert (Hlast : counts <> []) by (destruct counts; [cbn in Hi; lia | discriminate]).
  destruct (exists_last Hlast) as (front & c & ->).
  rewrite removelast_last. rewrite length_app in Hi. cbn [length] in Hi.
  rewrite (baseCodes_lookup front 0 [] i) by (reflexivity || lia).
  cbn [app]. rewrite take_app_le by lia. reflexivity.
Qed.

Lemma nextBaseCodes_length (counts : list Z) :
  counts <> [] -> length (nextBaseCodes counts) = length counts.
Proof.
  intros Hlast. destruct (exists_last Hlast) as (front & c & ->).
  unfold nextBaseCodes. rewrite removelast_last, length_app. cbn [length].
  assert (Hlen : forall prev code, length (baseCodes prev code) = length prev).
  { induction prev as [|x prev IH]; intros code; cbn [baseCodes length]; [reflexivity|].
    rewrite IH. reflexivity. }
  rewrite Hlen. lia.
Qed.

(** With a Kraft sum of at most one, the codes of a length fit the length. *)
Lemma weigh_take_bound (counts : list Z) (i : nat) :
  Forall (fun c => 0 <= c) counts ->
  weigh counts <= 2 ^ (len counts - 1) ->
  (i < length counts)%nat ->
  weigh (take (S i) counts) <= 2 ^ Z.of_nat i.
Proof.
  intros Hpos Hkraft Hi.
  rewrite <- (take_drop (S i) counts) in Hkraft at 1. rewrite weigh_app in Hkraft.
  pose proof (weigh_nonneg (drop (S i) counts) (Forall_drop _ _ _ Hpos)) as Hrest.
  pose proof (weigh_nonneg (take (S i) counts) (Forall_take _ _ _ Hpos)) as Hfront.
  assert (Hlen : len (drop (S i) counts) = len counts - 1 - Z.of_nat i).
  { unfold len. rewrite length_drop. lia. }
  rewrite Hlen in Hkraft.
  assert (Hsplit : 2 ^ (len counts - 1) = 2 ^ Z.of_nat i * 2 ^ (len counts - 1 - Z.of_nat i)).
  { rewrite <- Z.pow_add_r by (unfold len; lia). f_equal. lia. }
  rewrite Hsplit in Hkraft.
  assert (0 < 2 ^ (len counts - 1 - Z.of_nat i)) by (apply Z.pow_pos_nonneg; unfold len; lia).
  nia.
Qed.

(** The codes of a length lie above the codes of a smaller length, pushed
    to that length. *)
Lemma weigh_take_mono (counts : list Z) (i j : nat) :
  Forall (fun c => 0 <= c) counts ->
  (i < j)%nat -> (j <= length counts)%nat ->
  weigh (take (S i) counts) * 2 ^ (Z.of_nat j - Z.of_nat i) <= 2 * weigh (take j counts).
Proof.
  intros Hpos Hij Hj.
  assert (Hsplit : take j counts = take (S i) counts ++ take (j - S i) (drop (S i) counts)).
  { rewrite <- (take_drop (S i) (take j counts)). rewrite take_take, min_l by lia.
    f_equal. rewrite skipn_firstn_comm. reflexivity. }
  rewrite Hsplit, weigh_app.
  pose proof (weigh_nonneg (take (j - S i) (drop (S i) counts))
                (Forall_take _ _ _ (Forall_drop _ _ _ Hpos))) as Hrest.
  pose proof (weigh_nonneg (take (S i) counts) (Forall_take _ _ _ Hpos)) as Hfront.
  assert (Hlen : len (take (j - S i) (drop (S i) counts)) = Z.of_nat j - Z.of_nat i - 1).
  { unfold len. rewrite length_take, length_drop. lia. }
  rewrite Hlen.
  assert (Hpow : 2 ^ (Z.of_nat j - Z.of_nat i) = 2 * 2 ^ (Z.of_nat j - Z.of_nat i - 1)).
  { replace (Z.of_nat j - Z.of_nat i) with (1 + (Z.of_nat j - Z.of_nat i - 1)) at 1 by lia.
    rewrite Z.pow_add_r by lia. reflexivity. }
  rewrite Hpow.
  assert (0 < 2 ^ (Z.of_nat j - Z.of_nat i - 1)) by (apply Z.pow_pos_nonneg; lia).
  nia.
Qed.

End CanonicalNumbers.

Section TrieFacts.
Import Go Huffman Flate.

Lemma nodeAt_nil (path : list bool) : nodeAt nilNode path = nilNode.
Proof. destruct path; reflexivity. Qed.

Lemma pathBits_length (k : nat) : forall code, length (pathBits k code) = k.
Proof. induction k as [|k IH]; intros code; cbn [pathBits length]; [|rewrite IH]; reflexivity. Qed.

Lemma low_bit (code : Z) : Z.land code 1 = code mod 2.
Proof. change 1 with (Z.ones 1). rewrite Z.land_ones by lia. reflexivity. Qed.

Lemma bitsValue_pathBits (k : nat) :
  forall code, bitsValue (pathBits k code) = code mod 2 ^ Z.of_nat k.
Proof.
  induction k as [|k IH]; intros code; cbn [pathBits bitsValue].
  - change (2 ^ Z.of_nat 0) with 1. rewrite Z.mod_1_r. reflexivity.
  - rewrite IH, low_bit, Z.shiftr_div_pow2 by lia. change (2 ^ 1) with 2.
    replace (Z.of_nat (S k)) with (1 + Z.of_nat k) by lia.
    rewrite Z.pow_add_r by lia. change (2 ^ 1) with 2.
    rewrite Z.rem_mul_r by (try apply Z.pow_nonzero; lia).
    pose proof (Z.mod_pos_bound code 2 ltac:(lia)).
    destruct (Z.eqb_spec (code mod 2) 0) as [E | E]; cbn [negb]; lia.
Qed.

Lemma bitsValue_range (path : list bool) : 0 <= bitsValue path < 2 ^ len path.
Proof.
  induction path as [|b path IH]; cbn [bitsValue].
  - change (2 ^ len []) with 1. lia.
  - rewrite len_cons, Z.pow_add_r by (pose proof (len_nonneg path); lia).
    change (2 ^ 1) with 2. destruct b; lia.
Qed.

Lemma pathBits_take (k1 k2 : nat) :
  forall code, (k1 <= k2)%nat -> take k1 (pathBits k2 code) = pathBits k1 code.
Proof.
  revert k2. induction k1 as [|k1 IH]; intros k2 code Hk; [reflexivity|].
  destruct k2 as [|k2]; [lia|]. cbn [pathBits take]. rewrite IH by lia. reflexivity.
Qed.

(** A path that begins another gives the low bits of its code. *)
Lemma pathBits_prefix (k1 k2 : nat) (r1 r2 : Z) (rest : list bool) :
  pathBits k2 r2 = pathBits k1 r1 ++ rest ->
  (k1 <= k2)%nat /\ r2 mod 2 ^ Z.of_nat k1 = r1 mod 2 ^ Z.of_nat k1.
Proof.
  intros H.
  assert (Hk : (k1 <= k2)%nat).
  { apply (f_equal (@length bool)) in H. rewrite length_app, !pathBits_length in H. lia. }
  split; [exact Hk|].
  apply (f_equal (take k1)) in H. rewrite pathBits_take in H by exact Hk.
  rewrite take_app_length' in H by (symmetry; apply pathBits_length).
  rewrite <- !bitsValue_pathBits, H. reflexivity.
Qed.

(** [buildCanonicalHuffmanTree] puts a leaf at the end of the path of the
    code, when no leaf is on the way, and leaves the rest of the tree as
    it is. *)
Lemma buildCanonicalHuffmanTree_spec (k : nat) :
  forall (node : CanonicalHuffmanNode) (item : CanonicalHuffmanDecode) (code : Z),
    node <> nilNode ->
    (forall q rest, pathBits k code = q ++ rest -> rest <> [] ->
                    isLeafNode (nodeAt node q) = false) ->
    exists node',
      buildCanonicalHuffmanTree k node item code = Ok node' /\ node' <> nilNode /\
      (exists l r, nodeAt node' (pathBits k code) = mkNode (Some item) true l r) /\
      (forall q, (forall rest, pathBits k code <> q ++ rest) -> nodeAt node' q = nodeAt node q) /\
      (forall q rest, pathBits k code = q ++ rest -> rest <> [] ->
                      isLeafNode (nodeAt node' q) = false).
Proof.
  induction k as [|k IH]; intros node item code Hnode Hfree;
    destruct node as [|it leaf l r]; try contradiction.
  - cbn [buildCanonicalHuffmanTree pathBits]. eexists. split; [reflexivity|].
    split; [discriminate|]. split; [eexists _, _; reflexivity|]. split.
    + intros [|b q] Hq; [exfalso; apply (Hq []); reflexivity | reflexivity].
    + intros q rest Hq Hrest. symmetry in Hq. apply app_eq_nil in Hq. tauto.
  - assert (Hleaf : leaf = false).
    { specialize (Hfree [] (pathBits (S k) code) eq_refl). cbn [nodeAt isLeafNode] in Hfree.
      destruct leaf; [|reflexivity]. apply Hfree. discriminate. }
    subst leaf. cbn [buildCanonicalHuffmanTree pathBits].
    set (code' := Z.shiftr code 1) in *.
    assert (Hempty : forall q, isLeafNode (nodeAt emptyNode q) = false).
    { intros [|b q]; [reflexivity|]. cbn [nodeAt emptyNode]. destruct b; rewrite nodeAt_nil; reflexivity. }
    assert (Hfresh : forall q, q <> [] -> nodeAt emptyNode q = nilNode).
    { intros [|b q] Hq; [contradiction|]. cbn [nodeAt emptyNode]. destruct b; apply nodeAt_nil. }
    assert (Hpath : pathBits (S k) code = negb (Z.land code 1 =? 0) :: pathBits k code')
      by reflexivity.
    destruct (Z.land code 1 =? 0) eqn:Ebit; cbn [negb] in *.
    + set (l0 := match l with nilNode => emptyNode | _ => l end).
      assert (Hl0 : l0 <> nilNode) by (subst l0; destruct l; discriminate).
      assert (Hsame : forall q, q <> [] -> nodeAt l0 q = nodeAt l q).
      { intros q Hq. subst l0. destruct l; [|reflexivity]. rewrite nodeAt_nil. apply Hfresh, Hq. }
      destruct (IH l0 item code' Hl0) as (l' & Hrun & Hl' & (cl & cr & Hend) & Hkeep & Hway).
      { intros q rest Hq Hrest. subst l0. destruct l as [|it' leaf' cl cr]; [apply Hempty|].
        apply (Hfree (false :: q) rest); [rewrite Hpath, Hq; reflexivity | exact Hrest]. }
      rewrite Hrun. cbn [bind]. eexists. split; [reflexivity|]. split; [discriminate|].
      split; [exists cl, cr; exact Hend|]. split.
      * intros [|b q] Hq; [exfalso; apply (Hq (false :: pathBits k code')); reflexivity|].
        destruct b; [reflexivity|]. cbn [nodeAt].
        rewrite Hkeep.
        -- apply Hsame. intros ->. apply (Hq (pathBits k code')). reflexivity.
        -- intros rest E. apply (Hq rest). cbn [app]. rewrite E. reflexivity.
      * intros [|b q] rest Hq Hrest; [reflexivity|].
        cbn [app] in Hq. injection Hq as <- Hq. cbn [nodeAt]. apply (Hway q rest Hq Hrest).
    + set (r0 := match r with nilNode => emptyNode | _ => r end).
      assert (Hr0 : r0 <> nilNode) by (subst r0; destruct r; discriminate).
      assert (Hsame : forall q, q <> [] -> nodeAt r0 q = nodeAt r q).
      { intros q Hq. subst r0. destruct r; [|reflexivity]. rewrite nodeAt_nil. apply Hfresh, Hq. }
      destruct (IH r0 item code' Hr0) as (r' & Hrun & Hr' & (cl & cr & Hend) & Hkeep & Hway).
      { intros q rest Hq Hrest. subst r0. destruct r as [|it' leaf' cl cr]; [apply Hempty|].
        apply (Hfree (true :: q) rest); [rewrite Hpath, Hq; reflexivity | exact Hrest]. }
      rewrite Hrun. cbn [bind]. eexists. split; [reflexivity|]. split; [discriminate|].
      split; [exists cl, cr; exact Hend|]. split.
      * intros [|b q] Hq; [exfalso; apply (Hq (true :: pathBits k code')); reflexivity|].
        destruct b; [|reflexivity]. cbn [nodeAt].
        rewrite Hkeep.
        -- apply Hsame. intros ->. apply (Hq (pathBits k code')). reflexivity.
        -- intros rest E. apply (Hq rest). cbn [app]. rewrite E. reflexivity.
      * intros [|b q] rest Hq Hrest; [reflexivity|].
        cbn [app] in Hq. injection Hq as <- Hq. cbn [nodeAt]. apply (Hway q rest Hq Hrest).
Qed.

(** A code that no code of the tree begins, and that begins no code of
    the tree, is added to what the tree decodes. *)
Lemma decodes_insert (root : CanonicalHuffmanNode) (codes : list (list bool * Z))
    (k : nat) (item : CanonicalHuffmanDecode) (code : Z) :
  decodes root codes ->
  (forall q rest, In q (map fst codes) -> pathBits k code <> q ++ rest) ->
  (forall q rest, In q (map fst codes) -> q <> pathBits k code ++ rest) ->
  exists root',
    buildCanonicalHuffmanTree k root item code = Ok root' /\
    decodes root' ((pathBits k code, Symbol item) :: codes).
Proof.
  intros (Hroot & Hleaves & Honly & Hfree) Hnew1 Hnew2.
  destruct (buildCanonicalHuffmanTree_spec k root item code Hroot)
    as (root' & Hrun & Hroot' & (l & r & Hend) & Hkeep & Hway).
  { intros q rest Hq Hrest.
    destruct (isLeafNode (nodeAt root q)) eqn:E; [|reflexivity].
    exfalso. apply (Hnew1 q rest (Honly q E)). exact Hq. }
  exists root'. split; [exact Hrun|]. split; [exact Hroot'|]. split; [|split].
  - intros path symbol [E | Hin].
    + injection E as <- <-. rewrite Hend. exists item, l, r. split; reflexivity.
    + rewrite Hkeep; [apply Hleaves; exact Hin|].
      intros rest. apply Hnew1. apply in_map_iff. exists (path, symbol). split; [reflexivity | exact Hin].
  - intros path Hleaf. cbn [map fst].
    destruct (list_eq_dec (pathBits k code) path) as [E | E]; [left; exact E|]. right.
    apply Honly. rewrite <- Hkeep; [exact Hleaf|].
    intros rest Hq. destruct rest as [|b rest].
    + rewrite app_nil_r in Hq. contradiction.
    + rewrite (Hway path (b :: rest) Hq) in Hleaf by discriminate. discriminate.
  - intros p q [<- | Hp] [<- | Hq] (rest & E); cbn [fst] in *.
    + reflexivity.
    + exfalso. exact (Hnew2 q rest Hq E).
    + exfalso. exact (Hnew1 p rest Hp E).
    + apply Hfree; [exact Hp | exact Hq | exists rest; exact E].
Qed.

Lemma readBit_spec (st : bitReader) (b : bool) (rest : Z) :
  soundReader st -> withinHolder st ->
  pending st = (if b then 1 else 0) + 2 * rest -> 1 <= pendingBits st ->
  exists st',
    readCompressedContent 1 st = ROk (if b then 1 else 0) st' /\
    soundReader st' /\ withinHolder st' /\
    pending st' = rest /\ pendingBits st' = pendingBits st - 1.
Proof.
  intros Hst Hin Hp Hav.
  destruct (readCompressedContent_spec 1 st Hst) as [Hgood _]; [lia|].
  destruct (Hgood Hav) as (st' & Hrun & Hst' & Hp' & Hb').
  exists st'. change (2 ^ 1) with 2 in *.
  assert (Hbit : pending st mod 2 = if b then 1 else 0).
  { rewrite Hp, (Z.mul_comm 2 rest), Z.mod_add by lia. destruct b; reflexivity. }
  assert (Hrest : pending st / 2 = rest).
  { rewrite Hp, (Z.mul_comm 2 rest), Z.div_add by lia. destruct b; reflexivity. }
  rewrite Hbit in Hrun. split; [exact Hrun|]. split; [exact Hst'|].
  split; [|split; [lia | exact Hb']].
  unfold withinHolder in *. revert Hrun. unfold readCompressedContent.
  change (32 <? 1) with false. cbv iota. unfold bindS.
  destruct (fillBits 5 1 st) as [[] s | | |] eqn:Efill; try discriminate.
  intros Hrun. injection Hrun as _ <-. cbn [rbits bitsCount].
  revert Efill. clear - Hin Hst. destruct Hst as (Hc & _ & _).
  cbn [fillBits]. destruct (Z.ltb_spec (bitsCount (rbits st)) 1).
  - destruct (rinput st) as [|x xs]; [discriminate|].
    cbn [rbits bitsCount]. destruct (Z.ltb_spec (bitsCount (rbits st) + 8) 1); [lia|].
    intros E. injection E as <-. cbn [rbits bitsCount]. lia.
  - intros E. injection E as <-. lia.
Qed.

(** The traversal of the tree reads the bits of a path to a leaf and
    returns the symbol of the leaf. *)
Lemma TraverseHuffmanTree_spec (path : list bool) :
  forall (node : CanonicalHuffmanNode) (st : bitReader) (symbol rest : Z),
    (forall q rest', path = q ++ rest' -> rest' <> [] -> isLeafNode (nodeAt node q) = false) ->
    leafOf (nodeAt node path) symbol ->
    soundReader st -> withinHolder st ->
    pending st = bitsValue path + rest * 2 ^ len path ->
    len path <= pendingBits st ->
    exists st',
      TraverseHuffmanTree node st = ROk symbol st' /\
      soundReader st' /\ withinHolder st' /\
      pending st' = rest /\ pendingBits st' = pendingBits st - len path.
Proof.
  induction path as [|b path IH]; intros node st symbol rest Hway Hleaf Hst Hin Hp Hav.
  - destruct Hleaf as (d & l & r & Hnode & Hsym). change (node = mkNode (Some d) true l r) in Hnode.
    rewrite Hnode. cbn [TraverseHuffmanTree ret]. exists st. rewrite Hsym.
    cbn [bitsValue] in Hp. change (len []) with 0 in *. change (2 ^ 0) with 1 in Hp.
    split; [reflexivity|]. split; [exact Hst|]. split; [exact Hin|]. split; lia.
  - destruct node as [|it leaf l r].
    { destruct Hleaf as (d & l & r & Hnode & _). rewrite nodeAt_nil in Hnode. discriminate. }
    assert (Hflag : leaf = false).
    { specialize (Hway [] (b :: path) eq_refl). cbn [nodeAt isLeafNode] in Hway.
      destruct leaf; [apply Hway; discriminate | reflexivity]. }
    subst leaf. cbn [TraverseHuffmanTree]. unfold bindS at 1.
    rewrite len_cons in Hp, Hav. pose proof (len_nonneg path) as Hlen.
    rewrite Z.pow_add_r in Hp by lia. change (2 ^ 1) with 2 in Hp. cbn [bitsValue] in Hp.
    destruct (readBit_spec st b (bitsValue path + rest * 2 ^ len path) Hst Hin)
      as (st1 & Hrun & Hst1 & Hin1 & Hp1 & Hb1); [lia | lia |].
    rewrite Hrun.
    rewrite len_cons.
    assert (Hchild :
               exists st',
                 match (if b then r else l) with
                 | nilNode => lift (Err ErrTraversal)
                 | _ => TraverseHuffmanTree (if b then r else l)
                 end st1 = ROk symbol st' /\
                 soundReader st' /\ withinHolder st' /\
                 pending st' = rest /\ pendingBits st' = pendingBits st - (1 + len path)).
    { destruct (IH (if b then r else l) st1 symbol rest) as (st' & Hrun' & Hrest');
        [ | exact Hleaf | exact Hst1 | exact Hin1 | exact Hp1 | lia | ].
      - intros q rest' Hq Hrest'. apply (Hway (b :: q) rest'); [cbn [app]; rewrite Hq; reflexivity|].
        exact Hrest'.
      - exists st'. destruct Hrest' as (Hs' & Hh' & Hp' & Hb').
        split; [|split; [exact Hs' | split; [exact Hh' | split; [exact Hp' | lia]]]].
        destruct (if b then r else l) eqn:E; [|exact Hrun'].
        destruct Hleaf as (d & cl & cr & Hnode & _). cbn [nodeAt] in Hnode.
        rewrite E, nodeAt_nil in Hnode. discriminate. }
    destruct b; exact Hchild.
Qed.

End TrieFacts.

Section CanonicalCounting.
Import Go Huffman.

(** The low bits of a reversed code are the reversed high bits of the code. *)
Lemma Reverse_prefix (c1 c2 l1 l2 : Z) :
  0 <= l1 <= l2 -> l2 <= 32 -> 0 <= c1 < 2 ^ l1 -> 0 <= c2 < 2 ^ l2 ->
  Reverse c2 l2 mod 2 ^ l1 = Reverse c1 l1 mod 2 ^ l1 ->
  c2 / 2 ^ (l2 - l1) = c1.
Proof.
  intros Hl Hl2 Hc1 Hc2 H.
  destruct (Reverse_spec c1 l1 ltac:(lia)) as [_ Hb1].
  destruct (Reverse_spec c2 l2 ltac:(lia)) as [_ Hb2].
  assert (Hhigh : 0 <= c2 / 2 ^ (l2 - l1) < 2 ^ l1).
  { assert (0 < 2 ^ (l2 - l1)) by (apply Z.pow_pos_nonneg; lia).
    split; [apply Z.div_pos; lia|]. apply Z.div_lt_upper_bound; [lia|].
    rewrite <- Z.pow_add_r by lia. replace (l2 - l1 + l1) with l2 by lia. lia. }
  apply Z.bits_inj'. intros n Hn.
  destruct (Z.lt_ge_cases n l1) as [Hlow | Hhi].
  - assert (Hbit : Z.testbit (Reverse c2 l2 mod 2 ^ l1) (l1 - 1 - n)
                   = Z.testbit (Reverse c1 l1 mod 2 ^ l1) (l1 - 1 - n)) by (rewrite H; reflexivity).
    rewrite !Z.mod_pow2_bits_low in Hbit by lia.
    rewrite Hb1, Hb2 in Hbit by lia.
    destruct (Z.ltb_spec (l1 - 1 - n) l1); [|lia].
    destruct (Z.ltb_spec (l1 - 1 - n) l2); [|lia].
    rewrite <- Z.shiftr_div_pow2, Z.shiftr_spec by lia.
    replace (l1 - 1 - (l1 - 1 - n)) with n in Hbit by lia.
    replace (l2 - 1 - (l1 - 1 - n)) with (n + (l2 - l1)) in Hbit by lia. exact Hbit.
  - transitivity false.
    + apply (Z.bounded_iff_bits_nonneg l1 (c2 / 2 ^ (l2 - l1))); lia.
    + symmetry. apply (Z.bounded_iff_bits_nonneg l1 c1); lia.
Qed.

Lemma occurrences_nil (l : Z) : occurrences l [] = 0.
Proof. reflexivity. Qed.

Lemma occurrences_app (l : Z) (a b : list (Z * Z)) :
  occurrences l (a ++ b) = occurrences l a + occurrences l b.
Proof. unfold occurrences, len. rewrite filter_app, length_app. lia. Qed.

Lemma occurrences_one (l : Z) (item : Z * Z) :
  occurrences l [item] = if snd item =? l then 1 else 0.
Proof.
  unfold occurrences, len. rewrite filter_cons, filter_nil.
  destruct (decide (snd item = l)) as [E | E]; destruct (Z.eqb_spec (snd item) l); try contradiction;
    reflexivity.
Qed.

Lemma occurrences_nonneg (l : Z) (order : list (Z * Z)) : 0 <= occurrences l order.
Proof. unfold occurrences, len. lia. Qed.

Lemma occurrences_permutation (l : Z) (a b : list (Z * Z)) :
  a ≡ₚ b -> occurrences l a = occurrences l b.
Proof. intros H. unfold occurrences, len. rewrite H. reflexivity. Qed.

Lemma weigh_insert (counts : list Z) :
  forall (i : nat) (c : Z),
    counts !! i = Some c ->
    forall x, weigh (<[i := x]> counts) = weigh counts + (x - c) * 2 ^ (len counts - 1 - Z.of_nat i).
Proof.
  induction counts as [|c0 counts IH]; intros i c Hi x; [discriminate|].
  destruct i as [|i].
  - injection Hi as ->. cbn [insert list_insert weigh]. rewrite len_cons.
    replace (1 + len counts - 1 - Z.of_nat 0) with (len counts) by lia. lia.
  - change (<[S i := x]> (c0 :: counts)) with (c0 :: <[i := x]> counts). cbn [weigh].
    change ((c0 :: counts) !! S i) with (counts !! i) in Hi.
    rewrite (IH i c Hi x), len_insert, len_cons.
    replace (1 + len counts - 1 - Z.of_nat (S i)) with (len counts - 1 - Z.of_nat i) by lia. lia.
Qed.

Lemma entriesOf_cons (m l : Z) (lengths : list Z) :
  entriesOf m (l :: lengths) = (if (l =? m) && negb (m =? 0) then 1 else 0) + entriesOf m lengths.
Proof.
  unfold entriesOf. destruct (Z.eqb_spec m 0) as [-> | Hm].
  - rewrite andb_false_r. reflexivity.
  - rewrite filter_cons, andb_true_r. unfold len.
    destruct (decide (l = m)); destruct (Z.eqb_spec l m); try contradiction; cbn [length]; lia.
Qed.

(** [countLengths] counts the non-zero lengths, and adds their weight. *)
Lemma countLengths_spec (lengths : list Z) :
  forall counts0 : list Z,
    Forall (fun l => 0 <= l < len counts0) lengths ->
    exists counts,
      countLengths lengths counts0 = Ok counts /\
      len counts = len counts0 /\
      (forall m x, idx counts0 m = Ok x -> idx counts m = Ok (x + entriesOf m lengths)) /\
      weigh counts = weigh counts0 + kraft (len counts0 - 1) lengths.
Proof.
  induction lengths as [|l lengths IH]; intros counts0 Hall.
  - exists counts0. cbn [countLengths kraft]. split; [reflexivity|]. split; [reflexivity|].
    split; [|lia]. intros m x Hx. unfold entriesOf. destruct (m =? 0); cbn; rewrite Z.add_0_r; exact Hx.
  - apply Forall_cons in Hall. destruct Hall as [Hl Hall]. cbn [countLengths kraft].
    destruct (Z.eqb_spec l 0) as [-> | Hnz].
    + destruct (IH counts0 Hall) as (counts & Hrun & Hlen & Hent & Hweigh).
      exists counts. split; [exact Hrun|]. split; [exact Hlen|]. split; [|lia].
      intros m x Hx. rewrite entriesOf_cons.
      destruct (Z.eqb_spec 0 m) as [<- | _]; cbn [andb negb];
        rewrite ?Z.add_0_l; apply Hent; exact Hx.
    + destruct (idx_total counts0 l Hl) as (c & Hc). rewrite Hc. cbn [bind].
      rewrite set_idx_total by exact Hl. cbn [bind].
      destruct (IH (<[Z.to_nat l := c + 1]> counts0)) as (counts & Hrun & Hlen & Hent & Hweigh).
      { rewrite len_insert. exact Hall. }
      exists counts. split; [exact Hrun|]. rewrite len_insert in Hlen, Hweigh.
      split; [exact Hlen|]. split.
      * intros m x Hx. rewrite entriesOf_cons.
        destruct (Z.eqb_spec l m) as [<- | Hne].
        -- destruct (Z.eqb_spec l 0); [contradiction|]. cbn [andb negb].
           rewrite Hc in Hx. injection Hx as <-.
           rewrite (Hent l (c + 1)); [f_equal; lia|]. apply idx_insert_eq. exact Hl.
        -- cbn [andb]. rewrite Z.add_0_l. apply Hent.
           pose proof (idx_range _ _ _ Hx).
           rewrite idx_insert_ne by lia. exact Hx.
      * rewrite Hweigh. apply idx_Ok in Hc. destruct Hc as [_ Hc].
        rewrite (weigh_insert counts0 (Z.to_nat l) c Hc). rewrite Z2Nat.id by lia.
        replace (c + 1 - c) with 1 by lia. lia.
Qed.

Lemma maxOf_fold (l : list Z) :
  forall a, a <= fold_left Z.max l a /\ Forall (fun x => x <= fold_left Z.max l a) l.
Proof.
  induction l as [|x l IH]; intros a; cbn [fold_left]; [split; [lia | constructor]|].
  destruct (IH (Z.max a x)) as [Ha Hall]. split; [lia|]. constructor; [lia | exact Hall].
Qed.

Lemma maxOf_ge (l : list Z) : 0 <= maxOf l /\ Forall (fun x => x <= maxOf l) l.
Proof. apply maxOf_fold. Qed.

Lemma maxOf_le (l : list Z) (b : Z) : 0 <= b -> Forall (fun x => x <= b) l -> maxOf l <= b.
Proof.
  unfold maxOf. generalize 0 at 1 2. induction l as [|x l IH]; intros a Ha Hall; cbn [fold_left]; [lia|].
  apply Forall_cons in Hall. destruct Hall as [Hx Hall]. apply IH; [lia | exact Hall].
Qed.

Lemma maxOf_zeros (l : list Z) (n : nat) : maxOf (l ++ replicate n 0) = maxOf l.
Proof.
  unfold maxOf. rewrite fold_left_app.
  pose proof (maxOf_fold l 0) as [H0 _]. generalize dependent (fold_left Z.max l 0).
  induction n as [|n IH]; intros a Ha; cbn [replicate fold_left]; [reflexivity|].
  rewrite Z.max_l by lia. apply IH. exact Ha.
Qed.

Lemma countLengths_zeros (l : list Z) (n : nat) (counts0 : list Z) :
  countLengths (l ++ replicate n 0) counts0 = countLengths l counts0.
Proof.
  revert counts0. induction l as [|x l IH]; intros counts0.
  - cbn [app]. induction n as [|n IHn]; [reflexivity|]. cbn [replicate countLengths]. exact IHn.
  - cbn [app countLengths]. destruct (x =? 0); [apply IH|].
    destruct (idx counts0 x); cbn [bind]; try reflexivity.
    destruct (set_idx counts0 x (a + 1)); cbn [bind]; try reflexivity. apply IH.
Qed.

Lemma orderFrom_zeros (l : list Z) (n : nat) :
  forall s, orderFrom s (l ++ replicate n 0) = orderFrom s l.
Proof.
  induction l as [|x l IH]; intros s.
  - cbn [app]. revert s. induction n as [|n IHn]; intros s; [reflexivity|].
    cbn [replicate orderFrom]. apply IHn.
  - cbn [app orderFrom]. rewrite IH. reflexivity.
Qed.

(** The entries of the order are the non-zero lengths with their
    positions. *)
Lemma orderFrom_spec (lengths : list Z) :
  forall (s0 s l : Z),
    In (s, l) (orderFrom s0 lengths) <->
    s0 <= s /\ l <> 0 /\ lengths !! Z.to_nat (s - s0) = Some l.
Proof.
  induction lengths as [|x lengths IH]; intros s0 s l; cbn [orderFrom].
  - split; [intros [] | intros (_ & _ & H); discriminate].
  - assert (Hrest : In (s, l) (orderFrom (s0 + 1) lengths) <->
                    s0 < s /\ l <> 0 /\ (x :: lengths) !! Z.to_nat (s - s0) = Some l).
    { rewrite IH. split; intros (Hs & Hl & Hlook); (split; [lia|]); (split; [exact Hl|]).
      - replace (Z.to_nat (s - s0)) with (S (Z.to_nat (s - (s0 + 1)))) by lia. exact Hlook.
      - replace (Z.to_nat (s - s0)) with (S (Z.to_nat (s - (s0 + 1)))) in Hlook by lia.
        exact Hlook. }
    destruct (Z.eqb_spec x 0) as [-> | Hx].
    + rewrite Hrest. split.
      * intros (Hs & Hl & Hlook). split; [lia|]. auto.
      * intros (Hs & Hl & Hlook). destruct (Z.eq_dec s s0) as [-> | Hne].
        -- rewrite Z.sub_diag in Hlook. injection Hlook as <-. contradiction.
        -- split; [lia|]. auto.
    + cbn [In]. rewrite Hrest. split.
      * intros [E | (Hs & Hl & Hlook)].
        -- injection E as <- <-. rewrite Z.sub_diag. split; [lia|]. split; [exact Hx | reflexivity].
        -- split; [lia|]. auto.
      * intros (Hs & Hl & Hlook). destruct (Z.eq_dec s s0) as [-> | Hne].
        -- rewrite Z.sub_diag in Hlook. injection Hlook as <-. left. reflexivity.
        -- right. split; [lia|]. auto.
Qed.

Lemma orderFrom_above (lengths : list Z) :
  forall s0, Forall (fun item => s0 <= fst item) (orderFrom s0 lengths).
Proof.
  intros s0. apply Forall_forall. intros [s l] Hin. apply list_elem_of_In in Hin.
  apply orderFrom_spec in Hin. cbn [fst]. lia.
Qed.

Lemma orderFrom_NoDup (lengths : list Z) :
  forall s0, NoDup (map fst (orderFrom s0 lengths)).
Proof.
  induction lengths as [|x lengths IH]; intros s0; cbn [orderFrom]; [constructor|].
  destruct (x =? 0); [apply IH|]. cbn [map fst]. constructor; [|apply IH].
  intros Hin. apply list_elem_of_In, in_map_iff in Hin. destruct Hin as ([s l] & Hs & Hin).
  cbn [fst] in Hs. subst s. apply orderFrom_spec in Hin. lia.
Qed.

Lemma orderFrom_occurrences (lengths : list Z) (l : Z) :
  l <> 0 -> forall s0, occurrences l (orderFrom s0 lengths) = entriesOf l lengths.
Proof.
  intros Hl. induction lengths as [|x lengths IH]; intros s0; cbn [orderFrom].
  - unfold entriesOf. destruct (l =? 0); reflexivity.
  - rewrite entriesOf_cons. destruct (Z.eqb_spec l 0); [contradiction|]. rewrite andb_true_r.
    destruct (Z.eqb_spec x 0) as [-> | Hx].
    + destruct (Z.eqb_spec 0 l); [lia|]. rewrite IH. lia.
    + change ((s0, x) :: orderFrom (s0 + 1) lengths) with ([(s0, x)] ++ orderFrom (s0 + 1) lengths).
      rewrite occurrences_app, occurrences_one, IH. reflexivity.
Qed.

End CanonicalCounting.

Section CanonicalAgreement.
Import Go Huffman.

Lemma StronglySorted_before {A : Type} (R : A -> A -> Prop) (a b : list A) (x : A) :
  StronglySorted R (a ++ x :: b) -> Forall (fun y => R y x) a.
Proof.
  induction a as [|y a IH]; intros H; [constructor|].
  cbn [app] in H. apply StronglySorted_inv in H. destruct H as [Hrest Hall].
  constructor; [|apply IH; exact Hrest].
  rewrite Forall_app in Hall. destruct Hall as [_ Hall]. apply Forall_cons in Hall. tauto.
Qed.

Variable counts : list Z.
Hypothesis Hpos : Forall (fun c => 0 <= c) counts.
Hypothesis Hkraft : weigh counts <= 2 ^ (len counts - 1).
Hypothesis Hmax : 1 <= len counts <= 16.

Variable order : list (Z * Z).
Hypothesis Hsorted : StronglySorted orderLe order.
Hypothesis Hnodup : NoDup (map fst order).
Hypothesis Hitems : Forall (fun item => 1 <= snd item < len counts) order.
Hypothesis Hcounts : forall l, 1 <= l < len counts -> idx counts l = Ok (occurrences l order).

Variable size : Z.
Hypothesis Hsymbols : Forall (fun item => 0 <= fst item < size) order.

Local Abbreviation base := (baseCode counts).
Local Abbreviation stage := (stage counts size).

Lemma base_top (l : Z) :
  1 <= l < len counts -> base l + occurrences l order <= 2 ^ l.
Proof.
  intros Hl. unfold baseCode.
  destruct (idx_total counts l ltac:(lia)) as (c & Hc).
  pose proof Hc as Hc'. rewrite (Hcounts l Hl) in Hc'. injection Hc' as Hc'. rewrite Hc'.
  apply idx_Ok in Hc. destruct Hc as [_ Hc].
  pose proof (weigh_take_bound counts (Z.to_nat l) Hpos Hkraft) as Hb.
  rewrite (take_S_r _ _ _ Hc), weigh_snoc, Z2Nat.id in Hb by lia.
  apply Hb. unfold len in Hl. lia.
Qed.

Lemma base_nonneg (l : Z) : 0 <= base l.
Proof.
  unfold baseCode. pose proof (weigh_nonneg (take (Z.to_nat l) counts) (Forall_take _ _ _ Hpos)). lia.
Qed.

Lemma base_above (l' l : Z) :
  1 <= l' -> l' < l -> l < len counts ->
  (base l' + occurrences l' order) * 2 ^ (l - l') <= base l.
Proof.
  intros H1 H2 H3. unfold baseCode.
  destruct (idx_total counts l' ltac:(lia)) as (c & Hc).
  pose proof Hc as Hc'. rewrite (Hcounts l' ltac:(lia)) in Hc'. injection Hc' as Hc'. rewrite Hc'.
  apply idx_Ok in Hc. destruct Hc as [_ Hc].
  pose proof (weigh_take_mono counts (Z.to_nat l') (Z.to_nat l) Hpos) as Hm.
  rewrite (take_S_r _ _ _ Hc), weigh_snoc, !Z2Nat.id in Hm by lia.
  apply Hm; unfold len in *; lia.
Qed.

Lemma stage_step (done todo : list (Z * Z)) (s l : Z) (nextBaseCode : list Z)
    (output : list (option CanonicalHuffmanCode)) (root : CanonicalHuffmanNode)
    (codes : list (list bool * Z)) :
  order = done ++ (s, l) :: todo ->
  stage done nextBaseCode output root codes ->
  exists c root',
    idx nextBaseCode l = Ok c /\ 0 <= c /\ c + 1 < 2 ^ 32 /\
    buildCanonicalHuffmanTree (Z.to_nat l) root {| Symbol := s; DLength := l |} (Reverse c l)
      = Ok root' /\
    stage (done ++ [(s, l)]) (<[Z.to_nat l := c + 1]> nextBaseCode)
          (<[Z.to_nat s := Some {| Code := c; Length := l |}]> output) root'
          ((pathBits (Z.to_nat l) (Reverse c l), s) :: codes) /\
    0 <= l < len nextBaseCode /\ 0 <= s < len output.
Proof.
  intros Horder (Hlen & Hnext & Hsize & Hdec & Hcodes & Hdone & Hnone).
  assert (Hin : In (s, l) order) by (rewrite Horder; apply in_or_app; right; left; reflexivity).
  pose proof (proj1 (Forall_forall _ _) Hitems) as Hitem.
  pose proof (proj1 (Forall_forall _ _) Hsymbols) as Hsymbol.
  assert (Hl : 1 <= l < len counts).
  { apply (Hitem (s, l)). apply list_elem_of_In. exact Hin. }
  assert (Hs : 0 <= s < size).
  { apply (Hsymbol (s, l)). apply list_elem_of_In. exact Hin. }
  assert (Hocc : forall m, occurrences m order
                           = occurrences m done + (if l =? m then 1 else 0) + occurrences m todo).
  { intros m. rewrite Horder. change ((s, l) :: todo) with ([(s, l)] ++ todo).
    rewrite !occurrences_app, occurrences_one. cbn [snd]. lia. }
  assert (Hbefore : forall s' l', In (s', l') done -> 1 <= l' <= l /\ s' <> s).
  { intros s' l' Hin'. split.
    - rewrite Horder in Hsorted. apply StronglySorted_before in Hsorted.
      rewrite Forall_forall in Hsorted. specialize (Hsorted (s', l')).
      assert (Hle : orderLe (s', l') (s, l)) by (apply Hsorted, list_elem_of_In; exact Hin').
      unfold orderLe in Hle. cbn [fst snd] in Hle.
      assert (Hin2 : In (s', l') order) by (rewrite Horder; apply in_or_app; left; exact Hin').
      pose proof (Hitem (s', l') (proj2 (list_elem_of_In _ _) Hin2)) as Hl'. cbn [snd] in Hl'. lia.
    - intros ->. rewrite Horder, map_app in Hnodup. apply NoDup_app in Hnodup.
      destruct Hnodup as (_ & Hdisj & _). apply (Hdisj s).
      + apply list_elem_of_In, in_map_iff. exists (s, l'). split; [reflexivity | exact Hin'].
      + cbn [map fst]. left. }
  set (c := base l + occurrences l done).
  assert (Hc : idx nextBaseCode l = Ok c) by (apply Hnext; lia).
  pose proof (base_top l Hl) as Htop. pose proof (base_nonneg l) as Hb0.
  pose proof (occurrences_nonneg l done) as Hd0. pose proof (occurrences_nonneg l todo) as Ht0.
  assert (Hfit : 0 <= c /\ c + 1 <= 2 ^ l).
  { subst c. rewrite (Hocc l), Z.eqb_refl in Htop. lia. }
  assert (Hpow : 2 ^ l <= 2 ^ 15) by (apply Z.pow_le_mono_r; lia).
  assert (Hold : forall q s', In (q, s') codes ->
             exists l' c', 1 <= l' <= l /\ q = pathBits (Z.to_nat l') (Reverse c' l') /\
                           0 <= c' < 2 ^ l' /\ c / 2 ^ (l - l') <> c').
  { intros q s' Hq. destruct (Hcodes q s' Hq) as (l' & c' & Hin' & -> & Hc').
    destruct (Hbefore s' l' Hin') as [Hl' _]. exists l', c'. split; [exact Hl'|].
    split; [reflexivity|].
    assert (Hl'c : 1 <= l' < len counts) by lia.
    pose proof (base_top l' Hl'c) as Htop'. pose proof (base_nonneg l') as Hb0'.
    pose proof (occurrences_nonneg l' todo) as Ht0'.
    assert (Hle' : occurrences l' done <= occurrences l' order).
    { rewrite (Hocc l'). destruct (l =? l'); lia. }
    split; [lia|].
    destruct (Z.eq_dec l' l) as [-> | Hne].
    - rewrite Z.sub_diag. change (2 ^ 0) with 1. rewrite Z.div_1_r. subst c. lia.
    - pose proof (base_above l' l ltac:(lia) ltac:(lia) ltac:(lia)) as Habove.
      assert (0 < 2 ^ (l - l')) by (apply Z.pow_pos_nonneg; lia).
      assert (base l' + occurrences l' order <= c / 2 ^ (l - l')).
      { apply Z.div_le_lower_bound; [lia|]. subst c. lia. }
      lia. }
  destruct (decodes_insert root codes (Z.to_nat l) {| Symbol := s; DLength := l |}
              (Reverse c l) Hdec) as (root' & Hrun & Hdec').
  { intros q rest Hq E. apply in_map_iff in Hq. destruct Hq as ([q' s'] & <- & Hq). cbn [fst] in E.
    destruct (Hold q' s' Hq) as (l' & c' & Hl' & -> & Hc' & Hne).
    apply pathBits_prefix in E. destruct E as [_ E]. rewrite Z2Nat.id in E by lia.
    apply Hne. apply (Reverse_prefix c' c l' l); try lia. }
  { intros q rest Hq E. apply in_map_iff in Hq. destruct Hq as ([q' s'] & <- & Hq). cbn [fst] in E.
    destruct (Hold q' s' Hq) as (l' & c' & Hl' & -> & Hc' & Hne).
    apply pathBits_prefix in E. destruct E as [Hk E].
    assert (l' = l) by lia. subst l'. rewrite Z2Nat.id in E by lia.
    apply Hne. rewrite Z.sub_diag. change (2 ^ 0) with 1. rewrite Z.div_1_r.
    pose proof (Reverse_prefix c c' l l ltac:(lia) ltac:(lia) ltac:(lia) ltac:(lia) E) as E'.
    rewrite Z.sub_diag in E'. change (2 ^ 0) with 1 in E'. rewrite Z.div_1_r in E'. lia. }
  exists c, root'. split; [exact Hc|]. split; [lia|]. split; [lia|]. split; [exact Hrun|].
  split; [|lia]. unfold stage. rewrite !len_insert.
  split; [exact Hlen|]. split; [|split; [exact Hsize|split; [exact Hdec'|split; [|split]]]].
  - intros m Hm. rewrite occurrences_app, occurrences_one. cbn [snd].
    destruct (Z.eqb_spec l m) as [<- | Hne].
    + rewrite idx_insert_eq by lia. f_equal. subst c. lia.
    + rewrite idx_insert_ne by lia. rewrite Hnext by lia. f_equal. lia.
  - intros p s' [E | Hp].
    + injection E as <- <-. exists l, c. split; [apply in_or_app; right; left; reflexivity|].
      split; [reflexivity|]. rewrite occurrences_app, occurrences_one. cbn [snd].
      rewrite Z.eqb_refl. subst c. lia.
    + destruct (Hcodes p s' Hp) as (l' & c' & Hin' & -> & Hc'). exists l', c'.
      split; [apply in_or_app; left; exact Hin'|]. split; [reflexivity|].
      rewrite occurrences_app. pose proof (occurrences_nonneg l' [(s, l)]). lia.
  - intros s' l' Hin'. apply in_app_or in Hin'. destruct Hin' as [Hin' | [E | []]].
    + destruct (Hdone s' l' Hin') as (c' & Hout & Hcode & Hc').
      destruct (Hbefore s' l' Hin') as [_ Hne].
      pose proof (idx_range _ _ _ Hout). exists c'.
      split; [rewrite idx_insert_ne by lia; exact Hout|]. split; [right; exact Hcode | exact Hc'].
    + injection E as <- <-. exists c. split; [apply idx_insert_eq; lia|].
      split; [left; reflexivity | lia].
  - intros s' Hs' Hnot. rewrite map_app, in_app_iff in Hnot. cbn [map fst In] in Hnot.
    rewrite idx_insert_ne by lia. apply Hnone; [exact Hs' | tauto].
Qed.

(** The two loops over the order, of the encoder and of the decoder, give
    the same codes to the same symbols. *)
Lemma loops_agree (todo : list (Z * Z)) :
  forall (done : list (Z * Z)) (nextBaseCode : list Z)
         (output : list (option CanonicalHuffmanCode)) (root : CanonicalHuffmanNode)
         (codes : list (list bool * Z)),
    order = done ++ todo ->
    stage done nextBaseCode output root codes ->
    exists nextBaseCode' output' root' codes',
      assignCodes todo nextBaseCode output = Ok output' /\
      insertCodes todo nextBaseCode root = Ok root' /\
      stage order nextBaseCode' output' root' codes'.
Proof.
  induction todo as [|[s l] todo IH]; intros done nextBaseCode output root codes Horder Hstage.
  - rewrite app_nil_r in Horder. subst done.
    exists nextBaseCode, output, root, codes. repeat split; try reflexivity; apply Hstage.
  - destruct (stage_step done todo s l nextBaseCode output root codes Horder Hstage)
      as (c & root1 & Hc & Hc0 & Hc32 & Hrun & Hstage1 & Hl & Hs).
    destruct (IH (done ++ [(s, l)]) _ _ root1 _ ltac:(rewrite <- app_assoc; exact Horder) Hstage1)
      as (nb' & output' & root' & codes' & Ha & Hi & Hst).
    exists nb', output', root', codes'.
    cbn [assignCodes insertCodes]. rewrite Hc. cbn [bind].
    rewrite !set_idx_total by lia. cbn [bind]. rewrite Hrun. cbn [bind].
    unfold u32. rewrite Z.mod_small by lia. auto.
Qed.

End CanonicalAgreement.

Section CanonicalTables.
Import Go Huffman.

Lemma orderLe_transitive : Transitive orderLe.
Proof. intros [a1 a2] [b1 b2] [c1 c2]. unfold orderLe. cbn [fst snd]. lia. Qed.

Lemma orderLe_total : Total orderLe.
Proof. intros [a1 a2] [b1 b2]. unfold orderLe. cbn [fst snd]. lia. Qed.

Lemma order_sorted (l : list (Z * Z)) : StronglySorted orderLe (merge_sort orderLe l).
Proof. exact (@StronglySorted_merge_sort _ orderLe _ orderLe_transitive orderLe_total l). Qed.

Lemma idx_replicate {A : Type} (z : A) (n i : Z) : 0 <= i < n -> idx (make z n) i = Ok z.
Proof.
  intros H. unfold idx, make. destruct (Z.ltb_spec i 0); [lia|].
  rewrite lookup_replicate_2 by lia. reflexivity.
Qed.

Lemma len_replicate {A : Type} (z : A) (n : Z) : 0 <= n -> len (make z n) = n.
Proof. intros H. unfold len, make. rewrite length_replicate. lia. Qed.

Lemma weigh_zeros (n : nat) : weigh (replicate n 0) = 0.
Proof. induction n as [|n IH]; cbn [replicate weigh]; [reflexivity|]. rewrite IH. lia. Qed.

Lemma emptyNode_no_leaf (path : list bool) : isLeafNode (nodeAt emptyNode path) = false.
Proof.
  destruct path as [|b path]; [reflexivity|]. cbn [nodeAt emptyNode].
  destruct b; rewrite nodeAt_nil; reflexivity.
Qed.

Lemma map_u32_small (l : list Z) : Forall (fun x => 0 <= x < 2 ^ 32) l -> map u32 l = l.
Proof.
  induction 1 as [|x l Hx _ IH]; [reflexivity|]. cbn [map]. rewrite IH. f_equal.
  unfold u32. apply Z.mod_small. exact Hx.
Qed.

(** The encoder's table of codes and the decoder's tree, both built from
    a vector of code lengths with a Kraft sum of at most one: the tree
    decodes the codes of the table. *)
Lemma canonical_codes_agree (lengths trimmed : list Z) (zeros : nat) :
  lengths = trimmed ++ replicate zeros 0 ->
  Forall (fun l => 0 <= l <= 15) lengths ->
  kraft (maxOf lengths) lengths <= 2 ^ maxOf lengths ->
  exists counts table root codes,
    countLengths lengths (make 0 (maxOf lengths + 1)) = Ok counts /\
    assignCodes (merge_sort orderLe (orderFrom 0 lengths)) (nextBaseCodes counts)
                (make None (len lengths)) = Ok table /\
    BuildCanonicalHuffmanDecoder trimmed = Ok root /\
    decodes root codes /\
    map lengthOf table = lengths /\
    forall s h, idx table s = Ok (Some h) ->
                In (codePath h, s) codes /\ 1 <= Huffman.Length h <= 15 /\
                0 <= Code h < 2 ^ Huffman.Length h.
Proof.
  intros Hsplit Hrange Hkraft.
  set (M := maxOf lengths) in *.
  destruct (maxOf_ge lengths) as [HM0 HMall]. fold M in HM0, HMall.
  assert (HM15 : M <= 15).
  { apply maxOf_le; [lia|]. eapply Forall_impl; [exact Hrange|]. cbn. intros; lia. }
  destruct (countLengths_spec lengths (make 0 (M + 1))) as (counts & Hcount & Hlen & Hent & Hweigh).
  { rewrite len_replicate by lia. rewrite Forall_forall in *. intros l Hl.
    specialize (Hrange l Hl). specialize (HMall l Hl). cbn in *. lia. }
  rewrite len_replicate in Hlen, Hweigh by lia.
  unfold make in Hweigh at 1. rewrite weigh_zeros in Hweigh.
  replace (M + 1 - 1) with M in Hweigh by lia.
  assert (Hentry : forall m, 0 <= m < len counts -> idx counts m = Ok (entriesOf m lengths)).
  { intros m Hm. rewrite (Hent m 0); [f_equal; lia|]. apply idx_replicate. lia. }
  assert (Hpos : Forall (fun c => 0 <= c) counts).
  { apply Forall_lookup. intros i c Hi.
    assert (Hm : 0 <= Z.of_nat i < len counts).
    { apply lookup_lt_Some in Hi. unfold len. lia. }
    pose proof (Hentry _ Hm) as E. apply idx_Ok in E. destruct E as [_ E].
    rewrite Nat2Z.id, Hi in E. injection E as ->.
    unfold entriesOf, len. destruct (Z.of_nat i =? 0); lia. }
  set (order := merge_sort orderLe (orderFrom 0 lengths)).
  assert (Hperm : order ≡ₚ orderFrom 0 lengths) by apply merge_sort_Permutation.
  assert (Hin : forall s l, In (s, l) order <->
                            0 <= s /\ l <> 0 /\ lengths !! Z.to_nat s = Some l).
  { intros s l. pose proof (orderFrom_spec lengths 0 s l) as Hspec. rewrite Z.sub_0_r in Hspec.
    rewrite <- Hspec, <- !list_elem_of_In. subst order. rewrite Hperm. reflexivity. }
  assert (HK : weigh counts <= 2 ^ (len counts - 1)).
  { rewrite Hlen, Hweigh. replace (M + 1 - 1) with M by lia. lia. }
  assert (Hbound : 1 <= len counts <= 16) by lia.
  assert (Hnodup : NoDup (map fst order)).
  { subst order. rewrite Hperm. apply orderFrom_NoDup. }
  assert (Hitems : Forall (fun item => 1 <= snd item < len counts) order).
  { apply Forall_forall. intros [s l] Hsl. apply list_elem_of_In, Hin in Hsl.
    destruct Hsl as (_ & Hl & Hlook). cbn [snd].
    apply list_elem_of_lookup_2 in Hlook. rewrite Forall_forall in Hrange, HMall.
    specialize (Hrange l Hlook). specialize (HMall l Hlook). cbn in *. lia. }
  assert (Hcounts : forall l, 1 <= l < len counts -> idx counts l = Ok (occurrences l order)).
  { intros l Hl. rewrite Hentry by lia. f_equal. subst order.
    rewrite (occurrences_permutation l _ _ Hperm). symmetry. apply orderFrom_occurrences. lia. }
  assert (Hsymbols : Forall (fun item => 0 <= fst item < len lengths) order).
  { apply Forall_forall. intros [s l] Hsl. apply list_elem_of_In, Hin in Hsl.
    destruct Hsl as (Hs & _ & Hlook). cbn [fst]. apply lookup_lt_Some in Hlook. unfold len. lia. }
  destruct (loops_agree counts Hpos HK Hbound order (order_sorted _) Hnodup Hitems Hcounts
              (len lengths) Hsymbols
              order [] (nextBaseCodes counts) (make None (len lengths)) emptyNode [])
    as (nb' & table & root & codes & Hassign & Hinsert & Hstage).
  - reflexivity.
  - assert (Hne : counts <> []) by (intros ->; unfold len in Hlen; cbn in Hlen; lia).
    unfold stage. split; [unfold len; rewrite nextBaseCodes_length by exact Hne; reflexivity|].
    split; [|split; [apply len_replicate; unfold len; lia|split; [|split; [|split]]]].
    + intros l Hl. apply idx_Ok. split; [lia|].
      rewrite nextBaseCodes_lookup by (unfold len in Hl; lia).
      rewrite occurrences_nil, Z.add_0_r. reflexivity.
    + split; [discriminate|]. split; [intros ? ? []|]. split; [|intros ? ? []].
      intros path Hleaf. rewrite emptyNode_no_leaf in Hleaf. discriminate.
    + intros ? ? [].
    + intros ? ? [].
    + intros s Hs _. apply idx_replicate. exact Hs.
  - destruct Hstage as (Hnb & Hnext & Hsize & Hdec & _ & Hdone & Hnone).
    exists counts, table, root, codes. split; [exact Hcount|]. split; [exact Hassign|].
    assert (Htable : forall s h, idx table s = Ok (Some h) ->
               In (codePath h, s) codes /\ 1 <= Huffman.Length h <= 15 /\
               0 <= Code h < 2 ^ Huffman.Length h /\ In (s, Huffman.Length h) order).
    { intros s h Hs. pose proof (idx_range _ _ _ Hs) as Hr. rewrite Hsize in Hr.
      destruct (in_dec Z.eq_dec s (map fst order)) as [Hyes | Hno].
      - apply in_map_iff in Hyes. destruct Hyes as ([s' l] & E & Hsl). cbn [fst] in E. subst s'.
        destruct (Hdone s l Hsl) as (c & Hout & Hcode & Hc).
        rewrite Hout in Hs. injection Hs as <-. cbn [Code Huffman.Length]. unfold codePath.
        cbn [Code Huffman.Length]. split; [exact Hcode|].
        apply Hin in Hsl. destruct Hsl as (Hs0 & Hl & Hlook).
        pose proof (list_elem_of_lookup_2 _ _ _ Hlook) as Hmem.
        rewrite Forall_forall in Hrange. specialize (Hrange l Hmem). cbn in Hrange.
        split; [lia|]. split; [exact Hc|]. apply Hin. auto.
      - rewrite (Hnone s Hr Hno) in Hs. discriminate. }
    split.
    { unfold BuildCanonicalHuffmanDecoder.
      assert (Hmaxt : maxOf trimmed = M) by (subst M; rewrite Hsplit, maxOf_zeros; reflexivity).
      rewrite Hmaxt. rewrite <- (countLengths_zeros trimmed zeros), <- Hsplit, Hcount. cbn [bind].
      rewrite <- (orderFrom_zeros trimmed zeros), <- Hsplit. fold order.
      rewrite map_u32_small; [exact Hinsert|].
      apply Forall_lookup. intros i x Hi.
      assert (Hlt : (i < length counts)%nat).
      { apply lookup_lt_Some in Hi. rewrite nextBaseCodes_length in Hi; [exact Hi|].
        intros ->. unfold len in Hlen. cbn in Hlen. lia. }
      rewrite nextBaseCodes_lookup in Hi by exact Hlt. injection Hi as <-.
      pose proof (weigh_nonneg (take i counts) (Forall_take _ _ _ Hpos)).
      destruct i as [|i]; [rewrite take_0; cbn [weigh]; lia|].
      pose proof (weigh_take_bound counts i Hpos HK ltac:(lia)) as Hb.
      assert (2 ^ Z.of_nat i <= 2 ^ 16) by (apply Z.pow_le_mono_r; unfold len in Hlen; lia).
      lia. }
    split; [exact Hdec|]. split.
    { apply list_eq. intros i. rewrite list_lookup_fmap.
      destruct (lengths !! i) as [l|] eqn:El.
      - assert (Hi : 0 <= Z.of_nat i < len table).
        { apply lookup_lt_Some in El. rewrite Hsize. unfold len. lia. }
        destruct (idx_total table (Z.of_nat i) Hi) as (entry & Hentry').
        pose proof Hentry' as Hlook. apply idx_Ok in Hlook. destruct Hlook as [_ Hlook].
        rewrite Nat2Z.id in Hlook. rewrite Hlook. cbn [fmap option_fmap option_map]. f_equal.
        destruct entry as [h|].
        + destruct (Htable _ _ Hentry') as (_ & _ & _ & Hsl). apply Hin in Hsl.
          destruct Hsl as (_ & _ & Hl). rewrite Nat2Z.id, El in Hl. injection Hl as ->. reflexivity.
        + cbn [lengthOf]. destruct (Z.eq_dec l 0) as [-> | Hl]; [reflexivity|]. exfalso.
          assert (Hsl : In (Z.of_nat i, l) order).
          { apply Hin. rewrite Nat2Z.id. split; [lia|]. auto. }
          destruct (Hdone _ _ Hsl) as (c & Hout & _). rewrite Hout in Hentry'. discriminate.
      - assert (Hnone' : table !! i = None).
        { apply lookup_ge_None. apply lookup_ge_None in El. unfold len in Hsize. lia. }
        rewrite Hnone'. reflexivity. }
    intros s h Hs. destruct (Htable s h Hs) as (? & ? & ? & _). auto.
Qed.

End CanonicalTables.

Section TreeLengths.
Import Go Huffman.

Lemma depths_symbols (t : huffmanTree) : forall d, map fst (depths t d) = map fst (leavesOf t).
Proof.
  induction t as [f i s | f i l IHl r IHr]; intros d; cbn [depths leavesOf map fst]; [reflexivity|].
  rewrite !map_app, IHl, IHr. reflexivity.
Qed.

Lemma depths_below (t : huffmanTree) :
  forall d, depths t d <> [] /\ Forall (fun item => d <= snd item) (depths t d).
Proof.
  induction t as [f i s | f i l IHl r IHr]; intros d; cbn [depths].
  - split; [discriminate|]. repeat constructor. cbn. lia.
  - destruct (IHl (d + 1)) as [Hl Hlall]. destruct (IHr (d + 1)) as [Hr Hrall]. split.
    + destruct (depths l (d + 1)); [contradiction | discriminate].
    + apply Forall_app. split; (eapply Forall_impl; [eassumption|]); cbn; intros; lia.
Qed.

Lemma depthWeight_app (M : Z) (a b : list (Z * Z)) :
  depthWeight M (a ++ b) = depthWeight M a + depthWeight M b.
Proof.
  induction a as [|x a IH]; cbn [app depthWeight fold_right]; [reflexivity|].
  fold (depthWeight M (a ++ b)). fold (depthWeight M a). rewrite IH. lia.
Qed.

(** The leaves of a binary tree fill the code space: Kraft's equality. *)
Lemma depthWeight_tree (M : Z) (t : huffmanTree) :
  forall d, 0 <= d -> Forall (fun item => snd item <= M) (depths t d) ->
            depthWeight M (depths t d) = 2 ^ (M - d).
Proof.
  induction t as [f i s | f i l IHl r IHr]; intros d Hd Hall; cbn [depths] in *.
  - cbn. lia.
  - apply Forall_app in Hall. destruct Hall as [Hlall Hrall].
    rewrite depthWeight_app, IHl, IHr by (lia || assumption).
    destruct (depths_below l (d + 1)) as [Hne Hge].
    destruct (depths l (d + 1)) as [|[s dep] rest]; [contradiction|].
    apply Forall_cons in Hge, Hlall. cbn [snd] in *.
    replace (M - d) with (1 + (M - (d + 1))) by lia.
    rewrite Z.pow_add_r by lia. change (2 ^ 1) with 2. lia.
Qed.

Lemma setAll_length (items : list (Z * Z)) :
  forall lengths, length (setAll lengths items) = length lengths.
Proof.
  induction items as [|x items IH]; intros lengths; [reflexivity|].
  unfold setAll in *. cbn [fold_left]. rewrite IH, length_insert. reflexivity.
Qed.

Lemma dfs_spec (t : huffmanTree) :
  forall (d : Z) (lengths lengths' : list Z),
    dfs t d lengths = Ok lengths' ->
    lengths' = setAll lengths (depths t d) /\
    Forall (fun item => 0 <= fst item < len lengths) (depths t d).
Proof.
  induction t as [f i s | f i l IHl r IHr]; intros d lengths lengths' H; cbn [dfs depths] in *.
  - apply set_idx_Ok in H. destruct H as [Hs ->]. split; [reflexivity|].
    repeat constructor; cbn; lia.
  - bind_ok H. rename a into mid.
    destruct (IHl _ _ _ Ha) as [-> Hlall]. destruct (IHr _ _ _ H) as [-> Hrall].
    unfold setAll. rewrite fold_left_app. split; [reflexivity|].
    apply Forall_app. split; [exact Hlall|].
    unfold len in *. rewrite setAll_length in Hrall. exact Hrall.
Qed.

Lemma kraft_insert (M dep : Z) (lengths : list Z) :
  forall i : nat,
    lengths !! i = Some 0 -> dep <> 0 ->
    kraft M (<[i := dep]> lengths) = kraft M lengths + 2 ^ (M - dep).
Proof.
  induction lengths as [|x lengths IH]; intros i Hi Hdep; [discriminate|].
  destruct i as [|i].
  - injection Hi as ->. change (<[0%nat := dep]> (0 :: lengths)) with (dep :: lengths).
    cbn [kraft]. destruct (Z.eqb_spec dep 0); [contradiction|]. cbn. lia.
  - change (<[S i := dep]> (x :: lengths)) with (x :: <[i := dep]> lengths).
    change ((x :: lengths) !! S i) with (lengths !! i) in Hi.
    cbn [kraft]. rewrite (IH i Hi Hdep). lia.
Qed.

Lemma kraft_zeros (M : Z) (n : nat) : kraft M (replicate n 0) = 0.
Proof. induction n as [|n IH]; cbn [replicate kraft]; [reflexivity|]. rewrite IH. reflexivity. Qed.

Lemma setAll_other (items : list (Z * Z)) :
  forall (lengths : list Z) (i : nat),
    (forall item, In item items -> Z.to_nat (fst item) <> i) ->
    setAll lengths items !! i = lengths !! i.
Proof.
  induction items as [|x items IH]; intros lengths i Hi; [reflexivity|].
  unfold setAll in *. cbn [fold_left]. rewrite IH by (intros item Hin; apply Hi; right; exact Hin).
  apply list_lookup_insert_ne. apply Hi. left. reflexivity.
Qed.

Lemma setAll_kraft (M : Z) (items : list (Z * Z)) :
  forall lengths : list Z,
    NoDup (map fst items) ->
    Forall (fun item => 0 <= fst item /\ snd item <> 0) items ->
    (forall item, In item items -> lengths !! Z.to_nat (fst item) = Some 0) ->
    kraft M (setAll lengths items) = kraft M lengths + depthWeight M items.
Proof.
  induction items as [|[s dep] items IH]; intros lengths Hnd Hall Hzero.
  - cbn. lia.
  - apply NoDup_cons in Hnd. destruct Hnd as [Hnot Hnd]. cbn [map fst] in Hnot.
    apply Forall_cons in Hall. destruct Hall as [[Hs Hdep] Hall]. cbn [fst snd] in *.
    change (setAll lengths ((s, dep) :: items))
      with (setAll (<[Z.to_nat s := dep]> lengths) items).
    rewrite IH; [| exact Hnd | exact Hall |].
    + rewrite kraft_insert; [| apply (Hzero (s, dep)); left; reflexivity | exact Hdep].
      cbn [depthWeight fold_right snd]. fold (depthWeight M items). lia.
    + intros [s' dep'] Hin. cbn [fst].
      rewrite list_lookup_insert_ne; [apply (Hzero (s', dep')); right; exact Hin|].
      intros E. apply Hnot. apply list_elem_of_In, in_map_iff. exists (s', dep').
      rewrite Forall_forall in Hall. specialize (Hall (s', dep') (proj2 (list_elem_of_In _ _) Hin)).
      cbn [fst snd] in *. split; [lia | exact Hin].
Qed.

Lemma setAll_lookup (items : list (Z * Z)) :
  forall (lengths : list Z) (s dep : Z),
    NoDup (map fst items) ->
    Forall (fun item => 0 <= fst item < len lengths) items ->
    In (s, dep) items ->
    setAll lengths items !! Z.to_nat s = Some dep.
Proof.
  induction items as [|[s0 dep0] items IH]; intros lengths s dep Hnd Hall Hin; [destruct Hin|].
  apply NoDup_cons in Hnd. destruct Hnd as [Hnot Hnd]. cbn [map fst] in Hnot.
  apply Forall_cons in Hall. destruct Hall as [Hs0 Hall]. cbn [fst] in Hs0.
  change (setAll lengths ((s0, dep0) :: items))
    with (setAll (<[Z.to_nat s0 := dep0]> lengths) items).
  destruct Hin as [E | Hin].
  - injection E as -> ->. rewrite setAll_other.
    + apply list_lookup_insert_eq. unfold len in Hs0. lia.
    + intros [s' dep'] Hin E. cbn [fst] in E. apply Hnot.
      apply list_elem_of_In, in_map_iff. exists (s', dep').
      rewrite Forall_forall in Hall. specialize (Hall (s', dep') (proj2 (list_elem_of_In _ _) Hin)).
      cbn [fst] in *. split; [lia | exact Hin].
  - apply IH; [exact Hnd | | exact Hin]. rewrite len_insert. exact Hall.
Qed.

Lemma setAll_range (items : list (Z * Z)) (lo hi : Z) :
  forall lengths : list Z,
    Forall (fun l => lo <= l <= hi) lengths ->
    Forall (fun item => lo <= snd item <= hi) items ->
    Forall (fun l => lo <= l <= hi) (setAll lengths items).
Proof.
  induction items as [|x items IH]; intros lengths HL Hall; [exact HL|].
  apply Forall_cons in Hall. destruct Hall as [Hx Hall].
  unfold setAll in *. cbn [fold_left]. apply IH; [|exact Hall].
  apply Forall_insert; assumption.
Qed.

Lemma buildTree_empty : buildTree ∅ = Panic.
Proof. reflexivity. Qed.

(** The lengths that the encoder takes from its tree: between 0 and the
    limit, with a Kraft sum of at most one; the table is made from them. *)
Lemma encoder_lengths (symbolFreq : list Z) (lengthLimit : Z)
    (table : list (option CanonicalHuffmanCode)) :
  BuildCanonicalHuffmanEncoder symbolFreq lengthLimit = Ok table ->
  lengthLimit <= 15 ->
  exists lengths counts,
    len lengths = len symbolFreq /\
    Forall (fun l => 0 <= l <= 15) lengths /\
    kraft (maxOf lengths) lengths <= 2 ^ maxOf lengths /\
    countLengths lengths (make 0 (maxOf lengths + 1)) = Ok counts /\
    assignCodes (merge_sort orderLe (orderFrom 0 lengths)) (nextBaseCodes counts)
                (make None (len symbolFreq)) = Ok table.
Proof.
  intros H Hlimit. unfold BuildCanonicalHuffmanEncoder in H.
  bind_ok H. rename a into root, Ha into Hroot.
  bind_ok H. rename a into lengths, Ha into Hlengths.
  destruct (Z.ltb_spec lengthLimit (maxOf lengths)) as [|Hmax]; [discriminate|].
  bind_ok H. rename a into counts, Ha into Hcounts.
  assert (Hmap : freqMapFrom 0 symbolFreq <> ∅).
  { intros E. rewrite E, buildTree_empty in Hroot. discriminate. }
  destruct (buildTree_entries _ Hmap) as (root' & Hroot' & Hleaves & _).
  rewrite Hroot in Hroot'. injection Hroot' as <-.
  assert (Hnd : NoDup (map fst (leavesOf root))).
  { rewrite Hleaves. apply NoDup_fst_map_to_list. }
  assert (Hzeros : Forall (fun l => 0 <= l <= 15) (make 0 (len symbolFreq))).
  { unfold make. apply Forall_replicate. lia. }
  assert (Hgoal : len lengths = len symbolFreq /\
                  Forall (fun l => 0 <= l) lengths /\
                  kraft (maxOf lengths) lengths <= 2 ^ maxOf lengths).
  { destruct root as [f i s | f i l r].
    - apply set_idx_Ok in Hlengths. destruct Hlengths as [Hs ->].
      pose proof (len_nonneg symbolFreq) as Hn.
      rewrite len_insert, len_replicate in * by lia.
      assert (Hlt : (Z.to_nat s < length (make 0%Z (len symbolFreq)))%nat).
      { unfold make. rewrite length_replicate. lia. }
      split; [reflexivity|]. split.
      + apply Forall_insert; [unfold make; apply Forall_replicate; lia | lia].
      + set (L := <[Z.to_nat s := 1]> (make 0 (len symbolFreq))) in *.
        pose proof (maxOf_ge L) as [_ Hall].
        assert (Hone : 1 <= maxOf L).
        { rewrite Forall_forall in Hall. apply Hall. apply list_elem_of_lookup.
          exists (Z.to_nat s). subst L. apply list_lookup_insert_eq. exact Hlt. }
        subst L. rewrite kraft_insert; [| unfold make; apply lookup_replicate_2; lia | lia].
        unfold make at 2. rewrite kraft_zeros, Z.add_0_l.
        apply Z.pow_le_mono_r; lia.
    - apply dfs_spec in Hlengths. destruct Hlengths as [-> Hin].
      set (items := depths (huffmanNode f i l r) 0) in *.
      assert (Hndi : NoDup (map fst items)) by (subst items; rewrite depths_symbols; exact Hnd).
      destruct (depths_below (huffmanNode f i l r) 0) as [_ Hge]. fold items in Hge.
      assert (Hdeep : Forall (fun item => 1 <= snd item) items).
      { subst items. cbn [depths]. apply Forall_app.
        split; [apply (depths_below l 1) | apply (depths_below r 1)]. }
      pose proof (len_nonneg symbolFreq) as Hn.
      split; [unfold len at 1; rewrite setAll_length; apply len_replicate; exact Hn|]. split.
      + eapply Forall_impl; [apply (setAll_range items 0 (Z.max 0 (maxOf (map snd items))))|].
        * unfold make. apply Forall_replicate. lia.
        * apply Forall_forall. intros [s dep] Hsd. cbn [snd].
          rewrite Forall_forall in Hge. specialize (Hge _ Hsd). cbn [snd] in Hge.
          pose proof (maxOf_ge (map snd items)) as [_ Hm]. rewrite Forall_forall in Hm.
          specialize (Hm dep). split; [lia|]. apply Z.max_le_iff. right. apply Hm.
          apply list_elem_of_fmap. exists (s, dep). split; [reflexivity | exact Hsd].
        * cbn. intros; lia.
      + set (L := setAll (make 0 (len symbolFreq)) items).
        assert (Hbelow : Forall (fun item => snd item <= maxOf L) items).
        { apply Forall_forall. intros [s dep] Hsd. cbn [snd].
          pose proof (maxOf_ge L) as [_ Hm]. rewrite Forall_forall in Hm. apply Hm.
          apply list_elem_of_lookup. exists (Z.to_nat s). subst L.
          apply setAll_lookup; [exact Hndi | exact Hin | apply list_elem_of_In; exact Hsd]. }
        subst L. rewrite setAll_kraft.
        * unfold make at 2. rewrite kraft_zeros, Z.add_0_l.
          subst items. rewrite depthWeight_tree by (lia || exact Hbelow).
          rewrite Z.sub_0_r. lia.
        * exact Hndi.
        * apply Forall_forall. intros item Hitem. rewrite Forall_forall in Hin, Hdeep.
          specialize (Hin item Hitem). specialize (Hdeep item Hitem). cbn in *. lia.
        * intros item Hitem. unfold make. apply lookup_replicate_2.
          rewrite Forall_forall in Hin. specialize (Hin item (proj2 (list_elem_of_In _ _) Hitem)).
          cbn beta in Hin. rewrite len_replicate in Hin by exact Hn. lia. }
  destruct Hgoal as (Hlen & Hnonneg & Hkraft).
  exists lengths, counts. split; [exact Hlen|]. split; [|split; [exact Hkraft|split; [exact Hcounts | exact H]]].
  pose proof (maxOf_ge lengths) as [_ Hm]. rewrite Forall_forall in *.
  intros x Hx. specialize (Hnonneg x Hx). specialize (Hm x Hx). cbn in *. lia.
Qed.

End TreeLengths.

Section CanonicalDecoding.
Import Go Huffman Flate.

(** A decoding tree reads a code of its list from the bits of a reader. *)
Lemma decodes_traverse (root : CanonicalHuffmanNode) (codes : list (list bool * Z))
    (path : list bool) (symbol rest : Z) (st : bitReader) :
  decodes root codes -> In (path, symbol) codes ->
  soundReader st -> withinHolder st ->
  pending st = bitsValue path + rest * 2 ^ len path ->
  len path <= pendingBits st ->
  exists st',
    TraverseHuffmanTree root st = ROk symbol st' /\
    soundReader st' /\ withinHolder st' /\
    pending st' = rest /\ pendingBits st' = pendingBits st - len path.
Proof.
  intros (Hroot & Hleaves & Honly & Hfree) Hin Hst Hh Hp Hav.
  apply TraverseHuffmanTree_spec; try assumption; [|apply Hleaves; exact Hin].
  intros q rest' Hq Hrest'.
  destruct (isLeafNode (nodeAt root q)) eqn:E; [|reflexivity]. exfalso.
  assert (Hsame : q = path).
  { apply Hfree; [apply Honly; exact E | | exists rest'; exact Hq].
    apply in_map_iff. exists (path, symbol). split; [reflexivity | exact Hin]. }
  subst q. rewrite <- (app_nil_r path) in Hq at 1. apply app_inv_head in Hq. congruence.
Qed.

(** What the table of the encoder and the tree of the decoder have in
    common, in the form in which the block is read back. *)
Lemma table_is_decoded (symbolFreq : list Z) (lengthLimit : Z)
    (table : list (option CanonicalHuffmanCode)) (trimmed : list Z) (zeros : nat) :
  BuildCanonicalHuffmanEncoder symbolFreq lengthLimit = Ok table ->
  lengthLimit <= 15 ->
  map lengthOf table = trimmed ++ replicate zeros 0 ->
  exists root,
    BuildCanonicalHuffmanDecoder trimmed = Ok root /\
    len table = len symbolFreq /\
    Forall (fun l => 0 <= l <= 15) (map lengthOf table) /\
    forall (s : Z) (h : CanonicalHuffmanCode) (st : bitReader) (rest : Z),
      idx table s = Ok (Some h) ->
      1 <= Huffman.Length h <= 15 /\ 0 <= Code h < 2 ^ Huffman.Length h /\
      (soundReader st -> withinHolder st ->
       pending st = Reverse (Code h) (Huffman.Length h) + rest * 2 ^ Huffman.Length h ->
       Huffman.Length h <= pendingBits st ->
       exists st',
         TraverseHuffmanTree root st = ROk s st' /\
         soundReader st' /\ withinHolder st' /\
         pending st' = rest /\ pendingBits st' = pendingBits st - Huffman.Length h).
Proof.
  intros Henc Hlimit Htrim.
  destruct (encoder_lengths symbolFreq lengthLimit table Henc Hlimit)
    as (lengths & counts & Hlen & Hrange & Hkraft & Hcounts & Hassign).
  destruct (canonical_codes_agree lengths lengths 0 ltac:(cbn [replicate]; rewrite app_nil_r; reflexivity)
              Hrange Hkraft) as (counts' & table' & root0 & codes0 & Hcounts' & Hassign' & _ & _ & Hmap & _).
  rewrite Hcounts in Hcounts'. injection Hcounts' as <-.
  rewrite Hlen, Hassign in Hassign'. injection Hassign' as <-.
  rewrite Hmap in Htrim.
  destruct (canonical_codes_agree lengths trimmed zeros Htrim Hrange Hkraft)
    as (counts' & table' & root & codes & Hcounts' & Hassign' & Hdec & Hdecodes & _ & Hcodes).
  rewrite Hcounts in Hcounts'. injection Hcounts' as <-.
  rewrite Hlen, Hassign in Hassign'. injection Hassign' as <-.
  exists root. split; [exact Hdec|]. split.
  { rewrite <- Hlen. apply (f_equal (@length Z)) in Hmap. rewrite length_map in Hmap.
    unfold len. rewrite Hmap. reflexivity. }
  split; [rewrite Hmap; exact Hrange|].
  intros s h st rest Hs. destruct (Hcodes s h Hs) as (Hin & Hl & Hc).
  split; [exact Hl|]. split; [exact Hc|]. intros Hst Hh Hp Hav.
  destruct (Reverse_spec (Code h) (Huffman.Length h) ltac:(lia)) as [Hr _].
  assert (Hlenp : len (codePath h) = Huffman.Length h).
  { unfold codePath, len. rewrite pathBits_length. lia. }
  destruct (decodes_traverse root codes (codePath h) s rest st Hdecodes Hin Hst Hh)
    as (st' & Hrun & Hrest).
  - rewrite Hlenp. unfold codePath. rewrite bitsValue_pathBits, Z2Nat.id by lia.
    rewrite Z.mod_small by exact Hr. exact Hp.
  - rewrite Hlenp. exact Hav.
  - rewrite Hlenp in Hrest. exists st'. split; [exact Hrun | exact Hrest].
Qed.

(** X19. The tree of the decoder reads the codes of the encoder: for a
    table of codes that [BuildCanonicalHuffmanEncoder] returns under a
    limit of at most 15, [BuildCanonicalHuffmanDecoder], given the code
    lengths of the table with or without their trailing zeros, returns a
    tree; every code of the table has between 1 and 15 bits, and a reader
    whose next bits are the reversed code of a symbol, as the encoder
    writes it, gets the symbol from [TraverseHuffmanTree] and is left with
    the bits after the code. *)
Theorem decoder_tree_reads_the_codes (symbolFreq : list Z) (lengthLimit : Z)
    (table : list (option CanonicalHuffmanCode)) (trimmed : list Z) (zeros : nat) :
  BuildCanonicalHuffmanEncoder symbolFreq lengthLimit = Ok table ->
  lengthLimit <= 15 ->
  map lengthOf table = trimmed ++ replicate zeros 0 ->
  exists root,
    BuildCanonicalHuffmanDecoder trimmed = Ok root /\
    forall (s : Z) (h : CanonicalHuffmanCode) (st : bitReader) (rest : Z),
      idx table s = Ok (Some h) ->
      soundReader st -> withinHolder st ->
      pending st = Reverse (Code h) (Huffman.Length h) + rest * 2 ^ Huffman.Length h ->
      Huffman.Length h <= pendingBits st ->
      1 <= Huffman.Length h <= 15 /\
      exists st',
        TraverseHuffmanTree root st = ROk s st' /\
        pending st' = rest /\ pendingBits st' = pendingBits st - Huffman.Length h.
Proof.
  intros Henc Hlimit Htrim.
  destruct (table_is_decoded symbolFreq lengthLimit table trimmed zeros Henc Hlimit Htrim)
    as (root & Hdec & _ & _ & Hread).
  exists root. split; [exact Hdec|]. intros s h st rest Hs Hst Hh Hp Hav.
  destruct (Hread s h st rest Hs) as (Hl & _ & Hgo). split; [exact Hl|].
  destruct (Hgo Hst Hh Hp Hav) as (st' & Hrun & _ & _ & Hp' & Hb'). exists st'. auto.
Qed.

End CanonicalDecoding.

Lemma decoder_tree_reads_the_codes_witness :
  exists table root st',
    Huffman.BuildCanonicalHuffmanEncoder [5; 0; 2; 1; 1] 15 = Ok table /\
    Huffman.BuildCanonicalHuffmanDecoder (map lengthOf table) = Ok root /\
    Go.idx table 2 = Ok (Some {| Huffman.Code := 2; Huffman.Length := 2 |}) /\
    Flate.TraverseHuffmanTree root (readerOf [1]) = ROk 2 st'.
Proof.
  eassert (Henc : Huffman.BuildCanonicalHuffmanEncoder [5; 0; 2; 1; 1] 15 = Ok _)
    by (vm_compute; reflexivity).
  destruct (decoder_tree_reads_the_codes [5; 0; 2; 1; 1] 15 _ _ 0 Henc ltac:(lia)
              ltac:(symmetry; apply app_nil_r)) as (root & Hdec & Hread).
  destruct (Hread 2 {| Huffman.Code := 2; Huffman.Length := 2 |} (readerOf [1]) 0 eq_refl)
    as (_ & st' & Hrun & _).
  - unfold soundReader, readerOf. cbn. repeat split; try lia. repeat constructor; unfold byte; lia.
  - unfold withinHolder, readerOf. cbn. lia.
  - reflexivity.
  - vm_compute. discriminate.
  - eexists _, root, st'. split; [exact Henc|]. split; [exact Hdec|]. split; [reflexivity | exact Hrun].
Defined.
